(** * BarikWrapped: the table extractor, the fare and journey engine and the
      metro path finder, embedded from the TypeScript sources.

    Conventions of the embedding.
    - A JavaScript string is a Rocq [string] holding its UTF-8 bytes.  White
      space, digits and case mapping are those of ASCII; every other byte is
      left as it is.  Unicode normalisation (NFD) belongs to the runtime and is
      a field of [Runtime].
    - A JavaScript number that holds money or a coordinate is a binary64
      [float] with the IEEE operations of the kernel.  Counters, trip limits,
      minutes and epoch milliseconds are integers in the program and are [Z].
    - A [Map] looked up by key is a [gmap]; an array is a [list]; an array
      that the program sorts in place lives in a store ([Store]). *)

From Stdlib Require Import Floats ZArith Lia List Ascii String Sorted.
From stdpp Require Import gmap strings list pretty.

Local Open Scope Z_scope.

Set Warnings "-inexact-float,-clear-no-such-hyp".

(** ** Text primitives of the runtime (ASCII level) *)

Module Text.

Definition code (c : ascii) : nat := nat_of_ascii c.

(** [\s] *)
Definition isSpace (c : ascii) : bool := Ascii.is_space c.

(** [[\u0000-\u001F]] *)
Definition isControl (c : ascii) : bool := (code c <? 32)%nat.

(** [\d] *)
Definition isDigit (c : ascii) : bool := (48 <=? code c)%nat && (code c <=? 57)%nat.

Definition isUpperAscii (c : ascii) : bool := (65 <=? code c)%nat && (code c <=? 90)%nat.

Definition isLowerAscii (c : ascii) : bool := (97 <=? code c)%nat && (code c <=? 122)%nat.

Definition lowerChar (c : ascii) : ascii :=
  if isUpperAscii c then ascii_of_nat (code c + 32) else c.

Definition upperChar (c : ascii) : ascii :=
  if isLowerAscii c then ascii_of_nat (code c - 32) else c.

Fixpoint smap (f : ascii -> ascii) (s : string) : string :=
  match s with
  | EmptyString => EmptyString
  | String c s' => String (f c) (smap f s')
  end.

Fixpoint sfilter (p : ascii -> bool) (s : string) : string :=
  match s with
  | EmptyString => EmptyString
  | String c s' => if p c then String c (sfilter p s') else sfilter p s'
  end.

Fixpoint sexists (p : ascii -> bool) (s : string) : bool :=
  match s with
  | EmptyString => false
  | String c s' => p c || sexists p s'
  end.

Definition toLowerCase : string -> string := smap lowerChar.

Definition toUpperCase : string -> string := smap upperChar.

(** A string is falsy exactly when it is empty. *)
Definition truthy (s : string) : bool :=
  match s with EmptyString => false | String _ _ => true end.

(** [s.includes(sub)] *)
Fixpoint includes (s sub : string) : bool :=
  String.prefix sub s ||
  match s with
  | EmptyString => false
  | String _ s' => includes s' sub
  end.

Fixpoint trimStart (s : string) : string :=
  match s with
  | EmptyString => EmptyString
  | String c s' => if isSpace c then trimStart s' else s
  end.

Definition trimEnd (s : string) : string := String.rev (trimStart (String.rev s)).

Definition trim (s : string) : string := trimEnd (trimStart s).

(** [s.replace(/\s+/g, rep)]: [inRun] tells that the previous character was
    white space, so that a run is replaced once. *)
Fixpoint replaceSpaceRuns (rep : string) (inRun : bool) (s : string) : string :=
  match s with
  | EmptyString => EmptyString
  | String c s' =>
      if isSpace c
      then (if inRun then replaceSpaceRuns rep true s'
            else rep +:+ replaceSpaceRuns rep true s')
      else String c (replaceSpaceRuns rep false s')
  end.

(** [s.replace(/\s+/g, ' ')] *)
Definition collapseSpaces (s : string) : string := replaceSpaceRuns " " false s.

(** [s.replace(/\s+/g, '')] *)
Definition removeSpaces (s : string) : string := replaceSpaceRuns "" false s.

(** [s.replace(a, b)] with a string pattern: the first occurrence only. *)
Fixpoint replaceFirstChar (a b : ascii) (s : string) : string :=
  match s with
  | EmptyString => EmptyString
  | String c s' => if Ascii.eqb c a then String b s' else String c (replaceFirstChar a b s')
  end.

(** [s.split(sep)] for a one-character separator; [cur] is the piece being
    read, reversed. *)
Fixpoint split_go (sep : ascii) (cur : string) (s : string) : list string :=
  match s with
  | EmptyString => [String.rev cur]
  | String c s' =>
      if Ascii.eqb c sep then String.rev cur :: split_go sep EmptyString s'
      else split_go sep (String c cur) s'
  end.

Definition split (sep : ascii) (s : string) : list string := split_go sep EmptyString s.

(** [parts.join(sep)] *)
Fixpoint join (sep : string) (parts : list string) : string :=
  match parts with
  | [] => EmptyString
  | [p] => p
  | p :: rest => p +:+ sep +:+ join sep rest
  end.

(** The value of a string of decimal digits. *)
Fixpoint digitsValue (acc : Z) (s : string) : Z :=
  match s with
  | EmptyString => acc
  | String c s' => digitsValue (10 * acc + (Z.of_nat (code c) - 48)) s'
  end.

(** Does [s] start with the shape [pat], where ["d"] stands for a digit and
    any other character for itself? *)
Fixpoint matchesShape (pat s : string) : bool :=
  match pat, s with
  | EmptyString, _ => true
  | String _ _, EmptyString => false
  | String p pat', String c s' =>
      (if Ascii.eqb p "d" then isDigit c else Ascii.eqb p c) && matchesShape pat' s'
  end.

(** The first substring of [s] of the shape [pat], as [s.match(re)[0]] gives
    it for a regex made of digit classes and literal characters. *)
Fixpoint firstMatch (pat s : string) : option string :=
  if matchesShape pat s then Some (String.substring 0 (String.length pat) s)
  else match s with
       | EmptyString => None
       | String _ s' => firstMatch pat s'
       end.

(** UTF-8: a continuation byte is [10xxxxxx]. *)
Definition isContinuation (c : ascii) : bool := (128 <=? code c)%nat && (code c <? 192)%nat.

(** The characters of a string, each with its continuation bytes. *)
Fixpoint chars_go (cur : string) (s : string) : list string :=
  match s with
  | EmptyString => match cur with EmptyString => [] | _ => [String.rev cur] end
  | String c s' =>
      if isContinuation c then chars_go (String c cur) s'
      else match cur with
           | EmptyString => chars_go (String c EmptyString) s'
           | _ => String.rev cur :: chars_go (String c EmptyString) s'
           end
  end.

Definition chars (s : string) : list string := chars_go EmptyString s.

End Text.

(** ** What the embedding takes from the JavaScript runtime *)

(** The number parser of the runtime, which the table extractor calls. *)
Class NumberRuntime := {
  (** [Number.parseFloat(s)] *)
  Number_parseFloat : string -> float
}.

(** Unicode normalisation and [Date], which the history code calls.  Instants
    are epoch milliseconds; the embedding covers records whose dates the
    runtime can read (a valid [Date]). *)
Class Runtime := {
  (** [s.normalize('NFD')] *)
  String_normalize_NFD : string -> string;
  (** [new Date(s).getTime()] *)
  Date_parse : string -> Z;
  (** [new Date(Number(year), Number(month) - 1, Number(day), Number(hour),
      Number(minute), Number(second)).getTime()] on the six texts, in the
      order year, month, day, hour, minute, second *)
  Date_fromParts : string -> string -> string -> string -> string -> string -> Z;
  (** [d.setDate(d.getDate() + days)] on a copy of [d] *)
  Date_addDays : Z -> Z -> Z
}.

(** ** Numbers *)

Module Num.

(** [Number.isFinite] *)
Definition isFinite (f : float) : bool :=
  match PrimFloat.classify f with
  | NaN | PInf | NInf => false
  | _ => true
  end.

(** [Number.isNaN] *)
Definition isNaN (f : float) : bool :=
  match PrimFloat.classify f with NaN => true | _ => false end.

Definition isNegZero (f : float) : bool :=
  match PrimFloat.classify f with NZero => true | _ => false end.

(** [Math.max(a, b)] *)
Definition Math_max (a b : float) : float :=
  if isNaN a || isNaN b then nan
  else if PrimFloat.ltb a b then b
  else if PrimFloat.ltb b a then a
  else if isNegZero a then b else a.

(** [Math.abs] *)
Definition Math_abs (a : float) : float := PrimFloat.abs a.

End Num.

(** ** The record of one row (pdfParser.ts, [TransactionRecord]).
    [cont] and [page] are whole numbers. *)

Record TransactionRecord := {
  cont : Z;
  fecha : string;
  hora : string;
  timestamp : string;
  transaccion : string;
  operador : string;
  equipo : string;
  importe : float;
  saldo : float;
  titulo : string;
  perfil : string;
  etapa : string;
  page : Z
}.

(** A stable insertion sort: [Array.prototype.sort] is stable, and a stable
    sort by a key is determined by its input.  [le a b] reads "the comparator
    does not put [a] after [b]". *)
Fixpoint insertSorted {A} (le : A -> A -> bool) (a : A) (l : list A) : list A :=
  match l with
  | [] => [a]
  | b :: l' => if le a b then a :: b :: l' else b :: insertSorted le a l'
  end.

Definition stableSort {A} (le : A -> A -> bool) (l : list A) : list A :=
  foldr (insertSorted le) [] l.

(** ** The table extractor (src/app/lib/pdfParser.ts) *)

Module PdfParser.

Inductive ColumnKey :=
  Kcont | Kfecha | Ktransaccion | Koperador | Kequipo
| Kimporte | Ksaldo | Ktitulo | Kperfil | Ketapa.

#[global] Instance ColumnKey_eq_dec : EqDecision ColumnKey.
Proof. solve_decision. Defined.

Record ColumnBoundary := { key : ColumnKey; start : float; end_ : float }.

Record LineSegment := { x : float; text : string }.

Record Line := { y : float; segments : list LineSegment }.

(** [COLUMN_DEFS]: each label is a case-insensitive regex on an ASCII word,
    kept as the upper-case word; see [labelTest]. *)
Definition COLUMN_DEFS : list (ColumnKey * string) :=
  [ (Kcont, "CONT"); (Kfecha, "FECHA"); (Ktransaccion, "TRANSACC");
    (Koperador, "OPERAD"); (Kequipo, "EQUIPO"); (Kimporte, "IMPORTE");
    (Ksaldo, "SALDO"); (Ktitulo, "TITULO"); (Kperfil, "PERFIL"); (Ketapa, "ETAPA") ]%string.

(** [/LABEL/i.test(s)] *)
Definition labelTest (label s : string) : bool := Text.includes (Text.toUpperCase s) label.

(** A row under construction, [Record<ColumnKey, string>]; a missing key of a
    partial row reads as the empty string, which the program tests the same
    way. *)
Definition Row : Type := ColumnKey -> string.

Definition rowSet (k : ColumnKey) (v : string) (r : Row) : Row :=
  fun k' => if decide (k' = k) then v else r k'.

Definition NUMBER_ONLY (s : string) : bool :=
  Text.truthy s && negb (Text.sexists (fun c => negb (Text.isDigit c)) s).

Definition DATE_SECTION : string := "dd/dd/dddd".

Definition TIME_SECTION : string := "dd:dd:dd".

Definition lineToString (line : Line) : string :=
  Text.trim (Text.join " " (map text (segments line))).

Definition isHeaderLine (line : Line) : bool :=
  let text := lineToString line in
  Text.includes text "CONT" && Text.includes text "FECHA" && Text.includes text "IMPORTE".

(** [lines.findIndex(p)]: the index of the first match, or -1. *)
Fixpoint findIndexFrom {A} (p : A -> bool) (i : Z) (l : list A) : Z :=
  match l with
  | [] => -1
  | a :: l' => if p a then i else findIndexFrom p (i + 1) l'
  end.

Definition findHeaderIndex (lines : list Line) : Z := findIndexFrom isHeaderLine 0 lines.

Definition endsWith (s suffix : string) : bool := String.prefix (String.rev suffix) (String.rev s).

Definition isContinuationHeader (line : Line) : bool :=
  let text := lineToString line in
  Text.truthy text && endsWith (Text.toUpperCase text) "TRANS" && negb (Text.sexists Text.isDigit text).

(** The [while] loop of [skipHeaderBlock], started at position [idx] with
    the lines from there on. *)
Fixpoint skipWhile (idx : nat) (rest : list Line) : nat :=
  match rest with
  | [] => idx
  | line :: rest' => if isContinuationHeader line then skipWhile (S idx) rest' else idx
  end.

Definition skipHeaderBlock (lines : list Line) (headerIndex : nat) : nat :=
  skipWhile (S headerIndex) (drop (S headerIndex) lines).

(** The comparator [(a, b) => a.x - b.x] puts [a] after [b] when the
    difference is positive. *)
Definition xNotAfter (a b : LineSegment) : bool := negb (PrimFloat.ltb 0 (x a - x b))%float.

Definition DEFAULT_WIDTH : float := 60%float.

Definition COLUMN_GAP : float := 8%float.

(** The first loop of [deriveColumnBoundaries]: the start of each column,
    with [previous] the start of the column before (none for the first). *)
Fixpoint columnStarts (ordered : list LineSegment) (previous : option float)
    (defs : list (ColumnKey * string)) : list (ColumnKey * float) :=
  match defs with
  | [] => []
  | (k, label) :: defs' =>
      let fallbackStart := match previous with Some p => (p + DEFAULT_WIDTH)%float | None => 0%float end in
      let start := match List.find (fun seg => labelTest label (text seg)) ordered with
                   | Some seg => x seg
                   | None => fallbackStart
                   end in
      (k, start) :: columnStarts ordered (Some start) defs'
  end.

(** The second loop: the end of each column from the start of the next one;
    the last column is unbounded. *)
Fixpoint columnEnds (starts : list (ColumnKey * float)) : list ColumnBoundary :=
  match starts with
  | [] => []
  | (k, s) :: rest =>
      let e := match rest with
               | [] => infinity
               | (_, next) :: _ =>
                   let tentativeEnd := (next - COLUMN_GAP)%float in
                   if PrimFloat.ltb s tentativeEnd then tentativeEnd else (s + DEFAULT_WIDTH)%float
               end in
      {| key := k; start := s; end_ := e |} :: columnEnds rest
  end.

Definition deriveColumnBoundaries (headerLine : Line) : list ColumnBoundary :=
  let orderedSegments := stableSort xNotAfter (segments headerLine) in
  columnEnds (columnStarts orderedSegments None COLUMN_DEFS).

(** [boundaries.find((boundary, index) => ...)]: the first column whose
    range holds [x]; the first column has no lower bound. *)
Fixpoint findColumn (index : nat) (boundaries : list ColumnBoundary) (sx : float) : option ColumnBoundary :=
  match boundaries with
  | [] => None
  | b :: rest =>
      let lower := match index with O => neg_infinity | S _ => start b end in
      if PrimFloat.leb lower sx && PrimFloat.ltb sx (end_ b) then Some b
      else findColumn (S index) rest sx
  end.

Definition emptyRow : Row := fun _ => EmptyString.

(** One step of the [forEach] of [bucketize].  With no boundary at all there
    is no last column to fall back to and the bucket is left as it is (the
    program always passes ten). *)
Definition bucketizeSegment (boundaries : list ColumnBoundary) (result : Row) (segment : LineSegment) : Row :=
  let normalized := Text.trim (text segment) in
  if negb (Text.truthy normalized) then result
  else
    let column := match findColumn 0 boundaries (x segment) with
                  | Some b => Some b
                  | None => last boundaries
                  end in
    match column with
    | None => result
    | Some c =>
        rowSet (key c)
          (if Text.truthy (result (key c)) then result (key c) +:+ " " +:+ normalized else normalized)
          result
    end.

Definition bucketize (line : Line) (boundaries : list ColumnBoundary) : Row :=
  fold_left (bucketizeSegment boundaries) (segments line) emptyRow.

Definition UPPERCASE_JOIN_EXCEPTIONS : list string :=
  ["DE"; "DEL"; "LA"; "LAS"; "LOS"; "LO"; "EL"; "DA"; "DO"; "Y"; "AL"]%string.

Definition isAsciiChar (p : ascii -> bool) (c : string) : bool :=
  match c with String a EmptyString => p a | _ => false end.

Definition oneOf (l : list string) (c : string) : bool := bool_decide (c ∈ l).

(** [/[a-záéíóúüñ]/.test(char)] *)
Definition isLower (c : string) : bool :=
  isAsciiChar Text.isLowerAscii c || oneOf ["á"; "é"; "í"; "ó"; "ú"; "ü"; "ñ"]%string c.

(** [/[A-ZÁÉÍÓÚÜÑ]/.test(char)] *)
Definition isUpper (c : string) : bool :=
  isAsciiChar Text.isUpperAscii c || oneOf ["Á"; "É"; "Í"; "Ó"; "Ú"; "Ü"; "Ñ"]%string c.

(** [/[A-Za-zÁÉÍÓÚÜÑáéíóúüñ]/.test(char)] *)
Definition isLetter (c : string) : bool := isLower c || isUpper c.

(** [/[A-ZÁÉÍÓÚÑ]/] on one character *)
Definition isTokenUpper (c : string) : bool :=
  isAsciiChar Text.isUpperAscii c || oneOf ["Á"; "É"; "Í"; "Ó"; "Ú"; "Ñ"]%string c.

(** [s.split(/\s+/)[0]] of a string that does not start with white space. *)
Fixpoint firstWord (s : string) : string :=
  match s with
  | EmptyString => EmptyString
  | String c s' => if Text.isSpace c then EmptyString else String c (firstWord s')
  end.

Definition shouldSkipSpace (base addition : string) : bool :=
  if negb (Text.truthy base) || negb (Text.truthy addition) then false
  else
    let lastChar := default EmptyString (last (Text.chars base)) in
    let firstChar := default EmptyString (head (Text.chars addition)) in
    if isLetter lastChar && String.eqb firstChar "/" then true
    else if String.eqb lastChar "/" && isLetter firstChar then true
    else if isLetter lastChar && String.eqb firstChar "-" then true
    else if isLetter lastChar && isLower firstChar then true
    else if isLetter lastChar && isUpper firstChar then
      let firstToken := firstWord (Text.trimStart addition) in
      let normalizedToken := filter (fun c => isTokenUpper c = true) (Text.chars firstToken) in
      match normalizedToken with
      | [] => false
      | _ => (length normalizedToken <=? 2)%nat
             && negb (bool_decide (Text.join "" normalizedToken ∈ UPPERCASE_JOIN_EXCEPTIONS))
      end
    else false.

Definition appendSegment (base addition : string) : string :=
  if negb (Text.truthy base) then addition
  else if negb (Text.truthy addition) then base
  else
    let trimmedBase := Text.trimEnd base in
    let trimmedAddition := Text.trimStart addition in
    let glue := if shouldSkipSpace trimmedBase trimmedAddition then EmptyString else " "%string in
    Text.trim (Text.collapseSpaces (trimmedBase +:+ glue +:+ trimmedAddition)).

Definition initRow : Row := emptyRow.

Definition hasData (row : Row) : bool :=
  existsb (fun def => Text.truthy (Text.trim (row (fst def)))) COLUMN_DEFS.

(** The inner [for] of [collectRawRows]: each column of the bucket is added
    to the same column of the current row. *)
Definition mergeBucket (current bucket : Row) : Row :=
  fun k =>
    let addition := bucket k in
    if negb (Text.truthy addition) then current k
    else if Text.truthy (current k) then appendSegment (current k) addition
    else addition.

(** One turn of the outer [for] of [collectRawRows] on the pair of the rows
    pushed so far and the current row. *)
Definition collectLine (boundaries : list ColumnBoundary)
    (st : list Row * option Row) (line : Line) : list Row * option Row :=
  let '(rows, current) := st in
  let bucket := bucketize line boundaries in
  let contText := Text.sfilter Text.isDigit (bucket Kcont) in
  let startsNewRow := (0 <? String.length contText)%nat && NUMBER_ONLY contText in
  let '(rows, current) :=
    if startsNewRow then
      (match current with
       | Some c => if hasData c then rows ++ [c] else rows
       | None => rows
       end, Some initRow)
    else (rows, current) in
  match current with
  | None => (rows, None)
  | Some c => (rows, Some (mergeBucket c bucket))
  end.

Definition collectRawRows (lines : list Line) (boundaries : list ColumnBoundary) : list Row :=
  let '(rows, current) := fold_left (collectLine boundaries) lines ([], None) in
  match current with
  | Some c => if hasData c then rows ++ [c] else rows
  | None => rows
  end.

Definition clean (value : string) : string := Text.trim (Text.collapseSpaces value).

Definition toIso (date time : string) : string :=
  match Text.split "/" date with
  | day :: month :: year :: _ =>
      if Text.truthy day && Text.truthy month && Text.truthy year
      then year +:+ "-" +:+ month +:+ "-" +:+ day +:+ "T" +:+ time
      else EmptyString
  | _ => EmptyString
  end.

Section WithRuntime.
Context `{NumberRuntime}.

(** The text that [parseAmount] hands to the number parser: white space and
    dots removed, then the first comma made a dot. *)
Definition amountText (value : string) : string :=
  Text.replaceFirstChar "," "." (Text.sfilter (fun c => negb (Ascii.eqb c ".")) (Text.removeSpaces value)).

(** [parseAmount(value)]; [None] is [undefined]. *)
Definition parseAmount (value : option string) : float :=
  match value with
  | None => 0%float
  | Some v =>
      if negb (Text.truthy v) then 0%float
      else
        let normalized := amountText v in
        let numeric := Number_parseFloat normalized in
        if Num.isFinite numeric then numeric else 0%float
  end.

(** [parseInt(digits, 10)] on a string of digits only: not a number exactly
    when the string is empty. *)
Definition parseIntDigits (digits : string) : option Z :=
  if Text.truthy digits then Some (Text.digitsValue 0 digits) else None.

Definition normalizeRow (row : Row) (page : Z) : option TransactionRecord :=
  match parseIntDigits (Text.sfilter Text.isDigit (row Kcont)) with
  | None => None
  | Some cont =>
      let fechaRaw := Text.trim (Text.collapseSpaces (row Kfecha)) in
      let fecha := default EmptyString (Text.firstMatch DATE_SECTION fechaRaw) in
      let hora := default EmptyString (Text.firstMatch TIME_SECTION fechaRaw) in
      let timestamp := if Text.truthy fecha && Text.truthy hora then toIso fecha hora else EmptyString in
      Some {| cont := cont;
              fecha := fecha;
              hora := hora;
              timestamp := timestamp;
              transaccion := clean (row Ktransaccion);
              operador := clean (row Koperador);
              equipo := clean (row Kequipo);
              importe := parseAmount (Some (row Kimporte));
              saldo := parseAmount (Some (row Ksaldo));
              titulo := clean (row Ktitulo);
              perfil := clean (row Kperfil);
              etapa := clean (row Ketapa);
              page := page |}
  end.

(** The body of the page loop of [extractTransactionsFromData], from the
    lines that [groupLines] made of the page: the records the page adds. *)
Definition extractPage (lines : list Line) (pageNumber : Z) : list TransactionRecord :=
  let headerIndex := findHeaderIndex lines in
  if headerIndex =? -1 then []
  else
    match lines !! Z.to_nat headerIndex with
    | None => []
    | Some headerLine =>
        let columnBoundaries := deriveColumnBoundaries headerLine in
        let bodyLines := drop (skipHeaderBlock lines (Z.to_nat headerIndex)) lines in
        let rawRows := collectRawRows bodyLines columnBoundaries in
        omap (fun row => normalizeRow row pageNumber) rawRows
    end.

(** The page loop, pages numbered from 1. *)
Fixpoint extractPages (pageNumber : Z) (pages : list (list Line)) : list TransactionRecord :=
  match pages with
  | [] => []
  | lines :: rest => extractPage lines pageNumber ++ extractPages (pageNumber + 1) rest
  end.

Definition extractTransactions (pages : list (list Line)) : Z * list TransactionRecord :=
  (Z.of_nat (length pages), extractPages 1 pages).

End WithRuntime.

(** Both amounts of a record are finite numbers. *)
Definition finiteAmounts (r : TransactionRecord) : Prop :=
  Num.isFinite (importe r) = true /\ Num.isFinite (saldo r) = true.

End PdfParser.

(** ** Tariffs, fare insights, journeys and statistics (history utilities,
    with the types of historyTypes.ts) *)

Module History.

Record RawTariffRate := { raw_type : string; raw_zones : Z; raw_price : float }.

(** An entry of tarifas.json; [limitTravel] is [None] when the entry has no
    finite number there. *)
Record RawTariffDefinition := {
  raw_code : string;
  raw_name : string;
  raw_category : string;
  raw_limitTravel : option Z;
  raw_rates : list (list RawTariffRate)
}.

Record TariffRate := { rate_type : string; rate_zones : Z; rate_price : float }.

Inductive TariffKind := wallet | limited_pass | unlimited_pass.

#[global] Instance TariffKind_eq_dec : EqDecision TariffKind.
Proof. solve_decision. Defined.

Record TariffDefinition := {
  code : string;
  name : string;
  normalizedName : string;
  category : string;
  limitTravel : Z;
  kind : TariffKind;
  rates : list TariffRate
}.

(** The kind of a pass: [Exclude<TariffKind, 'wallet'>]. *)
Inductive PassKind := pass_limited | pass_unlimited.

Record PassSnapshot := {
  snap_tariff : TariffDefinition;
  snap_kind : PassKind;
  snap_totalTrips : option Z;
  snap_remainingTrips : option Z;
  snap_purchaseAmount : float;
  snap_purchaseDate : Z;
  snap_validDays : option Z;
  snap_expiresAt : option Z;
  snap_purchaseRecordKey : string
}.

Record PassState := {
  tariff : TariffDefinition;
  pass_kind : PassKind;
  totalTrips : option Z;
  remainingTrips : option Z;
  purchaseAmount : float;
  purchaseDate : Z;
  validDays : option Z;
  expiresAt : option Z;
  purchaseRecordKey : string;
  ignoreNextEntry : bool
}.

Inductive UsageKind := wallet_recharge | title_recharge | ride.

Record LimitedContext := {
  lc_remainingTrips : option Z;
  lc_totalTrips : option Z;
  lc_pricePerTrip : option float;
  lc_savingsAmount : option float
}.

(** An absent field and a [null] one are both [None]: the program only asks
    whether the field holds a number or an object. *)
Record FareInsight := {
  usageKind : UsageKind;
  fi_tariff : TariffDefinition;
  passContext : option PassSnapshot;
  savingsAmount : option float;
  daysRemaining : option Z;
  limitedContext : option LimitedContext
}.

Inductive JourneyKind := viaje | viaje_unico | recarga | otros.

#[global] Instance JourneyKind_eq_dec : EqDecision JourneyKind.
Proof. solve_decision. Defined.

Record JourneyBlock := {
  id : string;
  jkind : JourneyKind;
  start : TransactionRecord;
  end_ : option TransactionRecord;
  durationMinutes : option Z;
  records : list TransactionRecord
}.

Record JourneyStats := {
  rides : Z;
  walletRecharges : Z;
  titlePurchases : Z;
  savings : float;
  spent : float;
  travelMinutes : Z
}.

Definition DAY_MS : Z := 24 * 60 * 60 * 1000.

Definition FALLBACK_TARIFF_LABEL : string := "Creditrans barik".

Definition RECARGA_TOKEN : string := "recarga".

Definition TITULO_TOKEN : string := "titulo".

Definition COMPRA_TOKEN : string := "compra".

Definition TEN_HOURS_MS : Z := 10 * 60 * 60 * 1000.

(** The static tariff table, [files/tarifas.json]. *)
Class TariffData := { tariffsJson : list RawTariffDefinition }.

(** A whole number as a binary64 (exact below 2^53). *)
Definition floatOfZ (z : Z) : float :=
  if z <? 0 then (- PrimFloat.of_uint63 (Uint63.of_Z (- z)))%float
  else PrimFloat.of_uint63 (Uint63.of_Z z).

(** The combining marks U+0300 to U+036F in UTF-8: [CC 80] to [CD AF]. *)
Definition isCombiningPair (a b : ascii) : bool :=
  let ca := Text.code a in
  let cb := Text.code b in
  ((ca =? 204)%nat && (128 <=? cb)%nat && (cb <=? 191)%nat)
  || ((ca =? 205)%nat && (128 <=? cb)%nat && (cb <=? 175)%nat).

Fixpoint stripCombining (s : string) : string :=
  match s with
  | EmptyString => EmptyString
  | String a t =>
      match t with
      | String b s' => if isCombiningPair a b then stripCombining s' else String a (stripCombining t)
      | EmptyString => String a EmptyString
      end
  end.

Definition inferTariffKind (category : string) (limitTravel : Z) : TariffKind :=
  if String.eqb category "coin_purse" then wallet
  else if 0 <? limitTravel then limited_pass
  else if String.eqb category "monthly" || String.eqb category "youthMonthly" then unlimited_pass
  else if 0 <? limitTravel then limited_pass else wallet.

(** [Number(rate.price) || 0] on a price that is a number already. *)
Definition priceOrZero (p : float) : float :=
  if Num.isNaN p || PrimFloat.eqb p 0 then 0%float else p.

Definition flattenTariffRates (rates : list (list RawTariffRate)) : list TariffRate :=
  map (fun rate => {| rate_type := raw_type rate; rate_zones := raw_zones rate;
                      rate_price := priceOrZero (raw_price rate) |})
      (concat rates).

Definition isSingleValidation (record : TransactionRecord) : bool :=
  let text := Text.toLowerCase (transaccion record) in
  Text.includes text "unica".

Definition isEntryValidation (record : TransactionRecord) : bool :=
  let text := Text.toLowerCase (transaccion record) in
  Text.includes text "entrada" && negb (Text.includes text "recarga").

Definition isExitValidation (record : TransactionRecord) : bool :=
  let text := Text.toLowerCase (transaccion record) in
  Text.includes text "salida" && negb (Text.includes text "recarga").

Definition isRecargaTransaction (record : TransactionRecord) : bool :=
  let text := Text.toLowerCase (transaccion record) in
  if negb (Text.truthy text) then false
  else if Text.includes text RECARGA_TOKEN then true
  else Text.includes text COMPRA_TOKEN && Text.includes text TITULO_TOKEN.

Definition isWalletRechargeRecord (record : TransactionRecord) : bool :=
  let text := Text.toLowerCase (transaccion record) in
  Text.includes text RECARGA_TOKEN && Text.includes text "monedero".

Definition isTitleRechargeRecord (record : TransactionRecord) : bool :=
  let text := Text.toLowerCase (transaccion record) in
  if negb (Text.truthy text) then false
  else
    let isExplicitTitleRecharge := Text.includes text RECARGA_TOKEN && negb (Text.includes text "monedero") in
    let isCompraTitulo := Text.includes text COMPRA_TOKEN && Text.includes text TITULO_TOKEN in
    isExplicitTitleRecharge || isCompraTitulo.

Definition getRecordKey (record : TransactionRecord) : string :=
  pretty (page record) +:+ "-" +:+ pretty (cont record) +:+ "-" +:+ timestamp record.

Definition snapshotPassState (state : PassState) : PassSnapshot :=
  {| snap_tariff := tariff state;
     snap_kind := pass_kind state;
     snap_totalTrips := totalTrips state;
     snap_remainingTrips := remainingTrips state;
     snap_purchaseAmount := purchaseAmount state;
     snap_purchaseDate := purchaseDate state;
     snap_validDays := validDays state;
     snap_expiresAt := expiresAt state;
     snap_purchaseRecordKey := purchaseRecordKey state |}.

Definition getPassValidityDays (t : TariffDefinition) : option Z :=
  if decide (kind t = wallet) then None
  else if String.eqb (category t) "monthly" || String.eqb (category t) "youthMonthly" then Some 30
  else if decide (kind t = limited_pass) then Some 30
  else if decide (kind t = unlimited_pass) then Some 30
  else None.

Section WithRuntime.
Context `{Runtime}.

Definition getRecordDate (record : TransactionRecord) : Z :=
  if Text.truthy (timestamp record) then Date_parse (timestamp record)
  else
    let dmy := Text.split "/" (fecha record) in
    let hms := Text.split ":" (hora record) in
    Date_fromParts (nth 2 dmy "1970"%string) (nth 1 dmy "01"%string) (nth 0 dmy "01"%string)
                   (nth 0 hms "00"%string) (nth 1 hms "00"%string) (nth 2 hms "00"%string).

Definition addDays (date days : Z) : Z := Date_addDays date days.

Definition normalizeTitleLabel (value : option string) : string :=
  let base := match value with
              | Some v => if Text.truthy v && (0 <? String.length (Text.trim v))%nat then v
                          else FALLBACK_TARIFF_LABEL
              | None => FALLBACK_TARIFF_LABEL
              end in
  Text.toUpperCase
    (Text.trim
       (Text.collapseSpaces
          (stripCombining
             (Text.sfilter (fun c => negb (Text.isControl c)) (String_normalize_NFD base))))).

Definition DEFAULT_TARIFF_NAME : string := normalizeTitleLabel (Some FALLBACK_TARIFF_LABEL).

(** The literal that stands in when the table is empty. *)
Definition FALLBACK_LITERAL : TariffDefinition :=
  {| code := "DEFAULT";
     name := FALLBACK_TARIFF_LABEL;
     normalizedName := DEFAULT_TARIFF_NAME;
     category := "coin_purse";
     limitTravel := 0;
     kind := wallet;
     rates := [] |}.

(** [TARIFF_ALIASES]: the program reads a plain object by key; the key is an
    upper-cased text, so no inherited property name (they all have small
    letters) is ever read. *)
Definition TARIFF_ALIASES : gmap string string :=
  <["—"%string := DEFAULT_TARIFF_NAME]>
    (<["CREDITRANS BARIK"%string := DEFAULT_TARIFF_NAME]>
       (<["CREDITRANS"%string := DEFAULT_TARIFF_NAME]>
          (<["MONEDERO CREDITRANS"%string := DEFAULT_TARIFF_NAME]> ∅))).

Section WithTariffs.
Context `{TariffData}.

Definition TARIFFS : list TariffDefinition :=
  map (fun raw =>
         let limitTravel := default 0 (raw_limitTravel raw) in
         {| code := raw_code raw;
            name := raw_name raw;
            normalizedName := normalizeTitleLabel (Some (raw_name raw));
            category := raw_category raw;
            limitTravel := limitTravel;
            kind := inferTariffKind (raw_category raw) limitTravel;
            rates := flattenTariffRates (raw_rates raw) |})
      tariffsJson.

(** [new Map(entries)]: a later entry with the same key replaces an earlier
    one. *)
Definition TARIFF_BY_NAME : gmap string TariffDefinition :=
  fold_left (fun m t => <[normalizedName t := t]> m) TARIFFS ∅.

Definition FALLBACK_TARIFF : TariffDefinition := default FALLBACK_LITERAL (head TARIFFS).

Definition DEFAULT_TARIFF : TariffDefinition :=
  default FALLBACK_TARIFF (TARIFF_BY_NAME !! DEFAULT_TARIFF_NAME).

Definition getTariffInfoFromTitle (title : option string) : TariffDefinition :=
  let normalized := normalizeTitleLabel title in
  let alias := TARIFF_ALIASES !! normalized in
  let lookup := default normalized alias in
  default DEFAULT_TARIFF (TARIFF_BY_NAME !! lookup).

(** The two maps that [buildFareInsights] fills while it walks the records.
    A pass state is an object held by [passStates]; changing it changes the
    entry of the map. *)
Record FareState := {
  insights : gmap string FareInsight;
  passStates : gmap string PassState
}.

Definition emptyFareState : FareState := {| insights := ∅; passStates := ∅ |}.

(** [state.ignoreNextEntry = b] *)
Definition setIgnoreNextEntry (b : bool) (p : PassState) : PassState :=
  {| tariff := tariff p; pass_kind := pass_kind p; totalTrips := totalTrips p;
     remainingTrips := remainingTrips p; purchaseAmount := purchaseAmount p;
     purchaseDate := purchaseDate p; validDays := validDays p;
     expiresAt := expiresAt p; purchaseRecordKey := purchaseRecordKey p;
     ignoreNextEntry := b |}.

(** [state.remainingTrips = r] *)
Definition setRemainingTrips (r : option Z) (p : PassState) : PassState :=
  {| tariff := tariff p; pass_kind := pass_kind p; totalTrips := totalTrips p;
     remainingTrips := r; purchaseAmount := purchaseAmount p;
     purchaseDate := purchaseDate p; validDays := validDays p;
     expiresAt := expiresAt p; purchaseRecordKey := purchaseRecordKey p;
     ignoreNextEntry := ignoreNextEntry p |}.

(** The body of the [forEach] of [buildFareInsights]. *)
Definition fareStep (st : FareState) (record : TransactionRecord) : FareState :=
  let recordKey := getRecordKey record in
  let tariff := getTariffInfoFromTitle (Some (titulo record)) in
  let recordDate := getRecordDate record in
  if isWalletRechargeRecord record then
    {| insights := <[recordKey := {| usageKind := wallet_recharge; fi_tariff := tariff;
                                     passContext := None; savingsAmount := None;
                                     daysRemaining := None; limitedContext := None |}]> (insights st);
       passStates := passStates st |}
  else if isTitleRechargeRecord record && negb (bool_decide (kind tariff = wallet)) then
    let totalTrips :=
      if decide (kind tariff = limited_pass)
      then (if limitTravel tariff =? 0 then None else Some (limitTravel tariff))
      else None in
    let validDays := getPassValidityDays tariff in
    let purchaseDate := recordDate in
    let passState :=
      {| tariff := tariff;
         pass_kind := if decide (kind tariff = unlimited_pass) then pass_unlimited else pass_limited;
         totalTrips := totalTrips;
         remainingTrips := totalTrips;
         purchaseAmount := importe record;
         purchaseDate := purchaseDate;
         validDays := validDays;
         expiresAt := match validDays with
                      | Some d => if d =? 0 then None else Some (addDays purchaseDate d)
                      | None => None
                      end;
         purchaseRecordKey := recordKey;
         ignoreNextEntry := bool_decide (kind tariff = limited_pass) |} in
    {| insights := <[recordKey := {| usageKind := title_recharge; fi_tariff := tariff;
                                     passContext := Some (snapshotPassState passState);
                                     savingsAmount := None; daysRemaining := None;
                                     limitedContext := None |}]> (insights st);
       passStates := <[normalizedName tariff := passState]> (passStates st) |}
  else
    let currentPass := passStates st !! normalizedName tariff in
    let isEntry := isEntryValidation record || isSingleValidation record in
    let rideAmount := Some (Num.Math_abs (importe record)) in
    let rideSavings := match currentPass with
                       | Some _ => if isEntry then rideAmount else None
                       | None => None
                       end in
    let daysRemaining :=
      match currentPass with
      | Some p => match expiresAt p with
                  | Some e => Some (Z.max ((e - recordDate + DAY_MS - 1) / DAY_MS) 0)
                  | None => None
                  end
      | None => None
      end in
    (* the pass after this record, and the limited context of the insight *)
    let '(currentPass, limitedContext) :=
      match currentPass with
      | Some p =>
          match pass_kind p with
          | pass_limited =>
              let total := totalTrips p in
              let pricePerTrip :=
                match total with
                | Some t => if 0 <? t then Some (purchaseAmount p / floatOfZ t)%float else None
                | None => None
                end in
              let p' :=
                match remainingTrips p with
                | Some r =>
                    if isEntry then
                      if ignoreNextEntry p then setIgnoreNextEntry false p
                      else setRemainingTrips (Some (Z.max (r - 1) 0)) p
                    else p
                | None => p
                end in
              (Some p', Some {| lc_remainingTrips := remainingTrips p';
                                lc_totalTrips := total;
                                lc_pricePerTrip := pricePerTrip;
                                lc_savingsAmount := rideSavings |})
          | pass_unlimited => (Some p, None)
          end
      | None => (None, None)
      end in
    {| insights := <[recordKey := {| usageKind := ride; fi_tariff := tariff;
                                     passContext := snapshotPassState <$> currentPass;
                                     savingsAmount := rideSavings;
                                     daysRemaining := daysRemaining;
                                     limitedContext := limitedContext |}]> (insights st);
       passStates := match currentPass with
                     | Some p => <[normalizedName tariff := p]> (passStates st)
                     | None => passStates st
                     end |}.

(** The comparator [(a, b) => getRecordDate(a).getTime() - getRecordDate(b).getTime()]. *)
Definition dateNotAfter (a b : TransactionRecord) : bool := getRecordDate a - getRecordDate b <=? 0.

Definition sortByDate (records : list TransactionRecord) : list TransactionRecord :=
  stableSort dateNotAfter records.

Definition buildFareInsights (records : list TransactionRecord) : gmap string FareInsight :=
  let sorted := sortByDate records in
  insights (fold_left fareStep sorted emptyFareState).

(** The journey pushed by [pushSingle(record, reason)]. *)
Definition singleJourney (record : TransactionRecord) (reason : string) : JourneyBlock :=
  {| id := "single-" +:+ reason +:+ "-" +:+ pretty (page record) +:+ "-" +:+ pretty (cont record)
           +:+ "-" +:+ timestamp record;
     jkind := viaje_unico;
     start := record;
     end_ := None;
     durationMinutes := None;
     records := [record] |}.

(** A journey of one record of the kind [k], with the id prefix [prefix]. *)
Definition loneJourney (prefix : string) (k : JourneyKind) (record : TransactionRecord) : JourneyBlock :=
  {| id := prefix +:+ "-" +:+ pretty (page record) +:+ "-" +:+ pretty (cont record)
           +:+ "-" +:+ timestamp record;
     jkind := k;
     start := record;
     end_ := None;
     durationMinutes := None;
     records := [record] |}.

(** [Math.max(1, Math.round(diff / 60000))] for a whole [diff >= 0]:
    [Math.round] takes a half up. *)
Definition roundMinutes (diff : Z) : Z := Z.max 1 ((diff + 30000) / 60000).

Definition pairedJourney (pendingEntry record : TransactionRecord) (diff : Z) : JourneyBlock :=
  {| id := "viaje-" +:+ pretty (page pendingEntry) +:+ "-" +:+ pretty (page record)
           +:+ "-" +:+ timestamp record;
     jkind := viaje;
     start := pendingEntry;
     end_ := Some record;
     durationMinutes := Some (roundMinutes diff);
     records := [pendingEntry; record] |}.

(** The state of the loop of [buildJourneyBlocks]: the journeys pushed so
    far, in the order of the pushes, and the pending entry. *)
Record JourneyState := {
  journeys : list JourneyBlock;
  pendingEntry : option TransactionRecord
}.

(** The body of the [forEach] of [buildJourneyBlocks]. *)
Definition journeyStep (st : JourneyState) (record : TransactionRecord) : JourneyState :=
  if isRecargaTransaction record then
    {| journeys := journeys st ++ [loneJourney "recarga" recarga record];
       pendingEntry := pendingEntry st |}
  else if isSingleValidation record then
    {| journeys := journeys st ++ [singleJourney record "unica"];
       pendingEntry := pendingEntry st |}
  else if isEntryValidation record then
    {| journeys := match pendingEntry st with
                   | Some pending => journeys st ++ [singleJourney pending "entrada-sin-salida"]
                   | None => journeys st
                   end;
       pendingEntry := Some record |}
  else if isExitValidation record then
    match pendingEntry st with
    | Some pending =>
        let startDate := getRecordDate pending in
        let endDate := getRecordDate record in
        let diff := endDate - startDate in
        {| journeys :=
             if diff <? 0 then
               journeys st ++ [singleJourney pending "entrada-desorden"; singleJourney record "salida-desorden"]
             else if TEN_HOURS_MS <? diff then
               journeys st ++ [singleJourney pending "entrada-10h"; singleJourney record "salida-10h"]
             else journeys st ++ [pairedJourney pending record diff];
           pendingEntry := None |}
    | None =>
        {| journeys := journeys st ++ [singleJourney record "salida-suelta"];
           pendingEntry := None |}
    end
  else
    {| journeys := journeys st ++ [loneJourney "otros" otros record];
       pendingEntry := pendingEntry st |}.

(** The flush after the loop. *)
Definition flushPending (st : JourneyState) : list JourneyBlock :=
  match pendingEntry st with
  | Some pending => journeys st ++ [singleJourney pending "entrada-final"]
  | None => journeys st
  end.

(** The loop and the flush, on records already in order. *)
Definition pairJourneys (sorted : list TransactionRecord) : list JourneyBlock :=
  flushPending (fold_left journeyStep sorted {| journeys := []; pendingEntry := None |}).

(** The comparator [(a, b) => getRecordDate(b.start).getTime() - getRecordDate(a.start).getTime()]. *)
Definition startNotBefore (a b : JourneyBlock) : bool :=
  getRecordDate (start b) - getRecordDate (start a) <=? 0.

Definition buildJourneyBlocks (records : list TransactionRecord) : list JourneyBlock :=
  let sorted := sortByDate records in
  stableSort startNotBefore (pairJourneys sorted).

Definition EMPTY_JOURNEY_STATS : JourneyStats :=
  {| rides := 0; walletRecharges := 0; titlePurchases := 0;
     savings := 0%float; spent := 0%float; travelMinutes := 0 |}.

Definition createJourneyStats : JourneyStats := EMPTY_JOURNEY_STATS.

(** The inner [forEach] of [computeJourneyStats], on the pair of the savings
    and the spend so far. *)
Definition statsRecord (fareInsights : gmap string FareInsight)
    (acc : float * float) (record : TransactionRecord) : float * float :=
  let '(sav, spe) := acc in
  let insight := fareInsights !! getRecordKey record in
  let sav' := match insight ≫= savingsAmount with
              | Some a => (sav + Num.Math_max 0 a)%float
              | None => sav
              end in
  let spe' := match insight ≫= passContext with
              | Some _ => spe
              | None => (spe + Num.Math_abs (importe record))%float
              end in
  (sav', spe').

(** The body of the outer [forEach] of [computeJourneyStats]. *)
Definition statsStep (fareInsights : gmap string FareInsight)
    (stats : JourneyStats) (journey : JourneyBlock) : JourneyStats :=
  match jkind journey with
  | recarga =>
      let fare := fareInsights !! getRecordKey (start journey) in
      let isTitle := match fare with
                     | Some f => match usageKind f with title_recharge => true | _ => false end
                     | None => false
                     end in
      {| rides := rides stats;
         walletRecharges := if isTitle then walletRecharges stats else walletRecharges stats + 1;
         titlePurchases := if isTitle then titlePurchases stats + 1 else titlePurchases stats;
         savings := savings stats;
         spent := (spent stats + Num.Math_abs (importe (start journey)))%float;
         travelMinutes := travelMinutes stats |}
  | viaje | viaje_unico =>
      let '(sav, spe) := fold_left (statsRecord fareInsights) (records journey) (savings stats, spent stats) in
      {| rides := rides stats + 1;
         walletRecharges := walletRecharges stats;
         titlePurchases := titlePurchases stats;
         savings := sav;
         spent := spe;
         travelMinutes :=
           match jkind journey, durationMinutes journey with
           | viaje, Some d => travelMinutes stats + d
           | _, _ => travelMinutes stats
           end |}
  | otros => stats
  end.

Definition computeJourneyStats (journeyList : list JourneyBlock)
    (fareInsights : gmap string FareInsight) : JourneyStats :=
  fold_left (statsStep fareInsights) journeyList createJourneyStats.

Definition addJourneyStats (acc stats : JourneyStats) : JourneyStats :=
  {| rides := rides acc + rides stats;
     walletRecharges := walletRecharges acc + walletRecharges stats;
     titlePurchases := titlePurchases acc + titlePurchases stats;
     savings := (savings acc + savings stats)%float;
     spent := (spent acc + spent stats)%float;
     travelMinutes := travelMinutes acc + travelMinutes stats |}.

Definition sumJourneyStats (statsList : list JourneyStats) : JourneyStats :=
  fold_left addJourneyStats statsList createJourneyStats.

(** What one journey adds to the four whole-number fields of the statistics:
    rides, wallet recharges, title purchases, travel minutes. *)
Definition countsOf (fareInsights : gmap string FareInsight) (journey : JourneyBlock) : Z * Z * Z * Z :=
  match jkind journey with
  | recarga =>
      match fareInsights !! getRecordKey (start journey) with
      | Some {| usageKind := title_recharge |} => (0, 0, 1, 0)
      | _ => (0, 1, 0, 0)
      end
  | viaje => (1, 0, 0, default 0 (durationMinutes journey))
  | viaje_unico => (1, 0, 0, 0)
  | otros => (0, 0, 0, 0)
  end.

(** The amounts that one journey adds to the spend, in the order of the
    additions. *)
Definition spendAmounts (fareInsights : gmap string FareInsight) (journey : JourneyBlock) : list float :=
  match jkind journey with
  | recarga => [Num.Math_abs (importe (start journey))]
  | viaje | viaje_unico =>
      omap (fun record => match fareInsights !! getRecordKey record ≫= passContext with
                          | Some _ => None
                          | None => Some (Num.Math_abs (importe record))
                          end) (records journey)
  | otros => []
  end.

(** The amounts that one journey adds to the savings, in the order of the
    additions. *)
Definition savingAmounts (fareInsights : gmap string FareInsight) (journey : JourneyBlock) : list float :=
  match jkind journey with
  | viaje | viaje_unico =>
      omap (fun record => Num.Math_max 0 <$> (fareInsights !! getRecordKey record ≫= savingsAmount))
           (records journey)
  | _ => []
  end.

(** The four whole-number fields of the statistics. *)
Definition wholeFields (stats : JourneyStats) : Z * Z * Z * Z :=
  (rides stats, walletRecharges stats, titlePurchases stats, travelMinutes stats).

Definition addCounts (a b : Z * Z * Z * Z) : Z * Z * Z * Z :=
  let '(a1, a2, a3, a4) := a in
  let '(b1, b2, b3, b4) := b in
  (a1 + b1, a2 + b2, a3 + b3, a4 + b4).

Definition totalCounts (fareInsights : gmap string FareInsight) (js : list JourneyBlock) : Z * Z * Z * Z :=
  foldr (fun journey acc => addCounts (countsOf fareInsights journey) acc) (0, 0, 0, 0) js.

(** The sum of a list of numbers taken from the left, starting at [acc]. *)
Definition addAll (acc : float) (amounts : list float) : float :=
  fold_left PrimFloat.add amounts acc.

(** The purchase of a pass with a number of trips: a title purchase whose
    tariff is a limited pass. *)
Definition limitedPurchase (record : TransactionRecord) : Prop :=
  isWalletRechargeRecord record = false
  /\ isTitleRechargeRecord record = true
  /\ kind (getTariffInfoFromTitle (Some (titulo record))) = limited_pass.

(** A ride that counts against the pass of the tariff named [n]: an entry or
    a single validation, not a recharge, whose title resolves to [n]. *)
Definition qualifyingRide (n : string) (record : TransactionRecord) : Prop :=
  isWalletRechargeRecord record = false
  /\ isTitleRechargeRecord record = false
  /\ isEntryValidation record || isSingleValidation record = true
  /\ normalizedName (getTariffInfoFromTitle (Some (titulo record))) = n.

(** The trips left that an insight shows. *)
Definition insightRemaining (ins : FareInsight) : option Z :=
  limitedContext ins ≫= lc_remainingTrips.

(** The records of a list of journeys, journey after journey. *)
Definition journeyRecords (js : list JourneyBlock) : list TransactionRecord :=
  concat (map records js).

(** The records that the loop holds: those of the journeys pushed and the
    pending entry. *)
Definition heldRecords (st : JourneyState) : list TransactionRecord :=
  journeyRecords (journeys st) ++ option_list (pendingEntry st).

(** What a journey of the kind [viaje] is: an entry and an exit no more than
    ten hours later, with the rounded minutes between them. *)
Definition wellPaired (j : JourneyBlock) : Prop :=
  jkind j = viaje ->
  exists exit, end_ j = Some exit
    /\ records j = [start j; exit]
    /\ 0 <= getRecordDate exit - getRecordDate (start j) <= TEN_HOURS_MS
    /\ durationMinutes j = Some (roundMinutes (getRecordDate exit - getRecordDate (start j))).

End WithTariffs.

End WithRuntime.

End History.

(** ** The station graph and the path finder
    (src/app/components/metro/MetroDiagram.tsx) *)

Module Metro.

Inductive LineCode := L1 | L2 | L3 | T.

#[global] Instance LineCode_eq_dec : EqDecision LineCode.
Proof. solve_decision. Defined.

Definition lineName (l : LineCode) : string :=
  match l with L1 => "L1" | L2 => "L2" | L3 => "L3" | T => "T" end.

(** A station of lineasmetro.json; the layout coordinates that the diagram
    adds play no part in the graph and are left out. *)
Record RawStation := {
  zone : string;
  code : string;
  name : string;
  weight : Z;
  line : LineCode;
  connection : bool
}.

(** [RAW_STATIONS]: the stations of [files/lineasmetro.json], in the order
    of the file. *)
Class MetroData := { RAW_STATIONS : list RawStation }.

(** [visited.add(x)] on an array kept as a set in insertion order. *)
Definition setAdd (x : string) (l : list string) : list string :=
  if bool_decide (x ∈ l) then l else l ++ [x].

(** The graph under construction: [STATION_GRAPH] with the neighbours of a
    station in the order they were added. *)
Abbreviation Graph := (gmap string (list string)).

(** The queue of the search: stations, each with the path that reached it. *)
Abbreviation Queue := (list (string * list string)).

(** [g.get(c)] read as a list: none when [c] is no key of [g]. *)
Definition neighborsOf (g : Graph) (c : string) : list string := default [] (g !! c).

(** [pathTo g a p c]: [p] lists the stations of a route of [g] from [a] to
    [c], each next to the one before. *)
Inductive pathTo (g : Graph) (a : string) : list string -> string -> Prop :=
| pathTo_start : pathTo g a [a] a
| pathTo_step p c d : pathTo g a p c -> d ∈ neighborsOf g c -> pathTo g a (p ++ [d]) d.

(** A route with the fewest stations. *)
Definition shortest (g : Graph) (a : string) (p : list string) (c : string) : Prop :=
  pathTo g a p c /\ forall q, pathTo g a q c -> (length p <= length q)%nat.

(** The graph holds stations of [K] only, and each edge both ways. *)
Definition undirected (g : Graph) (K : gset string) : Prop :=
  forall a ns, g !! a = Some ns ->
    a ∈ K /\ forall b, b ∈ ns -> b ∈ K /\ a ∈ neighborsOf g b.

(** What holds of the visited set and the queue at each turn of the search
    from [from] to [to]: the start is visited; a queued station is visited
    and queued with a shortest route; the queue holds routes of some length
    and then routes one longer; and a visited station that is queued no more
    is not [to] and has all its neighbours visited. *)
Definition searchInv (g : Graph) (from to : string) (visited : gset string) (queue : Queue) : Prop :=
  from ∈ visited
  /\ (forall c p, (c, p) ∈ queue -> c ∈ visited /\ shortest g from p c)
  /\ (exists (L : nat) (A B : Queue), queue = A ++ B
        /\ Forall (fun cp => length cp.2 = L) A /\ Forall (fun cp => length cp.2 = S L) B)
  /\ (forall c, c ∈ visited -> c ∉ map fst queue ->
        c <> to /\ forall d, d ∈ neighborsOf g c -> d ∈ visited).

Section WithData.
Context `{Runtime} `{MetroData}.

(** [normalize(value)]: lower case, NFD, then only [a-z0-9] kept. *)
Definition normalize (value : string) : string :=
  Text.sfilter (fun c => Text.isLowerAscii c || Text.isDigit c)
    (String_normalize_NFD (Text.toLowerCase value)).

(** The [reduce] that drops repeated rows: a station is kept when its key
    [line-code] was not seen before. *)
Fixpoint dedupe (seen : gset string) (stations : list RawStation) : list RawStation :=
  match stations with
  | [] => []
  | station :: rest =>
      let key := lineName (line station) +:+ "-" +:+ code station in
      if bool_decide (key ∈ seen) then dedupe seen rest
      else station :: dedupe ({[key]} ∪ seen) rest
  end.

Definition weightNotAfter (a b : RawStation) : bool := weight a - weight b <=? 0.

(** [GROUPED_BY_LINE[l]] after the sort by weight. *)
Definition GROUPED_BY_LINE (l : LineCode) : list RawStation :=
  stableSort weightNotAfter
    (List.filter (fun station => bool_decide (line station = l)) (dedupe ∅ RAW_STATIONS)).

Definition L1_STATIONS : list RawStation := GROUPED_BY_LINE L1.

Definition L2_STATIONS : list RawStation := GROUPED_BY_LINE L2.

Definition L3_STATIONS : list RawStation := GROUPED_BY_LINE L3.

Definition TRUNK_STATIONS : list RawStation := GROUPED_BY_LINE T.

Definition TRUNK_START : option RawStation := head TRUNK_STATIONS.

Definition TRUNK_END : option RawStation := last TRUNK_STATIONS.

Definition isCascoName (station : RawStation) : bool :=
  let normalized := normalize (name station) in
  Text.includes normalized "casco" || Text.includes normalized "zazpikaleak".

(** [L3_PIVOT_SAFE_INDEX] *)
Definition L3_PIVOT_SAFE_INDEX : nat :=
  match list_find (fun station => isCascoName station = true) L3_STATIONS with
  | Some (i, _) => i
  | None => (length L3_STATIONS / 2)%nat
  end.

(** [L3_PIVOT_POINT]: the station at the pivot index, or else the first. *)
Definition L3_PIVOT_POINT : option RawStation :=
  match L3_STATIONS !! L3_PIVOT_SAFE_INDEX with
  | Some station => Some station
  | None => head L3_STATIONS
  end.

Definition LINE2_BEFORE_TRUNK : list RawStation :=
  List.filter (fun station => match TRUNK_START with
                              | Some t => weight station <? weight t
                              | None => true
                              end) L2_STATIONS.

Definition LINE2_AFTER_TRUNK : list RawStation :=
  List.filter (fun station => match TRUNK_END with
                              | Some t => weight t <? weight station
                              | None => true
                              end) L2_STATIONS.

Definition ALL_POSITIONED_STATIONS : list RawStation :=
  L1_STATIONS ++ TRUNK_STATIONS ++ LINE2_BEFORE_TRUNK ++ LINE2_AFTER_TRUNK ++ L3_STATIONS.

(** The keys of [STATION_BY_CODE]. *)
Definition STATION_BY_CODE : gset string := list_to_set (map code ALL_POSITIONED_STATIONS).

Definition known (c : string) : bool := bool_decide (c ∈ STATION_BY_CODE).

Definition ensureGraphNode (c : string) (g : Graph) : Graph :=
  if negb (Text.truthy c) || negb (known c) then g
  else match g !! c with
       | Some _ => g
       | None => <[c := []]> g
       end.

(** [STATION_GRAPH.get(a)!.add(b)] *)
Definition addNeighbor (a b : string) (g : Graph) : Graph :=
  match g !! a with
  | Some ns => <[a := setAdd b ns]> g
  | None => g
  end.

(** [addEdge(from, to)]; an argument that is [undefined] is [None]. *)
Definition addEdge (g : Graph) (edge : option string * option string) : Graph :=
  match edge with
  | (Some from, Some to) =>
      if negb (Text.truthy from) || negb (Text.truthy to) || String.eqb from to then g
      else if negb (known from) || negb (known to) then g
      else addNeighbor to from (addNeighbor from to (ensureGraphNode to (ensureGraphNode from g)))
  | _ => g
  end.

(** The calls of [addEdge] that [connectSequence(stations)] makes. *)
Fixpoint sequenceEdges (stations : list RawStation) : list (option string * option string) :=
  match stations with
  | current :: (next :: _) as rest => (Some (code current), Some (code next)) :: sequenceEdges rest
  | _ => []
  end.

Definition TRUNK_CASCO : option RawStation :=
  List.find (fun station => String.eqb (code station) "CAV") TRUNK_STATIONS.

Definition L3_PIVOT_CODE : option string := code <$> L3_PIVOT_POINT.

(** Every call of [addEdge], in the order of the module. *)
Definition EDGE_CALLS : list (option string * option string) :=
  sequenceEdges L1_STATIONS
  ++ sequenceEdges TRUNK_STATIONS
  ++ sequenceEdges LINE2_BEFORE_TRUNK
  ++ sequenceEdges LINE2_AFTER_TRUNK
  ++ sequenceEdges L3_STATIONS
  ++ [ (code <$> last L1_STATIONS, code <$> head TRUNK_STATIONS);
       (code <$> last LINE2_BEFORE_TRUNK, code <$> head TRUNK_STATIONS);
       (code <$> last TRUNK_STATIONS, code <$> head LINE2_AFTER_TRUNK) ]
  ++ match TRUNK_CASCO, L3_PIVOT_CODE with
     | Some casco, Some pivot => if Text.truthy pivot then [(Some pivot, Some (code casco))] else []
     | _, _ => []
     end.

Definition STATION_GRAPH : Graph := fold_left addEdge EDGE_CALLS ∅.

(** The search state is the visited set and the queue. *)

(** One call of the callback of [neighbors.forEach]. *)
Definition visitNeighbor (path : list string) (st : gset string * Queue) (neighbor : string)
    : gset string * Queue :=
  let '(visited, queue) := st in
  if bool_decide (neighbor ∈ visited) then (visited, queue)
  else ({[neighbor]} ∪ visited, queue ++ [(neighbor, path ++ [neighbor])]).

(** The [while] loop on a graph [g]; [None] only when [fuel] turns of the
    loop were not enough. *)
Fixpoint searchLoop (g : Graph) (from to : string) (fuel : nat)
    (visited : gset string) (queue : Queue) : option (list string) :=
  match fuel with
  | O => None
  | S fuel' =>
      match queue with
      | [] => Some [from]
      | (current, path) :: rest =>
          if String.eqb current to then Some path
          else
            let neighbors := neighborsOf g current in
            let '(visited', queue') := fold_left (visitNeighbor path) neighbors (visited, rest) in
            searchLoop g from to fuel' visited' queue'
      end
  end.

(** Turns that always suffice: a station enters the queue at most once. *)
Definition searchFuel : nat := S (size STATION_BY_CODE).

Definition findMetroPath (from to : string) : list string :=
  if negb (Text.truthy from) || negb (Text.truthy to) then []
  else if negb (known from) || negb (known to) then (if known from then [from] else [])
  else if String.eqb from to then [from]
  else default [] (searchLoop STATION_GRAPH from to searchFuel {[from]} [(from, [from])]).

End WithData.

End Metro.

(** ** Arrays in the store: what a call can do to the caller's array *)

Module Store.

Abbreviation loc := positive.

(** The arrays of records that exist, by reference. *)
Abbreviation store := (gmap loc (list TransactionRecord)).

(** A computation on the store; [None] is a read of a reference that does
    not exist. *)
Definition M (A : Type) : Type := store -> option (A * store).

Definition ret {A} (a : A) : M A := fun s => Some (a, s).

Definition bind {A B} (m : M A) (k : A -> M B) : M B :=
  fun s => match m s with
           | Some (a, s') => k a s'
           | None => None
           end.

Notation "'let*' x ':=' m 'in' k" := (bind m (fun x => k))
  (at level 10, x name, m at level 100, k at level 200).

(** [[...records]]: a new array with the same elements. *)
Definition spread (l : loc) : M loc :=
  fun s => match s !! l with
           | Some rs => let l' := fresh (dom s) in Some (l', <[l' := rs]> s)
           | None => None
           end.

(** [array.sort(cmp)]: sorts the array in place and returns it. *)
Definition sortInPlace (le : TransactionRecord -> TransactionRecord -> bool) (l : loc) : M loc :=
  fun s => match s !! l with
           | Some rs => Some (l, <[l := stableSort le rs]> s)
           | None => None
           end.

(** The elements of an array now. *)
Definition read (l : loc) : M (list TransactionRecord) :=
  fun s => match s !! l with
           | Some rs => Some (rs, s)
           | None => None
           end.

Section WithRuntime.
Context `{Runtime} `{History.TariffData}.

(** [buildFareInsights] on a reference: the copy, its sort, and the walk. *)
Definition buildFareInsights (records : loc) : M (gmap string History.FareInsight) :=
  let* copy := spread records in
  let* sorted := sortInPlace History.dateNotAfter copy in
  let* rs := read sorted in
  ret (History.insights (fold_left History.fareStep rs History.emptyFareState)).

(** [buildJourneyBlocks] on a reference; the array of journeys is new and the
    last sort is on it. *)
Definition buildJourneyBlocks (records : loc) : M (list History.JourneyBlock) :=
  let* copy := spread records in
  let* sorted := sortInPlace History.dateNotAfter copy in
  let* rs := read sorted in
  ret (stableSort History.startNotBefore (History.pairJourneys rs)).

End WithRuntime.

End Store.

(** ** What the builders of journeys and fare insights keep
    (src/unnamed/part_004) *)

Module Shape.
Import History.

(** The shape of a journey as [buildJourneyBlocks] pushes it, kind by kind:
    which fields are set, which records it holds, and how the cascade of the
    loop classified them. *)
Definition journeyShape (j : JourneyBlock) : Prop :=
  match jkind j with
  | viaje =>
      exists exit d,
        end_ j = Some exit /\ records j = [start j; exit]
        /\ durationMinutes j = Some d /\ 1 <= d <= 600
        /\ isRecargaTransaction (start j) = false /\ isSingleValidation (start j) = false
        /\ isEntryValidation (start j) = true
        /\ isRecargaTransaction exit = false /\ isSingleValidation exit = false
        /\ isEntryValidation exit = false /\ isExitValidation exit = true
  | viaje_unico =>
      end_ j = None /\ durationMinutes j = None /\ records j = [start j]
      /\ isRecargaTransaction (start j) = false
      /\ isSingleValidation (start j) || isEntryValidation (start j) || isExitValidation (start j) = true
  | recarga =>
      end_ j = None /\ durationMinutes j = None /\ records j = [start j]
      /\ isRecargaTransaction (start j) = true
  | otros =>
      end_ j = None /\ durationMinutes j = None /\ records j = [start j]
      /\ isRecargaTransaction (start j) = false /\ isSingleValidation (start j) = false
      /\ isEntryValidation (start j) = false /\ isExitValidation (start j) = false
  end.

(** The state of the loop of [buildJourneyBlocks]: the journeys pushed have
    their shape, and the pending entry went down the cascade as an entry. *)
Definition loopShape (st : JourneyState) : Prop :=
  Forall journeyShape (journeys st)
  /\ forall p, pendingEntry st = Some p ->
       isRecargaTransaction p = false /\ isSingleValidation p = false /\ isEntryValidation p = true.

(** The number of journeys of a kind. *)
Definition countKind (k : JourneyKind) (js : list JourneyBlock) : Z :=
  Z.of_nat (length (List.filter (fun j => bool_decide (jkind j = k)) js)).

(** The number of records that satisfy a test. *)
Definition countRecords (p : TransactionRecord -> bool) (rs : list TransactionRecord) : Z :=
  Z.of_nat (length (List.filter p rs)).

(** The trips of a pass as the fare engine keeps them: a pass with a number
    of trips has a positive total and between none and all of them left; a
    pass without one has neither. *)
Definition tripsInRange (k : PassKind) (total remaining : option Z) : Prop :=
  match k with
  | pass_limited => exists t r, total = Some t /\ remaining = Some r /\ 0 < t /\ 0 <= r <= t
  | pass_unlimited => total = None /\ remaining = None
  end.

Definition passInRange (p : PassState) : Prop :=
  tripsInRange (pass_kind p) (totalTrips p) (remainingTrips p).

Definition snapshotInRange (p : PassSnapshot) : Prop :=
  tripsInRange (snap_kind p) (snap_totalTrips p) (snap_remainingTrips p).

(** What every fare insight satisfies. *)
Definition insightInRange (ins : FareInsight) : Prop :=
  (forall snap, passContext ins = Some snap -> snapshotInRange snap)
  /\ (forall lc, limitedContext ins = Some lc ->
        exists snap, passContext ins = Some snap /\ snap_kind snap = pass_limited
          /\ lc_totalTrips lc = snap_totalTrips snap
          /\ lc_remainingTrips lc = snap_remainingTrips snap)
  /\ (forall d, daysRemaining ins = Some d -> 0 <= d)
  /\ (usageKind ins = wallet_recharge -> passContext ins = None)
  /\ (usageKind ins = title_recharge -> passContext ins <> None)
  /\ (savingsAmount ins <> None -> usageKind ins = ride /\ passContext ins <> None).

(** The state of the loop of [buildFareInsights]: the insights given and
    the passes kept are in range. *)
Definition fareInRange (st : FareState) : Prop :=
  map_Forall (fun _ ins => insightInRange ins) (insights st)
  /\ map_Forall (fun _ p => passInRange p) (passStates st).

Section WithRuntime.
Context `{Runtime} `{TariffData}.

(** The branch of [buildFareInsights] that a record takes. *)
Definition usageOf (record : TransactionRecord) : UsageKind :=
  if isWalletRechargeRecord record then wallet_recharge
  else if isTitleRechargeRecord record
          && negb (bool_decide (kind (getTariffInfoFromTitle (Some (titulo record))) = wallet))
  then title_recharge
  else ride.

(** The characters of [s] are decimal digits. *)
Fixpoint digitsOnly (s : string) : bool :=
  match s with
  | EmptyString => true
  | String c s' => Text.isDigit c && digitsOnly s'
  end.

(** What a record key is made of. *)
Definition keyParts (record : TransactionRecord) : Z * Z * string :=
  (page record, cont record, timestamp record).

(** A pass lasts thirty days from its purchase. *)
Definition lastsThirtyDays (validDays expiresAt : option Z) (purchaseDate : Z) : Prop :=
  validDays = Some 30 /\ expiresAt = Some (addDays purchaseDate 30).

(** The days left that a ride under the pass shows: the whole days, rounded
    up, from the ride to the expiry, and none once it is past. *)
Definition daysLeft (snap : PassSnapshot) (record : TransactionRecord) : Z :=
  Z.max ((addDays (snap_purchaseDate snap) 30 - getRecordDate record + DAY_MS - 1) / DAY_MS) 0.

(** The state of the loop of [buildFareInsights], as to the expiry: every
    pass kept lasts thirty days, and so does the pass of every insight; a
    ride under a pass shows the days left. *)
Definition fareExpiry (seen : list TransactionRecord) (st : FareState) : Prop :=
  map_Forall (fun _ p => lastsThirtyDays (validDays p) (expiresAt p) (purchaseDate p)) (passStates st)
  /\ map_Forall
       (fun k ins =>
          forall snap, passContext ins = Some snap ->
            lastsThirtyDays (snap_validDays snap) (snap_expiresAt snap) (snap_purchaseDate snap)
            /\ (usageKind ins = ride ->
                exists record, record ∈ seen /\ getRecordKey record = k
                  /\ daysRemaining ins = Some (daysLeft snap record)))
       (insights st).

Definition isTitleUsage (u : UsageKind) : bool :=
  match u with title_recharge => true | _ => false end.

(** The recharges that the statistics count as title purchases, and the
    other ones. *)
Definition isTitlePurchase (record : TransactionRecord) : bool :=
  isRecargaTransaction record && isTitleUsage (usageOf record).

Definition isOtherRecharge (record : TransactionRecord) : bool :=
  isRecargaTransaction record && negb (isTitleUsage (usageOf record)).

End WithRuntime.

End Shape.

(** ** What the table extractor keeps (src/app/lib/pdfParser.ts) *)

Module Rows.
Import PdfParser.

Definition hasDigit (s : string) : bool := Text.sexists Text.isDigit s.

(** The test [startsNewRow] of [collectRawRows] on a line. *)
Definition startsNewRow (boundaries : list ColumnBoundary) (line : Line) : bool :=
  let bucket := bucketize line boundaries in
  let contText := Text.sfilter Text.isDigit (bucket Kcont) in
  (0 <? String.length contText)%nat && NUMBER_ONLY contText.

(** The lines of a page under the header block. *)
Definition bodyLines (lines : list Line) (headerIndex : nat) : list Line :=
  drop (skipHeaderBlock lines headerIndex) lines.

Definition ISO_SHAPE : string := "dddd-dd-ddTdd:dd:dd".

(** The whole of [s] has the shape [pat]. *)
Definition hasShape (pat s : string) : Prop :=
  String.length s = String.length pat /\ Text.matchesShape pat s = true.

(** What every record of the extractor satisfies, on a document of [pages]
    pages. *)
Definition recordShape (pages : Z) (r : TransactionRecord) : Prop :=
  1 <= page r <= pages
  /\ 0 <= cont r
  /\ (fecha r = EmptyString \/ hasShape DATE_SECTION (fecha r))
  /\ (hora r = EmptyString \/ hasShape TIME_SECTION (hora r))
  /\ (if Text.truthy (fecha r) && Text.truthy (hora r)
      then hasShape ISO_SHAPE (timestamp r)
           /\ timestamp r = String.substring 6 4 (fecha r) +:+ "-" +:+ String.substring 3 2 (fecha r)
                             +:+ "-" +:+ String.substring 0 2 (fecha r) +:+ "T" +:+ hora r
      else timestamp r = EmptyString).

(** The state of the loop of [collectRawRows]: the rows pushed and the
    current row have a digit in the first column, and there is one of them
    for each line that started a row. *)
Definition collected (started : nat) (st : list Row * option Row) : Prop :=
  Forall (fun row => hasDigit (row Kcont) = true) (fst st)
  /\ (forall c, snd st = Some c -> hasDigit (c Kcont) = true)
  /\ (length (fst st) + length (option_list (snd st)))%nat = started
  /\ (started = 0%nat -> snd st = None).

End Rows.

(** ** Station names (src/app/components/metro/metroUtils.ts) *)

Module MetroUtils.
Import Metro.

Definition isAlnum (c : ascii) : bool :=
  Text.isLowerAscii c || Text.isUpperAscii c || Text.isDigit c.

(** [map.has(k) || map.set(k, v)] *)
Definition setIfAbsent (k v : string) (m : gmap string string) : gmap string string :=
  match m !! k with
  | Some _ => m
  | None => <[k := v]> m
  end.

(** [manualAliases], in the order of the literal. *)
Definition manualAliases : list (string * string) :=
  [ ("sanmames", "SAM"); ("santimami", "SAM"); ("casco", "CAV"); ("cascoviejo", "CAV");
    ("zazpikaleak", "CAV"); ("uribarri", "ZZB"); ("indautxu", "IND"); ("sanignazio", "SIN");
    ("saninazio", "SIN"); ("gurutzeta", "GUR"); ("cruces", "GUR"); ("kabiezes", "KAB");
    ("penota", "PEN"); ("barakaldo", "BAR"); ("santurtzi", "STZ"); ("moyua", "MOY");
    ("abando", "ABA") ]%string.

Section WithData.
Context `{Runtime} `{MetroData}.

(** [METRO_STATION_LAYOUT]: the positioned stations; the coordinates play no
    part here. *)
Definition METRO_STATION_LAYOUT : list RawStation := ALL_POSITIONED_STATIONS.

(** [new Map(layout.map((station) => [station.code, station]))] *)
Definition METRO_STATION_BY_CODE : gmap string RawStation :=
  fold_left (fun m station => <[code station := station]> m) METRO_STATION_LAYOUT ∅.

Definition normalizeMetroComparable (value : option string) : string :=
  match value with
  | None => EmptyString
  | Some v =>
      if negb (Text.truthy v) then EmptyString
      else Text.toLowerCase (Text.sfilter isAlnum (String_normalize_NFD v))
  end.

Definition getMetroStationMeta (c : string) : option RawStation := METRO_STATION_BY_CODE !! c.

Definition isKnownMetroStation (c : string) : bool := bool_decide (is_Some (METRO_STATION_BY_CODE !! c)).

(** The callback of the first [forEach] of the builder of
    [METRO_STATION_CODE_BY_NAME]. *)
Definition addStationNames (m : gmap string string) (station : RawStation) : gmap string string :=
  let baseKey := normalizeMetroComparable (Some (name station)) in
  let m := if Text.truthy baseKey then setIfAbsent baseKey (code station) m else m in
  fold_left (fun m segmentKey => setIfAbsent segmentKey (code station) m)
    (List.filter Text.truthy
       (map (fun segment => normalizeMetroComparable (Some segment)) (Text.split "/" (name station))))
    m.

(** The callback of the [forEach] over the aliases. *)
Definition addAlias (m : gmap string string) (alias : string * string) : gmap string string :=
  let normalizedKey := normalizeMetroComparable (Some (fst alias)) in
  match m !! normalizedKey with
  | Some _ => m
  | None => if isKnownMetroStation (snd alias) then <[normalizedKey := snd alias]> m else m
  end.

Definition METRO_STATION_CODE_BY_NAME : gmap string string :=
  fold_left addAlias manualAliases (fold_left addStationNames METRO_STATION_LAYOUT ∅).

Definition resolveMetroStationCode (value : option string) : option string :=
  match value with
  | None => None
  | Some v =>
      if negb (Text.truthy v) then None
      else
        let normalized := normalizeMetroComparable (Some v) in
        if negb (Text.truthy normalized) then None
        else match METRO_STATION_CODE_BY_NAME !! normalized with
             | Some direct => if Text.truthy direct then Some direct else None
             | None => None
             end
  end.

Definition getMetroStationName (c : string) : string :=
  match METRO_STATION_BY_CODE !! c with
  | Some station => name station
  | None => c
  end.

(** Every value of the map of names is the code of a station. *)
Definition namesResolve (m : gmap string string) : Prop :=
  map_Forall (fun _ c => c ∈ STATION_BY_CODE) m.

End WithData.

End MetroUtils.

(** ** The station graph, once more: what the edges keep *)

Module Network.
Import Metro.

(** No station is its own neighbour, and no neighbour is listed twice. *)
Definition simple (g : Graph) : Prop :=
  forall a ns, g !! a = Some ns -> (a ∉ ns) /\ NoDup ns.

(** The call [addEdge(from, to)] joins [a] and [b]: both codes are there,
    differ and are known, and [a], [b] are the two of them in some order. *)
Definition joins `{Runtime} `{MetroData} (edge : option string * option string) (a b : string) : Prop :=
  exists from to, edge = (Some from, Some to)
    /\ Text.truthy from = true /\ Text.truthy to = true /\ from <> to
    /\ known from = true /\ known to = true
    /\ ((a = from /\ b = to) \/ (a = to /\ b = from)).

(** The five sequences that [connectSequence] joins. *)
Definition SEQUENCES `{Runtime} `{MetroData} : list (list RawStation) :=
  [L1_STATIONS; TRUNK_STATIONS; LINE2_BEFORE_TRUNK; LINE2_AFTER_TRUNK; L3_STATIONS].

End Network.

(** ** The yearly summary (src/unnamed/part_001, [computeAnnualSummary]) *)

Module Annual.

(** A day of [dailyTotals]; the list of operators of the day plays no part
    in what follows and is left out. *)
Record DailyTotal := {
  dayKey : string;
  date : Z;
  rides : Z;
  recharges : Z;
  travelMinutes : Z
}.

Record TravelDayHighlight := {
  th_date : Z;
  th_travelMinutes : Z;
  th_rides : Z
}.

Record StreakHighlight := {
  length : Z;
  startDate : Z;
  endDate : Z
}.

(** [Math.round(diff / DAY_MS)] for a whole [diff]: a half goes up. *)
Definition roundDays (diff : Z) : Z := (diff + History.DAY_MS / 2) / History.DAY_MS.

(** The callback of the [reduce] that gives [travelHighlight]. *)
Definition highlightStep (best : option TravelDayHighlight) (day : DailyTotal)
    : option TravelDayHighlight :=
  if travelMinutes day <=? 0 then best
  else
    let taken := {| th_date := date day; th_travelMinutes := travelMinutes day; th_rides := rides day |} in
    match best with
    | None => Some taken
    | Some b => if th_travelMinutes b <? travelMinutes day then Some taken else best
    end.

Definition travelHighlight (dailyTotals : list DailyTotal) : option TravelDayHighlight :=
  fold_left highlightStep dailyTotals None.

(** [if (!bestStreak || currentStreak.length > bestStreak.length) bestStreak = currentStreak] *)
Definition keepLonger (best : option StreakHighlight) (current : StreakHighlight)
    : option StreakHighlight :=
  match best with
  | None => Some current
  | Some b => if length b <? length current then Some current else best
  end.

Definition oneDay (day : DailyTotal) : StreakHighlight :=
  {| length := 1; startDate := date day; endDate := date day |}.

(** The callback of [rideDays.forEach] on the pair of [bestStreak] and
    [currentStreak]. *)
Definition streakStep (st : option StreakHighlight * option StreakHighlight) (day : DailyTotal)
    : option StreakHighlight * option StreakHighlight :=
  let '(best, current) := st in
  let '(best, current) :=
    match current with
    | None => (best, oneDay day)
    | Some c =>
        let diffDays := roundDays (date day - endDate c) in
        if diffDays =? 1 then
          (best, {| length := length c + 1; startDate := startDate c; endDate := date day |})
        else if 1 <? diffDays then (keepLonger best c, oneDay day)
        else (best, {| length := length c; startDate := startDate c; endDate := date day |})
    end in
  (keepLonger best current, Some current).

Definition rideDays (dailyTotals : list DailyTotal) : list DailyTotal :=
  List.filter (fun day => 0 <? rides day) dailyTotals.

Definition streaks (dailyTotals : list DailyTotal) : option StreakHighlight * option StreakHighlight :=
  fold_left streakStep (rideDays dailyTotals) (None, None).

Definition bestStreak (dailyTotals : list DailyTotal) : option StreakHighlight :=
  fst (streaks dailyTotals).

(** [totalRangeDays] when there is a first and a last instant. *)
Definition totalRangeDays (minTimestamp maxTimestamp : Z) : Z :=
  Z.max 1 (roundDays (maxTimestamp - minTimestamp) + 1).

(** What holds of [bestStreak] and [currentStreak] after [n] ride days. *)
Definition streakInv (n : Z) (st : option StreakHighlight * option StreakHighlight) : Prop :=
  match st with
  | (None, None) => n = 0
  | (Some b, Some c) => 1 <= length c <= length b /\ length b <= n
  | _ => False
  end.

(** The highlight that the [reduce] makes of a day. *)
Definition highlightOf (day : DailyTotal) : TravelDayHighlight :=
  {| th_date := date day; th_travelMinutes := travelMinutes day; th_rides := rides day |}.

(** What holds of the highlight after the days [seen]: none when no day had
    travel time, or else the first of the days with the most. *)
Definition highlightInv (seen : list DailyTotal) (best : option TravelDayHighlight) : Prop :=
  match best with
  | None => Forall (fun day => travelMinutes day <= 0) seen
  | Some h =>
      exists (i : nat) day, seen !! i = Some day /\ h = highlightOf day
        /\ 0 < travelMinutes day
        /\ Forall (fun other => travelMinutes other <= travelMinutes day) seen
        /\ Forall (fun other => travelMinutes other < travelMinutes day) (take i seen)
  end.

(** The days follow one another: each is a day after the one before. *)
Fixpoint consecutive (last : Z) (days : list DailyTotal) : Prop :=
  match days with
  | [] => True
  | day :: rest => roundDays (date day - last) = 1 /\ consecutive (date day) rest
  end.

Section WithData.
Context `{Runtime} `{Metro.MetroData}.

(** The route of a paired journey of the metro, from the two station texts:
    the block that fills [metroTrips]. *)
Definition metroTripPath (startEquipo : string) (endEquipo : option string)
    : option (string * string * list string) :=
  match MetroUtils.resolveMetroStationCode (Some startEquipo),
        MetroUtils.resolveMetroStationCode endEquipo with
  | Some startCode, Some endCode =>
      let pathCodes := List.filter MetroUtils.isKnownMetroStation (Metro.findMetroPath startCode endCode) in
      if (2 <=? List.length pathCodes)%nat then Some (startCode, endCode, pathCodes) else None
  | _, _ => None
  end.

End WithData.

End Annual.

(** ** Operators, brands and filters (src/unnamed/part_004) *)

Module Operators.

(** The end of a call: a value, or a [TypeError] thrown. *)
Inductive Outcome (A : Type) : Type :=
| Returns (a : A)
| Throws.

Arguments Returns {A} a.
Arguments Throws {A}.

Definition andThen {A B} (m : Outcome A) (k : A -> Outcome B) : Outcome B :=
  match m with
  | Returns a => k a
  | Throws => Throws
  end.

Notation "'try*' x ':=' m 'in' k" := (andThen m (fun x => k))
  (at level 10, x name, m at level 100, k at level 200).

Record OperatorBrand := {
  label : string;
  icon : string;
  keywords : list string
}.

#[global] Instance OperatorBrand_eq_dec : EqDecision OperatorBrand.
Proof. solve_decision. Defined.

Definition RECHARGE_FILTER_VALUE : string := "Recargas y compras de títulos".

Definition OPERATOR_BRANDS : list OperatorBrand :=
  [ {| label := "Metro Bilbao"; icon := "/operadores/mb.svg";
       keywords := ["metro bilbao"; "metrobilbao"; "mb metro"; "mb general"] |};
    {| label := "Bilbobus"; icon := "/operadores/bilbobus.svg"; keywords := ["bilbobus"] |};
    {| label := "Bizkaibus"; icon := "/operadores/bizkaibus.png";
       keywords := ["bizkaibus"; "ezkerraldea"] |};
    {| label := "Euskotren Trena"; icon := "/operadores/euskotren.svg";
       keywords := ["euskotren trena"; "euskotren"] |};
    {| label := "Euskotren Tranbia"; icon := "/operadores/euskotren_tranvia.svg";
       keywords := ["euskotran"; "euskotren tranbia"] |};
    {| label := "Renfe"; icon := "/operadores/renfe.svg"; keywords := ["renfe"] |} ]%string.

(** The own properties of [OPERATOR_ALIAS_MAP], in the order of the
    literal. *)
Definition OPERATOR_ALIAS_MAP : list (string * string) :=
  [ ("recarga barik nfc", "Barik NFC"); ("mb general", "Metro Bilbao");
    ("mb metro", "Metro Bilbao"); ("ezkerraldea", "Bizkaibus");
    ("euskotren", "Euskotren Trena"); ("euskotren trena", "Euskotren Trena");
    ("euskotran", "Euskotren Tranbia"); ("euskotren tranbia", "Euskotren Tranbia") ]%string.

(** The properties that an object literal inherits from [Object.prototype]. *)
Definition OBJECT_PROTOTYPE_KEYS : list string :=
  [ "constructor"; "__defineGetter__"; "__defineSetter__"; "hasOwnProperty";
    "__lookupGetter__"; "__lookupSetter__"; "isPrototypeOf"; "propertyIsEnumerable";
    "toString"; "valueOf"; "__proto__"; "toLocaleString" ]%string.

(** What [normalizeOperatorLabel] hands back: a text, or the member of
    [Object.prototype] that the alias map gave under the key (a function or
    an object: no text). *)
Inductive Label :=
| Text (s : string)
| Member (key : string).

#[global] Instance Label_eq_dec : EqDecision Label.
Proof. solve_decision. Defined.

(** [OPERATOR_ALIAS_MAP[key]]: an own property first, then an inherited
    one; [None] is [undefined]. *)
Definition aliasOf (key : string) : option Label :=
  match List.find (fun entry => String.eqb (fst entry) key) OPERATOR_ALIAS_MAP with
  | Some entry => Some (Text (snd entry))
  | None => if bool_decide (key ∈ OBJECT_PROTOTYPE_KEYS) then Some (Member key) else None
  end.

(** [lower.replace(/[^a-z0-9]/g, '')] *)
Definition collapse (lower : string) : string :=
  Text.sfilter (fun c => Text.isLowerAscii c || Text.isDigit c) lower.

Definition normalizeOperatorLabel (value : option string) : Label :=
  match value with
  | None => Text "—"
  | Some v =>
      if negb (Text.truthy v) then Text "—"
      else
        let trimmed := Text.trim v in
        let lower := Text.toLowerCase trimmed in
        let collapsed := collapse lower in
        if Text.includes collapsed "euskotran" then Text "Euskotren Tranbia"
        else if Text.includes collapsed "euskotren" then Text "Euskotren Trena"
        else match aliasOf lower with
             | Some alias => alias
             | None => Text trimmed
             end
  end.

Definition normalizeStopName (value : option string) : string :=
  Text.toLowerCase (Text.trim (default EmptyString value)).

(** The score of a keyword against the two texts; [None] when the callback
    returns before the score. *)
Definition keywordScore (normalized raw keyword : string) : option Z :=
  let normalizedKeyword := Text.toLowerCase keyword in
  if negb (Text.truthy normalizedKeyword) then None
  else
    let matchesNormalized := Text.includes normalized normalizedKeyword in
    let matchesRaw := Text.includes raw normalizedKeyword in
    if negb matchesNormalized && negb matchesRaw then None
    else Some (Z.of_nat (String.length normalizedKeyword)
               + (if matchesNormalized && String.eqb normalized normalizedKeyword then 100 else 0)
               + (if matchesRaw && negb matchesNormalized then 10 else 0)).

(** The callback of [brand.keywords.forEach] on the pair of [bestBrand] and
    [bestScore]. *)
Definition keywordStep (normalized raw : string) (brand : OperatorBrand)
    (st : option OperatorBrand * Z) (keyword : string) : option OperatorBrand * Z :=
  match keywordScore normalized raw keyword with
  | None => st
  | Some score => if snd st <? score then (Some brand, score) else st
  end.

(** The callback of [OPERATOR_BRANDS.forEach]. *)
Definition brandStep (normalized raw : string) (st : option OperatorBrand * Z) (brand : OperatorBrand)
    : option OperatorBrand * Z :=
  fold_left (keywordStep normalized raw brand) (keywords brand) st.

(** The two loops of [getOperatorBrand] on the two texts. *)
Definition bestBrand (normalized raw : string) : option OperatorBrand :=
  fst (fold_left (brandStep normalized raw) OPERATOR_BRANDS (None, -1)).

(** [getOperatorBrand(value)]; a label that is no text has no
    [toLowerCase], and the call throws. *)
Definition getOperatorBrand (value : option string) : Outcome (option OperatorBrand) :=
  match value with
  | None => Returns None
  | Some v =>
      if negb (Text.truthy v) then Returns None
      else match normalizeOperatorLabel (Some v) with
           | Member _ => Throws
           | Text l => Returns (bestBrand (Text.toLowerCase l) (Text.toLowerCase (Text.trim v)))
           end
  end.

(** [getOperatorBrand(op)] on a label out of [normalizeOperatorLabel]: one
    that is no text has no [trim], and the call throws. *)
Definition getOperatorBrandOf (op : Label) : Outcome (option OperatorBrand) :=
  match op with
  | Text s => getOperatorBrand (Some s)
  | Member _ => Throws
  end.

(** The callback of the [filter] of [filterRecordsByOperator]. *)
Definition keepRecord (operatorFilter : string) (brandLabels : gset string)
    (record : TransactionRecord) : Outcome bool :=
  let normalizedOperator := normalizeOperatorLabel (Some (operador record)) in
  try* brand := getOperatorBrand (Some (operador record)) in
  let operatorBrandLabel := label <$> brand in
  let isRecharge := History.isRecargaTransaction record in
  Returns
    (if String.eqb operatorFilter "Todos" then true
     else if String.eqb operatorFilter RECHARGE_FILTER_VALUE then isRecharge
     else if bool_decide (operatorFilter ∈ brandLabels)
          then bool_decide (operatorBrandLabel = Some operatorFilter)
          else bool_decide (normalizedOperator = Text operatorFilter)).

(** [list.filter(p)] with a callback that may throw. *)
Fixpoint filterM {A} (p : A -> Outcome bool) (l : list A) : Outcome (list A) :=
  match l with
  | [] => Returns []
  | a :: rest =>
      try* keep := p a in
      try* kept := filterM p rest in
      Returns (if keep then a :: kept else kept)
  end.

(** [list.some(p)] with a callback that may throw: it stops at the first
    element that passes. *)
Fixpoint someM {A} (p : A -> Outcome bool) (l : list A) : Outcome bool :=
  match l with
  | [] => Returns false
  | a :: rest =>
      try* found := p a in
      if found then Returns true else someM p rest
  end.

Definition filterRecordsByOperator (records : list TransactionRecord) (operatorFilter : string)
    (brandLabels : gset string) : Outcome (list TransactionRecord) :=
  filterM (keepRecord operatorFilter brandLabels) records.

Record HistoryFilterOption := {
  value : Label;
  optionLabel : Label;
  optionIcon : option string
}.

Record FilterMetadata := {
  filterOptions : list HistoryFilterOption;
  defaultFilter : Label;
  brandLabels : gset string
}.

Definition plainOption (l : Label) : HistoryFilterOption :=
  {| value := l; optionLabel := l; optionIcon := None |}.

(** [set.add(x)] on a set kept in insertion order. *)
Definition addLabel (x : Label) (l : list Label) : list Label :=
  if bool_decide (x ∈ l) then l else l ++ [x].

(** The first [forEach] of [buildFilterMetadata]. *)
Definition collectOperator (seen : list Label) (record : TransactionRecord) : list Label :=
  let normalized := normalizeOperatorLabel (Some (operador record)) in
  if bool_decide (normalized = Text "—") then seen else addLabel normalized seen.

(** [records.some((record) => getOperatorBrand(record.operador)?.label === brand.label)] *)
Definition brandInUse (records : list TransactionRecord) (brand : OperatorBrand) : Outcome bool :=
  someM (fun record =>
           try* found := getOperatorBrand (Some (operador record)) in
           Returns (bool_decide (label <$> found = Some (label brand))))
        records.

Definition buildFilterMetadata (records : list TransactionRecord) : Outcome FilterMetadata :=
  match records with
  | [] =>
      Returns {| filterOptions := [plainOption (Text "Todos"); plainOption (Text RECHARGE_FILTER_VALUE)];
                 defaultFilter := Text "Todos";
                 brandLabels := ∅ |}
  | _ =>
      let normalizedOperators := fold_left collectOperator records [] in
      try* availableBrands := filterM (brandInUse records) OPERATOR_BRANDS in
      try* nonBrandOperators :=
        filterM (fun op => try* brand := getOperatorBrandOf op in
                           Returns (bool_decide (brand = None)))
                normalizedOperators in
      let defaultFilter :=
        if existsb (fun brand => String.eqb (label brand) "Metro Bilbao") availableBrands
        then Text "Metro Bilbao"
        else match availableBrands with
             | brand :: _ => Text (label brand)
             | [] => match nonBrandOperators with
                     | op :: _ => op
                     | [] => Text "Todos"
                     end
             end in
      Returns
        {| filterOptions :=
             [plainOption (Text "Todos")]
             ++ map (fun brand => {| value := Text (label brand); optionLabel := Text (label brand);
                                     optionIcon := Some (icon brand) |}) availableBrands
             ++ map plainOption
                  (List.filter (fun op => negb (bool_decide (op = Text "Barik NFC"))) nonBrandOperators)
             ++ [plainOption (Text RECHARGE_FILTER_VALUE)];
           defaultFilter := defaultFilter;
           brandLabels := list_to_set (map label availableBrands) |}
  end.

(** The pairs of a brand and one of its keywords, in the order in which
    [getOperatorBrand] walks them. *)
Definition brandKeywords : list (OperatorBrand * string) :=
  flat_map (fun brand => map (fun keyword => (brand, keyword)) (keywords brand)) OPERATOR_BRANDS.

(** The filter under which a record is looked for: the label of its brand,
    or else its normalised operator. *)
Definition filterOf (record : TransactionRecord) : Outcome Label :=
  try* brand := getOperatorBrand (Some (operador record)) in
  Returns (match brand with
           | Some b => Text (label b)
           | None => normalizeOperatorLabel (Some (operador record))
           end).

(** One turn of the inner loop of [getOperatorBrand], on a pair of
    [brandKeywords]. *)
Definition pairStep (normalized raw : string) (st : option OperatorBrand * Z)
    (pair : OperatorBrand * string) : option OperatorBrand * Z :=
  keywordStep normalized raw (fst pair) st (snd pair).

(** The keyword is found in one of the two texts. *)
Definition occurs (normalized raw keyword : string) : bool :=
  Text.truthy (Text.toLowerCase keyword)
  && (Text.includes normalized (Text.toLowerCase keyword)
      || Text.includes raw (Text.toLowerCase keyword)).

(** What holds of [bestBrand] and [bestScore] after the pairs [seen]: no
    brand yet and no keyword found, or the brand of a keyword found. *)
Definition bestInv (normalized raw : string) (seen : list (OperatorBrand * string))
    (st : option OperatorBrand * Z) : Prop :=
  match fst st with
  | None => snd st = -1 /\ Forall (fun pair => occurs normalized raw (snd pair) = false) seen
  | Some brand =>
      0 <= snd st /\ exists keyword, (brand, keyword) ∈ seen /\ occurs normalized raw keyword = true
  end.

(** The same when the normalised text is a keyword of [brand]: a score of
    a hundred or more is that of this brand. *)
Definition exactInv (normalized : string) (brand : OperatorBrand)
    (seen : list (OperatorBrand * string)) (st : option OperatorBrand * Z) : Prop :=
  (snd st < 100 /\ Forall (fun pair => Text.toLowerCase (snd pair) <> normalized) seen)
  \/ (100 <= snd st /\ fst st = Some brand).

(** The callback returns [true]. *)
Definition passes {A} (p : A -> Outcome bool) (a : A) : bool :=
  match p a with
  | Returns keep => keep
  | Throws => false
  end.

Definition isText (l : Label) : bool :=
  match l with Text _ => true | Member _ => false end.

(** The operators of the records all read as texts. *)
Definition plainOperators (records : list TransactionRecord) : Prop :=
  Forall (fun record => isText (normalizeOperatorLabel (Some (operador record))) = true) records.

End Operators.

(** ** The sections of the history table (src/unnamed/part_004,
    [groupRecordsForTable]) *)

Module Grouping.
Import History.

Inductive GroupingMode := mode_year | mode_month | mode_none.

#[global] Instance GroupingMode_eq_dec : EqDecision GroupingMode.
Proof. solve_decision. Defined.

Record TableGroupSection := {
  key : string;
  label : string;
  rows : list TransactionRecord
}.

(** What the calendar of the browser gives for an instant. *)
Class Calendar := {
  (** [d.getFullYear()] *)
  Date_getFullYear : Z -> Z;
  (** [d.getMonth()] *)
  Date_getMonth : Z -> Z;
  (** [d.getDate()] *)
  Date_getDate : Z -> Z;
  (** [monthFormatter.format(d)] *)
  monthFormatter_format : Z -> string
}.

(** [s.padStart(2, '0')] *)
Definition padStart2 (s : string) : string :=
  match String.length s with
  | 0%nat => "00"
  | 1%nat => "0" +:+ s
  | _ => s
  end.

Section WithCalendar.
Context `{Runtime} `{Calendar}.

Definition formatMonthLabel (date : Z) : string :=
  match monthFormatter_format date with
  | EmptyString => EmptyString
  | String c rest => String (Text.upperChar c) rest
  end.

Definition formatYearLabel (date : Z) : string := pretty (Date_getFullYear date).

Definition getMonthKey (date : Z) : string :=
  let year := Date_getFullYear date in
  let month := padStart2 (pretty (Date_getMonth date + 1)) in
  pretty year +:+ "-" +:+ month.

Definition getYearKey (date : Z) : string := pretty (Date_getFullYear date).

Definition getDayKey (date : Z) : string :=
  let year := Date_getFullYear date in
  let month := padStart2 (pretty (Date_getMonth date + 1)) in
  let day := padStart2 (pretty (Date_getDate date)) in
  pretty year +:+ "-" +:+ month +:+ "-" +:+ day.

(** [mode === 'year' ? getYearKey(recordDate) : getMonthKey(recordDate)] *)
Definition keyOf (mode : GroupingMode) (record : TransactionRecord) : string :=
  let recordDate := getRecordDate record in
  match mode with
  | mode_year => getYearKey recordDate
  | _ => getMonthKey recordDate
  end.

(** [mode === 'year' ? formatYearLabel(recordDate) : formatMonthLabel(recordDate)] *)
Definition labelOf (mode : GroupingMode) (record : TransactionRecord) : string :=
  let recordDate := getRecordDate record in
  match mode with
  | mode_year => formatYearLabel recordDate
  | _ => formatMonthLabel recordDate
  end.

(** [section.rows.push(record)] *)
Definition pushRow (record : TransactionRecord) (s : TableGroupSection) : TableGroupSection :=
  {| key := key s; label := label s; rows := rows s ++ [record] |}.

(** The body of the [forEach]: the state is the map [sections] and the
    array [order]. *)
Definition groupStep (mode : GroupingMode) (st : gmap string TableGroupSection * list string)
    (record : TransactionRecord) : gmap string TableGroupSection * list string :=
  let k := keyOf mode record in
  let l := labelOf mode record in
  let st' :=
    match fst st !! k with
    | None => (<[k := {| key := k; label := l; rows := [] |}]> (fst st), snd st ++ [k])
    | Some _ => st
    end in
  (alter (pushRow record) k (fst st'), snd st').

(** The last line reads [order.map((key) => sections.get(key)!)]: a key of
    [order] without a section would give an undefined element, and is left
    out here; the sections are as many as the keys. *)
Definition groupRecordsForTable (records : list TransactionRecord) (mode : GroupingMode)
    : list TableGroupSection :=
  match records with
  | [] => []
  | _ =>
      match mode with
      | mode_none => [ {| key := "all-records"; label := "Todos"; rows := records |} ]
      | _ =>
          let st := fold_left (groupStep mode) records (∅, []) in
          omap (fun k => fst st !! k) (snd st)
      end
  end.

(** A section holds the records of its key, in their order, under the label
    of the first of them. *)
Definition sectionOf (mode : GroupingMode) (seen : list TransactionRecord)
    (s : TableGroupSection) : Prop :=
  rows s = filter (fun r => keyOf mode r = key s) seen
  /\ exists r, head (rows s) = Some r /\ label s = labelOf mode r.

(** The keys are in the order of their first records: before the first
    record of a key come only records of the keys before it. *)
Definition firstSeen (mode : GroupingMode) (seen : list TransactionRecord)
    (order : list string) : Prop :=
  forall o1 k o2, order = o1 ++ k :: o2 ->
    exists pre r post, seen = pre ++ r :: post /\ keyOf mode r = k
      /\ Forall (fun x => keyOf mode x ∈ o1) pre.

(** What holds of [sections] and [order] after the records [seen]. *)
Definition groupInv (mode : GroupingMode) (seen : list TransactionRecord)
    (st : gmap string TableGroupSection * list string) : Prop :=
  NoDup (snd st)
  /\ (forall k, k ∈ snd st <-> is_Some (fst st !! k))
  /\ (forall r, r ∈ seen -> keyOf mode r ∈ snd st)
  /\ map_Forall (fun k s => key s = k /\ sectionOf mode seen s) (fst st)
  /\ firstSeen mode seen (snd st).

End WithCalendar.

End Grouping.

(** ** The months and the days of the yearly summary (src/unnamed/part_001,
    [computeAnnualSummary]: the loop over the journeys) *)

Module Totals.
Import History Operators Grouping.

Record MonthlyInsight := {
  month_key : string;
  month_label : string;
  month_rides : Z;
  month_recharges : Z;
  month_spent : float
}.

(** [a.localeCompare(b)] *)
Class Collation := { String_localeCompare : string -> string -> Z }.

(** A [Map] with text keys, as the list of its entries in the order of
    insertion. *)
Fixpoint mapGet {A} (k : string) (m : list (string * A)) : option A :=
  match m with
  | [] => None
  | (k', v) :: rest => if String.eqb k' k then Some v else mapGet k rest
  end.

(** [m.set(k, v)]: an entry that is there keeps its place. *)
Fixpoint mapSet {A} (k : string) (v : A) (m : list (string * A)) : list (string * A) :=
  match m with
  | [] => [(k, v)]
  | (k', v') :: rest => if String.eqb k' k then (k', v) :: rest else (k', v') :: mapSet k v rest
  end.

(** [Array.from(m.values())] *)
Definition mapValues {A} (m : list (string * A)) : list A := snd <$> m.

Definition sumZ (l : list Z) : Z := foldr Z.add 0 l.

(** A loop whose body may throw. *)
Fixpoint foldM {A S} (step : S -> A -> Outcome S) (l : list A) (st : S) : Outcome S :=
  match l with
  | [] => Returns st
  | a :: rest => try* st' := step st a in foldM step rest st'
  end.

Section WithCalendar.
Context `{Runtime} `{Calendar} `{Collation}.

(** The two calls of [getOperatorBrand] at the head of the block of a paired
    journey.  What the block does next, once both brands are Metro Bilbao,
    is [Annual.metroTripPath]; it touches neither map of this loop. *)
Definition pairedBrands (journey : JourneyBlock) : Outcome unit :=
  try* startBrand := getOperatorBrand (Some (operador (start journey))) in
  try* endBrand := match end_ journey with
                   | Some e => getOperatorBrand (Some (operador e))
                   | None => Returns None
                   end in
  Returns tt.

(** The reading of the operator of a ride for the usage of the day:
    [normalizeOperatorLabel(rawOperator).trim()] throws on a label that is
    no text.  The usage of the day by operator is left out. *)
Definition rideOperator (journey : JourneyBlock) : Outcome unit :=
  let rawOperator := operador (start journey) in
  if Text.truthy rawOperator then
    match normalizeOperatorLabel (Some rawOperator) with
    | Member _ => Throws
    | Text l =>
        let normalized := Text.trim l in
        if Text.truthy normalized && negb (String.eqb normalized "—") then
          try* brand := getOperatorBrand (Some rawOperator) in Returns tt
        else Returns tt
    end
  else Returns tt.

Definition isRide (journey : JourneyBlock) : bool :=
  bool_decide (jkind journey = viaje) || bool_decide (jkind journey = viaje_unico).

(** The body of [journeys.forEach]: the state is [monthlyMap] and
    [dayTotalsMap]. *)
Definition totalsStep
    (st : list (string * MonthlyInsight) * list (string * Annual.DailyTotal))
    (journey : JourneyBlock)
    : Outcome (list (string * MonthlyInsight) * list (string * Annual.DailyTotal)) :=
  let '(monthlyMap, dayTotalsMap) := st in
  let startDate := getRecordDate (start journey) in
  try* paired := (if bool_decide (jkind journey = viaje) then pairedBrands journey else Returns tt) in
  let key := getMonthKey startDate in
  let label := formatMonthLabel startDate in
  let bucket :=
    default {| month_key := key; month_label := label; month_rides := 0;
               month_recharges := 0; month_spent := 0 |} (mapGet key monthlyMap) in
  let dayKey := getDayKey startDate in
  let dayBucket :=
    default {| Annual.dayKey := dayKey; Annual.date := startDate; Annual.rides := 0;
               Annual.recharges := 0; Annual.travelMinutes := 0 |} (mapGet dayKey dayTotalsMap) in
  try* ride :=
    (if isRide journey then
       try* usage := rideOperator journey in
       Returns
         ({| month_key := month_key bucket; month_label := month_label bucket;
             month_rides := month_rides bucket + 1;
             month_recharges := month_recharges bucket; month_spent := month_spent bucket |},
          {| Annual.dayKey := Annual.dayKey dayBucket; Annual.date := Annual.date dayBucket;
             Annual.rides := Annual.rides dayBucket + 1;
             Annual.recharges := Annual.recharges dayBucket;
             Annual.travelMinutes :=
               match durationMinutes journey with
               | Some d => Annual.travelMinutes dayBucket + Z.max 0 d
               | None => Annual.travelMinutes dayBucket
               end |})
     else Returns (bucket, dayBucket)) in
  let '(bucket, dayBucket) := ride in
  let '(bucket, dayBucket) :=
    if bool_decide (jkind journey = recarga) then
      ({| month_key := month_key bucket; month_label := month_label bucket;
          month_rides := month_rides bucket;
          month_recharges := month_recharges bucket + 1;
          month_spent := if PrimFloat.eqb (importe (start journey)) 0 then month_spent bucket
                         else (month_spent bucket + Num.Math_abs (importe (start journey)))%float |},
       {| Annual.dayKey := Annual.dayKey dayBucket; Annual.date := Annual.date dayBucket;
          Annual.rides := Annual.rides dayBucket;
          Annual.recharges := Annual.recharges dayBucket + 1;
          Annual.travelMinutes := Annual.travelMinutes dayBucket |})
    else (bucket, dayBucket) in
  Returns (mapSet key bucket monthlyMap, mapSet dayKey dayBucket dayTotalsMap).

Definition keyNotAfter (a b : string) : bool := String_localeCompare a b <=? 0.

(** The arrays [monthly] and [dailyTotals] of the summary, when the loop
    comes to its end. *)
Definition monthlyAndDaily (journeys : list JourneyBlock)
    : Outcome (list MonthlyInsight * list Annual.DailyTotal) :=
  try* st := foldM totalsStep journeys ([], []) in
  Returns
    (stableSort (fun a b => keyNotAfter (month_key a) (month_key b)) (mapValues (fst st)),
     stableSort (fun a b => keyNotAfter (Annual.dayKey a) (Annual.dayKey b)) (mapValues (snd st))).

(** What one journey adds to its day: rides, recharges, travel minutes. *)
Definition dayCounts (journey : JourneyBlock) : Z * Z * Z :=
  ((if isRide journey then 1 else 0),
   (if bool_decide (jkind journey = recarga) then 1 else 0),
   (if isRide journey then match durationMinutes journey with
                           | Some d => Z.max 0 d
                           | None => 0
                           end
    else 0)).

Definition addDayCounts (a b : Z * Z * Z) : Z * Z * Z :=
  (fst (fst a) + fst (fst b), snd (fst a) + snd (fst b), snd a + snd b).

(** The counts of the journeys that start on the day [k]. *)
Definition countsOfDay (k : string) (journeys : list JourneyBlock) : Z * Z * Z :=
  foldr (fun journey acc =>
           if String.eqb (getDayKey (getRecordDate (start journey))) k
           then addDayCounts (dayCounts journey) acc else acc)
        (0, 0, 0) journeys.

(** The counts of the journeys that start in the month [k]: rides and
    recharges. *)
Definition countsOfMonth (k : string) (journeys : list JourneyBlock) : Z * Z * Z :=
  foldr (fun journey acc =>
           if String.eqb (getMonthKey (getRecordDate (start journey))) k
           then addDayCounts (dayCounts journey) acc else acc)
        (0, 0, 0) journeys.

(** The counts of all the journeys. *)
Definition totalOf (journeys : list JourneyBlock) : Z * Z * Z :=
  foldr (fun journey acc => addDayCounts (dayCounts journey) acc) (0, 0, 0) journeys.

(** The rides, recharges and travel minutes of the days, added up. *)
Definition daySums (days : list Annual.DailyTotal) : Z * Z * Z :=
  (sumZ (Annual.rides <$> days), sumZ (Annual.recharges <$> days),
   sumZ (Annual.travelMinutes <$> days)).

(** The rides and recharges of the months, added up. *)
Definition monthSums (months : list MonthlyInsight) : Z * Z :=
  (sumZ (month_rides <$> months), sumZ (month_recharges <$> months)).

(** A day of the summary holds the counts of the journeys that start on
    it; there is one, and the date of the day is the start of the first of
    them in the list. *)
Definition dayOf (journeys : list JourneyBlock) (d : Annual.DailyTotal) : Prop :=
  (exists pre j post,
     journeys = pre ++ j :: post
     /\ getDayKey (getRecordDate (start j)) = Annual.dayKey d
     /\ Annual.date d = getRecordDate (start j)
     /\ Forall (fun x => getDayKey (getRecordDate (start x)) <> Annual.dayKey d) pre)
  /\ (Annual.rides d, Annual.recharges d, Annual.travelMinutes d)
     = countsOfDay (Annual.dayKey d) journeys.

(** A month of the summary holds the rides and recharges of the journeys
    that start in it, and there is one. *)
Definition monthOf (journeys : list JourneyBlock) (m : MonthlyInsight) : Prop :=
  (exists j, j ∈ journeys /\ getMonthKey (getRecordDate (start j)) = month_key m)
  /\ (month_rides m, month_recharges m) = fst (countsOfMonth (month_key m) journeys).

(** The state of the loop after the journeys [seen]: no key twice, an entry
    under its own key, one entry for each day and month where a journey
    starts, in an entry the counts of its journeys, and in all of them the
    counts of all the journeys. *)
Definition totalsInv (seen : list JourneyBlock)
    (st : list (string * MonthlyInsight) * list (string * Annual.DailyTotal)) : Prop :=
  NoDup (fst <$> fst st) /\ NoDup (fst <$> snd st)
  /\ (forall k m, (k, m) ∈ fst st -> month_key m = k /\ monthOf seen m)
  /\ (forall k d, (k, d) ∈ snd st -> Annual.dayKey d = k /\ dayOf seen d)
  /\ (forall j, j ∈ seen ->
        getMonthKey (getRecordDate (start j)) ∈ fst <$> fst st
        /\ getDayKey (getRecordDate (start j)) ∈ fst <$> snd st)
  /\ monthSums (mapValues (fst st)) = fst (totalOf seen)
  /\ daySums (mapValues (snd st)) = totalOf seen.

End WithCalendar.

End Totals.

(** ** Sample data for the scenarios: a runtime for ASCII text in the UTC
    zone, a small tariff table and a small network *)

Module Sample.

Definition field (s : string) (pos len : nat) : Z := Text.digitsValue 0 (String.substring pos len s).

(** Days from 1970-01-01 to the civil date. *)
Definition daysFromCivil (y m d : Z) : Z :=
  let y' := if m <=? 2 then y - 1 else y in
  let era := y' / 400 in
  let yoe := y' - era * 400 in
  let doy := (153 * (m + (if 2 <? m then -3 else 9)) + 2) / 5 + d - 1 in
  let doe := yoe * 365 + yoe / 4 - yoe / 100 + doy in
  era * 146097 + doe - 719468.

Definition civilMs (y m d hh mi ss : Z) : Z :=
  (((daysFromCivil y m d * 24 + hh) * 60 + mi) * 60 + ss) * 1000.

(** [new Date("YYYY-MM-DDTHH:MM:SS").getTime()] in the UTC zone. *)
Definition isoMs (s : string) : Z :=
  civilMs (field s 0 4) (field s 5 2) (field s 8 2) (field s 11 2) (field s 14 2) (field s 17 2).

Definition num (s : string) : Z := Text.digitsValue 0 s.

Definition utcRuntime : Runtime :=
  {| String_normalize_NFD := fun s => s;
     Date_parse := isoMs;
     Date_fromParts := fun y m d hh mi ss => civilMs (num y) (num m) (num d) (num hh) (num mi) (num ss);
     Date_addDays := fun date days => date + days * (24 * 60 * 60 * 1000) |}.

(** Digits with an optional sign and an optional fraction; anything else
    does not parse. *)
Definition decimalParse (s : string) : float :=
  let '(neg, body) := match s with
                      | String "-" rest => (true, rest)
                      | _ => (false, s)
                      end in
  match Text.split "." body with
  | [whole] =>
      if PdfParser.NUMBER_ONLY whole
      then (let v := History.floatOfZ (num whole) in if neg then - v else v)%float
      else nan
  | [whole; frac] =>
      if PdfParser.NUMBER_ONLY whole && PdfParser.NUMBER_ONLY frac
      then (let v := History.floatOfZ (num (whole +:+ frac))
                     / History.floatOfZ (10 ^ Z.of_nat (String.length frac)) in
            if neg then - v else v)%float
      else nan
  | _ => nan
  end.

Definition decimalRuntime : NumberRuntime := {| Number_parseFloat := decimalParse |}.

Definition sampleTariffs : History.TariffData :=
  {| History.tariffsJson :=
       [ {| History.raw_code := "CRD"; History.raw_name := "Creditrans barik";
            History.raw_category := "coin_purse"; History.raw_limitTravel := Some 0;
            History.raw_rates := [] |};
         {| History.raw_code := "BB10"; History.raw_name := "BONOBUS10";
            History.raw_category := "bonus"; History.raw_limitTravel := Some 10;
            History.raw_rates := [] |};
         {| History.raw_code := "MEN"; History.raw_name := "Bono mensual";
            History.raw_category := "monthly"; History.raw_limitTravel := Some 0;
            History.raw_rates := [] |} ] |}.

Definition station (l : Metro.LineCode) (c n : string) (w : Z) : Metro.RawStation :=
  {| Metro.zone := "Z1"; Metro.code := c; Metro.name := n; Metro.weight := w;
     Metro.line := l; Metro.connection := false |}.

(** A cut of the network: two branches that meet at San Ignazio, the shared
    trunk to Casco Viejo, and line 3 joining there. *)
Definition sampleMetro : Metro.MetroData :=
  {| Metro.RAW_STATIONS :=
       [ station Metro.L1 "AST" "Astrabudua" 10; station Metro.L1 "ERA" "Erandio" 11;
         station Metro.L1 "LUT" "Lutxana" 12;
         station Metro.L2 "GUR" "Gurutzeta/Cruces" 11; station Metro.L2 "ANS" "Ansio" 12;
         station Metro.T "SIN" "San Ignazio" 13; station Metro.T "SAR" "Sarriko" 14;
         station Metro.T "SAM" "San Mames" 16; station Metro.T "IND" "Indautxu" 17;
         station Metro.T "MOY" "Moyua" 18; station Metro.T "ABA" "Abando" 19;
         station Metro.T "CAV" "Casco Viejo" 20;
         station Metro.L3 "MAT" "Matiko" 1; station Metro.L3 "ZZB" "Uribarri" 2;
         station Metro.L3 "CAL" "Zazpikaleak/Casco Viejo" 3; station Metro.L3 "ZUR" "Zurbaranbarri" 4 ] |}.

(** A page of one header line and one row; the header names are given. *)
Definition seg (sx : float) (s : string) : PdfParser.LineSegment :=
  {| PdfParser.x := sx; PdfParser.text := s |}.

Definition rowLine : PdfParser.Line :=
  {| PdfParser.y := 680%float;
     PdfParser.segments :=
       [ seg 30 "1"; seg 60 "12/03/2024 08:15:00"; seg 140 "Entrada"; seg 240 "Metro Bilbao";
         seg 320 "Abando"; seg 420 "-0,96"; seg 470 "12,34"; seg 520 "Creditrans";
         seg 600 "General"; seg 660 "1" ]%float |}.

Definition headerLine (names : list string) : PdfParser.Line :=
  {| PdfParser.y := 700%float;
     PdfParser.segments := zip_with seg [30; 60; 140; 240; 320; 420; 470; 520; 600; 660]%float names |}.

Definition upperPage : list PdfParser.Line :=
  [ headerLine ["CONT"; "FECHA"; "TRANSACCION"; "OPERADOR"; "EQUIPO"; "IMPORTE"; "SALDO";
                "TITULO"; "PERFIL"; "ETAPA"];
    rowLine ].

Definition lowerPage : list PdfParser.Line :=
  [ headerLine ["Cont"; "Fecha"; "Transaccion"; "Operador"; "Equipo"; "Importe"; "Saldo";
                "Titulo"; "Perfil"; "Etapa"];
    rowLine ].

(** A record of page 1 with the given counter, timestamp, transaction text,
    station, amount and title. *)
Definition ride (n : Z) (ts tx eq : string) (amount : float) (title : string) : TransactionRecord :=
  {| cont := n; fecha := String.substring 8 2 ts +:+ "/" +:+ String.substring 5 2 ts +:+ "/" +:+ String.substring 0 4 ts;
     hora := String.substring 11 8 ts; timestamp := ts;
     transaccion := tx; operador := "Metro Bilbao"; equipo := eq;
     importe := amount; saldo := 0%float; titulo := title;
     perfil := "General"; etapa := "1"; page := 1 |}.

(** The scenario of the ten-trip pass: the purchase of BONOBUS10 and ten
    single validations under it, one a day. *)
Definition bonobusPurchase : TransactionRecord :=
  ride 1 "2024-03-01T09:00:00" "Compra titulo" "Recarga Barik NFC" (-9.5) "BONOBUS10".

Definition bonobusRide (k : Z) : TransactionRecord :=
  ride (1 + k) ("2024-03-" +:+ (if k <? 9 then "0" else "") +:+ pretty (1 + k) +:+ "T08:30:00")
       "Validacion unica" "Bilbobus" (-1.25) "BONOBUS10".

Definition bonobusRides : list TransactionRecord := map bonobusRide [1; 2; 3; 4; 5; 6; 7; 8; 9; 10].

Definition bonobusScenario : list TransactionRecord := bonobusPurchase :: bonobusRides.

(** Three wallet rides, two in February and one in March. *)
Definition walletRides : list TransactionRecord :=
  [ ride 1 "2024-02-27T08:30:00" "Validacion unica" "Bilbobus" (-0.65) "Creditrans";
    ride 2 "2024-02-28T08:30:00" "Validacion unica" "Bizkaibus" (-1.55) "Creditrans";
    ride 3 "2024-03-01T08:30:00" "Validacion unica" "Bilbobus" (-0.96) "Creditrans" ].

(** The purchase of a monthly pass and three rides under it. *)
Definition passRides : list TransactionRecord :=
  [ ride 1 "2024-02-26T09:00:00" "Compra titulo" "Recarga Barik NFC" (-37) "Bono mensual";
    ride 2 "2024-02-27T08:30:00" "Validacion unica" "Bilbobus" (-0.65) "Bono mensual";
    ride 3 "2024-02-28T08:30:00" "Validacion unica" "Bizkaibus" (-1.55) "Bono mensual";
    ride 4 "2024-03-01T08:30:00" "Validacion unica" "Bilbobus" (-0.96) "Bono mensual" ].

(** A network with a loop: line 1 and line 3 both join the two ends of a
    trunk of three stations. *)
Definition loopMetro : Metro.MetroData :=
  {| Metro.RAW_STATIONS :=
       [ station Metro.L1 "E" "East" 1; station Metro.L1 "Q" "Quay" 2;
         station Metro.T "S" "South" 3; station Metro.T "P" "Park" 4; station Metro.T "E" "East" 5;
         station Metro.L3 "S" "South" 1; station Metro.L3 "Q" "Quay" 2 ] |}.

(** The civil date, as year, month and day, of a count of days from
    1970-01-01. *)
Definition civilFromDays (z : Z) : Z * Z * Z :=
  let z := z + 719468 in
  let era := z / 146097 in
  let doe := z - era * 146097 in
  let yoe := (doe - doe / 1460 + doe / 36524 - doe / 146096) / 365 in
  let doy := doe - (365 * yoe + yoe / 4 - yoe / 100) in
  let mp := (5 * doy + 2) / 153 in
  let d := doy - (153 * mp + 2) / 5 + 1 in
  let m := if mp <? 10 then mp + 3 else mp - 9 in
  (if m <=? 2 then yoe + era * 400 + 1 else yoe + era * 400, m, d).

Definition monthNames : list string :=
  [ "enero"; "febrero"; "marzo"; "abril"; "mayo"; "junio"; "julio"; "agosto";
    "septiembre"; "octubre"; "noviembre"; "diciembre" ].

(** The calendar of the UTC zone, with the months of es-ES. *)
Definition utcCalendar : Grouping.Calendar :=
  {| Grouping.Date_getFullYear := fun ms => fst (fst (civilFromDays (ms / History.DAY_MS)));
     Grouping.Date_getMonth := fun ms => snd (fst (civilFromDays (ms / History.DAY_MS))) - 1;
     Grouping.Date_getDate := fun ms => snd (civilFromDays (ms / History.DAY_MS));
     Grouping.monthFormatter_format := fun ms =>
       let '(y, m, _) := civilFromDays (ms / History.DAY_MS) in
       nth (Z.to_nat (m - 1)) monthNames EmptyString +:+ " de " +:+ pretty y |}.

(** Two days: a recharge of the wallet and a metro trip of twenty-five
    minutes on the first, a single validation on the second. *)
Definition mixedDays : list TransactionRecord :=
  [ ride 1 "2024-03-01T08:00:00" "Recarga monedero" "Recarga Barik NFC" 10 "Creditrans";
    ride 2 "2024-03-01T08:30:00" "Validacion de entrada" "Abando" (-0.96) "Creditrans";
    ride 3 "2024-03-01T08:55:00" "Validacion de salida" "Moyua" 0 "Creditrans";
    ride 4 "2024-03-02T10:00:00" "Validacion unica" "Bilbobus" (-0.65) "Creditrans" ].

(** The order of the texts by their bytes. *)
Definition byteCollation : Totals.Collation :=
  {| Totals.String_localeCompare := fun a b =>
       match String.compare a b with Lt => -1 | Eq => 0 | Gt => 1 end |}.

(** Four days of March: rides on the first, the second and the fourth. *)
Definition day (key : string) (r m : Z) : Annual.DailyTotal :=
  {| Annual.dayKey := key; Annual.date := isoMs (key +:+ "T08:30:00");
     Annual.rides := r; Annual.recharges := 0; Annual.travelMinutes := m |}.

Definition sampleDays : list Annual.DailyTotal :=
  [ day "2024-03-01" 2 25; day "2024-03-02" 1 40; day "2024-03-03" 0 0; day "2024-03-04" 3 40 ].

End Sample.

(** * Properties *)

(** ** The table extractor *)

Module PdfParserFacts.
Import PdfParser.

Lemma findIndexFrom_lower {A} (p : A -> bool) (l : list A) (i : Z) :
  findIndexFrom p i l = -1 \/ i <= findIndexFrom p i l.
Proof.
  revert i. induction l as [|a l IH]; intros i; simpl; [by left|].
  destruct (p a); [right; lia|].
  destruct (IH (i + 1)) as [->|Hle]; [by left | right; lia].
Qed.

Lemma findIndexFrom_none {A} (p : A -> bool) (l : list A) (i : Z) :
  0 <= i -> findIndexFrom p i l = -1 <-> Forall (fun a => p a = false) l.
Proof.
  revert i. induction l as [|a l IH]; intros i Hi; simpl.
  - split; [constructor | done].
  - destruct (p a) eqn:Hp.
    + split; [lia | intros HF; inversion HF; congruence].
    + rewrite IH by lia. split; [by constructor | by inversion 1].
Qed.

Lemma findIndexFrom_found {A} (p : A -> bool) (l : list A) (i : Z) (k : nat) :
  0 <= i -> findIndexFrom p i l = i + Z.of_nat k ->
  exists a, l !! k = Some a /\ p a = true /\ Forall (fun a => p a = false) (take k l).
Proof.
  revert i k. induction l as [|a l IH]; intros i k Hi; simpl.
  - lia.
  - destruct (p a) eqn:Hp.
    + intros Hk. assert (k = 0%nat) as -> by lia. exists a. split_and!; auto.
    + intros Hk. destruct k as [|k].
      * destruct (findIndexFrom_lower p l (i + 1)) as [E|E]; lia.
      * destruct (IH (i + 1) k) as (b & Hb & Hpb & HF); [lia | lia |].
        exists b. split_and!; auto. simpl. by constructor.
Qed.

Section WithRuntime.
Context `{NumberRuntime}.

(** C7 (as the code has it): the header is the first line whose text holds
    the three names CONT, FECHA and IMPORTE in capitals; when no line does,
    the index is -1 and the page gives no record. *)
Theorem header_detection (lines : list Line) (pageNumber : Z) :
  (findHeaderIndex lines = -1 <-> Forall (fun line => isHeaderLine line = false) lines)
  /\ (Forall (fun line => isHeaderLine line = false) lines -> extractPage lines pageNumber = [])
  /\ (forall i : nat, findHeaderIndex lines = Z.of_nat i ->
        exists line, lines !! i = Some line
          /\ Text.includes (lineToString line) "CONT" = true
          /\ Text.includes (lineToString line) "FECHA" = true
          /\ Text.includes (lineToString line) "IMPORTE" = true
          /\ Forall (fun line => isHeaderLine line = false) (take i lines)).
Proof.
  split_and!.
  - apply findIndexFrom_none. lia.
  - intros HF. unfold extractPage.
    apply (findIndexFrom_none isHeaderLine lines 0) in HF; [|lia].
    unfold findHeaderIndex. by rewrite HF.
  - intros i Hi.
    destruct (findIndexFrom_found isHeaderLine lines 0 i) as (line & Hl & Hp & HF); [lia | by rewrite Z.add_0_l |].
    exists line. unfold isHeaderLine in Hp.
    apply andb_true_iff in Hp as [Hp H3]. apply andb_true_iff in Hp as [H1 H2].
    by split_and!.
Qed.

End WithRuntime.

(** C7, counterexample: the names of the header in small letters are found
    by the case-insensitive column tests, yet the line is not taken as the
    header and the row under it is lost; in capitals the row is read. *)
Lemma header_names_case_sensitive :
  Forall (fun label => labelTest label (lineToString (Sample.headerLine
            ["Cont"; "Fecha"; "Transaccion"; "Operador"; "Equipo"; "Importe"; "Saldo";
             "Titulo"; "Perfil"; "Etapa"])) = true) ["CONT"; "FECHA"; "IMPORTE"]%string
  /\ findHeaderIndex Sample.lowerPage = -1
  /\ @extractPage Sample.decimalRuntime Sample.lowerPage 1 = []
  /\ findHeaderIndex Sample.upperPage = 0
  /\ length (@extractPage Sample.decimalRuntime Sample.upperPage 1) = 1%nat.
Proof. split_and!; [repeat constructor | reflexivity..]. Qed.

(** C7, an instance. *)
Lemma header_detection_witness :
  findHeaderIndex Sample.upperPage = 0
  /\ @extractPage Sample.decimalRuntime [Sample.rowLine] 1 = [].
Proof.
  destruct (@header_detection Sample.decimalRuntime [Sample.rowLine] 1) as (_ & Hnone & _).
  split; [reflexivity|]. apply Hnone. repeat constructor.
Defined.


Section Amounts.
Context `{NumberRuntime}.

Lemma isNaN_not_finite (f : float) : Num.isNaN f = true -> Num.isFinite f = false.
Proof. unfold Num.isNaN, Num.isFinite. by destruct (PrimFloat.classify f). Qed.

Lemma parseAmount_isFinite (value : option string) : Num.isFinite (parseAmount value) = true.
Proof.
  unfold parseAmount. destruct value as [v|]; [|reflexivity].
  destruct (Text.truthy v); simpl; [|reflexivity].
  destruct (Num.isFinite (Number_parseFloat (amountText v))) eqn:E; [exact E | reflexivity].
Qed.

Lemma normalizeRow_finite (row : Row) (page : Z) (r : TransactionRecord) :
  normalizeRow row page = Some r -> finiteAmounts r.
Proof.
  unfold normalizeRow. destruct (parseIntDigits _); [|done].
  intros [= <-]. split; [exact (parseAmount_isFinite (Some (row Kimporte))) | exact (parseAmount_isFinite (Some (row Ksaldo)))].
Qed.

Lemma extractPage_finite (lines : list Line) (pageNumber : Z) :
  Forall finiteAmounts (extractPage lines pageNumber).
Proof.
  unfold extractPage. destruct (findHeaderIndex lines =? -1); [constructor|].
  destruct (lines !! _); [|constructor].
  apply Forall_forall. intros r Hr. apply list_elem_of_omap in Hr as (row & _ & Hrow).
  by eapply normalizeRow_finite.
Qed.

Lemma extractPages_finite (pages : list (list Line)) (n : Z) :
  Forall finiteAmounts (extractPages n pages).
Proof.
  revert n. induction pages as [|lines pages IH]; intros n; simpl; [constructor|].
  apply Forall_app. split; [apply extractPage_finite | apply IH].
Qed.

(** C10: [parseAmount] gives a finite number for every text and for a
    missing one, and 0 when the normalised text does not parse (the parser
    gives no number, or an infinite one); hence every record that the
    extractor returns has a finite [importe] and a finite [saldo]. *)
Theorem parseAmount_total (value : option string) (pages : list (list Line)) :
  Num.isFinite (parseAmount value) = true
  /\ parseAmount None = 0%float
  /\ parseAmount (Some EmptyString) = 0%float
  /\ (forall v, Num.isNaN (Number_parseFloat (amountText v)) = true -> parseAmount (Some v) = 0%float)
  /\ (forall v, Num.isFinite (Number_parseFloat (amountText v)) = false -> parseAmount (Some v) = 0%float)
  /\ (forall row page r, normalizeRow row page = Some r ->
        Num.isFinite (importe r) = true /\ Num.isFinite (saldo r) = true)
  /\ Forall (fun r => Num.isFinite (importe r) = true /\ Num.isFinite (saldo r) = true)
        (snd (extractTransactions pages)).
Proof.
  assert (Hinf : forall v, Num.isFinite (Number_parseFloat (amountText v)) = false ->
                           parseAmount (Some v) = 0%float).
  { intros v Hv. unfold parseAmount. destruct (Text.truthy v); simpl; [|reflexivity]. by rewrite Hv. }
  split_and!; auto using parseAmount_isFinite.
  - intros v Hv. by apply Hinf, isNaN_not_finite.
  - apply normalizeRow_finite.
  - apply extractPages_finite.
Qed.

End Amounts.

(** C10, an instance: a text that is no number reads as 0, and the amounts
    of the sample page are finite. *)
Lemma parseAmount_total_witness :
  @parseAmount Sample.decimalRuntime (Some "n/a"%string) = 0%float
  /\ Forall (fun r => Num.isFinite (importe r) = true /\ Num.isFinite (saldo r) = true)
        (snd (@extractTransactions Sample.decimalRuntime [Sample.upperPage])).
Proof.
  destruct (@parseAmount_total Sample.decimalRuntime None [Sample.upperPage])
    as (_ & _ & _ & Hnan & _ & _ & Hall).
  split; [apply Hnan; reflexivity | exact Hall].
Defined.

End PdfParserFacts.

(** ** Sorting *)

Section SortFacts.
Context {A : Type} (le : A -> A -> bool).

Lemma insertSorted_perm (a : A) (l : list A) : insertSorted le a l ≡ₚ a :: l.
Proof.
  induction l as [|b l IH]; simpl; [done|].
  destruct (le a b); [done|]. rewrite IH. apply Permutation_swap.
Qed.

Lemma stableSort_perm (l : list A) : stableSort le l ≡ₚ l.
Proof.
  induction l as [|a l IH]; simpl; [done|].
  unfold stableSort in *. simpl. by rewrite insertSorted_perm, IH.
Qed.

(** A list already in order is left as it is. *)
Lemma stableSort_sorted (l : list A) :
  Sorted (fun a b => le a b = true) l -> stableSort le l = l.
Proof.
  induction 1 as [|a l Hs IH Hhd]; [done|].
  unfold stableSort in *. simpl. rewrite IH.
  destruct Hhd as [|b l' Hab]; simpl; [done | by rewrite Hab].
Qed.

End SortFacts.

Module HistoryFacts.
Import History.

Section Tariffs.
Context `{Runtime} `{TariffData}.

Lemma TARIFF_BY_NAME_lookup_aux (l : list TariffDefinition) (m : gmap string TariffDefinition) k t :
  fold_left (fun m t => <[normalizedName t := t]> m) l m !! k = Some t ->
  (t ∈ l /\ normalizedName t = k) \/ m !! k = Some t.
Proof.
  revert m. induction l as [|a l IH]; intros m; simpl; [by right|].
  intros Hk. apply IH in Hk as [[Hin Hn]|Hk].
  - left. split; [by right | done].
  - destruct (decide (normalizedName a = k)) as [<-|Hne].
    + rewrite lookup_insert_eq in Hk. injection Hk as <-. left. split; [by left | done].
    + rewrite lookup_insert_ne in Hk by done. by right.
Qed.

Lemma TARIFF_BY_NAME_lookup k t :
  TARIFF_BY_NAME !! k = Some t -> t ∈ TARIFFS /\ normalizedName t = k.
Proof.
  intros Hk. apply TARIFF_BY_NAME_lookup_aux in Hk as [?|Hk]; [done|].
  by rewrite lookup_empty in Hk.
Qed.

Lemma TARIFF_ALIASES_target k a : TARIFF_ALIASES !! k = Some a -> a = DEFAULT_TARIFF_NAME.
Proof.
  unfold TARIFF_ALIASES. rewrite !lookup_insert, lookup_empty.
  repeat case_decide; congruence.
Qed.

Lemma default_tariff_lookup :
  default DEFAULT_TARIFF (TARIFF_BY_NAME !! DEFAULT_TARIFF_NAME) = DEFAULT_TARIFF.
Proof. unfold DEFAULT_TARIFF. by destruct (TARIFF_BY_NAME !! DEFAULT_TARIFF_NAME). Qed.

Lemma normalizeTitleLabel_fallback :
  normalizeTitleLabel None = DEFAULT_TARIFF_NAME.
Proof. reflexivity. Qed.

Lemma normalizeTitleLabel_blank v :
  Text.trim v = EmptyString -> normalizeTitleLabel (Some v) = DEFAULT_TARIFF_NAME.
Proof.
  intros Hv. unfold DEFAULT_TARIFF_NAME, normalizeTitleLabel. rewrite Hv.
  by rewrite andb_false_r.
Qed.

Lemma lookup_default_name title :
  normalizeTitleLabel title = DEFAULT_TARIFF_NAME -> getTariffInfoFromTitle title = DEFAULT_TARIFF.
Proof.
  intros Hn. unfold getTariffInfoFromTitle. rewrite Hn.
  destruct (TARIFF_ALIASES !! DEFAULT_TARIFF_NAME) as [a|] eqn:Ha; simpl.
  - apply TARIFF_ALIASES_target in Ha as ->. apply default_tariff_lookup.
  - apply default_tariff_lookup.
Qed.

Lemma TARIFFS_kind t : t ∈ TARIFFS -> kind t = inferTariffKind (category t) (limitTravel t).
Proof.
  unfold TARIFFS. intros Ht. apply list_elem_of_fmap in Ht as (raw & -> & _). reflexivity.
Qed.

Lemma lookup_found (title : option string) (t : TariffDefinition) :
  TARIFF_BY_NAME !! default (normalizeTitleLabel title) (TARIFF_ALIASES !! normalizeTitleLabel title) = Some t ->
  getTariffInfoFromTitle title = t.
Proof. intros Ht. unfold getTariffInfoFromTitle. by rewrite Ht. Qed.

Lemma lookup_missing (title : option string) :
  TARIFF_BY_NAME !! default (normalizeTitleLabel title) (TARIFF_ALIASES !! normalizeTitleLabel title) = None ->
  getTariffInfoFromTitle title = DEFAULT_TARIFF.
Proof. intros Ht. unfold getTariffInfoFromTitle. by rewrite Ht. Qed.

Lemma lookup_cases (title : option string) :
  getTariffInfoFromTitle title = DEFAULT_TARIFF \/ getTariffInfoFromTitle title ∈ TARIFFS.
Proof.
  destruct (TARIFF_BY_NAME !! default (normalizeTitleLabel title)
              (TARIFF_ALIASES !! normalizeTitleLabel title)) as [t|] eqn:Hl.
  - right. rewrite (lookup_found title t Hl). by apply TARIFF_BY_NAME_lookup in Hl as [? _].
  - left. by apply lookup_missing.
Qed.

(** C8: the lookup gives a tariff for every title, present or not: the entry
    of the table under the normalised title (after the aliases) when there
    is one, and the default tariff otherwise; an alias, a missing title and
    a blank one all give the default tariff.  The default tariff is the
    wallet entry of the table, or the wallet literal when the table is
    empty. *)
Theorem tariff_lookup_total (title : option string) :
  let normalized := normalizeTitleLabel title in
  let lookup := default normalized (TARIFF_ALIASES !! normalized) in
  (getTariffInfoFromTitle title = DEFAULT_TARIFF \/ getTariffInfoFromTitle title ∈ TARIFFS)
  /\ (TARIFF_BY_NAME !! lookup = None -> getTariffInfoFromTitle title = DEFAULT_TARIFF)
  /\ (forall t, TARIFF_BY_NAME !! lookup = Some t ->
        getTariffInfoFromTitle title = t /\ t ∈ TARIFFS /\ normalizedName t = lookup)
  /\ (is_Some (TARIFF_ALIASES !! normalized) -> getTariffInfoFromTitle title = DEFAULT_TARIFF)
  /\ (title = None -> getTariffInfoFromTitle title = DEFAULT_TARIFF)
  /\ (forall v, title = Some v -> Text.trim v = EmptyString -> getTariffInfoFromTitle title = DEFAULT_TARIFF)
  /\ (tariffsJson = [] -> DEFAULT_TARIFF = FALLBACK_LITERAL /\ kind DEFAULT_TARIFF = wallet)
  /\ (forall t, TARIFF_BY_NAME !! DEFAULT_TARIFF_NAME = Some t -> category t = "coin_purse"%string ->
        DEFAULT_TARIFF = t /\ kind DEFAULT_TARIFF = wallet).
Proof.
  intros normalized lookup.
  split_and!.
  - apply lookup_cases.
  - apply lookup_missing.
  - intros t Ht. split; [by apply lookup_found | by apply TARIFF_BY_NAME_lookup].
  - intros [a Ha]. unfold getTariffInfoFromTitle. fold normalized. rewrite Ha. simpl.
    apply TARIFF_ALIASES_target in Ha as ->. apply default_tariff_lookup.
  - intros ->. by apply lookup_default_name.
  - intros v -> Hv. by apply lookup_default_name, normalizeTitleLabel_blank.
  - intros Hempty. unfold DEFAULT_TARIFF, TARIFF_BY_NAME, FALLBACK_TARIFF, TARIFFS. by rewrite Hempty.
  - intros t Ht Hc. unfold DEFAULT_TARIFF. rewrite Ht. simpl. split; [done|].
    apply TARIFF_BY_NAME_lookup in Ht as [Ht _]. rewrite (TARIFFS_kind t Ht).
    unfold inferTariffKind. by rewrite Hc.
Qed.

End Tariffs.

(** C8, an instance: the alias CREDITRANS, the dash and an unknown title on
    the sample table. *)
Lemma tariff_lookup_total_witness :
  @getTariffInfoFromTitle Sample.utcRuntime Sample.sampleTariffs (Some "CREDITRANS"%string)
    = @DEFAULT_TARIFF Sample.utcRuntime Sample.sampleTariffs
  /\ @getTariffInfoFromTitle Sample.utcRuntime Sample.sampleTariffs (Some "—"%string)
    = @DEFAULT_TARIFF Sample.utcRuntime Sample.sampleTariffs
  /\ @getTariffInfoFromTitle Sample.utcRuntime Sample.sampleTariffs (Some "Gizatrans"%string)
    = @DEFAULT_TARIFF Sample.utcRuntime Sample.sampleTariffs
  /\ kind (@DEFAULT_TARIFF Sample.utcRuntime Sample.sampleTariffs) = wallet.
Proof.
  split_and!.
  - destruct (@tariff_lookup_total Sample.utcRuntime Sample.sampleTariffs (Some "CREDITRANS"%string))
      as (_ & _ & _ & Halias & _).
    apply Halias. eexists. vm_compute. reflexivity.
  - destruct (@tariff_lookup_total Sample.utcRuntime Sample.sampleTariffs (Some "—"%string))
      as (_ & _ & _ & Halias & _).
    apply Halias. eexists. vm_compute. reflexivity.
  - destruct (@tariff_lookup_total Sample.utcRuntime Sample.sampleTariffs (Some "Gizatrans"%string))
      as (_ & Hnone & _).
    apply Hnone. vm_compute. reflexivity.
  - destruct (@tariff_lookup_total Sample.utcRuntime Sample.sampleTariffs None)
      as (_ & _ & _ & _ & _ & _ & _ & Hwallet).
    eapply Hwallet; vm_compute; reflexivity.
Defined.

Ltac zbool :=
  repeat match goal with
         | |- context [?a <=? ?b] => destruct (Z.leb_spec a b)
         | |- context [?a <? ?b] => destruct (Z.ltb_spec a b)
         end.

Section Journeys.
Context `{Runtime}.

Lemma journeyRecords_app (a b : list JourneyBlock) :
  journeyRecords (a ++ b) = journeyRecords a ++ journeyRecords b.
Proof. unfold journeyRecords. by rewrite map_app, concat_app. Qed.

Lemma journeyRecords_perm (a b : list JourneyBlock) :
  a ≡ₚ b -> journeyRecords a ≡ₚ journeyRecords b.
Proof. unfold journeyRecords. by intros ->. Qed.

(** Each turn of the loop takes its record in, once. *)
Lemma journeyStep_held (st : JourneyState) (r : TransactionRecord) :
  heldRecords (journeyStep st r) ≡ₚ heldRecords st ++ [r].
Proof.
  unfold journeyStep, heldRecords.
  destruct st as [js pending].
  repeat case_match; simpl;
    rewrite ?journeyRecords_app; unfold journeyRecords; simpl;
    rewrite ?app_nil_r, <- ?(assoc_L (++)); simpl;
    first [ done | apply Permutation_app_head, (Permutation_app_comm [r]) ].
Qed.

Lemma journeyLoop_held (l : list TransactionRecord) (st : JourneyState) :
  heldRecords (fold_left journeyStep l st) ≡ₚ heldRecords st ++ l.
Proof.
  revert st. induction l as [|r l IH]; intros st; simpl; [by rewrite app_nil_r|].
  rewrite IH, journeyStep_held. by rewrite <- (assoc_L (++)).
Qed.

Lemma flushPending_held (st : JourneyState) :
  journeyRecords (flushPending st) = heldRecords st.
Proof.
  unfold flushPending, heldRecords. destruct (pendingEntry st); simpl.
  - by rewrite journeyRecords_app.
  - by rewrite app_nil_r.
Qed.

(** C4: the records of the journeys that [buildJourneyBlocks] returns are
    the input records, each as many times as in the input: none is dropped
    and none is in two journeys.  An entry still pending when the loop ends
    comes out as a journey of the kind [viaje-unico] of its own. *)
Theorem journey_exhaustiveness (records : list TransactionRecord) :
  journeyRecords (buildJourneyBlocks records) ≡ₚ records
  /\ (forall pending,
        pendingEntry (fold_left journeyStep (sortByDate records) {| journeys := []; pendingEntry := None |})
          = Some pending ->
        singleJourney pending "entrada-final" ∈ buildJourneyBlocks records
        /\ jkind (singleJourney pending "entrada-final") = viaje_unico
        /\ History.records (singleJourney pending "entrada-final") = [pending]).
Proof.
  split.
  - unfold buildJourneyBlocks, pairJourneys.
    rewrite (journeyRecords_perm _ _ (stableSort_perm _ _)).
    rewrite flushPending_held, journeyLoop_held. simpl.
    apply stableSort_perm.
  - intros pending Hp. split; [|done].
    unfold buildJourneyBlocks, pairJourneys, flushPending.
    rewrite stableSort_perm, Hp. apply elem_of_app. right. by left.
Qed.

Lemma roundMinutes_nearest (diff : Z) :
  60000 * ((diff + 30000) / 60000) - 30000 <= diff < 60000 * ((diff + 30000) / 60000) + 30000.
Proof.
  pose proof (Z.div_mod (diff + 30000) 60000 ltac:(lia)).
  pose proof (Z.mod_pos_bound (diff + 30000) 60000 ltac:(lia)). lia.
Qed.

Lemma journeys_grow (l : list TransactionRecord) (st : JourneyState) :
  exists more, journeys (fold_left journeyStep l st) = journeys st ++ more.
Proof.
  revert st. induction l as [|r l IH]; intros st; simpl; [exists []; by rewrite app_nil_r|].
  destruct (IH (journeyStep st r)) as [more ->].
  assert (exists one, journeys (journeyStep st r) = journeys st ++ one) as [one ->].
  { unfold journeyStep. repeat case_match; simpl; eauto. exists []. by rewrite app_nil_r. }
  exists (one ++ more). by rewrite (assoc_L (++)).
Qed.

Lemma journeyStep_wellPaired (st : JourneyState) (r : TransactionRecord) :
  Forall wellPaired (journeys st) -> Forall wellPaired (journeys (journeyStep st r)).
Proof.
  intros Hst. unfold journeyStep.
  repeat case_match; simpl; try done;
    apply Forall_app; (split; [done|]); repeat constructor; try (intros [=]).
  eexists. split_and!; try reflexivity; simpl;
    repeat match goal with Hlt : (_ <? _) = false |- _ => apply Z.ltb_ge in Hlt end; lia.
Qed.

Lemma journeyLoop_wellPaired (l : list TransactionRecord) (st : JourneyState) :
  Forall wellPaired (journeys st) -> Forall wellPaired (journeys (fold_left journeyStep l st)).
Proof.
  revert st. induction l as [|r l IH]; intros st Hst; simpl; [done|].
  by apply IH, journeyStep_wellPaired.
Qed.

Lemma buildJourneyBlocks_wellPaired (records : list TransactionRecord) :
  Forall wellPaired (buildJourneyBlocks records).
Proof.
  unfold buildJourneyBlocks. rewrite stableSort_perm.
  unfold pairJourneys, flushPending.
  pose proof (journeyLoop_wellPaired (sortByDate records) {| journeys := []; pendingEntry := None |}
                ltac:(constructor)) as HF.
  destruct (pendingEntry _); [|done].
  apply Forall_app. split; [done|]. repeat constructor. intros [=].
Qed.

Lemma journeyStep_entry (st : JourneyState) (entrada : TransactionRecord) :
  isRecargaTransaction entrada = false -> isSingleValidation entrada = false ->
  isEntryValidation entrada = true ->
  pendingEntry (journeyStep st entrada) = Some entrada.
Proof. intros H1 H2 H3. unfold journeyStep. by rewrite H1, H2, H3. Qed.

Lemma journeyStep_exit (st : JourneyState) (pending salida : TransactionRecord) :
  isRecargaTransaction salida = false -> isSingleValidation salida = false ->
  isEntryValidation salida = false -> isExitValidation salida = true ->
  pendingEntry st = Some pending ->
  journeyStep st salida =
    let diff := getRecordDate salida - getRecordDate pending in
    {| journeys :=
         if diff <? 0 then
           journeys st ++ [singleJourney pending "entrada-desorden"; singleJourney salida "salida-desorden"]
         else if TEN_HOURS_MS <? diff then
           journeys st ++ [singleJourney pending "entrada-10h"; singleJourney salida "salida-10h"]
         else journeys st ++ [pairedJourney pending salida diff];
       pendingEntry := None |}.
Proof. intros H1 H2 H3 H4 Hp. unfold journeyStep. by rewrite H1, H2, H3, H4, Hp. Qed.

Lemma pairJourneys_middle (before after : list TransactionRecord) (entrada salida : TransactionRecord) :
  isRecargaTransaction entrada = false -> isSingleValidation entrada = false ->
  isEntryValidation entrada = true ->
  isRecargaTransaction salida = false -> isSingleValidation salida = false ->
  isEntryValidation salida = false -> isExitValidation salida = true ->
  exists js1 js2,
    pairJourneys (before ++ entrada :: salida :: after) =
      js1 ++ (let diff := getRecordDate salida - getRecordDate entrada in
              if diff <? 0 then
                [singleJourney entrada "entrada-desorden"; singleJourney salida "salida-desorden"]
              else if TEN_HOURS_MS <? diff then
                [singleJourney entrada "entrada-10h"; singleJourney salida "salida-10h"]
              else [pairedJourney entrada salida diff]) ++ js2.
Proof.
  intros E1 E2 E3 S1 S2 S3 S4. unfold pairJourneys.
  rewrite fold_left_app. simpl.
  set (st1 := journeyStep (fold_left journeyStep before _) entrada).
  pose proof (journeyStep_entry (fold_left journeyStep before {| journeys := []; pendingEntry := None |})
                entrada E1 E2 E3) as Hp. fold st1 in Hp.
  rewrite (journeyStep_exit st1 entrada salida S1 S2 S3 S4 Hp). cbv zeta.
  set (st2 := {| journeys := _; pendingEntry := None |}).
  destruct (journeys_grow after st2) as [more Hmore].
  unfold flushPending. rewrite Hmore.
  exists (journeys st1).
  destruct (pendingEntry (fold_left journeyStep after st2)) as [p|];
    [exists (more ++ [singleJourney p "entrada-final"]) | exists more];
    subst st2; simpl; repeat case_match; by rewrite <- ?(assoc_L (++)).
Qed.

Lemma sortByDate_pair (a b : TransactionRecord) :
  sortByDate [a; b] = if getRecordDate a - getRecordDate b <=? 0 then [a; b] else [b; a].
Proof. unfold sortByDate, stableSort, dateNotAfter. simpl. by case_match. Qed.

Lemma sortJourneys_pair (a b : JourneyBlock) :
  stableSort startNotBefore [a; b] =
    if getRecordDate (start b) - getRecordDate (start a) <=? 0 then [a; b] else [b; a].
Proof. unfold stableSort, startNotBefore. simpl. by case_match. Qed.

Lemma pairJourneys_entry_exit (entrada salida : TransactionRecord) :
  isRecargaTransaction entrada = false -> isSingleValidation entrada = false ->
  isEntryValidation entrada = true ->
  isRecargaTransaction salida = false -> isSingleValidation salida = false ->
  isEntryValidation salida = false -> isExitValidation salida = true ->
  pairJourneys [entrada; salida] =
    let diff := getRecordDate salida - getRecordDate entrada in
    if diff <? 0 then
      [singleJourney entrada "entrada-desorden"; singleJourney salida "salida-desorden"]
    else if TEN_HOURS_MS <? diff then
      [singleJourney entrada "entrada-10h"; singleJourney salida "salida-10h"]
    else [pairedJourney entrada salida diff].
Proof.
  intros E1 E2 E3 S1 S2 S3 S4. unfold pairJourneys. simpl.
  assert (journeyStep {| journeys := []; pendingEntry := None |} entrada
          = {| journeys := []; pendingEntry := Some entrada |}) as ->.
  { unfold journeyStep. by rewrite E1, E2, E3. }
  rewrite (journeyStep_exit {| journeys := []; pendingEntry := Some entrada |} entrada salida
             S1 S2 S3 S4 eq_refl).
  unfold flushPending. simpl. by repeat case_match.
Qed.

Lemma pairJourneys_exit_entry (entrada salida : TransactionRecord) :
  isRecargaTransaction entrada = false -> isSingleValidation entrada = false ->
  isEntryValidation entrada = true ->
  isRecargaTransaction salida = false -> isSingleValidation salida = false ->
  isEntryValidation salida = false -> isExitValidation salida = true ->
  pairJourneys [salida; entrada] =
    [singleJourney salida "salida-suelta"; singleJourney entrada "entrada-final"].
Proof.
  intros E1 E2 E3 S1 S2 S3 S4. unfold pairJourneys. simpl.
  unfold journeyStep at 2. rewrite S1, S2, S3, S4. simpl.
  unfold journeyStep. by rewrite E1, E2, E3.
Qed.

(** C2: an entry and an exit [delta] milliseconds later.  Alone, in either
    order of the input: for [0 < delta] up to ten hours the output is the one
    journey of the kind [viaje], with the minutes [delta / 60000] rounded to
    the nearest whole number (a half goes up) and at least 1; for a negative
    [delta] or one over ten hours the output is two journeys of the kind
    [viaje-unico], one for each record.  Among other records, when the two
    come next to each other in time order, the same journeys are in the
    output.  And no output ever holds a [viaje] of the two records when
    [delta] is negative or over ten hours. *)
Theorem pairing_correctness (entrada salida : TransactionRecord) :
  isRecargaTransaction entrada = false -> isSingleValidation entrada = false ->
  isEntryValidation entrada = true ->
  isRecargaTransaction salida = false -> isSingleValidation salida = false ->
  isEntryValidation salida = false -> isExitValidation salida = true ->
  let delta := getRecordDate salida - getRecordDate entrada in
  (forall records, records = [entrada; salida] \/ records = [salida; entrada] ->
     (0 < delta <= TEN_HOURS_MS ->
        buildJourneyBlocks records = [pairedJourney entrada salida delta])
     /\ (delta < 0 ->
          buildJourneyBlocks records =
            [singleJourney entrada "entrada-final"; singleJourney salida "salida-suelta"])
     /\ (TEN_HOURS_MS < delta ->
          buildJourneyBlocks records =
            [singleJourney salida "salida-10h"; singleJourney entrada "entrada-10h"]))
  /\ jkind (pairedJourney entrada salida delta) = viaje
  /\ durationMinutes (pairedJourney entrada salida delta) = Some (Z.max 1 ((delta + 30000) / 60000))
  /\ 60000 * ((delta + 30000) / 60000) - 30000 <= delta < 60000 * ((delta + 30000) / 60000) + 30000
  /\ (forall r reason, jkind (singleJourney r reason) = viaje_unico /\ records (singleJourney r reason) = [r])
  /\ (forall records before after, sortByDate records = before ++ entrada :: salida :: after ->
        (0 <= delta <= TEN_HOURS_MS -> pairedJourney entrada salida delta ∈ buildJourneyBlocks records)
        /\ (TEN_HOURS_MS < delta ->
             singleJourney entrada "entrada-10h" ∈ buildJourneyBlocks records
             /\ singleJourney salida "salida-10h" ∈ buildJourneyBlocks records))
  /\ (forall records j, j ∈ buildJourneyBlocks records -> jkind j = viaje ->
        start j = entrada -> end_ j = Some salida -> 0 <= delta <= TEN_HOURS_MS).
Proof.
  intros E1 E2 E3 S1 S2 S3 S4 delta.
  split_and!; try done.
  - intros records Hrec. split_and!; intros Hd; unfold buildJourneyBlocks.
    + assert (sortByDate records = [entrada; salida]) as ->.
      { destruct Hrec as [-> | ->]; rewrite sortByDate_pair; zbool; done || lia. }
      rewrite (pairJourneys_entry_exit entrada salida) by done. cbv zeta. fold delta.
      zbool; done || lia.
    + assert (sortByDate records = [salida; entrada]) as ->.
      { destruct Hrec as [-> | ->]; rewrite sortByDate_pair; zbool; done || lia. }
      rewrite (pairJourneys_exit_entry entrada salida) by done.
      rewrite sortJourneys_pair. simpl. zbool; done || lia.
    + unfold TEN_HOURS_MS in Hd.
      assert (sortByDate records = [entrada; salida]) as ->.
      { destruct Hrec as [-> | ->]; rewrite sortByDate_pair; zbool; done || lia. }
      rewrite (pairJourneys_entry_exit entrada salida) by done. cbv zeta. fold delta.
      unfold TEN_HOURS_MS.
      destruct (Z.ltb_spec delta 0); [lia|].
      destruct (Z.ltb_spec (10 * 60 * 60 * 1000) delta); [|lia].
      rewrite sortJourneys_pair. simpl. fold delta. zbool; done || lia.
  - apply roundMinutes_nearest.
  - apply roundMinutes_nearest.
  - intros records before after Hsorted.
    destruct (pairJourneys_middle before after entrada salida) as (js1 & js2 & Hpair); try done.
    cbv zeta in Hpair. fold delta in Hpair.
    split; intros Hd; unfold buildJourneyBlocks; rewrite stableSort_perm, Hsorted, Hpair.
    + destruct (Z.ltb_spec delta 0); [lia|]. destruct (Z.ltb_spec TEN_HOURS_MS delta); [lia|].
      rewrite !elem_of_app, list_elem_of_singleton. auto.
    + destruct (Z.ltb_spec delta 0); [unfold TEN_HOURS_MS in Hd; lia|].
      destruct (Z.ltb_spec TEN_HOURS_MS delta); [|lia].
      split; rewrite !elem_of_app, !elem_of_cons; auto 6.
  - intros records j Hj Hk Hs He.
    pose proof (buildJourneyBlocks_wellPaired records) as HF.
    rewrite Forall_forall in HF. destruct (HF j Hj Hk) as (x & Hx & _ & Hrange & _).
    rewrite He in Hx. injection Hx as <-. by rewrite Hs in Hrange.
Qed.

End Journeys.

Section Fares.
Context `{Runtime} `{TariffData}.

Lemma lookup_in_table (title : option string) :
  getTariffInfoFromTitle title ∈ TARIFFS \/ getTariffInfoFromTitle title = FALLBACK_LITERAL.
Proof.
  destruct (lookup_cases title) as [Hd|Hin]; [|by left].
  rewrite Hd. unfold DEFAULT_TARIFF.
  destruct (TARIFF_BY_NAME !! DEFAULT_TARIFF_NAME) as [t|] eqn:Ht; simpl.
  - left. by apply TARIFF_BY_NAME_lookup in Ht as [? _].
  - unfold FALLBACK_TARIFF. destruct TARIFFS as [|t l]; simpl; [by right | left; by left].
Qed.

(** A limited pass of the table has trips. *)
Lemma limited_has_trips (title : option string) :
  kind (getTariffInfoFromTitle title) = limited_pass -> 0 < limitTravel (getTariffInfoFromTitle title).
Proof.
  destruct (lookup_in_table title) as [Hin| ->]; [|done].
  rewrite (TARIFFS_kind _ Hin). unfold inferTariffKind.
  repeat case_match; try done; intros _; by apply Z.ltb_lt.
Qed.

(** The purchase sets the pass up with all its trips and the flag that
    spares the next entry; its own insight shows all the trips. *)
Lemma purchase_step (st : FareState) (purchase : TransactionRecord) :
  limitedPurchase purchase ->
  let t := getTariffInfoFromTitle (Some (titulo purchase)) in
  exists pass ins,
    fareStep st purchase =
      {| insights := <[getRecordKey purchase := ins]> (insights st);
         passStates := <[normalizedName t := pass]> (passStates st) |}
    /\ pass_kind pass = pass_limited
    /\ totalTrips pass = Some (limitTravel t)
    /\ remainingTrips pass = Some (limitTravel t)
    /\ ignoreNextEntry pass = true
    /\ usageKind ins = title_recharge
    /\ passContext ins ≫= snap_remainingTrips = Some (limitTravel t).
Proof.
  intros (Hw & Ht & Hk) t.
  pose proof (limited_has_trips _ Hk) as Hpos. fold t in Hpos, Hk.
  unfold fareStep. rewrite Hw, Ht. fold t. rewrite Hk. simpl.
  destruct (Z.eqb_spec (limitTravel t) 0) as [E|_]; [lia|].
  eexists _, _. split; [reflexivity|]. by split_and!.
Qed.

(** A qualifying ride under a limited pass: the first after the purchase
    only clears the flag, every later one takes a trip, never below 0. *)
Lemma ride_step (st : FareState) (n : string) (r : TransactionRecord) (pass : PassState) (R : Z) :
  qualifyingRide n r ->
  passStates st !! n = Some pass ->
  pass_kind pass = pass_limited ->
  remainingTrips pass = Some R ->
  let R' := if ignoreNextEntry pass then R else Z.max (R - 1) 0 in
  exists pass' ins,
    fareStep st r =
      {| insights := <[getRecordKey r := ins]> (insights st);
         passStates := <[n := pass']> (passStates st) |}
    /\ pass_kind pass' = pass_limited
    /\ totalTrips pass' = totalTrips pass
    /\ remainingTrips pass' = Some R'
    /\ ignoreNextEntry pass' = false
    /\ usageKind ins = ride
    /\ insightRemaining ins = Some R'
    /\ limitedContext ins ≫= lc_totalTrips = totalTrips pass
    /\ passContext ins ≫= snap_remainingTrips = Some R'.
Proof.
  intros (Hw & Ht & He & Hn) Hp Hk HR R'.
  unfold fareStep. rewrite Hw, Ht. simpl. rewrite Hn, Hp, Hk, HR, He.
  destruct (ignoreNextEntry pass) eqn:Hi; subst R';
    eexists _, _; (split; [reflexivity|]); split_and!; simpl; try done.
Qed.

Lemma rides_loop (n : string) (rs : list TransactionRecord) :
  forall (st : FareState) (pass : PassState) (R : Z),
  Forall (qualifyingRide n) rs ->
  NoDup (map getRecordKey rs) ->
  passStates st !! n = Some pass ->
  pass_kind pass = pass_limited ->
  remainingTrips pass = Some R ->
  0 <= R ->
  let off := if ignoreNextEntry pass then 0 else 1 in
  let final := fold_left fareStep rs st in
  (forall (i : nat) r, rs !! i = Some r ->
     exists ins, insights final !! getRecordKey r = Some ins
       /\ usageKind ins = ride
       /\ insightRemaining ins = Some (Z.max (R - (Z.of_nat i + off)) 0)
       /\ limitedContext ins ≫= lc_totalTrips = totalTrips pass)
  /\ (forall k, k ∉ map getRecordKey rs -> insights final !! k = insights st !! k).
Proof.
  induction rs as [|r rs IH]; intros st pass R Hq Hnd Hp Hk HR HR0 off final.
  { split; [intros i r Hr; by rewrite lookup_nil in Hr | done]. }
  apply Forall_cons in Hq as [Hr Hq]. apply NoDup_cons in Hnd as [Hnotin Hnd].
  destruct (ride_step st n r pass R Hr Hp Hk HR) as (pass' & ins & Hstep & Hk' & Htot & HR' & Hi' & Hu & Hrem & Hlt & _).
  set (R' := if ignoreNextEntry pass then R else Z.max (R - 1) 0) in *.
  assert (0 <= R') as HR0' by (subst R'; destruct (ignoreNextEntry pass); lia).
  assert (Hp' : passStates (fareStep st r) !! n = Some pass')
    by (rewrite Hstep; simpl; apply lookup_insert_eq).
  destruct (IH (fareStep st r) pass' R' Hq Hnd Hp' Hk' HR' HR0') as [IHi IHk].
  rewrite Hi' in IHi. subst final. simpl. split.
  - intros [|i] r' Hr'; simpl in Hr'.
    + injection Hr' as <-. rewrite (IHk _ Hnotin), Hstep. simpl. rewrite lookup_insert_eq.
      exists ins. split_and!; try done. rewrite Hrem. f_equal. subst R' off.
      destruct (ignoreNextEntry pass); lia.
    + destruct (IHi i r' Hr') as (ins' & Hl & Hu' & Hrem' & Hlt').
      exists ins'. split_and!; try done; [|congruence]. rewrite Hrem'. f_equal. subst R' off.
      destruct (ignoreNextEntry pass); lia.
  - intros k Hkn. apply not_elem_of_cons in Hkn as [Hne Hkn].
    rewrite (IHk k Hkn), Hstep. simpl. by rewrite lookup_insert_ne.
Qed.


End Fares.



Section Stats.

#[local] Arguments addCounts : simpl never.

Lemma addCounts_assoc (a b c : Z * Z * Z * Z) :
  addCounts (addCounts a b) c = addCounts a (addCounts b c).
Proof.
  destruct a as [[[? ?] ?] ?], b as [[[? ?] ?] ?], c as [[[? ?] ?] ?].
  unfold addCounts. rewrite !pair_equal_spec. lia.
Qed.

Lemma addCounts_comm (a b : Z * Z * Z * Z) : addCounts a b = addCounts b a.
Proof.
  destruct a as [[[? ?] ?] ?], b as [[[? ?] ?] ?].
  unfold addCounts. rewrite !pair_equal_spec. lia.
Qed.

Lemma addCounts_zero (a : Z * Z * Z * Z) : addCounts a (0, 0, 0, 0) = a.
Proof. destruct a as [[[? ?] ?] ?]. unfold addCounts. rewrite !pair_equal_spec. lia. Qed.

Lemma totalCounts_app ins (a b : list JourneyBlock) :
  totalCounts ins (a ++ b) = addCounts (totalCounts ins a) (totalCounts ins b).
Proof.
  induction a as [|j a IH]; simpl.
  - by rewrite addCounts_comm, addCounts_zero.
  - by rewrite IH, addCounts_assoc.
Qed.

Lemma totalCounts_perm ins (a b : list JourneyBlock) :
  a ≡ₚ b -> totalCounts ins a = totalCounts ins b.
Proof.
  induction 1 as [|j a b _ IH|j k a|a b c _ IH1 _ IH2]; simpl; try congruence.
  rewrite <- !addCounts_assoc. f_equal. apply addCounts_comm.
Qed.

Lemma statsRecord_fold ins (rs : list TransactionRecord) (sav spe : float) :
  fold_left (statsRecord ins) rs (sav, spe) =
    (addAll sav (omap (fun record => Num.Math_max 0 <$> (ins !! getRecordKey record ≫= savingsAmount)) rs),
     addAll spe (omap (fun record => match ins !! getRecordKey record ≫= passContext with
                                     | Some _ => None
                                     | None => Some (Num.Math_abs (importe record))
                                     end) rs)).
Proof.
  revert sav spe. induction rs as [|r rs IH]; intros sav spe; simpl; [done|].
  rewrite IH. unfold addAll.
  destruct (ins !! getRecordKey r ≫= savingsAmount), (ins !! getRecordKey r ≫= passContext); done.
Qed.

Lemma statsStep_fields ins (stats : JourneyStats) (j : JourneyBlock) :
  wholeFields (statsStep ins stats j) = addCounts (wholeFields stats) (countsOf ins j)
  /\ spent (statsStep ins stats j) = addAll (spent stats) (spendAmounts ins j)
  /\ savings (statsStep ins stats j) = addAll (savings stats) (savingAmounts ins j).
Proof.
  unfold statsStep, countsOf, spendAmounts, savingAmounts, wholeFields.
  destruct (jkind j) eqn:Hk; simpl.
  - rewrite statsRecord_fold. simpl. split_and!; [|done..].
    destruct (durationMinutes j); unfold addCounts; simpl; rewrite !pair_equal_spec; lia.
  - rewrite statsRecord_fold. simpl. split_and!; [|done..]. unfold addCounts; rewrite !pair_equal_spec; lia.
  - split_and!; [|done..].
    destruct (ins !! getRecordKey (start j)) as [[[] ? ? ? ? ?]|]; unfold addCounts; simpl;
      rewrite !pair_equal_spec; lia.
  - split_and!; [|done..]. unfold addCounts; rewrite !pair_equal_spec; lia.
Qed.

Lemma addAll_app (acc : float) (a b : list float) : addAll acc (a ++ b) = addAll (addAll acc a) b.
Proof. unfold addAll. by rewrite fold_left_app. Qed.

Lemma statsLoop_fields ins (js : list JourneyBlock) (stats : JourneyStats) :
  wholeFields (fold_left (statsStep ins) js stats) = addCounts (wholeFields stats) (totalCounts ins js)
  /\ spent (fold_left (statsStep ins) js stats) = addAll (spent stats) (flat_map (spendAmounts ins) js)
  /\ savings (fold_left (statsStep ins) js stats) = addAll (savings stats) (flat_map (savingAmounts ins) js).
Proof.
  revert stats. induction js as [|j js IH]; intros stats; simpl.
  - by rewrite addCounts_zero.
  - destruct (IH (statsStep ins stats j)) as (-> & -> & ->).
    destruct (statsStep_fields ins stats j) as (-> & -> & ->).
    by rewrite addCounts_assoc, !addAll_app.
Qed.

(** C3 (as the code has it): over any split of the journeys in two parts,
    the rides, the wallet recharges, the title purchases and the travel
    minutes of the sum of the two statistics are those of the statistics of
    the whole.  The spend and the savings are sums of binary64 numbers taken
    from the left: over the whole they go on from the spend and the savings
    of the first part, amount by amount, while the sum of the two
    statistics adds the two totals. *)
Theorem stats_additivity (whole partA partB : list JourneyBlock) (ins : gmap string FareInsight) :
  whole ≡ₚ partA ++ partB ->
  let total := computeJourneyStats whole ins in
  let statsA := computeJourneyStats partA ins in
  let statsB := computeJourneyStats partB ins in
  let summed := sumJourneyStats [statsA; statsB] in
  rides summed = rides total
  /\ walletRecharges summed = walletRecharges total
  /\ titlePurchases summed = titlePurchases total
  /\ travelMinutes summed = travelMinutes total
  /\ spent summed = (0 + spent statsA + spent statsB)%float
  /\ savings summed = (0 + savings statsA + savings statsB)%float
  /\ (whole = partA ++ partB ->
        spent total = addAll (spent statsA) (flat_map (spendAmounts ins) partB)
        /\ savings total = addAll (savings statsA) (flat_map (savingAmounts ins) partB)).
Proof.
  intros Hperm total statsA statsB summed.
  assert (wholeFields summed = wholeFields total) as Hw.
  { subst summed total statsA statsB. unfold computeJourneyStats, sumJourneyStats.
    destruct (statsLoop_fields ins whole createJourneyStats) as (-> & _).
    rewrite (totalCounts_perm ins _ _ Hperm), totalCounts_app.
    pose proof (statsLoop_fields ins partA createJourneyStats) as (HA & _).
    pose proof (statsLoop_fields ins partB createJourneyStats) as (HB & _).
    unfold wholeFields in *. simpl in *.
    destruct (totalCounts ins partA) as [[[? ?] ?] ?], (totalCounts ins partB) as [[[? ?] ?] ?].
    unfold addCounts in *. simpl in *. injection HA as -> -> -> ->. injection HB as -> -> -> ->.
    rewrite !pair_equal_spec; lia. }
  unfold wholeFields in Hw. injection Hw as Hw1 Hw2 Hw3 Hw4.
  split_and!; try done.
  intros ->. subst total statsA. unfold computeJourneyStats.
  rewrite fold_left_app.
  destruct (statsLoop_fields ins partB (fold_left (statsStep ins) partA createJourneyStats)) as (_ & -> & ->).
  done.
Qed.

End Stats.

(** C3, counterexample: the three wallet rides of the sample split by month
    (March, then February).  The spend of the whole is 3.1599999999999997
    and the sum of the two parts is 3.16; the same happens to the savings of
    the three rides under the monthly pass. *)
Lemma stats_sum_drifts :
  let journeys := @buildJourneyBlocks Sample.utcRuntime Sample.walletRides in
  let ins := @buildFareInsights Sample.utcRuntime Sample.sampleTariffs Sample.walletRides in
  let journeys' := @buildJourneyBlocks Sample.utcRuntime Sample.passRides in
  let ins' := @buildFareInsights Sample.utcRuntime Sample.sampleTariffs Sample.passRides in
  spent (sumJourneyStats [computeJourneyStats (take 1 journeys) ins; computeJourneyStats (drop 1 journeys) ins])
    <> spent (computeJourneyStats (take 1 journeys ++ drop 1 journeys) ins)
  /\ savings (sumJourneyStats [computeJourneyStats (take 1 journeys') ins';
                               computeJourneyStats (drop 1 journeys') ins'])
    <> savings (computeJourneyStats (take 1 journeys' ++ drop 1 journeys') ins').
Proof.
  split; intros E.
  - match type of E with ?a = ?b =>
      assert (PrimFloat.eqb a b = PrimFloat.eqb b b) as C by (rewrite E; reflexivity) end.
    vm_compute in C. discriminate.
  - match type of E with ?a = ?b =>
      assert (PrimFloat.eqb a b = PrimFloat.eqb b b) as C by (rewrite E; reflexivity) end.
    vm_compute in C. discriminate.
Qed.

(** C3, an instance: the same split of the wallet rides. *)
Lemma stats_additivity_witness :
  let journeys := @buildJourneyBlocks Sample.utcRuntime Sample.walletRides in
  let ins := @buildFareInsights Sample.utcRuntime Sample.sampleTariffs Sample.walletRides in
  rides (sumJourneyStats [computeJourneyStats (take 1 journeys) ins; computeJourneyStats (drop 1 journeys) ins])
    = rides (computeJourneyStats journeys ins).
Proof.
  intros journeys ins.
  destruct (stats_additivity journeys (take 1 journeys) (drop 1 journeys) ins) as (Hrides & _).
  - by vm_compute.
  - exact Hrides.
Defined.

(** C4, an instance: an entry with no exit after it is kept, as a journey of
    its own. *)
Lemma journey_exhaustiveness_witness :
  let entrada := Sample.ride 7 "2024-03-12T08:15:00" "Entrada" "Abando" (-0.96) "Creditrans" in
  singleJourney entrada "entrada-final" ∈ @buildJourneyBlocks Sample.utcRuntime [entrada].
Proof.
  intros entrada.
  destruct (@journey_exhaustiveness Sample.utcRuntime [entrada]) as [_ Hflush].
  by apply Hflush.
Defined.

(** C2, an instance: an entry at 08:15:00 and an exit at 08:23:10 make one
    journey of 8 minutes. *)
Lemma pairing_correctness_witness :
  let entrada := Sample.ride 7 "2024-03-12T08:15:00" "Entrada" "Abando" (-0.96) "Creditrans" in
  let salida := Sample.ride 8 "2024-03-12T08:23:10" "Salida" "Moyua" 0 "Creditrans" in
  @buildJourneyBlocks Sample.utcRuntime [salida; entrada]
    = [@pairedJourney entrada salida 490000]
  /\ durationMinutes (pairedJourney entrada salida 490000) = Some 8.
Proof.
  intros entrada salida.
  destruct (@pairing_correctness Sample.utcRuntime entrada salida
              eq_refl eq_refl eq_refl eq_refl eq_refl eq_refl eq_refl)
    as (Halone & _ & Hminutes & _).
  split; [|exact Hminutes].
  apply (Halone [salida; entrada]); [by right | vm_compute; done].
Defined.

End HistoryFacts.

(** ** The caller's array *)

Module StoreFacts.
Import Store.

Lemma fresh_not_in (s : store) (l : loc) (rs : list TransactionRecord) :
  s !! l = Some rs -> fresh (dom s) <> l.
Proof.
  intros Hl E. pose proof (is_fresh (dom s)) as Hf. rewrite E in Hf.
  apply Hf, elem_of_dom. by exists rs.
Qed.

(** A sort in place does change the array it is given. *)
Lemma sortInPlace_changes le (s s' : store) (l l' : loc) (rs : list TransactionRecord) :
  s !! l = Some rs -> sortInPlace le l s = Some (l', s') ->
  l' = l /\ s' !! l = Some (stableSort le rs).
Proof.
  intros Hl. unfold sortInPlace. rewrite Hl. intros [= <- <-]. by rewrite lookup_insert_eq.
Qed.

Section WithRuntime.
Context `{Runtime} `{History.TariffData}.

(** The copy, its sort and the read leave every array of the caller as it
    was and read the sorted records. *)
Lemma sorted_copy (s : store) (l : loc) (rs : list TransactionRecord) :
  s !! l = Some rs ->
  exists s',
    (let* copy := spread l in
     let* sorted := sortInPlace History.dateNotAfter copy in
     let* xs := read sorted in
     ret xs) s = Some (History.sortByDate rs, s')
    /\ forall l', is_Some (s !! l') -> s' !! l' = s !! l'.
Proof.
  intros Hl. unfold bind, spread, sortInPlace, read, ret. rewrite Hl.
  rewrite lookup_insert_eq, lookup_insert_eq. eexists. split; [reflexivity|].
  intros l' [xs Hxs]. rewrite insert_insert_eq.
  apply lookup_insert_ne. by eapply fresh_not_in.
Qed.

(** C9: [buildFareInsights] and [buildJourneyBlocks] run on a reference to
    the caller's array return what they compute from its records and leave
    the array, and every other array of the store, with the same records in
    the same order. *)
Theorem input_not_mutated (s : store) (l : loc) (rs : list TransactionRecord) :
  s !! l = Some rs ->
  (exists s', buildFareInsights l s = Some (History.buildFareInsights rs, s')
     /\ s' !! l = Some rs
     /\ forall l', is_Some (s !! l') -> s' !! l' = s !! l')
  /\ (exists s', buildJourneyBlocks l s = Some (History.buildJourneyBlocks rs, s')
     /\ s' !! l = Some rs
     /\ forall l', is_Some (s !! l') -> s' !! l' = s !! l').
Proof.
  intros Hl.
  assert (Hfresh : fresh (dom s) <> l) by (by eapply fresh_not_in).
  split; eexists;
    (unfold buildFareInsights, buildJourneyBlocks, bind, spread, sortInPlace, read, ret;
     rewrite Hl, lookup_insert_eq, lookup_insert_eq; split; [reflexivity|]);
    rewrite insert_insert_eq;
    (split; [by rewrite lookup_insert_ne | intros l' [xs Hxs]; apply lookup_insert_ne;
                                            by eapply fresh_not_in]).
Qed.

End WithRuntime.

(** C9, an instance: the wallet rides given latest first stay latest first
    in the caller's array. *)
Lemma input_not_mutated_witness :
  let rs := rev Sample.walletRides in
  let s : store := {[ 1%positive := rs ]} in
  (exists s', @buildFareInsights Sample.utcRuntime Sample.sampleTariffs 1%positive s
              = Some (@History.buildFareInsights Sample.utcRuntime Sample.sampleTariffs rs, s')
     /\ s' !! 1%positive = Some rs)
  /\ @History.sortByDate Sample.utcRuntime rs <> rs.
Proof.
  intros rs s. split.
  - destruct (@input_not_mutated Sample.utcRuntime Sample.sampleTariffs s 1%positive rs eq_refl)
      as [(s' & Hrun & Hsame & _) _].
    exists s'. by split.
  - vm_compute. intros [=].
Defined.

End StoreFacts.

(** ** The station graph and the path finder *)

Module MetroFacts.
Import Metro.

Lemma elem_of_setAdd (x y : string) (l : list string) : y ∈ setAdd x l <-> y = x \/ y ∈ l.
Proof.
  unfold setAdd. case_bool_decide as Hx.
  - split; [by right | intros [->|?]; done].
  - rewrite elem_of_app, list_elem_of_singleton. tauto.
Qed.

Section Graphs.
Context (K : gset string).

Lemma neighborsOf_insert_eq (g : Graph) a ns : neighborsOf (<[a := ns]> g) a = ns.
Proof. unfold neighborsOf. by rewrite lookup_insert_eq. Qed.

Lemma neighborsOf_insert_ne (g : Graph) a b ns : a <> b -> neighborsOf (<[a := ns]> g) b = neighborsOf g b.
Proof. intros. unfold neighborsOf. by rewrite lookup_insert_ne. Qed.

(** Adding the edge [a - b] both ways keeps the graph undirected. *)
Lemma undirected_add_edge (g : Graph) (a b : string) (na nb : list string) :
  undirected g K -> a ∈ K -> b ∈ K -> a <> b ->
  neighborsOf g a = na -> neighborsOf g b = nb ->
  undirected (<[b := setAdd a nb]> (<[a := setAdd b na]> g)) K.
Proof.
  intros Hg Ha Hb Hab Hna Hnb c ns Hc.
  destruct (decide (c = b)) as [->|Hcb].
  - rewrite lookup_insert_eq in Hc. injection Hc as <-. split; [done|].
    intros d Hd. apply elem_of_setAdd in Hd as [->|Hd].
    + split; [done|]. rewrite neighborsOf_insert_ne, neighborsOf_insert_eq by done.
      apply elem_of_setAdd. by left.
    + subst nb. unfold neighborsOf in Hd. destruct (g !! b) as [nb|] eqn:Hgb; [|by inversion Hd].
      simpl in Hd. destruct (Hg b nb Hgb) as [_ Hall]. destruct (Hall d Hd) as [HdK Hbd].
      split; [done|]. destruct (decide (d = b)) as [->|Hdb].
      { rewrite neighborsOf_insert_eq. apply elem_of_setAdd. by right. }
      rewrite neighborsOf_insert_ne by done.
      destruct (decide (d = a)) as [->|Hda].
      { rewrite neighborsOf_insert_eq. apply elem_of_setAdd. by left. }
      by rewrite neighborsOf_insert_ne.
  - rewrite lookup_insert_ne in Hc by done.
    destruct (decide (c = a)) as [->|Hca].
    + rewrite lookup_insert_eq in Hc. injection Hc as <-. split; [done|].
      intros d Hd. apply elem_of_setAdd in Hd as [->|Hd].
      * split; [done|]. rewrite neighborsOf_insert_eq. apply elem_of_setAdd. by left.
      * subst na. unfold neighborsOf in Hd. destruct (g !! a) as [na|] eqn:Hga; [|by inversion Hd].
        simpl in Hd. destruct (Hg a na Hga) as [_ Hall]. destruct (Hall d Hd) as [HdK Had].
        split; [done|]. destruct (decide (d = b)) as [->|Hdb].
        { rewrite neighborsOf_insert_eq. apply elem_of_setAdd. by left. }
        rewrite neighborsOf_insert_ne by done.
        destruct (decide (d = a)) as [->|Hda].
        { rewrite neighborsOf_insert_eq. apply elem_of_setAdd. by right. }
        by rewrite neighborsOf_insert_ne.
    + rewrite lookup_insert_ne in Hc by done.
      destruct (Hg c ns Hc) as [HcK Hall]. split; [done|].
      intros d Hd. destruct (Hall d Hd) as [HdK Hcd]. split; [done|].
      destruct (decide (d = b)) as [->|Hdb].
      { rewrite neighborsOf_insert_eq. apply elem_of_setAdd. right. by rewrite <- Hnb. }
      rewrite neighborsOf_insert_ne by done.
      destruct (decide (d = a)) as [->|Hda].
      { rewrite neighborsOf_insert_eq. apply elem_of_setAdd. right. by rewrite <- Hna. }
      by rewrite neighborsOf_insert_ne.
Qed.

Lemma undirected_empty : undirected ∅ K.
Proof. intros a ns Ha. by rewrite lookup_empty in Ha. Qed.

(** A new station with no neighbour yet changes no neighbourhood. *)
Lemma undirected_new_node (g : Graph) (a : string) :
  undirected g K -> a ∈ K -> g !! a = None -> undirected (<[a := []]> g) K.
Proof.
  intros Hg Ha Hnone c ns Hc.
  assert (Hsame : forall d, neighborsOf (<[a := []]> g) d = neighborsOf g d).
  { intros d. unfold neighborsOf. destruct (decide (a = d)) as [<-|?].
    - by rewrite lookup_insert_eq, Hnone.
    - by rewrite lookup_insert_ne. }
  destruct (decide (c = a)) as [->|Hca].
  - rewrite lookup_insert_eq in Hc. injection Hc as <-. split; [done|]. intros b Hb. inversion Hb.
  - rewrite lookup_insert_ne in Hc by done. destruct (Hg c ns Hc) as [HcK Hall].
    split; [done|]. intros b Hb. rewrite Hsame. by apply Hall.
Qed.

End Graphs.

Section Search.
Context (g : Graph) (K : gset string) (Hg : undirected g K) (from to : string).

Lemma neighbor_known (c d : string) : d ∈ neighborsOf g c -> d ∈ K.
Proof.
  unfold neighborsOf. destruct (g !! c) as [ns|] eqn:Hc; simpl; [|by inversion 1].
  intros Hd. by apply (Hg c ns Hc).
Qed.

Lemma neighbor_sym (c d : string) : d ∈ neighborsOf g c -> c ∈ neighborsOf g d.
Proof.
  unfold neighborsOf at 1. destruct (g !! c) as [ns|] eqn:Hc; simpl; [|by inversion 1].
  intros Hd. by apply (Hg c ns Hc).
Qed.

Lemma pathTo_length (a c : string) (p : list string) : pathTo g a p c -> (1 <= length p)%nat.
Proof. induction 1; simpl; [lia | rewrite length_app; simpl; lia]. Qed.

(** A route read from its far end: it is the start alone, or a shorter route
    and one more station next to its end. *)
Lemma pathTo_inv (a d : string) (q : list string) :
  pathTo g a q d ->
  (q = [a] /\ d = a) \/ (exists q' c, q = q' ++ [d] /\ pathTo g a q' c /\ d ∈ neighborsOf g c).
Proof. inversion 1; subst; [by left | right; eauto]. Qed.

(** What the walk over the neighbours of the current station does. *)
Lemma visit_fold (path : list string) (ns : list string) :
  forall (visited : gset string) (queue : Queue),
  (forall d, d ∈ ns -> d ∈ K) ->
  exists new : Queue,
    fold_left (visitNeighbor path) ns (visited, queue) = (list_to_set ns ∪ visited, queue ++ new)
    /\ Forall (fun cp => cp.2 = path ++ [cp.1] /\ cp.1 ∈ ns /\ cp.1 ∉ visited) new
    /\ (forall d, d ∈ ns -> d ∉ visited -> d ∈ map fst new)
    /\ (size (K ∖ (list_to_set ns ∪ visited)) + length new = size (K ∖ visited))%nat.
Proof.
  induction ns as [|d ns IH]; intros visited queue HK; simpl.
  - exists []. rewrite app_nil_r. split_and!; [f_equal; set_solver | constructor | by inversion 1 |].
    rewrite Nat.add_0_r. f_equal. set_solver.
  - assert (HK' : forall d', d' ∈ ns -> d' ∈ K) by (intros; apply HK; by right).
    case_bool_decide as Hd.
    + destruct (IH visited queue HK') as (new & -> & Hnew & Hall & Hsize).
      exists new. split_and!.
      * f_equal. set_solver.
      * eapply Forall_impl; [exact Hnew|]. intros [c p] (? & ? & ?). split_and!; try done. by right.
      * intros d' Hd' Hv. apply elem_of_cons in Hd' as [->|Hd']; [done | by apply Hall].
      * rewrite <- Hsize. f_equal. f_equal. set_solver.
    + destruct (IH ({[d]} ∪ visited) (queue ++ [(d, path ++ [d])]) HK') as (new & -> & Hnew & Hall & Hsize).
      exists ((d, path ++ [d]) :: new). split_and!.
      * f_equal; [set_solver | by rewrite <- (assoc_L (++))].
      * constructor; [split_and!; [done | by left | done]|].
        eapply Forall_impl; [exact Hnew|]. intros [c p] (? & ? & ?). split_and!; try done; [by right | set_solver].
      * intros d' Hd' Hv. simpl. destruct (decide (d' = d)) as [->|Hne]; [by left|]. right.
        apply elem_of_cons in Hd' as [->|Hd']; [done|]. apply Hall; [done | set_solver].
      * assert (d ∈ K) by (apply HK; by left).
        assert (K ∖ visited = {[d]} ∪ K ∖ ({[d]} ∪ visited)) as ->.
        { apply set_eq. intros x. rewrite elem_of_union, !elem_of_difference, elem_of_union, elem_of_singleton.
          destruct (decide (x = d)) as [->|]; naive_solver. }
        rewrite (size_union (C:=gset string) {[d]} (K ∖ ({[d]} ∪ visited))) by set_solver.
        rewrite size_singleton.
        simpl. rewrite <- Hsize.
        replace (list_to_set ns ∪ ({[d]} ∪ visited)) with ({[d]} ∪ list_to_set ns ∪ visited) by set_solver.
        lia.
Qed.

(** A station reached by a route shorter than every queued one is visited
    and queued no more. *)
Lemma searchInv_levels (visited : gset string) (queue : Queue) :
  searchInv g from to visited queue ->
  forall q c, pathTo g from q c ->
    (forall c' p', (c', p') ∈ queue -> (length q < length p')%nat) ->
    c ∈ visited /\ c ∉ map fst queue.
Proof.
  intros (Hfrom & Hqueue & _ & Hdone) q c Hpath.
  induction Hpath as [|p c d Hp IH Hd]; intros Hshort.
  - split; [done|]. intros Hin. apply list_elem_of_fmap in Hin as ([c' p'] & -> & Hin).
    destruct (Hqueue _ _ Hin) as [_ [_ Hmin]]. specialize (Hmin [c'] (pathTo_start g c')).
    specialize (Hshort _ _ Hin). simpl in *. lia.
  - destruct IH as [Hc Hcq].
    { intros c' p' Hin. specialize (Hshort _ _ Hin). rewrite length_app in Hshort. simpl in Hshort. lia. }
    destruct (Hdone c Hc Hcq) as [_ Hnb]. split; [by apply Hnb|].
    intros Hin. apply list_elem_of_fmap in Hin as ([c' p'] & -> & Hin).
    destruct (Hqueue _ _ Hin) as [_ [_ Hmin]].
    specialize (Hmin (p ++ [c']) (pathTo_step g from p c c' Hp Hd)).
    specialize (Hshort _ _ Hin). simpl in *. lia.
Qed.

(** One turn of the loop keeps the invariant. *)
Lemma searchInv_step (visited : gset string) (c : string) (p : list string) (rest new : Queue) :
  searchInv g from to visited ((c, p) :: rest) ->
  c <> to ->
  Forall (fun cp => cp.2 = p ++ [cp.1] /\ cp.1 ∈ neighborsOf g c /\ cp.1 ∉ visited) new ->
  (forall d, d ∈ neighborsOf g c -> d ∉ visited -> d ∈ map fst new) ->
  searchInv g from to (list_to_set (neighborsOf g c) ∪ visited) (rest ++ new).
Proof.
  intros Hinv Hcto Hnew Hall.
  pose proof (searchInv_levels _ _ Hinv) as Hlevels.
  destruct Hinv as (Hfrom & Hqueue & (L & A & B & HAB & HA & HB) & Hdone).
  destruct (Hqueue c p ltac:(by left)) as [Hcv [Hcp Hcmin]].
  rewrite Forall_forall in Hnew.
  (* the head has the least length of the queue *)
  assert (Hhead : forall c' p', (c', p') ∈ (c, p) :: rest -> (length p <= length p')%nat).
  { intros c' p' Hin. rewrite HAB in Hin. rewrite Forall_forall in HA, HB.
    destruct A as [|[c0 p0] A']; simpl in HAB.
    - subst B. pose proof (HB (c, p) ltac:(by left)) as H1. pose proof (HB _ Hin) as H2. simpl in *. lia.
    - injection HAB as <- <- ->. pose proof (HA (c, p) ltac:(by left)) as H1.
      apply elem_of_app in Hin as [Hin|Hin]; [pose proof (HA _ Hin) | pose proof (HB _ Hin)];
        simpl in *; lia. }
  split_and!.
  - set_solver.
  - intros c' p' Hin. apply elem_of_app in Hin as [Hin|Hin].
    + destruct (Hqueue c' p' ltac:(by right)) as [? ?]. split; [set_solver | done].
    + destruct (Hnew _ Hin) as (Hp' & Hnb & Hnv). simpl in *. subst p'.
      split; [set_solver|]. split; [by eapply pathTo_step|].
      intros q Hq. rewrite length_app. simpl.
      destruct (le_lt_dec (length q) (length p)) as [Hle|Hlt]; [exfalso | lia].
      destruct (pathTo_inv _ _ _ Hq) as [[-> ->] | (q0 & c0 & -> & Hq0 & Hd0)]; [done|].
      rewrite length_app in Hle. simpl in Hle.
      destruct (Hlevels q0 c0 Hq0) as [Hc0 Hc0q].
      { intros c'' p'' Hin'. specialize (Hhead _ _ Hin'). lia. }
      destruct (Hdone c0 Hc0 Hc0q) as [_ Hnb0]. by apply Hnv, Hnb0.
  - destruct A as [|[c0 p0] A']; simpl in HAB.
    + subst B. apply Forall_cons in HB as [Hp HB]. simpl in Hp.
      exists (S L), rest, new. split_and!; [done | done |].
      apply Forall_forall. intros [c' p'] Hin. destruct (Hnew _ Hin) as (-> & _). simpl.
      rewrite length_app. simpl. lia.
    + injection HAB as <- <- ->. apply Forall_cons in HA as [Hp HA]. simpl in Hp.
      exists L, A', (B ++ new). split_and!; [by rewrite (assoc_L (++)) | done |].
      apply Forall_app. split; [done|].
      apply Forall_forall. intros [c' p'] Hin. destruct (Hnew _ Hin) as (-> & _). simpl.
      rewrite length_app. simpl. lia.
  - intros x Hx Hxq. rewrite map_app in Hxq. apply not_elem_of_app in Hxq as [Hxr Hxn].
    destruct (decide (x ∈ visited)) as [Hv|Hnv].
    + destruct (decide (x = c)) as [->|Hxc].
      * split; [done|]. intros d Hd. set_solver.
      * destruct (Hdone x Hv) as [? Hnb]; [simpl; by apply not_elem_of_cons|].
        split; [done|]. intros d Hd. specialize (Hnb d Hd). set_solver.
    + exfalso. apply Hxn, Hall; [set_solver | done].
Qed.

(** The loop, run with fuel for the stations not yet visited and the queue,
    ends with a shortest route to [to], or with the start alone when no route
    leads to [to]. *)
Lemma searchLoop_correct (fuel : nat) :
  forall (visited : gset string) (queue : Queue),
  searchInv g from to visited queue ->
  (size (K ∖ visited) + length queue < fuel)%nat ->
  exists r, searchLoop g from to fuel visited queue = Some r
    /\ (shortest g from r to \/ (r = [from] /\ forall q, ~ pathTo g from q to)).
Proof.
  induction fuel as [|fuel IH]; intros visited queue Hinv Hfuel; [lia|].
  destruct queue as [|[c p] rest]; simpl.
  - exists [from]. split; [done|]. right. split; [done|]. intros q Hq.
    destruct (searchInv_levels _ _ Hinv q to Hq) as [Hv Hnq]; [by inversion 1|].
    destruct Hinv as (_ & _ & _ & Hdone). by destruct (Hdone to Hv Hnq).
  - destruct (String.eqb_spec c to) as [->|Hne].
    + exists p. split; [done|]. left. destruct Hinv as (_ & Hqueue & _). by apply (Hqueue to p); left.
    + destruct (visit_fold p (neighborsOf g c) visited rest) as (new & -> & Hnew & Hall & Hsize).
      { intros d. apply neighbor_known. }
      apply IH; [exact (searchInv_step visited c p rest new Hinv Hne Hnew Hall)|].
      rewrite length_app. simpl in Hfuel. lia.
Qed.

Lemma searchInv_start : searchInv g from to {[from]} [(from, [from])].
Proof.
  split_and!.
  - set_solver.
  - intros c p Hin. apply list_elem_of_singleton in Hin as [= -> ->].
    split; [set_solver|]. split; [constructor|]. intros q Hq. simpl. by eapply pathTo_length.
  - exists 1%nat, [(from, [from])], []. split_and!; [done | by repeat constructor | constructor].
  - intros c Hc Hcq. exfalso. apply Hcq. simpl. set_solver.
Qed.

(** A station put in front of a route from a neighbour. *)
Lemma pathTo_cons (d c e : string) (q : list string) :
  pathTo g c q e -> c ∈ neighborsOf g d -> pathTo g d (d :: q) e.
Proof.
  induction 1 as [|q c0 e Hq IH He]; intros Hd.
  - apply (pathTo_step g d [d] d c); [constructor | done].
  - change (d :: q ++ [e]) with ((d :: q) ++ [e]). eapply pathTo_step; [by apply IH | done].
Qed.

(** In an undirected graph a route read backwards is a route. *)
Lemma pathTo_rev (a b : string) (p : list string) : pathTo g a p b -> pathTo g b (rev p) a.
Proof.
  induction 1 as [|p c d Hp IH Hd]; [constructor|].
  rewrite rev_app_distr. simpl. apply (pathTo_cons d c a); [done | by apply neighbor_sym].
Qed.

(** Between two neighbours the only shortest route is the two of them. *)
Lemma shortest_adjacent (a b : string) (q : list string) :
  b ∈ neighborsOf g a -> a <> b -> shortest g a q b -> q = [a; b].
Proof.
  intros Hb Hab [Hq Hmin].
  specialize (Hmin [a; b] (pathTo_step g a [a] a b (pathTo_start g a) Hb)). simpl in Hmin.
  destruct (pathTo_inv _ _ _ Hq) as [[_ ->] | (q0 & c & -> & Hq0 & _)]; [done|].
  rewrite length_app in Hmin. simpl in Hmin.
  destruct (pathTo_inv _ _ _ Hq0) as [[-> _] | (q1 & c1 & -> & Hq1 & _)]; [done|].
  pose proof (pathTo_length _ _ _ Hq1). rewrite length_app in Hmin. simpl in Hmin. lia.
Qed.

End Search.

Section WithData.
Context `{Runtime} `{MetroData}.

Lemma known_iff (c : string) : known c = true <-> c ∈ STATION_BY_CODE.
Proof. unfold known. by rewrite bool_decide_eq_true. Qed.

Lemma ensureGraphNode_spec (g : Graph) (c : string) :
  undirected g STATION_BY_CODE ->
  undirected (ensureGraphNode c g) STATION_BY_CODE
  /\ (forall d, neighborsOf (ensureGraphNode c g) d = neighborsOf g d)
  /\ (Text.truthy c = true -> known c = true -> is_Some (ensureGraphNode c g !! c)).
Proof.
  intros Hg. unfold ensureGraphNode.
  destruct (Text.truthy c) eqn:Ht, (known c) eqn:Hk; simpl; try (split_and!; done).
  destruct (g !! c) as [ns|] eqn:Hc.
  - by split_and!.
  - split_and!.
    + apply undirected_new_node; [done | by apply known_iff | done].
    + intros d. unfold neighborsOf. destruct (decide (c = d)) as [<-|?].
      * by rewrite lookup_insert_eq, Hc.
      * by rewrite lookup_insert_ne.
    + intros _ _. rewrite lookup_insert_eq. by eexists.
Qed.

Lemma addEdge_undirected (g : Graph) (edge : option string * option string) :
  undirected g STATION_BY_CODE -> undirected (addEdge g edge) STATION_BY_CODE.
Proof.
  intros Hg. destruct edge as [[a|] [b|]]; simpl; try done.
  destruct (Text.truthy a) eqn:Hta, (Text.truthy b) eqn:Htb; simpl; try done.
  destruct (String.eqb_spec a b) as [->|Hab]; [done|].
  destruct (known a) eqn:Hka, (known b) eqn:Hkb; simpl; try done.
  destruct (ensureGraphNode_spec g a Hg) as (Hg1 & Hn1 & Hs1).
  destruct (ensureGraphNode_spec (ensureGraphNode a g) b Hg1) as (Hg2 & Hn2 & Hs2).
  set (g2 := ensureGraphNode b (ensureGraphNode a g)) in *.
  assert (is_Some (g2 !! a)) as [na Hna].
  { destruct (Hs1 Hta Hka) as [na Hna]. subst g2. unfold ensureGraphNode at 1.
    rewrite Htb, Hkb. simpl. destruct (ensureGraphNode a g !! b); [by eexists|].
    rewrite lookup_insert_ne by done. by eexists. }
  destruct (Hs2 Htb Hkb) as [nb Hnb].
  unfold addNeighbor. rewrite Hna, lookup_insert_ne, Hnb by done.
  apply undirected_add_edge; try done; try (by apply known_iff).
  - unfold neighborsOf. by rewrite Hna.
  - unfold neighborsOf. by rewrite Hnb.
Qed.

Lemma STATION_GRAPH_undirected : undirected STATION_GRAPH STATION_BY_CODE.
Proof.
  unfold STATION_GRAPH. generalize EDGE_CALLS. intros calls.
  assert (forall g, undirected g STATION_BY_CODE ->
                    undirected (fold_left addEdge calls g) STATION_BY_CODE) as Hall.
  { induction calls as [|e calls IH]; intros g Hg; simpl; [done|].
    by apply IH, addEdge_undirected. }
  apply Hall, undirected_empty.
Qed.

Lemma findMetroPath_same (a : string) :
  Text.truthy a = true -> known a = true -> findMetroPath a a = [a].
Proof. intros Ha Hk. unfold findMetroPath. rewrite Ha, Hk. simpl. by rewrite String.eqb_refl. Qed.

(** C5 (as the code has it): with an empty code the result is empty; a known
    station to itself gives the path of that one station; a known start with
    an unknown end gives the path of the start alone; an unknown start gives
    the empty result, whether the end is known or not. *)
Theorem findMetroPath_degenerate (from to : string) :
  (Text.truthy from = false \/ Text.truthy to = false -> findMetroPath from to = [])
  /\ (Text.truthy from = true -> known from = true -> findMetroPath from from = [from])
  /\ (Text.truthy from = true -> Text.truthy to = true -> known from = true -> known to = false ->
        findMetroPath from to = [from])
  /\ (known from = false -> findMetroPath from to = []).
Proof.
  unfold findMetroPath. split_and!.
  - intros [-> | ->]; simpl; [done | by rewrite orb_true_r].
  - apply findMetroPath_same.
  - by intros -> -> -> ->.
  - intros ->. simpl. by destruct (negb (Text.truthy from) || negb (Text.truthy to)).
Qed.

(** Between two different known stations the finder gives a shortest route
    of the graph, or the start alone when no route joins them. *)
Lemma findMetroPath_search (from to : string) :
  Text.truthy from = true -> Text.truthy to = true ->
  known from = true -> known to = true -> from <> to ->
  shortest STATION_GRAPH from (findMetroPath from to) to
  \/ (findMetroPath from to = [from] /\ forall q, ~ pathTo STATION_GRAPH from q to).
Proof.
  intros Hf Ht Hkf Hkt Hne. unfold findMetroPath. rewrite Hf, Ht, Hkf, Hkt. cbn [negb orb].
  destruct (String.eqb_spec from to) as [?|_]; [done|].
  destruct (searchLoop_correct STATION_GRAPH STATION_BY_CODE STATION_GRAPH_undirected from to
              searchFuel {[from]} [(from, [from])]) as (r & -> & Hr).
  - eapply searchInv_start, STATION_GRAPH_undirected.
  - unfold searchFuel. simpl. apply known_iff in Hkf.
    rewrite (size_difference (C:=gset string)) by set_solver. rewrite size_singleton.
    assert (size STATION_BY_CODE <> 0%nat); [|lia].
    intros Hz. apply size_empty_iff in Hz. set_solver.
  - done.
Qed.

(** C6 (as the code has it): for two known station codes the paths found in
    the two directions have the same length; and when a route joins the two
    stations and the shortest route is the only one of its length, the path
    found one way is the path found the other way read backwards, so both
    hold the same stations. *)
Theorem path_symmetry (a b : string) :
  Text.truthy a = true -> Text.truthy b = true ->
  known a = true -> known b = true ->
  length (findMetroPath a b) = length (findMetroPath b a)
  /\ ((exists q, pathTo STATION_GRAPH a q b) ->
      (forall q q', shortest STATION_GRAPH a q b -> shortest STATION_GRAPH a q' b -> q = q') ->
      findMetroPath b a = rev (findMetroPath a b)
      /\ forall c, c ∈ findMetroPath a b <-> c ∈ findMetroPath b a).
Proof.
  intros Ha Hb Hka Hkb.
  destruct (decide (a = b)) as [->|Hab].
  { split; [done|]. intros _ _. by rewrite (findMetroPath_same b Hb Hkb). }
  pose proof (pathTo_rev STATION_GRAPH STATION_BY_CODE STATION_GRAPH_undirected) as Hrev.
  destruct (findMetroPath_search a b Ha Hb Hka Hkb Hab) as [[Hp1 Hm1] | [E1 Hno1]];
    destruct (findMetroPath_search b a Hb Ha Hkb Hka ltac:(congruence)) as [[Hp2 Hm2] | [E2 Hno2]].
  - pose proof (Hm1 _ (Hrev _ _ _ Hp2)) as H1. pose proof (Hm2 _ (Hrev _ _ _ Hp1)) as H2.
    rewrite length_rev in H1, H2. split; [lia|]. intros _ Huniq.
    assert (findMetroPath a b = rev (findMetroPath b a)) as E.
    { apply Huniq; [by split|]. split; [by apply Hrev|].
      intros q Hq. rewrite length_rev. specialize (Hm1 q Hq). lia. }
    split; [by rewrite E, rev_involutive|].
    intros c. rewrite E, !list_elem_of_In. symmetry. apply in_rev.
  - exfalso. by apply (Hno2 _ (Hrev _ _ _ Hp1)).
  - exfalso. by apply (Hno1 _ (Hrev _ _ _ Hp2)).
  - split; [by rewrite E1, E2|]. intros [q Hq]. by destruct (Hno1 q).
Qed.

End WithData.

(** C5, counterexample: on the sample network CAV is a station and XXX is
    not; from XXX to CAV the result is empty, not the path of CAV alone. *)
Lemma unknown_start_gives_nothing :
  @known Sample.sampleMetro "CAV" = true
  /\ @known Sample.sampleMetro "XXX" = false
  /\ @findMetroPath Sample.utcRuntime Sample.sampleMetro "XXX" "CAV" = []
  /\ @findMetroPath Sample.utcRuntime Sample.sampleMetro "XXX" "CAV" <> ["CAV"%string].
Proof. by vm_compute. Qed.

(** C5, an instance. *)
Lemma findMetroPath_degenerate_witness :
  @findMetroPath Sample.utcRuntime Sample.sampleMetro "CAV" "XXX" = ["CAV"%string]
  /\ @findMetroPath Sample.utcRuntime Sample.sampleMetro "XXX" "CAV" = []
  /\ @findMetroPath Sample.utcRuntime Sample.sampleMetro "CAV" "CAV" = ["CAV"%string].
Proof.
  destruct (@findMetroPath_degenerate Sample.utcRuntime Sample.sampleMetro "CAV" "XXX")
    as (_ & Hsame & Hstart & _).
  destruct (@findMetroPath_degenerate Sample.utcRuntime Sample.sampleMetro "XXX" "CAV")
    as (_ & _ & _ & Hunknown).
  split_and!; [apply Hstart | apply Hunknown | apply Hsame]; by vm_compute.
Defined.

(** C6, counterexample: from CAV to the unknown XXX the path has one station
    and from XXX to CAV it has none. *)
Lemma unknown_end_breaks_symmetry :
  length (@findMetroPath Sample.utcRuntime Sample.sampleMetro "CAV" "XXX") = 1%nat
  /\ length (@findMetroPath Sample.utcRuntime Sample.sampleMetro "XXX" "CAV") = 0%nat.
Proof. by vm_compute. Qed.

(** C6, an instance: Astrabudua and Zurbaranbarri, twelve stations apart on
    the sample network, and the neighbours Astrabudua and Erandio. *)
Lemma path_symmetry_witness :
  length (@findMetroPath Sample.utcRuntime Sample.sampleMetro "AST" "ZUR")
    = length (@findMetroPath Sample.utcRuntime Sample.sampleMetro "ZUR" "AST")
  /\ @findMetroPath Sample.utcRuntime Sample.sampleMetro "ERA" "AST"
    = rev (@findMetroPath Sample.utcRuntime Sample.sampleMetro "AST" "ERA").
Proof.
  split.
  - destruct (@path_symmetry Sample.utcRuntime Sample.sampleMetro "AST" "ZUR") as [Hlen _];
      [by vm_compute.. | exact Hlen].
  - destruct (@path_symmetry Sample.utcRuntime Sample.sampleMetro "AST" "ERA") as [_ Hrev];
      [by vm_compute.. |].
    assert (Hnb : "ERA"%string ∈ neighborsOf (@STATION_GRAPH Sample.utcRuntime Sample.sampleMetro) "AST").
    { assert (neighborsOf (@STATION_GRAPH Sample.utcRuntime Sample.sampleMetro) "AST" = ["ERA"%string]) as ->
        by (by vm_compute). by left. }
    apply Hrev.
    + exists ["AST"; "ERA"]%string. by apply (pathTo_step _ _ ["AST"%string] "AST" "ERA"); [constructor|].
    + intros q q' Hq Hq'.
      rewrite (shortest_adjacent _ _ _ _ Hnb ltac:(done) Hq).
      by rewrite (shortest_adjacent _ _ _ _ Hnb ltac:(done) Hq').
Defined.

(** On a network with a loop two known stations can be joined by two routes
    of the same length, and the finder takes one in each direction. *)
Lemma loop_gives_two_routes :
  @findMetroPath Sample.utcRuntime Sample.loopMetro "S" "E" = ["S"; "P"; "E"]%string
  /\ @findMetroPath Sample.utcRuntime Sample.loopMetro "E" "S" = ["E"; "Q"; "S"]%string.
Proof. by vm_compute. Qed.

End MetroFacts.

(** ** What the builders of journeys and fare insights keep *)

Section SortOrder.
Context {A : Type} (le : A -> A -> bool).
Hypothesis le_total : forall a b, le a b = false -> le b a = true.
Hypothesis le_trans : forall a b c, le a b = true -> le b c = true -> le a c = true.

Lemma insertSorted_HdRel (a b : A) (l : list A) :
  le b a = true -> HdRel (fun x y => le x y = true) b l ->
  HdRel (fun x y => le x y = true) b (insertSorted le a l).
Proof.
  intros Hba Hhd. destruct l as [|c l]; simpl; [by constructor|].
  destruct (le a c); constructor; [done|]. by inversion Hhd.
Qed.

Lemma insertSorted_order (a : A) (l : list A) :
  Sorted (fun x y => le x y = true) l -> Sorted (fun x y => le x y = true) (insertSorted le a l).
Proof.
  induction 1 as [|b l Hs IH Hhd]; simpl; [by repeat constructor|].
  destruct (le a b) eqn:Hab.
  - constructor; [by constructor|by constructor].
  - constructor; [done|]. apply insertSorted_HdRel; [by apply le_total|done].
Qed.

Lemma stableSort_order (l : list A) : Sorted (fun x y => le x y = true) (stableSort le l).
Proof.
  induction l as [|a l IH]; [constructor|]. by apply insertSorted_order.
Qed.

Lemma stableSort_lookup (l : list A) (i j : nat) (a b : A) :
  (i < j)%nat -> stableSort le l !! i = Some a -> stableSort le l !! j = Some b -> le a b = true.
Proof.
  assert (StronglySorted (fun x y => le x y = true) (stableSort le l)) as Hs.
  { apply Sorted_StronglySorted; [|apply stableSort_order].
    intros x y z. apply le_trans. }
  revert i j. induction Hs as [|c s Hs IH Hall]; intros i j Hij Hi Hj; [done|].
  destruct j as [|j]; [lia|]. destruct i as [|i]; simpl in *.
  - injection Hi as <-. rewrite Forall_forall in Hall. apply Hall.
    by eapply list_elem_of_lookup_2.
  - eapply IH; [|done..]. lia.
Qed.

End SortOrder.

Module ShapeFacts.
Import History Shape.

Lemma digitsOnly_app (d s : string) :
  digitsOnly d = true -> digitsOnly s = true -> digitsOnly (d +:+ s) = true.
Proof.
  induction d as [|c d IH]; simpl; [done|].
  intros [Hc Hd]%andb_prop Hs. by rewrite Hc, IH.
Qed.

Lemma pretty_N_go_digits (x : N) (s : string) :
  exists d, pretty_N_go x s = d +:+ s /\ digitsOnly d = true.
Proof.
  revert s. induction (N.lt_wf_0 x) as [x _ IH]; intros s.
  assert (x = 0 \/ 0 < x)%N as [->|Hx] by lia.
  - exists EmptyString. by rewrite pretty_N_go_0.
  - rewrite pretty_N_go_step by done.
    destruct (IH (x `div` 10)%N (N.div_lt x 10 Hx eq_refl)
                 (String (pretty_N_char (x `mod` 10)) s)) as (d & -> & Hd).
    exists (d +:+ String (pretty_N_char (x `mod` 10)) EmptyString). split.
    + generalize (pretty_N_char (x `mod` 10)). intros c. clear.
      induction d as [|c' d IHd]; [done|].
      change (String c' (d +:+ String c s) = String c' ((d +:+ String c EmptyString) +:+ s)).
      by f_equal.
    + apply digitsOnly_app; [done|]. simpl. rewrite andb_true_r.
      unfold pretty_N_char. by repeat case_match.
Qed.

(** A natural number is written as one digit or more. *)
Lemma pretty_N_digits (x : N) :
  exists c d, pretty x = String c d /\ Text.isDigit c = true /\ digitsOnly d = true.
Proof.
  unfold pretty, pretty_N. case_decide as Hx; [by exists "0"%char, EmptyString|].
  rewrite pretty_N_go_step by lia.
  destruct (pretty_N_go_digits (x `div` 10)%N (String (pretty_N_char (x `mod` 10)) EmptyString))
    as (d & -> & Hd).
  assert (Text.isDigit (pretty_N_char (x `mod` 10)) = true) as Hc.
  { unfold pretty_N_char. by repeat case_match. }
  destruct d as [|c d]; simpl in *.
  - by eexists _, _.
  - apply andb_prop in Hd as [Hc' Hd]. eexists _, _. split_and!; [done..|].
    apply digitsOnly_app; [done|]. simpl. by rewrite Hc.
Qed.

(** Where the digits end is read off the text: the dash after them is no
    digit. *)
Lemma digits_cut (d1 d2 r1 r2 : string) :
  digitsOnly d1 = true -> digitsOnly d2 = true ->
  d1 +:+ String "-" r1 = d2 +:+ String "-" r2 -> d1 = d2 /\ r1 = r2.
Proof.
  revert d2. induction d1 as [|c1 d1 IH]; intros [|c2 d2]; simpl.
  - by intros _ _ [= ->].
  - intros _ [Hc _]%andb_prop [= <- _]. by vm_compute in Hc.
  - intros [Hc _]%andb_prop _ [= -> _]. by vm_compute in Hc.
  - intros [_ H1]%andb_prop [_ H2]%andb_prop [= -> Heq].
    destruct (IH _ H1 H2 Heq) as [-> ->]. done.
Qed.

Lemma pretty_Z_cut (x y : Z) (r1 r2 : string) :
  pretty x +:+ String "-" r1 = pretty y +:+ String "-" r2 -> x = y /\ r1 = r2.
Proof.
  assert (forall z : Z, exists (neg : bool) c d,
            pretty z = (if neg then String "-" (String c d) else String c d)
            /\ Text.isDigit c = true /\ digitsOnly d = true) as Hform.
  { intros [|p|p]; unfold pretty, pretty_Z.
    - by exists false, "0"%char, EmptyString.
    - destruct (pretty_N_digits (N.pos p)) as (c & d & E & Hc & Hd).
      exists false, c, d. by rewrite <- E.
    - destruct (pretty_N_digits (N.pos p)) as (c & d & E & Hc & Hd).
      exists true, c, d. unfold pretty, pretty_positive. by rewrite E. }
  destruct (Hform x) as (nx & cx & dx & Ex & Hcx & Hdx).
  destruct (Hform y) as (ny & cy & dy & Ey & Hcy & Hdy).
  intros Heq. rewrite Ex, Ey in Heq.
  assert (pretty x = pretty y /\ r1 = r2) as [Hp ->].
  { rewrite Ex, Ey. destruct nx, ny; simpl in Heq.
    - injection Heq as -> Heq. destruct (digits_cut _ _ _ _ Hdx Hdy Heq) as [-> ->]. done.
    - injection Heq as <- _. by vm_compute in Hcy.
    - injection Heq as -> _. by vm_compute in Hcx.
    - injection Heq as -> Heq. destruct (digits_cut _ _ _ _ Hdx Hdy Heq) as [-> ->]. done. }
  split; [|done]. by apply (inj pretty).
Qed.

Lemma getRecordKey_parts (a b : TransactionRecord) :
  getRecordKey a = getRecordKey b -> keyParts a = keyParts b.
Proof.
  unfold getRecordKey, keyParts. intros Heq.
  apply pretty_Z_cut in Heq as [-> Heq]. apply pretty_Z_cut in Heq as [-> ->]. done.
Qed.

(** X10.  What a record key tells apart.  Two records have the same key
    exactly when they agree in page, row number and timestamp: the numbers
    are written in decimal and the dashes between them are no digits, so the
    three parts are read off the key.  Hence records that differ in one of
    the three never share a key. *)
Theorem record_key_parts (rs : list TransactionRecord) :
  (forall a b, getRecordKey a = getRecordKey b <-> keyParts a = keyParts b)
  /\ (NoDup (keyParts <$> rs) -> NoDup (getRecordKey <$> rs)).
Proof.
  split.
  - intros a b. split; [apply getRecordKey_parts|].
    unfold keyParts, getRecordKey. by intros [= -> -> ->].
  - induction rs as [|r rs IH]; simpl; [constructor|].
    rewrite !NoDup_cons. intros [Hr Hnd]. split; [|by apply IH].
    rewrite list_elem_of_fmap. intros (r' & Hk & Hin).
    apply Hr, list_elem_of_fmap. exists r'. split; [|done]. by apply getRecordKey_parts.
Qed.

Section Journeys.
Context `{Runtime}.


Lemma roundMinutes_range (diff : Z) :
  0 <= diff <= TEN_HOURS_MS -> 1 <= roundMinutes diff <= 600.
Proof.
  unfold roundMinutes, TEN_HOURS_MS. intros Hd.
  assert ((diff + 30000) / 60000 < 601).
  { apply Z.div_lt_upper_bound; lia. }
  lia.
Qed.

Lemma singleJourney_shape (r : TransactionRecord) (reason : string) :
  isRecargaTransaction r = false ->
  isSingleValidation r || isEntryValidation r || isExitValidation r = true ->
  journeyShape (singleJourney r reason).
Proof. intros H1 H2. unfold journeyShape. simpl. by split_and!. Qed.

Lemma journeyStep_shape (st : JourneyState) (r : TransactionRecord) :
  loopShape st -> loopShape (journeyStep st r).
Proof.
  intros [Hjs Hp]. unfold journeyStep.
  destruct (isRecargaTransaction r) eqn:E1.
  { split; [|done]. simpl. apply Forall_app; split; [done|].
    constructor; [|done]. unfold journeyShape. simpl. by split_and!. }
  destruct (isSingleValidation r) eqn:E2.
  { split; [|done]. simpl. apply Forall_app; split; [done|].
    constructor; [|done]. apply singleJourney_shape; [done|]. by rewrite E2. }
  destruct (isEntryValidation r) eqn:E3.
  { split; simpl; [|by intros p [= <-]].
    destruct (pendingEntry st) as [p|] eqn:Ep; [|done].
    destruct (Hp p eq_refl) as (P1 & P2 & P3).
    apply Forall_app; split; [done|]. constructor; [|done].
    apply singleJourney_shape; [done|]. by rewrite P3, orb_true_r. }
  destruct (isExitValidation r) eqn:E4.
  { destruct (pendingEntry st) as [p|] eqn:Ep; (split; simpl; [|done]).
    - destruct (Hp p eq_refl) as (P1 & P2 & P3).
      destruct (Z.ltb_spec (getRecordDate r - getRecordDate p) 0);
        [|destruct (Z.ltb_spec TEN_HOURS_MS (getRecordDate r - getRecordDate p))];
        (apply Forall_app; split; [done|]);
        [apply Forall_cons_2; [|apply Forall_cons_2; [|apply Forall_nil_2]]..
        |apply Forall_cons_2; [|apply Forall_nil_2]].
      + apply singleJourney_shape; [done|]. by rewrite P3, orb_true_r.
      + apply singleJourney_shape; [done|]. by rewrite E4, orb_true_r.
      + apply singleJourney_shape; [done|]. by rewrite P3, orb_true_r.
      + apply singleJourney_shape; [done|]. by rewrite E4, orb_true_r.
      + unfold journeyShape. simpl. eexists r, _. split_and!; try done.
        all: apply roundMinutes_range; lia.
    - apply Forall_app; split; [done|]. constructor; [|done].
      apply singleJourney_shape; [done|]. by rewrite E4, orb_true_r. }
  split; [|done]. simpl. apply Forall_app; split; [done|].
  constructor; [|done]. unfold journeyShape. simpl. by split_and!.
Qed.

Lemma journeyLoop_shape (l : list TransactionRecord) (st : JourneyState) :
  loopShape st -> loopShape (fold_left journeyStep l st).
Proof.
  revert st. induction l as [|r l IH]; intros st Hst; simpl; [done|].
  by apply IH, journeyStep_shape.
Qed.

Lemma pairJourneys_shape (l : list TransactionRecord) : Forall journeyShape (pairJourneys l).
Proof.
  unfold pairJourneys, flushPending.
  destruct (journeyLoop_shape l {| journeys := []; pendingEntry := None |}) as [Hjs Hp].
  { split; [constructor|done]. }
  destruct (pendingEntry _) as [p|]; [|done].
  destruct (Hp p eq_refl) as (P1 & P2 & P3).
  apply Forall_app; split; [done|]. constructor; [|done].
  apply singleJourney_shape; [done|]. by rewrite P3, orb_true_r.
Qed.

Lemma buildJourneyBlocks_shape (rs : list TransactionRecord) :
  Forall journeyShape (buildJourneyBlocks rs).
Proof.
  unfold buildJourneyBlocks. rewrite stableSort_perm. apply pairJourneys_shape.
Qed.

Lemma buildJourneyBlocks_records (rs : list TransactionRecord) :
  journeyRecords (buildJourneyBlocks rs) ≡ₚ rs.
Proof.
  unfold buildJourneyBlocks.
  rewrite (HistoryFacts.journeyRecords_perm _ _ (stableSort_perm _ _)).
  unfold pairJourneys. rewrite HistoryFacts.flushPending_held, HistoryFacts.journeyLoop_held.
  simpl. unfold sortByDate. apply stableSort_perm.
Qed.


Lemma countKind_cons (k : JourneyKind) (j : JourneyBlock) (js : list JourneyBlock) :
  countKind k (j :: js) = (if bool_decide (jkind j = k) then 1 else 0) + countKind k js.
Proof. unfold countKind. simpl. case_bool_decide; simpl; lia. Qed.

Lemma countKind_nonneg (k : JourneyKind) (js : list JourneyBlock) : 0 <= countKind k js.
Proof. unfold countKind. lia. Qed.

Lemma journeyShape_length (j : JourneyBlock) :
  journeyShape j ->
  Z.of_nat (length (records j)) = 1 + (if bool_decide (jkind j = viaje) then 1 else 0).
Proof.
  unfold journeyShape. destruct (jkind j); simpl.
  - by intros (exit & d & _ & -> & _).
  - by intros (_ & _ & -> & _).
  - by intros (_ & _ & -> & _).
  - by intros (_ & _ & -> & _).
Qed.

Lemma journeyRecords_length (js : list JourneyBlock) :
  Forall journeyShape js ->
  Z.of_nat (length (journeyRecords js)) = Z.of_nat (length js) + countKind viaje js.
Proof.
  induction 1 as [|j js Hj _ IH]; [done|].
  rewrite countKind_cons. unfold journeyRecords in *. simpl.
  rewrite length_app, Nat2Z.inj_add, IH, (journeyShape_length j Hj). lia.
Qed.

Lemma countKind_sum (js : list JourneyBlock) :
  Z.of_nat (length js)
  = countKind viaje js + countKind viaje_unico js + countKind recarga js + countKind otros js.
Proof.
  induction js as [|j js IH]; [done|].
  rewrite !countKind_cons. simpl length. rewrite Nat2Z.inj_succ, IH.
  destruct (jkind j); repeat case_bool_decide; try done; lia.
Qed.

(** X3.  The journeys account for the records: the number of records is the
    number of journeys plus the number of paired journeys, and the four
    kinds add up to the number of journeys. *)
Theorem records_per_journey (rs : list TransactionRecord) :
  let js := buildJourneyBlocks rs in
  Z.of_nat (length rs) = Z.of_nat (length js) + countKind viaje js
  /\ Z.of_nat (length js)
     = countKind viaje js + countKind viaje_unico js + countKind recarga js + countKind otros js.
Proof.
  intros js. split.
  - subst js. rewrite <- (journeyRecords_length _ (buildJourneyBlocks_shape rs)).
    by rewrite (buildJourneyBlocks_records rs).
  - apply countKind_sum.
Qed.

End Journeys.


Section Stats.
Context `{Runtime}.

#[local] Arguments addCounts : simpl never.

Lemma computeJourneyStats_counts ins (js : list JourneyBlock) :
  wholeFields (computeJourneyStats js ins) = totalCounts ins js.
Proof.
  unfold computeJourneyStats.
  destruct (HistoryFacts.statsLoop_fields ins js createJourneyStats) as (-> & _).
  rewrite HistoryFacts.addCounts_comm. apply HistoryFacts.addCounts_zero.
Qed.

Lemma totalCounts_kinds ins (js : list JourneyBlock) :
  Forall journeyShape js ->
  exists r w t m,
    totalCounts ins js = (r, w, t, m)
    /\ r = countKind viaje js + countKind viaje_unico js
    /\ w + t = countKind recarga js
    /\ 0 <= w /\ 0 <= t
    /\ countKind viaje js <= m <= 600 * countKind viaje js.
Proof.
  induction 1 as [|j js Hj _ (r & w & t & m & IH & Hr & Hw & Hw0 & Ht0 & Hm)].
  { exists 0, 0, 0, 0. by split_and!. }
  simpl. rewrite IH, !countKind_cons. unfold countsOf, journeyShape in *.
  destruct (jkind j) eqn:Ek.
  - destruct Hj as (exit & d & _ & _ & -> & Hd & _). simpl.
    eexists _, _, _, _. split; [reflexivity|].
    repeat case_bool_decide; try done; lia.
  - eexists _, _, _, _. split; [reflexivity|].
    repeat case_bool_decide; try done; lia.
  - destruct (ins !! _) as [[[] ? ? ? ? ?]|]; eexists _, _, _, _; (split; [reflexivity|]);
      repeat case_bool_decide; try done; lia.
  - eexists _, _, _, _. split; [reflexivity|].
    repeat case_bool_decide; try done; lia.
Qed.


Lemma wholeFields_add (a b : JourneyStats) :
  wholeFields (addJourneyStats a b) = addCounts (wholeFields a) (wholeFields b).
Proof. reflexivity. Qed.

Lemma sumJourneyStats_fields (l : list JourneyStats) (acc : JourneyStats) :
  wholeFields (fold_left addJourneyStats l acc)
  = addCounts (wholeFields acc) (foldr (fun s c => addCounts (wholeFields s) c) (0, 0, 0, 0) l).
Proof.
  revert acc. induction l as [|s l IH]; intros acc; simpl.
  - by rewrite HistoryFacts.addCounts_zero.
  - by rewrite IH, wholeFields_add, HistoryFacts.addCounts_assoc.
Qed.

Lemma totalCounts_concat ins (parts : list (list JourneyBlock)) :
  totalCounts ins (concat parts)
  = foldr (fun s c => addCounts (wholeFields s) c) (0, 0, 0, 0)
      (map (fun part => computeJourneyStats part ins) parts).
Proof.
  induction parts as [|p parts IH]; [done|].
  simpl. by rewrite HistoryFacts.totalCounts_app, IH, computeJourneyStats_counts.
Qed.

(** X5.  Statistics roll up over any number of groups: when the journeys are
    split into groups (by month, by year), in any order, the rides, the
    wallet recharges, the title purchases and the travel minutes of
    [sumJourneyStats] over the groups are those of [computeJourneyStats] on
    all the journeys. *)
Theorem stats_roll_up (whole : list JourneyBlock) (parts : list (list JourneyBlock))
    (ins : gmap string FareInsight) :
  whole ≡ₚ concat parts ->
  wholeFields (sumJourneyStats (map (fun part => computeJourneyStats part ins) parts))
  = wholeFields (computeJourneyStats whole ins).
Proof.
  intros Hp. unfold sumJourneyStats. rewrite sumJourneyStats_fields.
  rewrite computeJourneyStats_counts, (HistoryFacts.totalCounts_perm ins _ _ Hp).
  rewrite totalCounts_concat.
  rewrite HistoryFacts.addCounts_comm. apply HistoryFacts.addCounts_zero.
Qed.

End Stats.

(** X5, an instance: the three wallet rides of the sample, one group for each
    journey, the groups taken from the last to the first. *)
Lemma stats_roll_up_witness :
  let journeys := @buildJourneyBlocks Sample.utcRuntime Sample.walletRides in
  let ins := @buildFareInsights Sample.utcRuntime Sample.sampleTariffs Sample.walletRides in
  wholeFields (sumJourneyStats
                 (map (fun part => computeJourneyStats part ins)
                      [drop 2 journeys; take 1 (drop 1 journeys); take 1 journeys]))
  = wholeFields (computeJourneyStats journeys ins).
Proof.
  intros journeys ins.
  apply (stats_roll_up journeys [drop 2 journeys; take 1 (drop 1 journeys); take 1 journeys] ins).
  vm_compute. exact (Permutation_rev [_; _; _]).
Defined.

Section Classes.

Lemma includes_truthy (s sub : string) :
  Text.truthy sub = true -> Text.includes s sub = true -> Text.truthy s = true.
Proof. destruct s; [|done]. by destruct sub. Qed.

(** X6.  The three recharge tests agree: a record is a recharge exactly when
    it is a wallet recharge or a title recharge, and a wallet recharge is
    neither an entry nor an exit validation. *)
Theorem recharge_tests_agree (r : TransactionRecord) :
  isRecargaTransaction r = isWalletRechargeRecord r || isTitleRechargeRecord r
  /\ (isWalletRechargeRecord r = true -> isEntryValidation r = false /\ isExitValidation r = false).
Proof.
  unfold isRecargaTransaction, isWalletRechargeRecord, isTitleRechargeRecord,
    isEntryValidation, isExitValidation, RECARGA_TOKEN, COMPRA_TOKEN, TITULO_TOKEN.
  generalize (Text.toLowerCase (transaccion r)). intros text.
  pose proof (includes_truthy text "recarga" eq_refl) as Hr.
  pose proof (includes_truthy text "compra" eq_refl) as Hc.
  destruct (Text.includes text "recarga"), (Text.includes text "monedero"),
    (Text.includes text "compra"), (Text.includes text "titulo"),
    (Text.includes text "entrada"), (Text.includes text "salida"), (Text.truthy text);
    simpl; try done; try (by specialize (Hr eq_refl)); by specialize (Hc eq_refl).
Qed.

End Classes.

(** X6, an instance: a recharge of the wallet. *)
Lemma recharge_tests_agree_witness :
  let r := Sample.ride 1 "2024-03-01T09:00:00" "Recarga monedero" "Cajero" 10 "Creditrans" in
  isRecargaTransaction r = true /\ isEntryValidation r = false /\ isExitValidation r = false.
Proof.
  intros r. destruct (recharge_tests_agree r) as [Hr Hw].
  split; [rewrite Hr; reflexivity|]. apply Hw. reflexivity.
Defined.

Section Fares.
Context `{Runtime} `{TariffData}.

Lemma fareStep_insight (st : FareState) (r : TransactionRecord) :
  exists ins,
    insights (fareStep st r) = <[getRecordKey r := ins]> (insights st)
    /\ usageKind ins = usageOf r
    /\ fi_tariff ins = getTariffInfoFromTitle (Some (titulo r)).
Proof.
  unfold fareStep, usageOf.
  destruct (isWalletRechargeRecord r); [by eexists|].
  destruct (isTitleRechargeRecord r && _); [by eexists|].
  destruct (passStates st !! _) as [p|]; [destruct (pass_kind p)|]; by eexists.
Qed.

(** Where an insight of the loop comes from: the map before the loop, or a
    record of the loop with its key. *)
Lemma fareLoop_origin (l : list TransactionRecord) (st : FareState) (k : string) (ins : FareInsight) :
  insights (fold_left fareStep l st) !! k = Some ins ->
  insights st !! k = Some ins
  \/ exists r, r ∈ l /\ getRecordKey r = k /\ usageKind ins = usageOf r
       /\ fi_tariff ins = getTariffInfoFromTitle (Some (titulo r)).
Proof.
  revert st. induction l as [|r l IH]; intros st Hk; simpl in *; [by left|].
  destruct (IH _ Hk) as [Hst|(r' & Hin & Hr')].
  - destruct (fareStep_insight st r) as (i & Hi & Hu & Ht). rewrite Hi in Hst.
    destruct (decide (getRecordKey r = k)) as [<-|Hne].
    + rewrite lookup_insert_eq in Hst. injection Hst as <-.
      right. exists r. split_and!; try done. by left.
    + rewrite lookup_insert_ne in Hst by done. by left.
  - right. exists r'. split; [by right|done].
Qed.

Lemma fareLoop_dom (l : list TransactionRecord) (st : FareState) :
  dom (insights (fold_left fareStep l st)) = dom (insights st) ∪ list_to_set (getRecordKey <$> l).
Proof.
  revert st. induction l as [|r l IH]; intros st; simpl; [set_solver|].
  rewrite IH. destruct (fareStep_insight st r) as (i & -> & _).
  rewrite dom_insert_L. set_solver.
Qed.

(** X7.  [buildFareInsights] gives an insight for the key of every record
    and for no other key, and each insight carries the tariff of a record
    with that key and the usage that the record calls for: a wallet
    recharge, the purchase of a pass, or a ride. *)
Theorem insights_cover_records (rs : list TransactionRecord) :
  dom (buildFareInsights rs) = list_to_set (getRecordKey <$> rs)
  /\ forall k ins, buildFareInsights rs !! k = Some ins ->
       exists r, r ∈ rs /\ getRecordKey r = k /\ usageKind ins = usageOf r
         /\ fi_tariff ins = getTariffInfoFromTitle (Some (titulo r)).
Proof.
  unfold buildFareInsights. split.
  - rewrite fareLoop_dom. simpl. rewrite dom_empty_L, (left_id_L ∅ (∪)).
    apply set_eq. intros k. rewrite !elem_of_list_to_set.
    unfold sortByDate. by rewrite stableSort_perm.
  - intros k ins Hk. apply fareLoop_origin in Hk as [Hk|(r & Hin & Hr)]; [done|].
    exists r. split; [|done]. unfold sortByDate in Hin. by rewrite stableSort_perm in Hin.
Qed.

(** The state of the loop of [buildFareInsights]: every pass kept and every
    insight given is in range. *)
Lemma purchase_inRange (r : TransactionRecord) :
  let t := getTariffInfoFromTitle (Some (titulo r)) in
  kind t <> wallet ->
  tripsInRange (if decide (kind t = unlimited_pass) then pass_unlimited else pass_limited)
    (if decide (kind t = limited_pass)
     then (if limitTravel t =? 0 then None else Some (limitTravel t)) else None)
    (if decide (kind t = limited_pass)
     then (if limitTravel t =? 0 then None else Some (limitTravel t)) else None).
Proof.
  intros t Hw. pose proof (HistoryFacts.limited_has_trips (Some (titulo r))) as Hl.
  fold t in Hl. destruct (kind t) eqn:Ek; [done| |].
  - rewrite decide_False by done. rewrite decide_True by done.
    specialize (Hl eq_refl). destruct (Z.eqb_spec (limitTravel t) 0); [lia|].
    simpl. exists (limitTravel t), (limitTravel t). split_and!; try done; lia.
  - rewrite decide_True by done. rewrite decide_False by done. by simpl.
Qed.

Lemma fareStep_inRange (st : FareState) (r : TransactionRecord) :
  fareInRange st -> fareInRange (fareStep st r).
Proof.
  intros [Hi Hp]. unfold fareStep.
  destruct (isWalletRechargeRecord r).
  { split; simpl; [|done]. apply map_Forall_insert_2; [|done].
    unfold insightInRange. simpl. by split_and!. }
  destruct (isTitleRechargeRecord r && _) eqn:Et.
  { apply andb_prop in Et as [_ Hk]. apply negb_true_iff, bool_decide_eq_false in Hk.
    pose proof (purchase_inRange r Hk) as Hr. simpl in Hr.
    split; simpl; (apply map_Forall_insert_2; [|done]).
    - unfold insightInRange. simpl. split_and!; try done.
      intros snap [= <-]. exact Hr.
    - exact Hr. }
  destruct (passStates st !! _) as [p|] eqn:Ep.
  - pose proof (Hp _ _ Ep) as Hr. unfold passInRange in Hr.
    destruct (pass_kind p) eqn:Ek; simpl in Hr.
    + destruct Hr as (t & n & Ht & Hn & Ht0 & Hn0). rewrite Hn.
      assert (passInRange
                (if isEntryValidation r || isSingleValidation r
                 then if ignoreNextEntry p then setIgnoreNextEntry false p
                      else setRemainingTrips (Some (Z.max (n - 1) 0)) p
                 else p)) as Hr'.
      { unfold passInRange.
        destruct (isEntryValidation r || isSingleValidation r); [destruct (ignoreNextEntry p)|];
          simpl; rewrite Ek; simpl; eexists _, _; split_and!; try done; lia. }
      assert (pass_kind
                (if isEntryValidation r || isSingleValidation r
                 then if ignoreNextEntry p then setIgnoreNextEntry false p
                      else setRemainingTrips (Some (Z.max (n - 1) 0)) p
                 else p) = pass_limited /\
              totalTrips
                (if isEntryValidation r || isSingleValidation r
                 then if ignoreNextEntry p then setIgnoreNextEntry false p
                      else setRemainingTrips (Some (Z.max (n - 1) 0)) p
                 else p) = totalTrips p) as [Hk' Ht'].
      { by destruct (isEntryValidation r || isSingleValidation r); [destruct (ignoreNextEntry p)|]. }
      split; simpl; (apply map_Forall_insert_2; [|done]); [|done].
      unfold insightInRange. simpl. split_and!; try done.
      * intros snap [= <-]. exact Hr'.
      * intros lc [= <-]. eexists. split; [done|]. simpl.
        split_and!; [exact Hk'|by rewrite Ht'|reflexivity].
      * intros d. destruct (expiresAt p); [|done]. intros Hd. inversion Hd. lia.
    + split; simpl; (apply map_Forall_insert_2; [|done]); [|exact (Hp _ _ Ep)].
      unfold insightInRange. simpl. split_and!; try done.
      * intros snap [= <-]. unfold snapshotInRange. simpl. by rewrite Ek.
      * intros d. destruct (expiresAt p); [|done]. intros Hd. inversion Hd. lia.
  - split; simpl; [|done]. apply map_Forall_insert_2; [|done].
    unfold insightInRange. simpl. by split_and!.
Qed.

Lemma fareLoop_inRange (l : list TransactionRecord) (st : FareState) :
  fareInRange st -> fareInRange (fold_left fareStep l st).
Proof.
  revert st. induction l as [|r l IH]; intros st Hst; simpl; [done|].
  by apply IH, fareStep_inRange.
Qed.

(** X8.  Every insight of [buildFareInsights], for any records and any
    tariff table, is in range: a pass with a number of trips shows a
    positive total and between none and all of its trips left, the trips of
    the limited context are those of the pass, the days left are never
    negative, a wallet recharge has no pass, and only a ride under a pass
    has savings. *)
Theorem insights_in_range (rs : list TransactionRecord) :
  map_Forall (fun _ ins => insightInRange ins) (buildFareInsights rs).
Proof.
  unfold buildFareInsights.
  destruct (fareLoop_inRange (sortByDate rs) emptyFareState) as [Hi _]; [|done].
  split; simpl; apply map_Forall_empty.
Qed.

Lemma validity_thirty (t : TariffDefinition) : kind t <> wallet -> getPassValidityDays t = Some 30.
Proof.
  intros Hk. unfold getPassValidityDays. rewrite decide_False by done.
  destruct (String.eqb (category t) "monthly" || String.eqb (category t) "youthMonthly"); [done|].
  destruct (kind t); [done|..]; by repeat case_decide.
Qed.

Lemma fareStep_expiry (seen : list TransactionRecord) (st : FareState) (r : TransactionRecord) :
  fareExpiry seen st -> fareExpiry (seen ++ [r]) (fareStep st r).
Proof.
  intros [Hp Hi].
  assert (map_Forall
            (fun k ins =>
               forall snap, passContext ins = Some snap ->
                 lastsThirtyDays (snap_validDays snap) (snap_expiresAt snap) (snap_purchaseDate snap)
                 /\ (usageKind ins = ride ->
                     exists record, record ∈ seen ++ [r] /\ getRecordKey record = k
                       /\ daysRemaining ins = Some (daysLeft snap record)))
            (insights st)) as Hi'.
  { intros k ins Hk snap Hs. destruct (Hi k ins Hk snap Hs) as [Hl Hd]. split; [done|].
    intros Hu. destruct (Hd Hu) as (record & Hin & Hr). exists record. split; [|done].
    apply elem_of_app. by left. }
  unfold fareStep.
  destruct (isWalletRechargeRecord r).
  { split; simpl; [done|]. apply map_Forall_insert_2; [|done]. by intros snap. }
  destruct (isTitleRechargeRecord r && _) eqn:Et.
  { apply andb_prop in Et as [_ Hk]. apply negb_true_iff, bool_decide_eq_false in Hk.
    pose proof (validity_thirty _ Hk) as Hv.
    split; simpl; (apply map_Forall_insert_2; [|done]).
    - by rewrite Hv.
    - intros snap [= <-]. simpl. by rewrite Hv. }
  destruct (passStates st !! _) as [p|] eqn:Ep.
  - destruct (Hp _ _ Ep) as [Hv He].
    destruct (pass_kind p) eqn:Ek.
    + assert (forall p', validDays p' = validDays p -> expiresAt p' = expiresAt p ->
                         purchaseDate p' = purchaseDate p ->
                         lastsThirtyDays (validDays p') (expiresAt p') (purchaseDate p')) as Hsame.
      { intros p' -> -> ->. by split. }
      split; simpl; (apply map_Forall_insert_2; [|done]).
      * apply Hsame; by destruct (remainingTrips p), (isEntryValidation r || isSingleValidation r),
          (ignoreNextEntry p).
      * intros snap [= <-]. simpl. split.
        -- apply Hsame; by destruct (remainingTrips p), (isEntryValidation r || isSingleValidation r),
             (ignoreNextEntry p).
        -- intros _. exists r. split_and!; [apply elem_of_app; right; by left|done|].
           rewrite He. unfold daysLeft. simpl.
           by destruct (remainingTrips p), (isEntryValidation r || isSingleValidation r),
             (ignoreNextEntry p).
    + split; simpl; (apply map_Forall_insert_2; [|done]); [by split|].
      intros snap [= <-]. simpl. split; [by split|].
      intros _. exists r. split_and!; [apply elem_of_app; right; by left|done|].
      by rewrite He.
  - split; simpl; [done|]. apply map_Forall_insert_2; [|done]. by intros snap.
Qed.

Lemma fareLoop_expiry (l seen : list TransactionRecord) (st : FareState) :
  fareExpiry seen st -> fareExpiry (seen ++ l) (fold_left fareStep l st).
Proof.
  revert seen st. induction l as [|r l IH]; intros seen st Hst; simpl.
  - by rewrite app_nil_r.
  - rewrite (cons_middle r), (assoc_L (++)). by apply IH, fareStep_expiry.
Qed.

(** X9.  Every pass lasts thirty days.  Whatever the tariff table, the
    pass that an insight of [buildFareInsights] carries is valid for thirty
    days and expires thirty days after its purchase; and the insight of a
    ride under the pass shows the whole days, rounded up, from the ride to
    that day, and none once it is past. *)
Theorem passes_last_thirty_days (rs : list TransactionRecord) (k : string) (ins : FareInsight)
    (snap : PassSnapshot) :
  buildFareInsights rs !! k = Some ins -> passContext ins = Some snap ->
  snap_validDays snap = Some 30
  /\ snap_expiresAt snap = Some (addDays (snap_purchaseDate snap) 30)
  /\ (usageKind ins = ride ->
      exists r, r ∈ rs /\ getRecordKey r = k /\ daysRemaining ins = Some (daysLeft snap r)).
Proof.
  unfold buildFareInsights. intros Hk Hs.
  destruct (fareLoop_expiry (sortByDate rs) [] emptyFareState) as [_ Hi].
  { split; simpl; apply map_Forall_empty. }
  destruct (Hi k ins Hk snap Hs) as [[Hv He] Hd]. split_and!; [done..|].
  intros Hu. destruct (Hd Hu) as (r & Hin & Hr). exists r. split; [|done].
  simpl in Hin. unfold sortByDate in Hin. by rewrite stableSort_perm in Hin.
Qed.

Lemma fareStep_other (st : FareState) (r : TransactionRecord) (k : string) :
  getRecordKey r <> k -> insights (fareStep st r) !! k = insights st !! k.
Proof.
  intros Hne. destruct (fareStep_insight st r) as (i & -> & _).
  by rewrite lookup_insert_ne.
Qed.

Lemma fareLoop_other (l : list TransactionRecord) (st : FareState) (k : string) :
  k ∉ getRecordKey <$> l -> insights (fold_left fareStep l st) !! k = insights st !! k.
Proof.
  revert st. induction l as [|r l IH]; intros st Hk; simpl; [done|].
  rewrite fmap_cons, not_elem_of_cons in Hk. destruct Hk as [Hne Hk].
  rewrite IH by done. by apply fareStep_other.
Qed.

Lemma fareLoop_usage (l : list TransactionRecord) (st : FareState) (r : TransactionRecord) :
  NoDup (getRecordKey <$> l) -> r ∈ l ->
  exists ins, insights (fold_left fareStep l st) !! getRecordKey r = Some ins
    /\ usageKind ins = usageOf r.
Proof.
  revert st. induction l as [|a l IH]; intros st Hnd Hin; [by apply elem_of_nil in Hin|].
  rewrite fmap_cons in Hnd. apply NoDup_cons in Hnd as [Ha Hnd].
  apply elem_of_cons in Hin as [->|Hin]; simpl.
  - rewrite fareLoop_other by done.
    destruct (fareStep_insight st a) as (i & -> & Hu & _).
    exists i. by rewrite lookup_insert_eq.
  - by apply IH.
Qed.

Lemma buildFareInsights_usage (rs : list TransactionRecord) (r : TransactionRecord) :
  NoDup (getRecordKey <$> rs) -> r ∈ rs ->
  exists ins, buildFareInsights rs !! getRecordKey r = Some ins /\ usageKind ins = usageOf r.
Proof.
  intros Hnd Hin. unfold buildFareInsights. apply fareLoop_usage.
  - unfold sortByDate. by rewrite stableSort_perm.
  - unfold sortByDate. by rewrite stableSort_perm.
Qed.

#[local] Arguments addCounts : simpl never.

Lemma countRecords_app (p : TransactionRecord -> bool) (a b : list TransactionRecord) :
  countRecords p (a ++ b) = countRecords p a + countRecords p b.
Proof. unfold countRecords. rewrite List.filter_app, length_app. lia. Qed.

Lemma countRecords_perm (p : TransactionRecord -> bool) (a b : list TransactionRecord) :
  a ≡ₚ b -> countRecords p a = countRecords p b.
Proof.
  unfold countRecords.
  induction 1 as [|x a b _ IH|x y a|a b c _ IH1 _ IH2]; simpl; try done.
  - destruct (p x); simpl; lia.
  - by destruct (p x), (p y).
  - lia.
Qed.

Lemma totalCounts_recharges (ins : gmap string FareInsight) (js : list JourneyBlock) :
  Forall journeyShape js ->
  (forall r, r ∈ journeyRecords js ->
     exists i, ins !! getRecordKey r = Some i /\ usageKind i = usageOf r) ->
  exists n m,
    totalCounts ins js
    = (n, countRecords isOtherRecharge (journeyRecords js),
       countRecords isTitlePurchase (journeyRecords js), m).
Proof.
  induction 1 as [|j js Hj _ IH]; intros Hins; [by exists 0, 0|].
  destruct IH as (n & m & IH).
  { intros r Hr. apply Hins. unfold journeyRecords in *. simpl.
    apply elem_of_app. by right. }
  simpl. rewrite IH. unfold journeyRecords. simpl.
  rewrite !countRecords_app. unfold countsOf, journeyShape in *.
  unfold countRecords, isOtherRecharge, isTitlePurchase.
  destruct (jkind j) eqn:Ek.
  - destruct Hj as (exit & d & _ & -> & -> & _ & E1 & _ & _ & E2 & _).
    simpl. rewrite E1, E2. simpl. by eexists _, _.
  - destruct Hj as (_ & _ & -> & E1 & _). simpl. rewrite E1. simpl. by eexists _, _.
  - destruct Hj as (_ & _ & Hrec & E1). rewrite Hrec. simpl. rewrite E1. simpl.
    destruct (Hins (start j)) as (i & -> & Hu).
    { unfold journeyRecords. simpl. rewrite Hrec. by left. }
    rewrite <- Hu. destruct i as [[] ? ? ? ? ?]; simpl; by eexists _, _.
  - destruct Hj as (_ & _ & -> & E1 & _). simpl. rewrite E1. simpl. by eexists _, _.
Qed.

(** X11.  From the records to the statistics, when no two records share a
    key: the title purchases counted are the recharge records that buy a
    pass (a title recharge whose tariff is not the wallet), and the wallet
    recharges counted are all the other recharge records. *)
Theorem recharges_counted (rs : list TransactionRecord) :
  NoDup (getRecordKey <$> rs) ->
  let stats := computeJourneyStats (buildJourneyBlocks rs) (buildFareInsights rs) in
  titlePurchases stats = countRecords isTitlePurchase rs
  /\ walletRecharges stats = countRecords isOtherRecharge rs.
Proof.
  intros Hnd stats.
  destruct (totalCounts_recharges (buildFareInsights rs) (buildJourneyBlocks rs)
              (buildJourneyBlocks_shape rs)) as (n & m & Hc).
  { intros r Hr. apply buildFareInsights_usage; [done|].
    by rewrite (buildJourneyBlocks_records rs) in Hr. }
  pose proof (computeJourneyStats_counts (buildFareInsights rs) (buildJourneyBlocks rs)) as Hf.
  rewrite Hc in Hf. unfold wholeFields in Hf. fold stats in Hf.
  injection Hf as _ Hw Ht _.
  rewrite Hw, Ht.
  by rewrite !(countRecords_perm _ _ _ (buildJourneyBlocks_records rs)).
Qed.

End Fares.

(** X9, an instance: the third ride under the ten-trip pass of the sample
    carries a pass that expires thirty days after its purchase. *)
Lemma passes_last_thirty_days_witness :
  exists ins snap,
    @buildFareInsights Sample.utcRuntime Sample.sampleTariffs Sample.bonobusScenario
      !! getRecordKey (Sample.bonobusRide 3) = Some ins
    /\ passContext ins = Some snap
    /\ snap_expiresAt snap = Some (@addDays Sample.utcRuntime (snap_purchaseDate snap) 30)
    /\ snap_validDays snap = Some 30.
Proof.
  destruct (@buildFareInsights Sample.utcRuntime Sample.sampleTariffs Sample.bonobusScenario
              !! getRecordKey (Sample.bonobusRide 3)) as [ins|] eqn:Hins; [|by vm_compute in Hins].
  destruct (passContext ins) as [snap|] eqn:Hsnap.
  - destruct (@passes_last_thirty_days Sample.utcRuntime Sample.sampleTariffs Sample.bonobusScenario
                _ ins snap Hins Hsnap) as (Hv & He & _).
    exists ins, snap. split_and!; [reflexivity|exact Hsnap|exact He|exact Hv].
  - exfalso. vm_compute in Hins. injection Hins as <-. discriminate Hsnap.
Defined.

(** X10, an instance: the purchase and the ten rides of the sample differ in
    row number or timestamp, and so in their keys. *)
Lemma record_key_parts_witness : NoDup (getRecordKey <$> Sample.bonobusScenario).
Proof.
  apply (record_key_parts Sample.bonobusScenario).
  apply (bool_decide_unpack (NoDup _)). by vm_compute.
Defined.

(** X7, an instance: the insight of the purchase of the ten-trip pass. *)
Lemma insights_cover_records_witness :
  let result := @buildFareInsights Sample.utcRuntime Sample.sampleTariffs Sample.bonobusScenario in
  exists ins r, result !! getRecordKey Sample.bonobusPurchase = Some ins
    /\ r ∈ Sample.bonobusScenario /\ getRecordKey r = getRecordKey Sample.bonobusPurchase
    /\ usageKind ins = @usageOf Sample.utcRuntime Sample.sampleTariffs r.
Proof.
  intros result.
  destruct (@insights_cover_records Sample.utcRuntime Sample.sampleTariffs Sample.bonobusScenario)
    as [_ Hfrom].
  destruct (result !! getRecordKey Sample.bonobusPurchase) as [ins|] eqn:E;
    [|by vm_compute in E].
  destruct (Hfrom _ _ E) as (r & Hin & Hk & Hu & _).
  exists ins, r. split_and!; [reflexivity|assumption..].
Defined.

(** X11, an instance: the purchase of the ten-trip pass and its ten rides
    give one title purchase and no wallet recharge. *)
Lemma recharges_counted_witness :
  let stats := computeJourneyStats
                 (@buildJourneyBlocks Sample.utcRuntime Sample.bonobusScenario)
                 (@buildFareInsights Sample.utcRuntime Sample.sampleTariffs Sample.bonobusScenario) in
  titlePurchases stats = 1 /\ walletRecharges stats = 0.
Proof.
  apply (@recharges_counted Sample.utcRuntime Sample.sampleTariffs Sample.bonobusScenario).
  apply (bool_decide_unpack (NoDup _)). by vm_compute.
Defined.

End ShapeFacts.

(** ** What the table extractor keeps *)

Module RowsFacts.
Import PdfParser Rows.

Section Digits.

Lemma digit_code (c : ascii) : Text.isDigit c = true -> (48 <= Text.code c <= 57)%nat.
Proof.
  unfold Text.isDigit. intros Hc. apply andb_true_iff in Hc as [H1 H2].
  apply Nat.leb_le in H1, H2. lia.
Qed.

Lemma space_not_digit (c : ascii) : Text.isSpace c = true -> Text.isDigit c = false.
Proof. destruct c as [[] [] [] [] [] [] [] []]; done. Qed.

Lemma digitsValue_nonneg (s : string) (acc : Z) :
  0 <= acc -> 0 <= Text.digitsValue acc (Text.sfilter Text.isDigit s).
Proof.
  revert acc. induction s as [|c s IH]; intros acc Hacc; simpl; [done|].
  destruct (Text.isDigit c) eqn:Hc; [|by apply IH].
  simpl. apply IH. apply digit_code in Hc. lia.
Qed.

Lemma sfilter_truthy (p : ascii -> bool) (s : string) :
  Text.truthy (Text.sfilter p s) = Text.sexists p s.
Proof.
  induction s as [|c s IH]; simpl; [done|]. by destruct (p c).
Qed.

Lemma sfilter_only (p : ascii -> bool) (s : string) :
  Text.sexists (fun c => negb (p c)) (Text.sfilter p s) = false.
Proof.
  induction s as [|c s IH]; simpl; [done|].
  destruct (p c) eqn:Hc; [|done]. simpl. by rewrite Hc.
Qed.

Lemma length_truthy (s : string) : (0 <? String.length s)%nat = Text.truthy s.
Proof. by destruct s. Qed.

Lemma startsNewRow_digit (boundaries : list ColumnBoundary) (line : Line) :
  startsNewRow boundaries line = hasDigit (bucketize line boundaries Kcont).
Proof.
  unfold startsNewRow, NUMBER_ONLY, hasDigit.
  rewrite length_truthy, sfilter_only, sfilter_truthy.
  by destruct (Text.sexists _ _).
Qed.

Lemma hasDigit_trimStart (s : string) : hasDigit (Text.trimStart s) = hasDigit s.
Proof.
  unfold hasDigit. induction s as [|c s IH]; simpl; [done|].
  destruct (Text.isSpace c) eqn:Hc; [|done].
  by rewrite IH, (space_not_digit c Hc).
Qed.

Lemma hasDigit_rev_app (a b : string) :
  hasDigit (String.rev_app a b) = hasDigit a || hasDigit b.
Proof.
  unfold hasDigit. revert b. induction a as [|c a IH]; intros b; simpl; [done|].
  rewrite IH. simpl.
  by destruct (Text.isDigit c), (Text.sexists Text.isDigit a), (Text.sexists Text.isDigit b).
Qed.

Lemma hasDigit_rev (s : string) : hasDigit (String.rev s) = hasDigit s.
Proof. unfold String.rev. rewrite hasDigit_rev_app. simpl. apply orb_false_r. Qed.

Lemma hasDigit_trimEnd (s : string) : hasDigit (Text.trimEnd s) = hasDigit s.
Proof. unfold Text.trimEnd. by rewrite hasDigit_rev, hasDigit_trimStart, hasDigit_rev. Qed.

Lemma hasDigit_trim (s : string) : hasDigit (Text.trim s) = hasDigit s.
Proof. unfold Text.trim. by rewrite hasDigit_trimEnd, hasDigit_trimStart. Qed.

Lemma hasDigit_app (a b : string) : hasDigit (a +:+ b) = hasDigit a || hasDigit b.
Proof.
  unfold hasDigit. induction a as [|c a IH]; simpl; [done|].
  rewrite IH. by rewrite orb_assoc.
Qed.

Lemma hasDigit_collapse (inRun : bool) (s : string) :
  hasDigit (Text.replaceSpaceRuns " " inRun s) = hasDigit s.
Proof.
  revert inRun. induction s as [|c s IH]; intros inRun; simpl; [done|].
  destruct (Text.isSpace c) eqn:Hc.
  - replace (hasDigit (String c s)) with (hasDigit s)
      by (unfold hasDigit; simpl; by rewrite (space_not_digit c Hc)).
    destruct inRun; [apply IH|]. rewrite hasDigit_app. simpl. apply IH.
  - unfold hasDigit in *. simpl. by rewrite IH.
Qed.

Lemma hasDigit_truthy (s : string) : hasDigit s = true -> Text.truthy s = true.
Proof. by destruct s. Qed.

Lemma hasDigit_appendSegment (base addition : string) :
  hasDigit base = true -> hasDigit (appendSegment base addition) = true.
Proof.
  intros Hb. unfold appendSegment.
  rewrite (hasDigit_truthy base Hb). simpl.
  destruct (Text.truthy addition); simpl; [|done].
  unfold Text.collapseSpaces.
  rewrite hasDigit_trim, hasDigit_collapse, hasDigit_app, hasDigit_trimEnd, Hb. done.
Qed.

End Digits.

Section Collect.

Lemma mergeBucket_digit (current bucket : Row) :
  hasDigit (current Kcont) = true -> hasDigit (mergeBucket current bucket Kcont) = true.
Proof.
  intros Hc. unfold mergeBucket.
  destruct (Text.truthy (bucket Kcont)); simpl; [|done].
  rewrite (hasDigit_truthy _ Hc). by apply hasDigit_appendSegment.
Qed.

Lemma mergeBucket_first (bucket : Row) :
  hasDigit (bucket Kcont) = true -> hasDigit (mergeBucket initRow bucket Kcont) = true.
Proof.
  intros Hb. unfold mergeBucket. by rewrite (hasDigit_truthy _ Hb).
Qed.

Lemma hasData_digit (row : Row) : hasDigit (row Kcont) = true -> hasData row = true.
Proof.
  intros Hr. unfold hasData. simpl.
  rewrite <- hasDigit_trim in Hr. by rewrite (hasDigit_truthy _ Hr).
Qed.

Lemma collectLine_collected (boundaries : list ColumnBoundary) (n : nat)
    (st : list Row * option Row) (line : Line) :
  collected n st ->
  collected (if startsNewRow boundaries line then S n else n) (collectLine boundaries st line).
Proof.
  destruct st as [rows current]. intros (Hrows & Hcur & Hn & H0). simpl in *.
  unfold collectLine. fold (startsNewRow boundaries line).
  destruct (startsNewRow boundaries line) eqn:Es.
  - rewrite startsNewRow_digit in Es.
    destruct current as [c|]; simpl in *.
    + rewrite (hasData_digit c (Hcur c eq_refl)). split_and!; simpl.
      * apply Forall_app. split; [done|]. constructor; [by apply Hcur|done].
      * intros ? [= <-]. by apply mergeBucket_first.
      * rewrite length_app. simpl. lia.
      * done.
    + split_and!; simpl; try done.
      * intros ? [= <-]. by apply mergeBucket_first.
      * lia.
  - destruct current as [c|]; simpl in *.
    + split_and!; simpl; try done.
      * intros ? [= <-]. apply mergeBucket_digit. by apply Hcur.
      * intros E. by specialize (H0 E).
    + by split_and!.
Qed.

Lemma collectLoop_collected (boundaries : list ColumnBoundary) (lines : list Line) (n : nat)
    (st : list Row * option Row) :
  collected n st ->
  collected (n + length (List.filter (startsNewRow boundaries) lines))
    (fold_left (collectLine boundaries) lines st).
Proof.
  revert n st. induction lines as [|line lines IH]; intros n st Hst; simpl.
  - by rewrite Nat.add_0_r.
  - pose proof (collectLine_collected boundaries n st line Hst) as Hstep.
    apply IH in Hstep. destruct (startsNewRow boundaries line); simpl.
    + by rewrite <- Nat.add_succ_comm.
    + done.
Qed.

Lemma collectRawRows_rows (lines : list Line) (boundaries : list ColumnBoundary) :
  Forall (fun row => hasDigit (row Kcont) = true) (collectRawRows lines boundaries)
  /\ length (collectRawRows lines boundaries) = length (List.filter (startsNewRow boundaries) lines).
Proof.
  unfold collectRawRows.
  destruct (collectLoop_collected boundaries lines 0 ([], None)) as (Hrows & Hcur & Hn & _).
  { by split_and!. }
  destruct (fold_left _ _ _) as [rows current]. simpl in *.
  destruct current as [c|]; simpl in *.
  - rewrite (hasData_digit c (Hcur c eq_refl)). split.
    + apply Forall_app. split; [done|]. constructor; [by apply Hcur|done].
    + rewrite length_app. simpl. lia.
  - split; [done|lia].
Qed.

End Collect.

Section Records.
Context `{NumberRuntime}.

Lemma normalizeRow_kept (row : Row) (pageNumber : Z) :
  hasDigit (row Kcont) = true -> is_Some (normalizeRow row pageNumber).
Proof.
  intros Hr. unfold normalizeRow, parseIntDigits.
  rewrite sfilter_truthy. fold (hasDigit (row Kcont)). by rewrite Hr.
Qed.

Lemma normalizeRow_dropped (row : Row) (pageNumber : Z) :
  hasDigit (row Kcont) = false -> normalizeRow row pageNumber = None.
Proof.
  intros Hr. unfold normalizeRow, parseIntDigits.
  rewrite sfilter_truthy. fold (hasDigit (row Kcont)). by rewrite Hr.
Qed.

Lemma omap_all_kept {A B} (f : A -> option B) (l : list A) :
  Forall (fun a => is_Some (f a)) l -> length (omap f l) = length l.
Proof.
  induction 1 as [|a l [b Hb] _ IH]; [done|]. simpl. rewrite Hb. simpl. by f_equal.
Qed.

(** X12.  No row is lost after the header: on a page with a header, the
    records of the page are as many as the lines under the header block
    whose first column holds a digit; a page without a header gives none.
    The test of [normalizeRow] on the row number never fails on a row that
    [collectRawRows] made. *)
Theorem rows_become_records (lines : list Line) (pageNumber : Z) :
  (findHeaderIndex lines = -1 -> extractPage lines pageNumber = [])
  /\ (forall h : nat, findHeaderIndex lines = Z.of_nat h ->
        exists header, lines !! h = Some header
          /\ length (extractPage lines pageNumber)
             = length (List.filter (startsNewRow (deriveColumnBoundaries header)) (bodyLines lines h))).
Proof.
  split.
  - intros Hh. unfold extractPage. by rewrite Hh.
  - intros h Hh.
    destruct (PdfParserFacts.findIndexFrom_found isHeaderLine lines 0 h) as (header & Hl & _);
      [lia|by rewrite Z.add_0_l|].
    exists header. split; [done|].
    unfold extractPage. rewrite Hh.
    destruct (Z.eqb_spec (Z.of_nat h) (-1)); [lia|].
    rewrite Nat2Z.id, Hl.
    destruct (collectRawRows_rows (drop (skipHeaderBlock lines h) lines)
                (deriveColumnBoundaries header)) as [Hrows Hlen].
    rewrite omap_all_kept; [exact Hlen|].
    eapply Forall_impl; [exact Hrows|]. intros row Hrow. by apply normalizeRow_kept.
Qed.

End Records.

Section Shapes.

Lemma matchesShape_substring (pat s : string) :
  Text.matchesShape pat s = true -> hasShape pat (String.substring 0 (String.length pat) s).
Proof.
  unfold hasShape. revert s. induction pat as [|p pat IH]; intros s; simpl.
  - by destruct s.
  - destruct s as [|c s]; [done|]. intros Hm.
    apply andb_true_iff in Hm as [Hc Hm]. destruct (IH s Hm) as [Hlen Hshape].
    simpl. by rewrite Hlen, Hc, Hshape.
Qed.

Lemma firstMatch_shape (pat s m : string) :
  Text.firstMatch pat s = Some m -> hasShape pat m.
Proof.
  assert (forall s, Text.firstMatch pat s
            = if Text.matchesShape pat s then Some (String.substring 0 (String.length pat) s)
              else match s with
                   | EmptyString => None
                   | String _ s' => Text.firstMatch pat s'
                   end) as Hunfold by (by intros []).
  induction s as [|c s IH]; rewrite Hunfold.
  - destruct (Text.matchesShape pat "") eqn:Hm; [|done].
    intros Hs. assert (m = String.substring 0 (String.length pat) "") as -> by congruence.
    by apply matchesShape_substring.
  - destruct (Text.matchesShape pat (String c s)) eqn:Hm; [|done].
    intros Hs. assert (m = String.substring 0 (String.length pat) (String c s)) as -> by congruence.
    by apply matchesShape_substring.
Qed.

Lemma digit_not_slash (c : ascii) : Text.isDigit c = true -> Ascii.eqb c "/" = false.
Proof. destruct c as [[] [] [] [] [] [] [] []]; done. Qed.

Lemma literal_eqb (p c : ascii) : Ascii.eqb p c = true -> c = p.
Proof. intros Hc. symmetry. by apply Ascii.eqb_eq. Qed.

Lemma shape_digit (pat s : string) (c : ascii) :
  Text.matchesShape (String "d" pat) (String c s) = Text.isDigit c && Text.matchesShape pat s.
Proof. reflexivity. Qed.

Lemma shape_literal (p : ascii) (pat s : string) (c : ascii) :
  Ascii.eqb p "d" = false ->
  Text.matchesShape (String p pat) (String c s) = Ascii.eqb p c && Text.matchesShape pat s.
Proof. intros Hp. cbn [Text.matchesShape]. by rewrite Hp. Qed.

Ltac shape_steps H :=
  repeat (rewrite shape_digit in H || rewrite shape_literal in H by reflexivity).

(** A text of the shape dd/dd/dddd, character by character. *)
Lemma date_chars (f : string) :
  hasShape DATE_SECTION f ->
  exists d1 d2 m1 m2 y1 y2 y3 y4,
    f = String d1 (String d2 (String "/" (String m1 (String m2 (String "/"
          (String y1 (String y2 (String y3 (String y4 EmptyString)))))))))
    /\ Forall (fun c => Text.isDigit c = true) [d1; d2; m1; m2; y1; y2; y3; y4].
Proof.
  intros [Hlen Hm].
  do 10 (destruct f as [|? f]; [done|]). destruct f; [|done]. clear Hlen.
  unfold DATE_SECTION in Hm. shape_steps Hm.
  repeat (apply andb_true_iff in Hm as [? Hm]).
  repeat match goal with E : Ascii.eqb _ _ = true |- _ => apply literal_eqb in E; subst end.
  eexists _, _, _, _, _, _, _, _. split; [reflexivity|]. by repeat constructor.
Qed.

Lemma time_chars (h : string) :
  hasShape TIME_SECTION h ->
  exists h1 h2 m1 m2 s1 s2,
    h = String h1 (String h2 (String ":" (String m1 (String m2 (String ":"
          (String s1 (String s2 EmptyString)))))))
    /\ Forall (fun c => Text.isDigit c = true) [h1; h2; m1; m2; s1; s2].
Proof.
  intros [Hlen Hm].
  do 8 (destruct h as [|? h]; [done|]). destruct h; [|done]. clear Hlen.
  unfold TIME_SECTION in Hm. shape_steps Hm.
  repeat (apply andb_true_iff in Hm as [? Hm]).
  repeat match goal with E : Ascii.eqb _ _ = true |- _ => apply literal_eqb in E; subst end.
  eexists _, _, _, _, _, _. split; [reflexivity|]. by repeat constructor.
Qed.

Lemma toIso_shape (f h : string) :
  hasShape DATE_SECTION f -> hasShape TIME_SECTION h ->
  toIso f h = String.substring 6 4 f +:+ "-" +:+ String.substring 3 2 f
              +:+ "-" +:+ String.substring 0 2 f +:+ "T" +:+ h
  /\ hasShape ISO_SHAPE (toIso f h).
Proof.
  intros Hf Hh.
  destruct (date_chars f Hf) as (d1 & d2 & m1 & m2 & y1 & y2 & y3 & y4 & -> & Hd).
  destruct (time_chars h Hh) as (h1 & h2 & n1 & n2 & s1 & s2 & -> & Ht).
  repeat match goal with E : Forall _ (_ :: _) |- _ => apply Forall_cons_1 in E as [? E] end.
  assert (toIso
            (String d1 (String d2 (String "/" (String m1 (String m2 (String "/"
               (String y1 (String y2 (String y3 (String y4 EmptyString))))))))))
            (String h1 (String h2 (String ":" (String n1 (String n2 (String ":"
               (String s1 (String s2 EmptyString))))))))
          = String y1 (String y2 (String y3 (String y4 (String "-" (String m1 (String m2
              (String "-" (String d1 (String d2 (String "T"
                (String h1 (String h2 (String ":" (String n1 (String n2 (String ":"
                   (String s1 (String s2 EmptyString))))))))))))))))))) as ->.
  { unfold toIso, Text.split.
    repeat (cbn [Text.split_go]; rewrite ?digit_not_slash, ?Ascii.eqb_refl by done; cbv iota).
    reflexivity. }
  split; [reflexivity|]. split; [reflexivity|].
  unfold ISO_SHAPE.
  repeat (rewrite shape_digit || rewrite shape_literal by reflexivity).
  rewrite !Ascii.eqb_refl.
  repeat match goal with E : Text.isDigit _ = true |- _ => rewrite E; clear E end.
  reflexivity.
Qed.

End Shapes.

Section Fields.
Context `{NumberRuntime}.

Lemma normalizeRow_shape (row : Row) (pageNumber pages : Z) (r : TransactionRecord) :
  1 <= pageNumber <= pages -> normalizeRow row pageNumber = Some r -> recordShape pages r.
Proof.
  intros Hp. unfold normalizeRow, parseIntDigits.
  destruct (Text.truthy (Text.sfilter Text.isDigit (row Kcont))); [|done].
  intros [= <-]. unfold recordShape. simpl.
  split; [done|]. split; [by apply digitsValue_nonneg|].
  destruct (Text.firstMatch DATE_SECTION _) as [f|] eqn:Ef;
    destruct (Text.firstMatch TIME_SECTION _) as [h|] eqn:Eh; simpl.
  - pose proof (firstMatch_shape _ _ _ Ef) as Hf. pose proof (firstMatch_shape _ _ _ Eh) as Hh.
    split; [by right|]. split; [by right|].
    assert (Text.truthy f = true) as -> by (destruct Hf as [Hl _]; by destruct f).
    assert (Text.truthy h = true) as -> by (destruct Hh as [Hl _]; by destruct h).
    simpl. destruct (toIso_shape f h Hf Hh) as [Hiso Hs]. by split.
  - pose proof (firstMatch_shape _ _ _ Ef) as Hf.
    split; [by right|]. split; [by left|]. by rewrite andb_false_r.
  - pose proof (firstMatch_shape _ _ _ Eh) as Hh.
    split; [by left|]. split; [by right|]. done.
  - split; [by left|]. split; [by left|]. done.
Qed.

Lemma extractPage_shape (lines : list Line) (pageNumber pages : Z) :
  1 <= pageNumber <= pages -> Forall (recordShape pages) (extractPage lines pageNumber).
Proof.
  intros Hp. unfold extractPage. destruct (findHeaderIndex lines =? -1); [constructor|].
  destruct (lines !! _); [|constructor].
  apply Forall_forall. intros r Hr. apply list_elem_of_omap in Hr as (row & _ & Hrow).
  by eapply normalizeRow_shape.
Qed.

Lemma extractPages_shape (pages : list (list Line)) (n total : Z) :
  1 <= n -> n + Z.of_nat (length pages) - 1 <= total ->
  Forall (recordShape total) (extractPages n pages).
Proof.
  revert n. induction pages as [|lines pages IH]; intros n Hn Ht; simpl; [constructor|].
  simpl length in Ht. apply Forall_app. split.
  - apply extractPage_shape. lia.
  - apply IH; lia.
Qed.

(** X13.  Every record that the extractor returns, for any pages: its page
    is between 1 and the number of pages, its row number is not negative,
    its date is empty or reads dd/dd/dddd, its time is empty or reads
    dd:dd:dd, and its timestamp is yyyy-mm-ddThh:mm:ss, made of the date
    turned round and the time, when both are there and empty otherwise. *)
Theorem records_well_formed (pages : list (list Line)) :
  Forall (recordShape (fst (extractTransactions pages))) (snd (extractTransactions pages)).
Proof.
  unfold extractTransactions. simpl. apply extractPages_shape; lia.
Qed.

End Fields.

(** X12, an instance: the sample page, whose header is its first line. *)
Lemma rows_become_records_witness :
  exists header, Sample.upperPage !! 0%nat = Some header
    /\ length (@extractPage Sample.decimalRuntime Sample.upperPage 1)
       = length (List.filter (startsNewRow (deriveColumnBoundaries header)) (bodyLines Sample.upperPage 0)).
Proof.
  destruct (@rows_become_records Sample.decimalRuntime Sample.upperPage 1) as [_ Hfound].
  apply (Hfound 0%nat). reflexivity.
Defined.

Section Columns.

Lemma columnStarts_keys (ordered : list LineSegment) (defs : list (ColumnKey * string))
    (previous : option float) :
  map fst (columnStarts ordered previous defs) = map fst defs.
Proof.
  revert previous. induction defs as [|[k label] defs IH]; intros previous; simpl; [done|].
  by rewrite IH.
Qed.

Lemma columnEnds_keys (starts : list (ColumnKey * float)) :
  map key (columnEnds starts) = map fst starts.
Proof.
  induction starts as [|[k s] starts IH]; simpl; [done|]. by rewrite IH.
Qed.

Lemma columnEnds_last (starts : list (ColumnKey * float)) :
  starts <> [] -> exists b, last (columnEnds starts) = Some b /\ end_ b = infinity.
Proof.
  induction starts as [|[k s] starts IH]; [done|]. intros _.
  destruct starts as [|[k' s'] starts].
  - simpl. by eexists.
  - destruct IH as (b & Hb & He); [done|]. exists b. split; [|done].
    change (columnEnds ((k, s) :: (k', s') :: starts))
      with ({| key := k; start := s;
               end_ := if PrimFloat.ltb s (s' - COLUMN_GAP)%float then (s' - COLUMN_GAP)%float
                       else (s + DEFAULT_WIDTH)%float |} :: columnEnds ((k', s') :: starts)).
    rewrite last_cons, Hb. done.
Qed.

Lemma prefix_refl (s : string) : String.prefix s s = true.
Proof. induction s as [|c s IH]; simpl; [done|]. by destruct (ascii_dec c c). Qed.

Lemma prefix_app (sub a b : string) :
  String.prefix sub a = true -> String.prefix sub (a +:+ b) = true.
Proof.
  revert sub. induction a as [|c a IH]; intros sub; simpl.
  - destruct sub; [|done]. by destruct b.
  - destruct sub as [|d sub]; [done|]. destruct (ascii_dec d c); [apply IH|done].
Qed.

Lemma includes_unfold (s sub : string) :
  Text.includes s sub
  = String.prefix sub s || match s with EmptyString => false | String _ s' => Text.includes s' sub end.
Proof. by destruct s. Qed.

Lemma includes_refl (s : string) : Text.includes s s = true.
Proof. rewrite includes_unfold. by rewrite prefix_refl. Qed.

Lemma includes_empty (s : string) : Text.includes s "" = true.
Proof. rewrite includes_unfold. by destruct s. Qed.

Lemma includes_app_l (a b sub : string) :
  Text.includes a sub = true -> Text.includes (a +:+ b) sub = true.
Proof.
  induction a as [|c a IH]; rewrite (includes_unfold _ sub).
  - rewrite orb_false_r. destruct sub; [|done]. intros _. apply includes_empty.
  - intros Hs. apply orb_true_iff in Hs as [Hp|Hs].
    + rewrite includes_unfold. by rewrite (prefix_app _ _ b Hp).
    + rewrite includes_unfold. simpl. rewrite (IH Hs). apply orb_true_r.
Qed.

Lemma includes_app_r (a b sub : string) :
  Text.includes b sub = true -> Text.includes (a +:+ b) sub = true.
Proof.
  intros Hb. induction a as [|c a IH]; simpl; [done|].
  rewrite IH. apply orb_true_r.
Qed.

Lemma bucketizeSegment_keeps (boundaries : list ColumnBoundary) (row : Row) (seg : LineSegment)
    (k : ColumnKey) (t : string) :
  Text.includes (row k) t = true -> Text.includes (bucketizeSegment boundaries row seg k) t = true.
Proof.
  intros Hk. unfold bucketizeSegment.
  destruct (Text.truthy (Text.trim (text seg))); simpl; [|done].
  destruct (match findColumn 0 boundaries (x seg) with Some b => Some b | None => last boundaries end)
    as [c|]; [|done].
  unfold rowSet. destruct (decide (k = key c)) as [->|]; [|done].
  destruct (row (key c)) as [|a s] eqn:Er.
  - simpl. destruct t; [apply includes_empty|done].
  - cbn [Text.truthy]. by apply includes_app_l.
Qed.

Lemma bucketizeSegment_lands (boundaries : list ColumnBoundary) (row : Row) (seg : LineSegment) :
  boundaries <> [] -> Text.truthy (Text.trim (text seg)) = true ->
  exists k, Text.includes (bucketizeSegment boundaries row seg k) (Text.trim (text seg)) = true.
Proof.
  intros Hb Ht. unfold bucketizeSegment. rewrite Ht. simpl.
  assert (exists c, match findColumn 0 boundaries (x seg) with Some b => Some b | None => last boundaries end
                    = Some c) as [c ->].
  { destruct (findColumn 0 boundaries (x seg)); [by eexists|].
    destruct (last boundaries) eqn:El; [by eexists|]. by apply last_None in El. }
  exists (key c). unfold rowSet. rewrite decide_True by done.
  destruct (Text.truthy (row (key c))).
  - apply includes_app_r, includes_app_r, includes_refl.
  - apply includes_refl.
Qed.

Lemma bucketizeLoop_keeps (boundaries : list ColumnBoundary) (segs : list LineSegment) (row : Row)
    (k : ColumnKey) (t : string) :
  Text.includes (row k) t = true ->
  Text.includes (fold_left (bucketizeSegment boundaries) segs row k) t = true.
Proof.
  revert row. induction segs as [|s segs IH]; intros row Hk; simpl; [done|].
  by apply IH, bucketizeSegment_keeps.
Qed.

Lemma bucketizeLoop_lands (boundaries : list ColumnBoundary) (segs : list LineSegment) (row : Row)
    (seg : LineSegment) :
  boundaries <> [] -> seg ∈ segs -> Text.truthy (Text.trim (text seg)) = true ->
  exists k, Text.includes (fold_left (bucketizeSegment boundaries) segs row k)
              (Text.trim (text seg)) = true.
Proof.
  intros Hb Hin Ht. revert row. induction segs as [|s segs IH]; intros row.
  { by apply elem_of_nil in Hin. }
  apply elem_of_cons in Hin as [<-|Hin]; simpl.
  - destruct (bucketizeSegment_lands boundaries row seg Hb Ht) as [k Hk].
    exists k. by apply bucketizeLoop_keeps.
  - by apply IH.
Qed.

(** X14.  The header always gives the ten columns, in the order of
    [COLUMN_DEFS], and the last one has no end; so every segment of a line
    that is not blank is found again, trimmed, in the text of some column of
    the bucket of the line, wherever the segment stands. *)
Theorem no_segment_is_dropped (header line : Line) (seg : LineSegment) :
  map key (deriveColumnBoundaries header) = map fst COLUMN_DEFS
  /\ (exists b, last (deriveColumnBoundaries header) = Some b /\ end_ b = infinity)
  /\ (seg ∈ segments line -> Text.truthy (Text.trim (text seg)) = true ->
      exists k, Text.includes (bucketize line (deriveColumnBoundaries header) k)
                  (Text.trim (text seg)) = true).
Proof.
  assert (map key (deriveColumnBoundaries header) = map fst COLUMN_DEFS) as Hkeys.
  { unfold deriveColumnBoundaries. by rewrite columnEnds_keys, columnStarts_keys. }
  split_and!; [done| |].
  - unfold deriveColumnBoundaries. apply columnEnds_last.
    intros E. apply (f_equal (map fst)) in E. by rewrite columnStarts_keys in E.
  - intros Hin Ht. unfold bucketize. apply bucketizeLoop_lands; [|done..].
    intros E. by rewrite E in Hkeys.
Qed.

Lemma skipWhile_spec (rest : list Line) (idx : nat) :
  exists n, skipWhile idx rest = (idx + n)%nat
    /\ (n <= length rest)%nat
    /\ Forall (fun line => isContinuationHeader line = true) (take n rest)
    /\ (forall line, rest !! n = Some line -> isContinuationHeader line = false).
Proof.
  revert idx. induction rest as [|line rest IH]; intros idx; simpl.
  - exists 0%nat. split_and!; [lia|lia|constructor|done].
  - destruct (isContinuationHeader line) eqn:Ec.
    + destruct (IH (S idx)) as (n & -> & Hn & Hall & Hstop).
      exists (S n). split_and!; [lia|simpl; lia|by constructor|done].
    + exists 0%nat. split_and!; [lia|lia|constructor|by intros ? [= <-]].
Qed.

(** X15.  [skipHeaderBlock] stops right after the header and the lines that
    continue it: it gives a position after the header and within the page,
    every line from the header up to it ends in TRANS and has no digit, and
    the line at it, if there is one, does not. *)
Theorem header_block_skipped (lines : list Line) (h : nat) :
  let k := skipHeaderBlock lines h in
  (h < k)%nat
  /\ (k <= Nat.max (S h) (length lines))%nat
  /\ (forall i, (h < i < k)%nat ->
        exists line, lines !! i = Some line /\ isContinuationHeader line = true)
  /\ (forall line, lines !! k = Some line -> isContinuationHeader line = false).
Proof.
  intros k. subst k. unfold skipHeaderBlock.
  destruct (skipWhile_spec (drop (S h) lines) (S h)) as (n & -> & Hn & Hall & Hstop).
  rewrite length_drop in Hn. split_and!; [lia|lia| |].
  - intros i Hi. rewrite Forall_lookup in Hall.
    assert (is_Some (take n (drop (S h) lines) !! (i - S h)%nat)) as [line Hline].
    { apply lookup_lt_is_Some. rewrite length_take, length_drop. lia. }
    exists line. split; [|by eapply Hall].
    rewrite lookup_take_lt in Hline by lia. rewrite lookup_drop in Hline.
    by replace (S h + (i - S h))%nat with i in Hline by lia.
  - intros line Hline. apply Hstop. by rewrite lookup_drop.
Qed.

End Columns.

(** X14, an instance: the date and time of the sample row, under the sample
    header. *)
Lemma no_segment_is_dropped_witness :
  exists k, Text.includes
              (bucketize Sample.rowLine
                 (deriveColumnBoundaries
                    (Sample.headerLine ["CONT"; "FECHA"; "TRANSACCION"; "OPERADOR"; "EQUIPO";
                                        "IMPORTE"; "SALDO"; "TITULO"; "PERFIL"; "ETAPA"])) k)
              "12/03/2024 08:15:00" = true.
Proof.
  destruct (no_segment_is_dropped
              (Sample.headerLine ["CONT"; "FECHA"; "TRANSACCION"; "OPERADOR"; "EQUIPO";
                                  "IMPORTE"; "SALDO"; "TITULO"; "PERFIL"; "ETAPA"])
              Sample.rowLine (Sample.seg 60 "12/03/2024 08:15:00")) as (_ & _ & Hseg).
  apply Hseg.
  - apply (proj2 (list_elem_of_In _ _)). simpl. right. left. reflexivity.
  - reflexivity.
Defined.

(** X15, an instance: on the sample page the body starts at the line after
    the header, which is a row. *)
Lemma header_block_skipped_witness : isContinuationHeader Sample.rowLine = false.
Proof.
  destruct (header_block_skipped Sample.upperPage 0) as (_ & _ & _ & Hstop).
  apply Hstop. reflexivity.
Defined.

End RowsFacts.

(** ** More on the station graph *)

Module NetworkFacts.
Import Metro Network MetroUtils.

Section Routes.
Context (g : Graph) (K : gset string) (Hg : undirected g K).

Lemma pathTo_ends (a c : string) (p : list string) :
  pathTo g a p c -> head p = Some a /\ last p = Some c.
Proof.
  induction 1 as [|p c d Hp [IH1 IH2] Hd]; [done|]. split.
  - destruct p; [done|]. done.
  - by rewrite last_snoc.
Qed.

Lemma pathTo_known (a c : string) (p : list string) :
  a ∈ K -> pathTo g a p c -> forall x, x ∈ p -> x ∈ K.
Proof.
  intros Ha. induction 1 as [|p c d Hp IH Hd]; intros x Hx.
  - apply list_elem_of_singleton in Hx. by subst.
  - apply elem_of_app in Hx as [Hx|Hx]; [by apply IH|].
    apply list_elem_of_singleton in Hx. subst. by eapply MetroFacts.neighbor_known.
Qed.

(** A route cut at one of its stations: the part up to it and the part
    from it. *)
Lemma pathTo_split (a c x : string) (p q : list string) :
  pathTo g a (p ++ x :: q) c -> pathTo g a (p ++ [x]) x /\ pathTo g x (x :: q) c.
Proof.
  revert c. induction q as [|y q IH] using rev_ind; intros c Hp.
  - destruct (pathTo_ends _ _ _ Hp) as [_ Hl]. rewrite last_snoc in Hl. injection Hl as ->.
    split; [done|constructor].
  - rewrite app_comm_cons, (assoc_L (++)) in Hp.
    destruct (MetroFacts.pathTo_inv g _ _ _ Hp) as [[E _]|(q' & c' & E & Hq' & Hc)].
    { apply (f_equal List.length) in E. rewrite !length_app in E. simpl in E. lia. }
    apply app_inj_tail in E as [<- <-].
    destruct (IH _ Hq') as [H1 H2]. split; [done|].
    rewrite app_comm_cons. by eapply pathTo_step.
Qed.

(** Two routes put end to end at a shared station. *)
Lemma pathTo_graft (a x c : string) (p r : list string) :
  pathTo g a p x -> pathTo g x r c -> forall q, r = x :: q -> pathTo g a (p ++ q) c.
Proof.
  intros Hp. induction 1 as [|r c d Hr IH Hd]; intros q E.
  - injection E as <-. by rewrite app_nil_r.
  - destruct r as [|x' r]; [apply MetroFacts.pathTo_length in Hr; simpl in Hr; lia|].
    simpl in E. injection E as -> <-.
    rewrite (assoc_L (++)). eapply pathTo_step; [by apply IH|done].
Qed.

Lemma repeated_station (p : list string) :
  ~ NoDup p -> exists x l1 l2 l3, p = l1 ++ x :: l2 ++ x :: l3.
Proof.
  induction p as [|a p IH]; intros Hnd; [by destruct Hnd; constructor|].
  destruct (decide (a ∈ p)) as [Hin|Hnin].
  - apply list_elem_of_split in Hin as (l2 & l3 & ->). by exists a, [], l2, l3.
  - destruct IH as (x & l1 & l2 & l3 & ->).
    { intros Hp. apply Hnd. by constructor. }
    by exists x, (a :: l1), l2, l3.
Qed.

(** A shortest route goes through no station twice. *)
Lemma shortest_NoDup (a c : string) (p : list string) : shortest g a p c -> NoDup p.
Proof.
  intros [Hp Hmin]. destruct (decide (NoDup p)) as [|Hnd]; [done|]. exfalso.
  destruct (repeated_station p Hnd) as (x & l1 & l2 & l3 & ->).
  destruct (pathTo_split _ _ _ _ _ Hp) as [H1 _].
  assert (pathTo g x (x :: l3) c) as H2.
  { replace (l1 ++ x :: l2 ++ x :: l3) with ((l1 ++ x :: l2) ++ x :: l3) in Hp
      by (by rewrite <- (assoc_L (++))).
    by destruct (pathTo_split _ _ _ _ _ Hp). }
  pose proof (pathTo_graft _ _ _ _ _ H1 H2 l3 eq_refl) as Hshort.
  apply Hmin in Hshort. rewrite !length_app in Hshort. simpl in Hshort.
  rewrite length_app in Hshort. simpl in Hshort. lia.
Qed.

End Routes.

Section Graph.
Context `{Runtime} `{MetroData}.

Lemma setAdd_NoDup (x : string) (l : list string) : NoDup l -> NoDup (setAdd x l).
Proof.
  intros Hl. unfold setAdd. case_bool_decide; [done|].
  apply NoDup_app. split_and!; [done| |apply NoDup_singleton].
  intros y Hy Hx. apply list_elem_of_singleton in Hx. by subst.
Qed.

Lemma addNeighbor_simple (g : Graph) (a b : string) :
  a <> b -> simple g -> simple (addNeighbor a b g).
Proof.
  intros Hab Hg. unfold addNeighbor. destruct (g !! a) as [ns|] eqn:Ha; [|done].
  intros c ms Hc. destruct (decide (c = a)) as [->|Hne].
  - rewrite lookup_insert_eq in Hc. injection Hc as <-.
    destruct (Hg a ns Ha) as [Hself Hnd]. split; [|by apply setAdd_NoDup].
    rewrite MetroFacts.elem_of_setAdd. intros [?|?]; [by subst|done].
  - rewrite lookup_insert_ne in Hc by done. by apply Hg.
Qed.

Lemma ensureGraphNode_simple (g : Graph) (c : string) : simple g -> simple (ensureGraphNode c g).
Proof.
  intros Hg. unfold ensureGraphNode. destruct (negb _ || negb _); [done|].
  destruct (g !! c) eqn:Hc; [done|].
  intros a ns Ha. destruct (decide (a = c)) as [->|Hne].
  - rewrite lookup_insert_eq in Ha. injection Ha as <-. split; [by intros ?%elem_of_nil|constructor].
  - rewrite lookup_insert_ne in Ha by done. by apply Hg.
Qed.

Lemma addEdge_simple (g : Graph) (edge : option string * option string) :
  simple g -> simple (addEdge g edge).
Proof.
  intros Hg. destruct edge as [[a|] [b|]]; simpl; try done.
  destruct (negb (Text.truthy a) || negb (Text.truthy b) || String.eqb a b) eqn:E; [done|].
  destruct (negb (known a) || negb (known b)); [done|].
  apply orb_false_iff in E as [_ E]. apply String.eqb_neq in E.
  apply addNeighbor_simple; [done|]. apply addNeighbor_simple; [done|].
  by do 2 apply ensureGraphNode_simple.
Qed.

Lemma STATION_GRAPH_simple : simple STATION_GRAPH.
Proof.
  unfold STATION_GRAPH. generalize EDGE_CALLS. intros calls.
  assert (forall g, simple g -> simple (fold_left addEdge calls g)) as Hall.
  { induction calls as [|e calls IH]; intros g Hg; simpl; [done|].
    by apply IH, addEdge_simple. }
  apply Hall. intros a ns Ha. by rewrite lookup_empty in Ha.
Qed.

(** X16.  The station graph is well formed, whatever the station table: a
    station of the graph is a known station, none is its own neighbour,
    no neighbour is listed twice, and every edge is there both ways between
    two known stations. *)
Theorem graph_well_formed (a : string) (ns : list string) :
  STATION_GRAPH !! a = Some ns ->
  known a = true /\ (a ∉ ns) /\ NoDup ns
  /\ forall b, b ∈ ns -> known b = true /\ b <> a /\ a ∈ neighborsOf STATION_GRAPH b.
Proof.
  intros Ha.
  destruct (MetroFacts.STATION_GRAPH_undirected a ns Ha) as [Hk Hall].
  destruct (STATION_GRAPH_simple a ns Ha) as [Hself Hnd].
  split_and!; [by apply MetroFacts.known_iff|done|done|].
  intros b Hb. destruct (Hall b Hb) as [Hkb Hback].
  split_and!; [by apply MetroFacts.known_iff| |done].
  intros ->. done.
Qed.

Lemma findMetroPath_cases (from to : string) :
  findMetroPath from to = []
  \/ (findMetroPath from to = [from] /\ known from = true)
  \/ (Text.truthy from = true /\ Text.truthy to = true /\ known from = true /\ known to = true
      /\ from <> to /\ shortest STATION_GRAPH from (findMetroPath from to) to).
Proof.
  destruct (Text.truthy from) eqn:Hf; [|left; unfold findMetroPath; by rewrite Hf].
  destruct (Text.truthy to) eqn:Ht; [|left; unfold findMetroPath; by rewrite Hf, Ht].
  destruct (known from) eqn:Hkf; [|left; unfold findMetroPath; by rewrite Hf, Ht, Hkf].
  destruct (known to) eqn:Hkt; [|right; left; unfold findMetroPath; by rewrite Hf, Ht, Hkf, Hkt].
  destruct (decide (from = to)) as [<-|Hne].
  { right. left. split; [|done]. by apply MetroFacts.findMetroPath_same. }
  destruct (MetroFacts.findMetroPath_search from to Hf Ht Hkf Hkt Hne) as [Hs|[Hs _]].
  - right. right. by split_and!.
  - right. by left.
Qed.

Lemma shortest_route (from to : string) (p : list string) :
  known from = true -> shortest STATION_GRAPH from p to ->
  NoDup p /\ (forall c, c ∈ p -> known c = true) /\ head p = Some from /\ last p = Some to.
Proof.
  intros Hk Hs. pose proof (shortest_NoDup _ _ _ _ Hs) as Hnd.
  destruct Hs as [Hp _]. destruct (pathTo_ends _ _ _ _ Hp) as [Hhead Hlast].
  split_and!; try done. intros c Hc. apply MetroFacts.known_iff.
  apply (pathTo_known STATION_GRAPH STATION_BY_CODE MetroFacts.STATION_GRAPH_undirected from to p);
    [by apply MetroFacts.known_iff|done..].
Qed.

(** X17.  The route that [findMetroPath] gives, for any two texts: it goes
    through no station twice and through known stations only, it is empty
    or starts at the start, and when it has two stations or more it is a
    shortest route of the graph from the start to the end, each station
    next to the one before. *)
Theorem route_shape (from to : string) :
  let route := findMetroPath from to in
  NoDup route
  /\ (forall c, c ∈ route -> known c = true)
  /\ (route = [] \/ head route = Some from)
  /\ (List.length route <= size STATION_BY_CODE)%nat
  /\ ((2 <= List.length route)%nat ->
      from <> to /\ last route = Some to /\ shortest STATION_GRAPH from route to).
Proof.
  intros route. subst route.
  destruct (findMetroPath_cases from to) as [->|[[-> Hk]|(Hf & Ht & Hkf & Hkt & Hne & Hs)]].
  - split_and!; [constructor|by intros c ?%elem_of_nil|by left|simpl; lia|simpl; lia].
  - split_and!; [apply NoDup_singleton| |by right| |simpl; lia].
    + intros c Hc. apply list_elem_of_singleton in Hc. by subst.
    + simpl. apply MetroFacts.known_iff in Hk.
      assert (size STATION_BY_CODE <> 0%nat); [|lia].
      intros E. apply size_empty_iff in E. set_solver.
  - destruct (shortest_route _ _ _ Hkf Hs) as (Hnd & Hknown & Hhead & Hlast).
    split_and!; [done|done|by right| |done].
    rewrite <- (size_list_to_set (C:=gset string) _ Hnd).
    apply subseteq_size. intros c Hc. apply elem_of_list_to_set in Hc.
    by apply MetroFacts.known_iff, Hknown.
Qed.

Lemma classic_joins (edge : option string * option string) :
  (forall a b, ~ joins edge a b)
  \/ exists from to, edge = (Some from, Some to)
       /\ Text.truthy from = true /\ Text.truthy to = true /\ from <> to
       /\ known from = true /\ known to = true.
Proof.
  destruct edge as [[from|] [to|]];
    try (left; intros a b (? & ? & [=] & _); done).
  destruct (Text.truthy from) eqn:Hf;
    [|left; intros a b (? & ? & [= <- <-] & ? & _); congruence].
  destruct (Text.truthy to) eqn:Ht;
    [|left; intros a b (? & ? & [= <- <-] & ? & ? & _); congruence].
  destruct (decide (from = to)) as [->|Hne];
    [left; intros a b (? & ? & [= <- <-] & ? & ? & ? & _); congruence|].
  destruct (known from) eqn:Hkf;
    [|left; intros a b (? & ? & [= <- <-] & ? & ? & ? & ? & _); congruence].
  destruct (known to) eqn:Hkt;
    [|left; intros a b (? & ? & [= <- <-] & ? & ? & ? & ? & ? & _); congruence].
  right. exists from, to. by split_and!.
Qed.

Lemma ensureGraphNode_lookup (g : Graph) (c : string) :
  (forall d, neighborsOf (ensureGraphNode c g) d = neighborsOf g d)
  /\ (Text.truthy c = true -> known c = true -> is_Some (ensureGraphNode c g !! c))
  /\ (forall d, is_Some (g !! d) -> is_Some (ensureGraphNode c g !! d)).
Proof.
  unfold ensureGraphNode.
  destruct (Text.truthy c) eqn:Ht, (known c) eqn:Hk; simpl; try (split_and!; done).
  destruct (g !! c) as [ns|] eqn:Hc.
  - by split_and!.
  - split_and!.
    + intros d. unfold neighborsOf. destruct (decide (c = d)) as [<-|?].
      * by rewrite lookup_insert_eq, Hc.
      * by rewrite lookup_insert_ne.
    + intros _ _. by rewrite lookup_insert_eq.
    + intros d Hd. rewrite lookup_insert_is_Some. destruct (decide (c = d)); auto.
Qed.

Lemma ensureNodes (g : Graph) (from to : string) :
  Text.truthy from = true -> Text.truthy to = true -> known from = true -> known to = true ->
  exists nf nt,
    ensureGraphNode to (ensureGraphNode from g) !! from = Some nf
    /\ ensureGraphNode to (ensureGraphNode from g) !! to = Some nt
    /\ forall a, neighborsOf (ensureGraphNode to (ensureGraphNode from g)) a = neighborsOf g a.
Proof.
  intros Hf Ht Hkf Hkt.
  destruct (ensureGraphNode_lookup g from) as (Hn1 & Hs1 & _).
  destruct (ensureGraphNode_lookup (ensureGraphNode from g) to) as (Hn2 & Hs2 & Hkeep).
  destruct (Hkeep from (Hs1 Hf Hkf)) as [nf Hnf]. destruct (Hs2 Ht Hkt) as [nt Hnt].
  exists nf, nt. split_and!; [done..|]. intros a. by rewrite Hn2, Hn1.
Qed.

Lemma addEdge_skipped (g : Graph) (edge : option string * option string) :
  (forall a b, ~ joins edge a b) -> addEdge g edge = g.
Proof.
  intros Hno. destruct edge as [[from|] [to|]]; simpl; try done.
  destruct (Text.truthy from) eqn:Hf; [|done]. destruct (Text.truthy to) eqn:Ht; [|done].
  simpl. destruct (String.eqb_spec from to) as [|Hne]; [done|].
  destruct (known from) eqn:Hkf; [|done]. destruct (known to) eqn:Hkt; [|done].
  exfalso. apply (Hno from to). exists from, to. split_and!; try done. by left.
Qed.

Lemma addEdge_neighbors (g : Graph) (edge : option string * option string) (a b : string) :
  b ∈ neighborsOf (addEdge g edge) a <-> b ∈ neighborsOf g a \/ joins edge a b.
Proof.
  destruct (classic_joins edge) as [Hno|(from & to & -> & Hf & Ht & Hne & Hkf & Hkt)].
  { rewrite addEdge_skipped by done. split; [by left|]. intros [?|Hj]; [done|]. by destruct (Hno a b). }
  simpl. rewrite Hf, Ht, Hkf, Hkt. simpl.
  destruct (String.eqb_spec from to) as [|_]; [done|].
  destruct (ensureNodes g from to Hf Ht Hkf Hkt) as (nf & nt & Hnf & Hnt & Hsame).
  set (g2 := ensureGraphNode to (ensureGraphNode from g)) in *.
  assert (forall c, c ∈ neighborsOf (addNeighbor to from (addNeighbor from to g2)) a
                    <-> c ∈ neighborsOf g2 a \/ (a = from /\ c = to) \/ (a = to /\ c = from)) as Hn.
  { intros c. unfold addNeighbor at 2. rewrite Hnf.
    unfold addNeighbor. rewrite lookup_insert_ne, Hnt by done.
    destruct (decide (a = to)) as [->|Hato].
    - rewrite MetroFacts.neighborsOf_insert_eq, MetroFacts.elem_of_setAdd.
      unfold neighborsOf. rewrite Hnt. simpl. naive_solver.
    - rewrite MetroFacts.neighborsOf_insert_ne by done.
      destruct (decide (a = from)) as [->|Hafrom].
      + rewrite MetroFacts.neighborsOf_insert_eq, MetroFacts.elem_of_setAdd.
        unfold neighborsOf. rewrite Hnf. simpl. naive_solver.
      + rewrite MetroFacts.neighborsOf_insert_ne by done. naive_solver. }
  rewrite Hn, Hsame. split.
  - intros [?|Hj]; [by left|]. right. exists from, to. by split_and!.
  - intros [?|(from' & to' & [= <- <-] & _ & _ & _ & _ & _ & Hj)]; [by left|by right].
Qed.

Lemma edges_fold (calls : list (option string * option string)) (g : Graph) (a b : string) :
  b ∈ neighborsOf (fold_left addEdge calls g) a
  <-> b ∈ neighborsOf g a \/ exists edge, edge ∈ calls /\ joins edge a b.
Proof.
  revert g. induction calls as [|e calls IH]; intros g; simpl.
  - split; [by left|]. intros [?|(e & He & _)]; [done|]. by apply elem_of_nil in He.
  - rewrite IH, addEdge_neighbors. split.
    + intros [[?|?]|(e' & He' & Hj)]; [by left| |].
      * right. exists e. split; [by left|done].
      * right. exists e'. split; [by right|done].
    + intros [?|(e' & He' & Hj)]; [by left; left|].
      apply elem_of_cons in He' as [->|He']; [by left; right|]. right. by exists e'.
Qed.

Lemma sequenceEdges_next (stations : list RawStation) (i : nat) (s s' : RawStation) :
  stations !! i = Some s -> stations !! S i = Some s' ->
  (Some (code s), Some (code s')) ∈ sequenceEdges stations.
Proof.
  revert i. induction stations as [|c stations IH]; intros i Hs Hs'; [done|].
  destruct stations as [|n stations]; [done|].
  destruct i as [|i]; simpl in *.
  - injection Hs as <-. injection Hs' as <-. by left.
  - right. by eapply IH.
Qed.

Lemma station_known (stations : list RawStation) (s : RawStation) :
  stations ∈ SEQUENCES -> s ∈ stations -> known (code s) = true.
Proof.
  intros Hseq Hs. apply MetroFacts.known_iff. unfold STATION_BY_CODE.
  apply elem_of_list_to_set, list_elem_of_fmap. exists s. split; [done|].
  unfold ALL_POSITIONED_STATIONS. unfold SEQUENCES in Hseq.
  rewrite !elem_of_cons in Hseq. rewrite !elem_of_app.
  destruct Hseq as [->|[->|[->|[->|[->|Hnil]]]]]; [tauto..|by apply elem_of_nil in Hnil].
Qed.

Lemma sequence_calls (stations : list RawStation) :
  stations ∈ SEQUENCES -> forall edge, edge ∈ sequenceEdges stations -> edge ∈ EDGE_CALLS.
Proof.
  intros Hseq edge He. unfold EDGE_CALLS. unfold SEQUENCES in Hseq.
  rewrite !elem_of_cons in Hseq. rewrite !elem_of_app.
  destruct Hseq as [->|[->|[->|[->|[->|Hnil]]]]]; [tauto..|by apply elem_of_nil in Hnil].
Qed.

(** X18.  Two stations are neighbours in the graph exactly when a call of
    [addEdge] joined them: both codes given, different, and known.  So two
    stations that follow one another in a line, with different codes that
    are not empty, are neighbours. *)
Theorem edges_are_the_calls (a b : string) :
  (b ∈ neighborsOf STATION_GRAPH a <-> exists edge, edge ∈ EDGE_CALLS /\ joins edge a b)
  /\ (forall stations i s s',
        stations ∈ SEQUENCES -> stations !! i = Some s -> stations !! S i = Some s' ->
        Text.truthy (code s) = true -> Text.truthy (code s') = true -> code s <> code s' ->
        code s' ∈ neighborsOf STATION_GRAPH (code s)).
Proof.
  assert (forall a b, b ∈ neighborsOf STATION_GRAPH a
                      <-> exists edge, edge ∈ EDGE_CALLS /\ joins edge a b) as Hiff.
  { intros a' b'. unfold STATION_GRAPH. rewrite edges_fold. split; [|by right].
    intros [Hin|?]; [|done]. unfold neighborsOf in Hin. rewrite lookup_empty in Hin.
    by apply elem_of_nil in Hin. }
  split; [apply Hiff|].
  intros stations i s s' Hseq Hs Hs' Ht Ht' Hne. apply Hiff.
  exists (Some (code s), Some (code s')). split.
  - eapply sequence_calls; [done|]. by eapply sequenceEdges_next.
  - exists (code s), (code s'). split_and!; try done.
    + eapply station_known; [done|]. by eapply list_elem_of_lookup_2.
    + eapply station_known; [done|]. by eapply list_elem_of_lookup_2.
    + by left.
Qed.

End Graph.

Section Names.
Context `{Runtime} `{MetroData}.

Lemma layout_fold (l : list RawStation) (m : gmap string RawStation) (c : string) :
  (is_Some (fold_left (fun m station => <[code station := station]> m) l m !! c)
   <-> c ∈ map code l \/ is_Some (m !! c))
  /\ (forall station, fold_left (fun m station => <[code station := station]> m) l m !! c = Some station ->
        (station ∈ l /\ code station = c) \/ m !! c = Some station).
Proof.
  revert m. induction l as [|s l IH]; intros m; simpl.
  - split; [|by right]. split; [by right|]. intros [Hc|?]; [|done]. by apply elem_of_nil in Hc.
  - destruct (IH (<[code s := s]> m)) as [IH1 IH2]. split.
    + rewrite IH1, elem_of_cons, lookup_insert_is_Some. split.
      * intros [?|[?|[? ?]]]; auto.
      * intros [[->|?]|?]; auto. destruct (decide (code s = c)); auto.
    + intros station Hst. destruct (IH2 station Hst) as [[Hin Hc]|Hm].
      * left. split; [by right|done].
      * destruct (decide (code s = c)) as [<-|Hne].
        -- rewrite lookup_insert_eq in Hm. injection Hm as <-. left. split; [by left|done].
        -- rewrite lookup_insert_ne in Hm by done. by right.
Qed.

Lemma isKnownMetroStation_known (c : string) : isKnownMetroStation c = known c.
Proof.
  unfold isKnownMetroStation, known, METRO_STATION_BY_CODE, METRO_STATION_LAYOUT, STATION_BY_CODE.
  apply bool_decide_ext. destruct (layout_fold ALL_POSITIONED_STATIONS ∅ c) as [-> _].
  rewrite elem_of_list_to_set, lookup_empty. split; [|by left].
  intros [?|[? ?]]; done.
Qed.

Lemma setIfAbsent_resolve (k v : string) (m : gmap string string) :
  v ∈ STATION_BY_CODE -> namesResolve m -> namesResolve (setIfAbsent k v m).
Proof.
  intros Hv Hm. unfold setIfAbsent. destruct (m !! k) eqn:Hk; [done|].
  by apply map_Forall_insert_2.
Qed.

Lemma addStationNames_resolve (m : gmap string string) (station : RawStation) :
  station ∈ ALL_POSITIONED_STATIONS -> namesResolve m -> namesResolve (addStationNames m station).
Proof.
  intros Hs Hm.
  assert (code station ∈ STATION_BY_CODE) as Hc.
  { unfold STATION_BY_CODE. apply elem_of_list_to_set, list_elem_of_fmap. by exists station. }
  unfold addStationNames.
  generalize (List.filter Text.truthy
                (map (fun segment => normalizeMetroComparable (Some segment))
                   (Text.split "/" (name station)))).
  intros keys.
  assert (namesResolve (if Text.truthy (normalizeMetroComparable (Some (name station)))
                        then setIfAbsent (normalizeMetroComparable (Some (name station))) (code station) m
                        else m)) as Hm1.
  { destruct (Text.truthy _); [by apply setIfAbsent_resolve|done]. }
  revert Hm1. generalize (if Text.truthy (normalizeMetroComparable (Some (name station)))
                          then setIfAbsent (normalizeMetroComparable (Some (name station))) (code station) m
                          else m).
  induction keys as [|k keys IH]; intros m1 Hm1; simpl; [done|].
  by apply IH, setIfAbsent_resolve.
Qed.

Lemma addAlias_resolve (m : gmap string string) (alias : string * string) :
  namesResolve m -> namesResolve (addAlias m alias).
Proof.
  intros Hm. unfold addAlias. destruct (m !! _); [done|].
  destruct (isKnownMetroStation (snd alias)) eqn:Hk; [|done].
  apply map_Forall_insert_2; [|done].
  rewrite isKnownMetroStation_known in Hk. by apply MetroFacts.known_iff.
Qed.

Lemma METRO_STATION_CODE_BY_NAME_resolve : namesResolve METRO_STATION_CODE_BY_NAME.
Proof.
  unfold METRO_STATION_CODE_BY_NAME.
  assert (namesResolve (fold_left addStationNames METRO_STATION_LAYOUT ∅)) as Hnames.
  { unfold METRO_STATION_LAYOUT.
    assert (forall l m, (forall s, s ∈ l -> s ∈ ALL_POSITIONED_STATIONS) -> namesResolve m ->
                        namesResolve (fold_left addStationNames l m)) as Hall.
    { induction l as [|s l IH]; intros m Hl Hm; simpl; [done|].
      apply IH; [intros; apply Hl; by right|].
      apply addStationNames_resolve; [apply Hl; by left|done]. }
    apply Hall; [done|]. apply map_Forall_empty. }
  revert Hnames. generalize (fold_left addStationNames METRO_STATION_LAYOUT ∅).
  generalize manualAliases. induction l as [|a l IH]; intros m Hm; simpl; [done|].
  by apply IH, addAlias_resolve.
Qed.

(** X20.  The two station tables agree and a resolved name is a station:
    [isKnownMetroStation] of metroUtils holds of exactly the codes that the
    path finder knows, and whenever [resolveMetroStationCode] gives a code,
    it is not empty, it is a known station, and [getMetroStationMeta] finds
    a station with that code. *)
Theorem resolved_codes_are_known (value : option string) (c : string) :
  isKnownMetroStation c = known c
  /\ (resolveMetroStationCode value = Some c ->
      Text.truthy c = true /\ known c = true
      /\ exists station, getMetroStationMeta c = Some station /\ code station = c).
Proof.
  split; [apply isKnownMetroStation_known|].
  unfold resolveMetroStationCode. destruct value as [v|]; [|done].
  destruct (Text.truthy v); [|done]. cbn [negb].
  destruct (Text.truthy (normalizeMetroComparable (Some v))); [|done]. cbn [negb].
  destruct (METRO_STATION_CODE_BY_NAME !! _) as [direct|] eqn:Hd; [|done].
  destruct (Text.truthy direct) eqn:Ht; [|done]. intros [= <-].
  pose proof (METRO_STATION_CODE_BY_NAME_resolve _ _ Hd) as Hk. cbn beta in Hk.
  split_and!; [done|by apply MetroFacts.known_iff|].
  assert (is_Some (METRO_STATION_BY_CODE !! direct)) as [station Hs].
  { apply MetroFacts.known_iff in Hk. rewrite <- isKnownMetroStation_known in Hk.
    unfold isKnownMetroStation in Hk. by apply bool_decide_eq_true in Hk. }
  exists station. split; [done|].
  unfold METRO_STATION_BY_CODE in Hs.
  destruct (layout_fold METRO_STATION_LAYOUT ∅ direct) as [_ Hfrom].
  destruct (Hfrom station Hs) as [[_ ?]|Hm]; [done|]. by rewrite lookup_empty in Hm.
Qed.

Lemma filter_known (l : list string) :
  (forall c, c ∈ l -> known c = true) -> List.filter isKnownMetroStation l = l.
Proof.
  induction l as [|c l IH]; intros Hl; simpl; [done|].
  rewrite isKnownMetroStation_known, (Hl c) by (by left).
  f_equal. apply IH. intros; apply Hl; by right.
Qed.

(** X21.  A metro trip of the yearly summary always has its whole route:
    when the block that fills [metroTrips] records a trip, its two codes
    are different known stations and its path is the route of
    [findMetroPath] between them, untouched by the filter, a shortest route
    of the graph that starts at the first, ends at the second and goes
    through no station twice.  A trip from a station to itself, or between
    two stations that no route joins, is not recorded. *)
Theorem metro_trip_route (startEquipo : string) (endEquipo : option string)
    (startCode endCode : string) (pathCodes : list string) :
  Annual.metroTripPath startEquipo endEquipo = Some (startCode, endCode, pathCodes) ->
  resolveMetroStationCode (Some startEquipo) = Some startCode
  /\ resolveMetroStationCode endEquipo = Some endCode
  /\ startCode <> endCode
  /\ pathCodes = findMetroPath startCode endCode
  /\ shortest STATION_GRAPH startCode pathCodes endCode
  /\ head pathCodes = Some startCode /\ last pathCodes = Some endCode
  /\ NoDup pathCodes.
Proof.
  unfold Annual.metroTripPath.
  destruct (resolveMetroStationCode (Some startEquipo)) as [a|] eqn:Ha; [|done].
  destruct (resolveMetroStationCode endEquipo) as [b|] eqn:Hb; [|done].
  destruct (findMetroPath_cases a b) as [E|[[E Hk]|(_ & _ & Hka & _ & Hne & Hs)]].
  - rewrite E. simpl. done.
  - rewrite E. simpl. rewrite isKnownMetroStation_known, Hk. simpl. done.
  - destruct (shortest_route _ _ _ Hka Hs) as (Hnd & Hknown & Hhead & Hlast).
    rewrite (filter_known _ Hknown).
    destruct (Nat.leb_spec 2 (List.length (findMetroPath a b))) as [Hlen|]; [|done].
    intros [= <- <- <-]. by split_and!.
Qed.

End Names.

Section Lines.
Context `{MetroData}.

Lemma station_key_parts (a b : RawStation) :
  lineName (line a) +:+ "-" +:+ code a = lineName (line b) +:+ "-" +:+ code b ->
  line a = line b /\ code a = code b.
Proof.
  destruct (line a), (line b); intros E; simplify_eq/=; done.
Qed.

Lemma dedupe_spec (seen : gset string) (l : list RawStation) :
  NoDup ((fun s => lineName (line s) +:+ "-" +:+ code s) <$> dedupe seen l)
  /\ (forall s, s ∈ dedupe seen l -> s ∈ l /\ lineName (line s) +:+ "-" +:+ code s ∉ seen)
  /\ (forall s, s ∈ l -> lineName (line s) +:+ "-" +:+ code s ∉ seen ->
        exists s', s' ∈ dedupe seen l /\ line s' = line s /\ code s' = code s).
Proof.
  revert seen. induction l as [|a l IH]; intros seen; simpl.
  - split_and!; [constructor|by intros s ?%elem_of_nil|by intros s ?%elem_of_nil].
  - case_bool_decide as Ha.
    + destruct (IH seen) as (Hnd & Hin & Hcov). split_and!; [done| |].
      * intros s Hs. destruct (Hin s Hs). split; [by right|done].
      * intros s [->|Hs]%elem_of_cons Hk; [done|]. by apply Hcov.
    + destruct (IH ({[lineName (line a) +:+ "-" +:+ code a]} ∪ seen)) as (Hnd & Hin & Hcov).
      split_and!.
      * simpl. apply NoDup_cons. split; [|done].
        intros (s & Hk & Hs)%list_elem_of_fmap. destruct (Hin s Hs) as [_ Hn].
        apply Hn. rewrite <- Hk. set_solver.
      * intros s [->|Hs]%elem_of_cons; [split; [by left|done]|].
        destruct (Hin s Hs) as [Hl Hn]. split; [by right|]. set_solver.
      * intros s Hs Hk.
        destruct (decide (lineName (line s) +:+ "-" +:+ code s
                          = lineName (line a) +:+ "-" +:+ code a)) as [E|E].
        -- exists a. apply station_key_parts in E as [-> ->]. split_and!; [by left|done..].
        -- apply elem_of_cons in Hs as [->|Hs]; [done|].
           destruct (Hcov s Hs) as (s' & Hs' & Hl & Hc); [set_solver|].
           exists s'. split_and!; [by right|done..].
Qed.

Lemma NoDup_fmap_same {A B : Type} (f : A -> B) (l : list A) (x y : A) :
  NoDup (f <$> l) -> x ∈ l -> y ∈ l -> f x = f y -> x = y.
Proof.
  induction l as [|a l IH]; simpl; [by intros _ ?%elem_of_nil|].
  rewrite NoDup_cons. intros [Ha Hnd] [->|Hx]%elem_of_cons [->|Hy]%elem_of_cons Hf.
  - done.
  - destruct Ha. rewrite Hf. apply list_elem_of_fmap. by exists y.
  - destruct Ha. rewrite <- Hf. apply list_elem_of_fmap. by exists x.
  - by apply IH.
Qed.

Lemma sorted_last {A : Type} (R : A -> A -> Prop) (l : list A) (e : A) :
  StronglySorted R (l ++ [e]) -> forall t, t ∈ l -> R t e.
Proof.
  induction l as [|a l IH]; simpl; intros Hs t Ht; [by apply elem_of_nil in Ht|].
  apply StronglySorted_inv in Hs as [Hs Hall].
  apply elem_of_cons in Ht as [->|Ht]; [|by apply IH].
  rewrite List.Forall_forall in Hall. apply Hall, in_or_app. right. by left.
Qed.

Lemma weightNotAfter_total (a b : RawStation) :
  weightNotAfter a b = false -> weightNotAfter b a = true.
Proof. unfold weightNotAfter. lia. Qed.

Lemma weightNotAfter_trans (a b c : RawStation) :
  weightNotAfter a b = true -> weightNotAfter b c = true -> weightNotAfter a c = true.
Proof. unfold weightNotAfter. lia. Qed.

Lemma GROUPED_BY_LINE_elem (l : LineCode) (s : RawStation) :
  s ∈ GROUPED_BY_LINE l <-> line s = l /\ s ∈ dedupe ∅ RAW_STATIONS.
Proof.
  unfold GROUPED_BY_LINE. rewrite stableSort_perm.
  rewrite !list_elem_of_In, filter_In, <- !list_elem_of_In.
  rewrite bool_decide_eq_true. tauto.
Qed.

Lemma GROUPED_BY_LINE_sorted (l : LineCode) :
  StronglySorted (fun a b => weight a <= weight b) (GROUPED_BY_LINE l).
Proof.
  apply Sorted_StronglySorted; [intros a b c; lia|].
  eapply Sorted_ind with (P := fun l' => Sorted (fun a b => weight a <= weight b) l').
  3: exact (stableSort_order weightNotAfter weightNotAfter_total _).
  - constructor.
  - intros a l' _ IH Hhd. constructor; [done|].
    destruct Hhd as [|b l'' Hab]; constructor. unfold weightNotAfter in Hab. lia.
Qed.

(** X19.  The stations of a line.  What the diagram holds for a line are
    stations of the file on that line, in the order of their weights and
    with no code twice, and every station of the file on that line has its
    code among them.  The stations of line 2 before the trunk weigh less
    than every station of the trunk and those after it weigh more, so a
    station of line 2 whose weight is within the trunk's is in neither part. *)
Theorem lines_in_order (l : LineCode) :
  StronglySorted (fun a b => weight a <= weight b) (GROUPED_BY_LINE l)
  /\ Forall (fun s => line s = l /\ s ∈ RAW_STATIONS) (GROUPED_BY_LINE l)
  /\ NoDup (code <$> GROUPED_BY_LINE l)
  /\ (forall s, s ∈ RAW_STATIONS -> line s = l -> code s ∈ code <$> GROUPED_BY_LINE l)
  /\ (forall a t, a ∈ LINE2_BEFORE_TRUNK -> t ∈ TRUNK_STATIONS -> weight a < weight t)
  /\ (forall a t, a ∈ LINE2_AFTER_TRUNK -> t ∈ TRUNK_STATIONS -> weight t < weight a).
Proof.
  destruct (dedupe_spec ∅ RAW_STATIONS) as (Hnd & Hin & Hcov).
  split_and!.
  - apply GROUPED_BY_LINE_sorted.
  - apply Forall_forall. intros s [Hl Hs]%GROUPED_BY_LINE_elem. split; [done|].
    by destruct (Hin s Hs).
  - unfold GROUPED_BY_LINE. rewrite stableSort_perm.
    apply NoDup_fmap_2_strong.
    + intros a b Ha Hb Hc.
      apply list_elem_of_In, filter_In in Ha as [Ha La].
      apply list_elem_of_In, filter_In in Hb as [Hb Lb].
      apply bool_decide_eq_true in La, Lb.
      apply list_elem_of_In in Ha, Hb.
      eapply NoDup_fmap_same; [exact Hnd|done..|]. simpl. by rewrite La, Lb, Hc.
    + apply NoDup_ListNoDup, List.NoDup_filter, NoDup_ListNoDup.
      by apply NoDup_fmap_1 in Hnd.
  - intros s Hs Hl. destruct (Hcov s Hs) as (s' & Hs' & Hl' & Hc'); [set_solver|].
    rewrite <- Hc'. apply list_elem_of_fmap. exists s'. split; [done|].
    apply GROUPED_BY_LINE_elem. split; [by rewrite Hl'|done].
  - intros a t Ha Ht. unfold LINE2_BEFORE_TRUNK, TRUNK_START in Ha.
    pose proof (GROUPED_BY_LINE_sorted T) as Hsorted. fold TRUNK_STATIONS in Hsorted.
    destruct TRUNK_STATIONS as [|t0 ts]; [by apply elem_of_nil in Ht|].
    simpl in Ha. apply list_elem_of_In, filter_In in Ha as [_ Ha].
    apply StronglySorted_inv in Hsorted as [_ Hall]. rewrite List.Forall_forall in Hall.
    apply elem_of_cons in Ht as [->|Ht]; [lia|].
    apply list_elem_of_In, Hall in Ht. lia.
  - intros a t Ha Ht. unfold LINE2_AFTER_TRUNK, TRUNK_END in Ha.
    pose proof (GROUPED_BY_LINE_sorted T) as Hsorted. fold TRUNK_STATIONS in Hsorted.
    destruct (last TRUNK_STATIONS) as [e|] eqn:El.
    2: { apply last_None in El. rewrite El in Ht. by apply elem_of_nil in Ht. }
    apply list_elem_of_In, filter_In in Ha as [_ Ha].
    apply last_Some in El as (front & El). rewrite El in Ht, Hsorted.
    apply elem_of_app in Ht as [Ht|Ht%list_elem_of_singleton]; [|subst; lia].
    pose proof (sorted_last _ _ _ Hsorted t Ht) as Hte. cbv beta in Hte. lia.
Qed.

End Lines.

(** X16, an instance: Casco Viejo on the sample network, between Abando and
    the station of line 3. *)
Lemma graph_well_formed_witness :
  @known Sample.sampleMetro "CAV" = true
  /\ NoDup ["ABA"; "CAL"]%string
  /\ "CAV"%string ∈ neighborsOf (@STATION_GRAPH Sample.utcRuntime Sample.sampleMetro) "CAL".
Proof.
  destruct (@graph_well_formed Sample.utcRuntime Sample.sampleMetro "CAV" ["ABA"; "CAL"]%string)
    as (Hk & _ & Hnd & Hall).
  - by vm_compute.
  - split_and!; [exact Hk|exact Hnd|]. apply Hall.
    apply (proj2 (list_elem_of_In _ _)). simpl. right. left. reflexivity.
Defined.

(** X17, an instance: from Astrabudua to Zurbaranbarri on the sample
    network. *)
Lemma route_shape_witness :
  last (@findMetroPath Sample.utcRuntime Sample.sampleMetro "AST" "ZUR") = Some "ZUR"%string
  /\ shortest (@STATION_GRAPH Sample.utcRuntime Sample.sampleMetro) "AST"
       (@findMetroPath Sample.utcRuntime Sample.sampleMetro "AST" "ZUR") "ZUR".
Proof.
  destruct (@route_shape Sample.utcRuntime Sample.sampleMetro "AST" "ZUR") as (_ & _ & _ & _ & Hlong).
  destruct Hlong as (_ & Hlast & Hs); [vm_compute; lia|]. by split.
Defined.

(** X18, an instance: Astrabudua and Erandio follow one another on line 1
    of the sample network. *)
Lemma edges_are_the_calls_witness :
  "ERA"%string ∈ neighborsOf (@STATION_GRAPH Sample.utcRuntime Sample.sampleMetro) "AST".
Proof.
  destruct (@edges_are_the_calls Sample.utcRuntime Sample.sampleMetro "AST" "ERA") as [_ Hnext].
  apply (Hnext (@L1_STATIONS Sample.sampleMetro) 0%nat
           (Sample.station L1 "AST" "Astrabudua" 10) (Sample.station L1 "ERA" "Erandio" 11)).
  - apply (proj2 (list_elem_of_In _ _)). left. reflexivity.
  - reflexivity.
  - reflexivity.
  - reflexivity.
  - reflexivity.
  - by vm_compute.
Defined.

(** X20, an instance: the second name of Gurutzeta/Cruces on the sample
    network. *)
Lemma resolved_codes_are_known_witness :
  Text.truthy "GUR" = true /\ @known Sample.sampleMetro "GUR" = true
  /\ exists station, @getMetroStationMeta Sample.sampleMetro "GUR" = Some station
       /\ code station = "GUR"%string.
Proof.
  destruct (@resolved_codes_are_known Sample.utcRuntime Sample.sampleMetro (Some "Cruces"%string) "GUR")
    as [_ Hres].
  apply Hres. by vm_compute.
Defined.

(** X21, an instance: from Astrabudua to Uribarri on the sample network,
    twelve stations. *)
Lemma metro_trip_route_witness :
  shortest (@STATION_GRAPH Sample.utcRuntime Sample.sampleMetro) "AST"
    ["AST"; "ERA"; "LUT"; "SIN"; "SAR"; "SAM"; "IND"; "MOY"; "ABA"; "CAV"; "CAL"; "ZZB"]%string "ZZB".
Proof.
  destruct (@metro_trip_route Sample.utcRuntime Sample.sampleMetro "Astrabudua" (Some "Uribarri"%string)
              "AST" "ZZB"
              ["AST"; "ERA"; "LUT"; "SIN"; "SAR"; "SAM"; "IND"; "MOY"; "ABA"; "CAV"; "CAL"; "ZZB"]%string)
    as (_ & _ & _ & _ & Hs & _).
  - by vm_compute.
  - exact Hs.
Defined.

End NetworkFacts.

(** ** Operators and filters *)

Module TextFacts.

Lemma append_cons (c : ascii) (s t : string) : String c s +:+ t = String c (s +:+ t).
Proof. reflexivity. Qed.

Lemma append_nil_r (s : string) : s +:+ "" = s.
Proof. induction s as [|c s IH]; [done|]. by rewrite append_cons, IH. Qed.

Lemma append_assoc (a b c : string) : (a +:+ b) +:+ c = a +:+ (b +:+ c).
Proof. induction a as [|x a IH]; [done|]. by rewrite !append_cons, IH. Qed.

Lemma length_append (a b : string) :
  String.length (a +:+ b) = (String.length a + String.length b)%nat.
Proof. induction a as [|x a IH]; [done|]. rewrite append_cons. simpl. by rewrite IH. Qed.

Lemma rev_app_append (a b : string) : String.rev_app a b = String.rev a +:+ b.
Proof.
  unfold String.rev. revert b. induction a as [|x a IH]; intros b; [done|].
  cbn [String.rev_app]. rewrite (IH (String x b)), (IH (String x "")).
  by rewrite append_assoc.
Qed.

Lemma rev_cons (x : ascii) (a : string) : String.rev (String x a) = String.rev a +:+ String x "".
Proof. unfold String.rev at 1. cbn [String.rev_app]. apply rev_app_append. Qed.

Lemma rev_append (a b : string) : String.rev (a +:+ b) = String.rev b +:+ String.rev a.
Proof.
  induction a as [|x a IH].
  - change ("" +:+ b) with b. change (String.rev "") with EmptyString. by rewrite append_nil_r.
  - by rewrite append_cons, !rev_cons, IH, append_assoc.
Qed.

Lemma rev_involutive (a : string) : String.rev (String.rev a) = a.
Proof.
  induction a as [|x a IH]; [done|]. by rewrite rev_cons, rev_append, IH.
Qed.

(** A text with no white space in front. *)
Lemma trimStart_idempotent (s : string) : Text.trimStart (Text.trimStart s) = Text.trimStart s.
Proof.
  induction s as [|c s IH]; simpl; [done|].
  destruct (Text.isSpace c) eqn:Hc; [done|]. simpl. by rewrite Hc.
Qed.

Lemma trimStart_suffix (s : string) : exists p, s = p +:+ Text.trimStart s.
Proof.
  induction s as [|c s [p IH]]; simpl; [by exists ""|].
  destruct (Text.isSpace c); [|by exists ""]. exists (String c p).
  by rewrite append_cons, <- IH.
Qed.

Lemma trimStart_first (c : ascii) (s t : string) :
  Text.trimStart (String c s) = String c s -> Text.trimStart (String c t) = String c t.
Proof.
  simpl. destruct (Text.isSpace c); [|done]. intros E.
  destruct (trimStart_suffix s) as [p Hp].
  apply (f_equal String.length) in E. apply (f_equal String.length) in Hp.
  rewrite length_append in Hp. simpl in E. lia.
Qed.

(** What [trimEnd] leaves of a text with no white space in front has none
    in front either. *)
Lemma trimEnd_keeps_front (t : string) :
  Text.trimStart t = t -> Text.trimStart (Text.trimEnd t) = Text.trimEnd t.
Proof.
  intros Ht. unfold Text.trimEnd.
  destruct (trimStart_suffix (String.rev t)) as [p Hp].
  set (u := Text.trimStart (String.rev t)) in *.
  apply (f_equal String.rev) in Hp. rewrite rev_involutive, rev_append in Hp.
  destruct (String.rev u) as [|c r] eqn:Hu; [done|].
  rewrite Hp, append_cons in Ht. by eapply trimStart_first.
Qed.

Lemma trimEnd_idempotent (t : string) : Text.trimEnd (Text.trimEnd t) = Text.trimEnd t.
Proof.
  unfold Text.trimEnd. by rewrite rev_involutive, trimStart_idempotent.
Qed.

Lemma trim_idempotent (s : string) : Text.trim (Text.trim s) = Text.trim s.
Proof.
  unfold Text.trim.
  rewrite (trimEnd_keeps_front (Text.trimStart s) (trimStart_idempotent s)).
  apply trimEnd_idempotent.
Qed.

Lemma lowerChar_not_upper (c : ascii) : Text.isUpperAscii (Text.lowerChar c) = false.
Proof. destruct c as [[] [] [] [] [] [] [] []]; done. Qed.

Lemma toLowerCase_no_upper (s : string) :
  Text.sexists Text.isUpperAscii (Text.toLowerCase s) = false.
Proof.
  unfold Text.toLowerCase. induction s as [|c s IH]; simpl; [done|].
  by rewrite lowerChar_not_upper, IH.
Qed.

Lemma toLowerCase_idempotent (s : string) :
  Text.toLowerCase (Text.toLowerCase s) = Text.toLowerCase s.
Proof.
  unfold Text.toLowerCase. induction s as [|c s IH]; simpl; [done|]. rewrite IH. f_equal.
  unfold Text.lowerChar at 1. by rewrite lowerChar_not_upper.
Qed.

End TextFacts.

Module OperatorsFacts.
Import Operators TextFacts.

Section Labels.

Lemma aliasOf_member (lower k : string) :
  aliasOf lower = Some (Member k) -> k = lower /\ lower ∈ OBJECT_PROTOTYPE_KEYS.
Proof.
  unfold aliasOf. destruct (List.find _ _); [done|].
  case_bool_decide; [|done]. by intros [= <-].
Qed.

Lemma lowered_member (s : string) :
  Text.toLowerCase s ∈ OBJECT_PROTOTYPE_KEYS ->
  Text.toLowerCase s = "constructor"%string \/ Text.toLowerCase s = "__proto__"%string.
Proof.
  intros Hin. pose proof (toLowerCase_no_upper s) as Hup.
  unfold OBJECT_PROTOTYPE_KEYS in Hin. rewrite !elem_of_cons in Hin.
  destruct Hin as [E|[E|[E|[E|[E|[E|[E|[E|[E|[E|[E|[E|E]]]]]]]]]]]];
    try (by left); try (by right); try (by rewrite E in Hup);
    by apply elem_of_nil in E.
Qed.

Lemma aliasOf_text (lower s : string) :
  aliasOf lower = Some (Text s) ->
  s ∈ ["Barik NFC"; "Metro Bilbao"; "Bizkaibus"; "Euskotren Trena"; "Euskotren Tranbia"]%string.
Proof.
  unfold aliasOf. destruct (List.find _ _) as [entry|] eqn:Hf.
  - intros [= <-]. apply find_some in Hf as [Hin _].
    apply (proj2 (list_elem_of_In _ _)) in Hin.
    unfold OPERATOR_ALIAS_MAP in Hin. rewrite !elem_of_cons in Hin.
    rewrite !elem_of_cons.
    destruct Hin as [->|[->|[->|[->|[->|[->|[->|[->|E]]]]]]]]; simpl; auto 10.
    by apply elem_of_nil in E.
  - by case_bool_decide.
Qed.

(** X22.  The label of an operator.  [normalizeOperatorLabel] gives a text
    for every text but two: when the text, trimmed and in small letters, is
    "constructor" or "__proto__", the alias map answers with a member of
    [Object.prototype].  A text with euskotren in it, and not euskotran,
    is Euskotren Trena: so is the very label Euskotren Tranbia.  And a
    label that came out as a text goes through again unchanged, unless it is
    empty or Euskotren Tranbia. *)
Theorem operator_label (v : string) :
  (forall k, normalizeOperatorLabel (Some v) = Member k
             <-> Text.toLowerCase (Text.trim v) = k /\ (k = "constructor" \/ k = "__proto__")%string)
  /\ (Text.includes (collapse (Text.toLowerCase (Text.trim v))) "euskotran" = false ->
      Text.includes (collapse (Text.toLowerCase (Text.trim v))) "euskotren" = true ->
      normalizeOperatorLabel (Some v) = Text "Euskotren Trena")
  /\ normalizeOperatorLabel (Some "Euskotren Tranbia"%string) = Text "Euskotren Trena"
  /\ (forall s, normalizeOperatorLabel (Some v) = Text s ->
        s <> EmptyString -> s <> "Euskotren Tranbia"%string ->
        normalizeOperatorLabel (Some s) = Text s).
Proof.
  split_and!.
  - intros k. split.
    + unfold normalizeOperatorLabel. destruct (Text.truthy v); simpl; [|done].
      destruct (Text.includes _ "euskotran"); [done|].
      destruct (Text.includes _ "euskotren"); [done|].
      destruct (aliasOf _) as [[s|k']|] eqn:Ha; try done.
      intros [= <-]. apply aliasOf_member in Ha as [-> Hin].
      split; [done|]. by apply lowered_member.
    + intros [Hl Hk]. unfold normalizeOperatorLabel.
      assert (Text.truthy v = true) as ->.
      { destruct v; [|done]. rewrite <- Hl in Hk. by destruct Hk. }
      simpl. rewrite Hl. by destruct Hk as [->| ->].
  - intros Hn Hy. unfold normalizeOperatorLabel.
    assert (Text.truthy v = true) as -> by (by destruct v).
    simpl. by rewrite Hn, Hy.
  - reflexivity.
  - intros s Hs Hne Htram. unfold normalizeOperatorLabel in Hs.
    destruct (Text.truthy v) eqn:Hv; simpl in Hs; [|by injection Hs as <-].
    destruct (Text.includes _ "euskotran") eqn:Hn; [by injection Hs as <-|].
    destruct (Text.includes _ "euskotren") eqn:Hy; [by injection Hs as <-|].
    destruct (aliasOf _) as [alias|] eqn:Ha.
    + subst alias. apply aliasOf_text in Ha. rewrite !elem_of_cons in Ha.
      destruct Ha as [->|[->|[->|[->|[->|E]]]]]; try done. by apply elem_of_nil in E.
    + injection Hs as <-. unfold normalizeOperatorLabel.
      assert (Text.truthy (Text.trim v) = true) as -> by (by destruct (Text.trim v)).
      simpl. by rewrite trim_idempotent, Hn, Hy, Ha.
Qed.

End Labels.

(** X22, an instance: the text Constructor with blanks around it. *)
Lemma operator_label_witness :
  normalizeOperatorLabel (Some " Constructor "%string) = Member "constructor".
Proof.
  destruct (operator_label " Constructor ") as (Hmember & _).
  apply Hmember. split; [reflexivity|]. left. reflexivity.
Defined.

Section Brands.

#[local] Arguments normalizeOperatorLabel : simpl never.
#[local] Arguments bestBrand : simpl never.

Lemma brandStep_flat (normalized raw : string) (brands : list OperatorBrand)
    (st : option OperatorBrand * Z) :
  fold_left (brandStep normalized raw) brands st
  = fold_left (pairStep normalized raw)
      (flat_map (fun brand => map (fun keyword => (brand, keyword)) (keywords brand)) brands) st.
Proof.
  revert st. induction brands as [|brand brands IH]; intros st; simpl; [done|].
  rewrite fold_left_app, <- IH. f_equal. unfold brandStep.
  generalize (keywords brand). intros kws. revert st.
  induction kws as [|kw kws IHk]; intros st; simpl; [done|]. by rewrite IHk.
Qed.

Lemma bestBrand_pairs (normalized raw : string) :
  bestBrand normalized raw = fst (fold_left (pairStep normalized raw) brandKeywords (None, -1)).
Proof. unfold bestBrand, brandKeywords. by rewrite brandStep_flat. Qed.

Lemma keywordScore_occurs (normalized raw keyword : string) :
  match keywordScore normalized raw keyword with
  | None => occurs normalized raw keyword = false
  | Some score =>
      occurs normalized raw keyword = true
      /\ Z.of_nat (String.length (Text.toLowerCase keyword)) <= score
      /\ (Text.toLowerCase keyword = normalized ->
          score = Z.of_nat (String.length (Text.toLowerCase keyword)) + 100)
      /\ (Text.toLowerCase keyword <> normalized ->
          score <= Z.of_nat (String.length (Text.toLowerCase keyword)) + 10)
  end.
Proof.
  unfold keywordScore, occurs.
  destruct (Text.truthy (Text.toLowerCase keyword)); simpl; [|done].
  destruct (Text.includes normalized (Text.toLowerCase keyword)) eqn:Hn; simpl.
  - split; [done|]. rewrite andb_false_r.
    destruct (String.eqb_spec normalized (Text.toLowerCase keyword)) as [E|E];
      split_and!; try lia; intros E'; congruence.
  - destruct (Text.includes raw (Text.toLowerCase keyword)) eqn:Hr; simpl; [|done].
    split_and!; try done; try lia. intros E. rewrite <- E in Hn.
    pose proof (RowsFacts.includes_refl (Text.toLowerCase keyword)). congruence.
Qed.

Lemma pairStep_bestInv (normalized raw : string) (seen : list (OperatorBrand * string))
    (st : option OperatorBrand * Z) (pair : OperatorBrand * string) :
  bestInv normalized raw seen st ->
  bestInv normalized raw (seen ++ [pair]) (pairStep normalized raw st pair).
Proof.
  destruct st as [best score], pair as [brand kw]. unfold bestInv, pairStep, keywordStep. simpl.
  pose proof (keywordScore_occurs normalized raw kw) as Hk.
  destruct (keywordScore normalized raw kw) as [s|].
  - destruct Hk as (Ho & Hlen & _).
    destruct (Z.ltb_spec score s); simpl.
    + split; [lia|]. exists kw. split; [|done]. apply elem_of_app. right. by left.
    + destruct best as [b|]; [|lia]. intros (Hs & kw' & Hin & Ho'). split; [done|].
      exists kw'. split; [|done]. apply elem_of_app. by left.
  - destruct best as [b|].
    + intros (Hs & kw' & Hin & Ho'). split; [done|].
      exists kw'. split; [|done]. apply elem_of_app. by left.
    + intros [Hs Hall]. split; [done|]. apply Forall_app. split; [done|]. by constructor.
Qed.

Lemma pairLoop_bestInv (normalized raw : string) (pairs seen : list (OperatorBrand * string))
    (st : option OperatorBrand * Z) :
  bestInv normalized raw seen st ->
  bestInv normalized raw (seen ++ pairs) (fold_left (pairStep normalized raw) pairs st).
Proof.
  revert seen st. induction pairs as [|pair pairs IH]; intros seen st Hst; simpl.
  - by rewrite app_nil_r.
  - rewrite (cons_middle pair), (assoc_L (++)). by apply IH, pairStep_bestInv.
Qed.

Lemma pair_brand (brand : OperatorBrand) (keyword : string) :
  (brand, keyword) ∈ brandKeywords <-> brand ∈ OPERATOR_BRANDS /\ keyword ∈ keywords brand.
Proof.
  unfold brandKeywords. rewrite list_elem_of_In, in_flat_map. split.
  - intros (b & Hb & Hin). apply in_map_iff in Hin as (kw & [= <- <-] & Hkw).
    by rewrite !list_elem_of_In.
  - intros [Hb Hkw]. exists brand. rewrite <- list_elem_of_In. split; [done|].
    apply in_map_iff. exists keyword. by rewrite <- list_elem_of_In.
Qed.

(** X23.  The brand of an operator.  [getOperatorBrand] throws exactly
    when the label of the operator is no text; the brand it gives is one of
    [OPERATOR_BRANDS] and one of its keywords is found in the label or in
    the text itself, in small letters; and it gives none, for a text that
    is not empty, exactly when no keyword of any brand is found. *)
Theorem operator_brand (v : string) :
  (getOperatorBrand (Some v) = Throws <-> exists k, normalizeOperatorLabel (Some v) = Member k)
  /\ (forall brand, getOperatorBrand (Some v) = Returns (Some brand) ->
        brand ∈ OPERATOR_BRANDS
        /\ exists l keyword, normalizeOperatorLabel (Some v) = Text l /\ keyword ∈ keywords brand
             /\ occurs (Text.toLowerCase l) (Text.toLowerCase (Text.trim v)) keyword = true)
  /\ (forall l, v <> EmptyString -> normalizeOperatorLabel (Some v) = Text l ->
        (getOperatorBrand (Some v) = Returns None
         <-> forall brand keyword, brand ∈ OPERATOR_BRANDS -> keyword ∈ keywords brand ->
               occurs (Text.toLowerCase l) (Text.toLowerCase (Text.trim v)) keyword = false)).
Proof.
  assert (forall l, bestInv (Text.toLowerCase l) (Text.toLowerCase (Text.trim v)) brandKeywords
                      (fold_left (pairStep (Text.toLowerCase l) (Text.toLowerCase (Text.trim v)))
                         brandKeywords (None, -1))) as Hinv.
  { intros l. apply (pairLoop_bestInv _ _ brandKeywords [] (None, -1)). by split. }
  split_and!.
  - unfold getOperatorBrand. destruct (Text.truthy v) eqn:Hv; cbn [negb].
    + destruct (normalizeOperatorLabel (Some v)) as [l|k].
      * split; [done|]. by intros [k ?].
      * split; [by eexists|done].
    + split; [done|]. intros [k Hk]. destruct v; [|done]. done.
  - intros brand. unfold getOperatorBrand. destruct (Text.truthy v); cbn [negb]; [|done].
    destruct (normalizeOperatorLabel (Some v)) as [l|k]; [|done].
    rewrite bestBrand_pairs. specialize (Hinv l). unfold bestInv in Hinv.
    destruct (fst (fold_left _ _ _)) as [b|]; [|done].
    intros Hb. assert (b = brand) as -> by congruence.
    destruct Hinv as (_ & kw & Hin & Ho).
    apply pair_brand in Hin as [Hbrand Hkw]. split; [done|]. by exists l, kw.
  - intros l Hv Hl. unfold getOperatorBrand.
    assert (Text.truthy v = true) as -> by (by destruct v). cbn [negb].
    rewrite Hl, bestBrand_pairs. specialize (Hinv l). unfold bestInv in Hinv.
    destruct (fst (fold_left _ _ _)) as [b|].
    + destruct Hinv as (_ & kw & Hin & Ho). split; [done|]. intros Hnone.
      apply pair_brand in Hin as [Hbrand Hkw]. by rewrite (Hnone b kw Hbrand Hkw) in Ho.
    + destruct Hinv as [_ Hall]. split; [|done]. intros _ brand kw Hbrand Hkw.
      rewrite Forall_forall in Hall. apply (Hall (brand, kw)). by apply pair_brand.
Qed.

Lemma keywords_short :
  Forall (fun pair => (0 < String.length (Text.toLowerCase (snd pair)) <= 89)%nat) brandKeywords.
Proof. repeat constructor. Qed.

Lemma keywords_unique :
  Forall (fun p => Forall (fun q => Text.toLowerCase (snd p) = Text.toLowerCase (snd q) -> fst p = fst q)
                     brandKeywords) brandKeywords.
Proof. apply (bool_decide_unpack _). by vm_compute. Qed.

Lemma pairStep_exactInv (normalized raw : string) (brand : OperatorBrand)
    (seen : list (OperatorBrand * string)) (st : option OperatorBrand * Z)
    (pair : OperatorBrand * string) :
  (0 < String.length (Text.toLowerCase (snd pair)) <= 89)%nat ->
  (Text.toLowerCase (snd pair) = normalized -> fst pair = brand) ->
  exactInv normalized brand seen st ->
  exactInv normalized brand (seen ++ [pair]) (pairStep normalized raw st pair).
Proof.
  destruct st as [best score], pair as [b kw]. unfold exactInv, pairStep, keywordStep. simpl.
  intros Hlen Hbrand Hinv.
  pose proof (keywordScore_occurs normalized raw kw) as Hk.
  destruct (decide (Text.toLowerCase kw = normalized)) as [Heq|Hne].
  - (* the keyword is the text *)
    assert (keywordScore normalized raw kw
            = Some (Z.of_nat (String.length (Text.toLowerCase kw)) + 100)) as ->.
    { unfold keywordScore. rewrite Heq.
      assert (Text.truthy normalized = true) as ->.
      { rewrite <- Heq. destruct (Text.toLowerCase kw); [simpl in Hlen; lia|done]. }
      simpl. rewrite RowsFacts.includes_refl, String.eqb_refl. simpl.
      rewrite andb_false_r. f_equal. lia. }
    right. destruct (Z.ltb_spec score (Z.of_nat (String.length (Text.toLowerCase kw)) + 100)); simpl.
    + split; [lia|]. by rewrite (Hbrand Heq).
    + destruct Hinv as [[Hs _]|Hdone]; [lia|done].
  - destruct (keywordScore normalized raw kw) as [s|].
    + destruct Hk as (_ & _ & _ & Hsmall). specialize (Hsmall Hne).
      destruct (Z.ltb_spec score s); simpl.
      * destruct Hinv as [[Hs Hall]|[Hs _]]; [|lia]. left. split; [lia|].
        apply Forall_app. split; [done|]. by constructor.
      * destruct Hinv as [[Hs Hall]|Hdone]; [|by right]. left. split; [done|].
        apply Forall_app. split; [done|]. by constructor.
    + destruct Hinv as [[Hs Hall]|Hdone]; [|by right]. left. split; [done|].
      apply Forall_app. split; [done|]. by constructor.
Qed.

Lemma pairLoop_exactInv (normalized raw : string) (brand : OperatorBrand)
    (pairs seen : list (OperatorBrand * string)) (st : option OperatorBrand * Z) :
  Forall (fun pair => (0 < String.length (Text.toLowerCase (snd pair)) <= 89)%nat) pairs ->
  Forall (fun pair => Text.toLowerCase (snd pair) = normalized -> fst pair = brand) pairs ->
  exactInv normalized brand seen st ->
  exactInv normalized brand (seen ++ pairs) (fold_left (pairStep normalized raw) pairs st).
Proof.
  revert seen st. induction pairs as [|pair pairs IH]; intros seen st Hlen Hbrand Hst; simpl.
  - by rewrite app_nil_r.
  - apply Forall_cons_1 in Hlen as [Hl Hlen]. apply Forall_cons_1 in Hbrand as [Hb Hbrand].
    rewrite (cons_middle pair), (assoc_L (++)). apply IH; [done..|]. by apply pairStep_exactInv.
Qed.

Lemma bestBrand_exact (raw : string) (brand : OperatorBrand) (keyword : string) :
  (brand, keyword) ∈ brandKeywords ->
  bestBrand (Text.toLowerCase keyword) raw = Some brand.
Proof.
  intros Hin. rewrite bestBrand_pairs.
  destruct (pairLoop_exactInv (Text.toLowerCase keyword) raw brand brandKeywords [] (None, -1))
    as [[_ Hall]|[_ Hbest]]; [apply keywords_short| |left; by split| |done].
  - pose proof keywords_unique as Hu. rewrite Forall_forall in Hu.
    apply Forall_forall. intros pair Hpair Heq.
    specialize (Hu pair Hpair). rewrite Forall_forall in Hu. exact (Hu _ Hin Heq).
  - simpl in Hall. rewrite Forall_forall in Hall. by destruct (Hall _ Hin).
Qed.

Lemma getOperatorBrand_exact (v l : string) (brand : OperatorBrand) (keyword : string) :
  normalizeOperatorLabel (Some v) = Text l ->
  brand ∈ OPERATOR_BRANDS -> keyword ∈ keywords brand ->
  Text.toLowerCase l = Text.toLowerCase keyword ->
  getOperatorBrand (Some v) = Returns (Some brand).
Proof.
  intros Hl Hb Hk Heq. unfold getOperatorBrand.
  destruct (Text.truthy v) eqn:Hv; cbn [negb].
  - rewrite Hl, Heq. do 2 f_equal. apply bestBrand_exact. by apply pair_brand.
  - destruct v; [|done]. injection Hl as <-. exfalso.
    assert ((brand, keyword) ∈ brandKeywords) as Hin by (by apply pair_brand).
    assert (Forall (fun pair => Text.toLowerCase (snd pair) <> Text.toLowerCase "—") brandKeywords)
      as Hall by (repeat constructor; done).
    rewrite Forall_forall in Hall. by apply (Hall _ Hin).
Qed.

Lemma getOperatorBrand_in (v : string) (brand : OperatorBrand) :
  getOperatorBrand (Some v) = Returns (Some brand) -> brand ∈ OPERATOR_BRANDS.
Proof.
  unfold getOperatorBrand. destruct (Text.truthy v); cbn [negb]; [|done].
  destruct (normalizeOperatorLabel (Some v)) as [l|k]; [|done].
  rewrite bestBrand_pairs.
  pose proof (pairLoop_bestInv (Text.toLowerCase l) (Text.toLowerCase (Text.trim v))
                brandKeywords [] (None, -1) ltac:(by split)) as Hinv.
  unfold bestInv in Hinv. destruct (fst (fold_left _ _ _)) as [b|]; [|done].
  intros Hb. assert (b = brand) as -> by congruence.
  destruct Hinv as (_ & kw & Hin & _). by apply pair_brand in Hin as [? _].
Qed.

Lemma getOperatorBrand_plain (v : string) :
  isText (normalizeOperatorLabel (Some v)) = true <-> getOperatorBrand (Some v) <> Throws.
Proof.
  unfold getOperatorBrand. destruct (Text.truthy v) eqn:Hv; cbn [negb].
  - by destruct (normalizeOperatorLabel (Some v)).
  - destruct v; [|done]. done.
Qed.

(** X24.  A keyword that is the whole label decides the brand: when the
    label of an operator, in small letters, is a keyword of a brand,
    [getOperatorBrand] gives this brand, whatever else the text holds.
    Hence every text with euskotren in it and not euskotran, the label
    Euskotren Tranbia among them, is given the brand Euskotren Trena. *)
Theorem exact_keyword_wins (v : string) :
  (forall l brand keyword,
     normalizeOperatorLabel (Some v) = Text l ->
     brand ∈ OPERATOR_BRANDS -> keyword ∈ keywords brand ->
     Text.toLowerCase l = Text.toLowerCase keyword ->
     getOperatorBrand (Some v) = Returns (Some brand))
  /\ (Text.includes (collapse (Text.toLowerCase (Text.trim v))) "euskotran" = false ->
      Text.includes (collapse (Text.toLowerCase (Text.trim v))) "euskotren" = true ->
      exists brand, getOperatorBrand (Some v) = Returns (Some brand)
        /\ label brand = "Euskotren Trena"%string)
  /\ (exists brand, getOperatorBrand (Some "Euskotren Tranbia"%string) = Returns (Some brand)
        /\ label brand = "Euskotren Trena"%string).
Proof.
  assert (forall v, Text.includes (collapse (Text.toLowerCase (Text.trim v))) "euskotran" = false ->
                    Text.includes (collapse (Text.toLowerCase (Text.trim v))) "euskotren" = true ->
                    exists brand, getOperatorBrand (Some v) = Returns (Some brand)
                      /\ label brand = "Euskotren Trena"%string) as Htrain.
  { clear v. intros v Hn Hy.
    assert (normalizeOperatorLabel (Some v) = Text "Euskotren Trena") as Hl.
    { unfold normalizeOperatorLabel.
      assert (Text.truthy v = true) as -> by (by destruct v).
      simpl. by rewrite Hn, Hy. }
    exists {| label := "Euskotren Trena"; icon := "/operadores/euskotren.svg";
              keywords := ["euskotren trena"; "euskotren"] |}.
    split; [|reflexivity].
    apply (getOperatorBrand_exact v "Euskotren Trena"%string _ "euskotren trena"%string Hl);
      [|by left|done].
    apply (proj2 (list_elem_of_In _ _)). simpl. do 3 right. left. reflexivity. }
  split_and!; [apply getOperatorBrand_exact|apply Htrain|]. by apply Htrain.
Qed.

End Brands.

(** X23, an instance: the brand of Metro Bilbao is one of the table. *)
Lemma operator_brand_witness :
  {| label := "Metro Bilbao"; icon := "/operadores/mb.svg";
     keywords := ["metro bilbao"; "metrobilbao"; "mb metro"; "mb general"] |} ∈ OPERATOR_BRANDS.
Proof.
  destruct (operator_brand "Metro Bilbao") as (_ & Hfound & _).
  destruct (Hfound {| label := "Metro Bilbao"; icon := "/operadores/mb.svg";
                      keywords := ["metro bilbao"; "metrobilbao"; "mb metro"; "mb general"] |})
    as [Hin _]; [reflexivity|exact Hin].
Defined.

(** X24, an instance: a tram ride as the statement prints it. *)
Lemma exact_keyword_wins_witness :
  exists brand, getOperatorBrand (Some "EUSKOTREN TRANBIA"%string) = Returns (Some brand)
    /\ label brand = "Euskotren Trena"%string.
Proof.
  destruct (exact_keyword_wins "EUSKOTREN TRANBIA") as (_ & Htrain & _).
  apply Htrain; reflexivity.
Defined.

Section Filters.

#[local] Arguments normalizeOperatorLabel : simpl never.
#[local] Arguments getOperatorBrand : simpl never.

Lemma filterM_spec {A} (p : A -> Outcome bool) (l : list A) :
  (filterM p l = Throws <-> Exists (fun a => p a = Throws) l)
  /\ (forall kept, filterM p l = Returns kept ->
        kept = List.filter (passes p) l /\ Forall (fun a => p a <> Throws) l).
Proof.
  induction l as [|a l [IHt IHr]]; simpl.
  - split; [split; [done|by inversion 1]|]. by intros kept [= <-].
  - unfold passes at 1. destruct (p a) as [keep|] eqn:Ha; simpl.
    + destruct (filterM p l) as [kept'|] eqn:Hl; simpl.
      * destruct (IHr kept' eq_refl) as [-> Hall]. split.
        -- split; [done|]. intros Hex. apply Exists_cons in Hex as [?|Hex]; [congruence|].
           by apply IHt in Hex.
        -- intros kept [= <-]. split; [done|]. constructor; [congruence|done].
      * split; [|done]. split; [|done]. intros _. apply Exists_cons_tl. by apply IHt.
    + split; [|done]. split; [|done]. intros _. by apply Exists_cons_hd.
Qed.

Lemma someM_spec {A} (p : A -> Outcome bool) (l : list A) :
  Forall (fun a => p a <> Throws) l -> someM p l = Returns (existsb (passes p) l).
Proof.
  induction 1 as [|a l Ha _ IH]; simpl; [done|].
  unfold passes at 1. destruct (p a) as [[]|]; simpl; done.
Qed.

Lemma keepRecord_throws (operatorFilter : string) (labels : gset string) (record : TransactionRecord) :
  keepRecord operatorFilter labels record = Throws
  <-> isText (normalizeOperatorLabel (Some (operador record))) = false.
Proof.
  unfold keepRecord. rewrite <- not_true_iff_false, getOperatorBrand_plain.
  destruct (getOperatorBrand (Some (operador record))); cbn [andThen].
  - split; [done|]. intros Hne. by destruct Hne.
  - split; [|done]. intros _ Hne. by destruct Hne.
Qed.

Lemma filter_throws (operatorFilter : string) (labels : gset string) (records : list TransactionRecord) :
  filterRecordsByOperator records operatorFilter labels = Throws <-> ~ plainOperators records.
Proof.
  unfold filterRecordsByOperator, plainOperators.
  destruct (filterM_spec (keepRecord operatorFilter labels) records) as [-> _].
  rewrite <- Exists_Forall_neg by (intros x; destruct (isText _); auto).
  rewrite !Exists_exists. split; intros (record & Hin & Hr); exists record; (split; [done|]).
  - apply keepRecord_throws in Hr. by rewrite Hr.
  - apply keepRecord_throws. by destruct (isText _).
Qed.

Lemma plain_keeps (operatorFilter : string) (labels : gset string) (records : list TransactionRecord) :
  plainOperators records ->
  filterRecordsByOperator records operatorFilter labels
  = Returns (List.filter (passes (keepRecord operatorFilter labels)) records).
Proof.
  intros Hplain.
  destruct (filterRecordsByOperator records operatorFilter labels) as [kept|] eqn:Hf.
  - unfold filterRecordsByOperator in Hf.
    destruct (filterM_spec (keepRecord operatorFilter labels) records) as [_ Hr].
    by destruct (Hr kept Hf) as [-> _].
  - by apply filter_throws in Hf.
Qed.

Lemma filter_same {A} (p q : A -> bool) (l : list A) :
  (forall a, a ∈ l -> p a = q a) -> List.filter p l = List.filter q l.
Proof.
  induction l as [|a l IH]; intros Hpq; simpl; [done|].
  rewrite (Hpq a) by (by left). rewrite IH; [done|]. intros; apply Hpq; by right.
Qed.

Lemma filter_all {A} (p : A -> bool) (l : list A) :
  (forall a, a ∈ l -> p a = true) -> List.filter p l = l.
Proof.
  induction l as [|a l IH]; intros Hp; simpl; [done|].
  rewrite (Hp a) by (by left). f_equal. apply IH. intros; apply Hp; by right.
Qed.

Lemma plain_brand (record : TransactionRecord) :
  isText (normalizeOperatorLabel (Some (operador record))) = true ->
  exists brand, getOperatorBrand (Some (operador record)) = Returns brand.
Proof.
  intros Hr. apply getOperatorBrand_plain in Hr.
  destruct (getOperatorBrand (Some (operador record))) as [brand|]; [by exists brand|done].
Qed.

Lemma elem_of_addLabel (x y : Label) (l : list Label) : x ∈ addLabel y l <-> x = y \/ x ∈ l.
Proof.
  unfold addLabel. case_bool_decide as Hy.
  - split; [by right|]. intros [->|?]; done.
  - rewrite elem_of_app, list_elem_of_singleton. tauto.
Qed.

Lemma collected_operators (records : list TransactionRecord) (seen : list Label) (record : TransactionRecord) :
  record ∈ records ->
  normalizeOperatorLabel (Some (operador record)) = Text "—"
  \/ normalizeOperatorLabel (Some (operador record)) ∈ fold_left collectOperator records seen.
Proof.
  assert (forall records seen x, x ∈ seen -> x ∈ fold_left collectOperator records seen) as Hkeep.
  { clear. induction records as [|r records IH]; intros seen x Hx; simpl; [done|].
    apply IH. unfold collectOperator. case_bool_decide; [done|]. apply elem_of_addLabel. by right. }
  revert seen. induction records as [|r records IH]; intros seen Hin; [by apply elem_of_nil in Hin|].
  apply elem_of_cons in Hin as [->|Hin]; simpl; [|by apply IH].
  destruct (decide (normalizeOperatorLabel (Some (operador r)) = Text "—")) as [?|Hne]; [by left|].
  right. apply Hkeep. unfold collectOperator. rewrite bool_decide_eq_false_2 by done.
  apply elem_of_addLabel. by left.
Qed.

Lemma metadata_parts (records : list TransactionRecord) (meta : FilterMetadata) :
  buildFilterMetadata records = Returns meta -> records <> [] ->
  exists availableBrands nonBrandOperators,
    filterM (brandInUse records) OPERATOR_BRANDS = Returns availableBrands
    /\ filterM (fun op => try* brand := getOperatorBrandOf op in Returns (bool_decide (brand = None)))
         (fold_left collectOperator records []) = Returns nonBrandOperators
    /\ brandLabels meta = list_to_set (map label availableBrands).
Proof.
  unfold buildFilterMetadata. destruct records as [|r records]; [done|]. intros Hm _.
  destruct (filterM (brandInUse (r :: records)) OPERATOR_BRANDS) as [avail|]; [|done].
  cbn [andThen] in Hm.
  destruct (filterM _ (fold_left collectOperator (r :: records) [])) as [nb|]; [|done].
  cbn [andThen] in Hm. injection Hm as <-. by exists avail, nb.
Qed.

Lemma metadata_plain (records : list TransactionRecord) (meta : FilterMetadata) :
  buildFilterMetadata records = Returns meta -> plainOperators records.
Proof.
  intros Hm. destruct records as [|r0 records0] eqn:Hrec; [constructor|]. rewrite <- Hrec in *.
  destruct (metadata_parts records meta Hm) as (avail & nb & _ & Hnb & _); [by rewrite Hrec|].
  destruct (filterM_spec
              (fun op => try* brand := getOperatorBrandOf op in Returns (bool_decide (brand = None)))
              (fold_left collectOperator records [])) as [_ Hr].
  destruct (Hr nb Hnb) as [_ Hall].
  rewrite Forall_forall in Hall. apply Forall_forall. intros record Hin.
  destruct (collected_operators records [] record Hin) as [->|Hop]; [done|].
  specialize (Hall _ Hop). simpl in Hall.
  by destruct (normalizeOperatorLabel (Some (operador record))).
Qed.

Lemma label_is_keyword :
  Forall (fun brand => Exists (fun pair => Text.toLowerCase (snd pair) = Text.toLowerCase (label brand))
                         brandKeywords) OPERATOR_BRANDS.
Proof. apply (bool_decide_unpack _). by vm_compute. Qed.

(** X25.  The filters of the history.  [filterRecordsByOperator] throws
    exactly when the operator of some record has no text for a label;
    otherwise the filter Todos gives every record and the filter of the
    recharges gives the recharge records, in their order.  And when
    [buildFilterMetadata] returns, no operator is of that kind and every
    record is found under the filter named after its brand or, when it has
    none, after its operator (unless that name is the one of the recharge
    filter). *)
Theorem filters_reach_records (records : list TransactionRecord) (labels : gset string) :
  (forall operatorFilter,
     filterRecordsByOperator records operatorFilter labels = Throws <-> ~ plainOperators records)
  /\ (plainOperators records ->
      filterRecordsByOperator records "Todos" labels = Returns records
      /\ filterRecordsByOperator records RECHARGE_FILTER_VALUE labels
         = Returns (List.filter History.isRecargaTransaction records))
  /\ (forall meta, buildFilterMetadata records = Returns meta ->
        plainOperators records
        /\ forall record name, record ∈ records -> filterOf record = Returns (Text name) ->
             name <> RECHARGE_FILTER_VALUE ->
             exists kept, filterRecordsByOperator records name (brandLabels meta) = Returns kept
               /\ record ∈ kept).
Proof.
  split_and!.
  - intros operatorFilter. apply filter_throws.
  - intros Hplain. split.
    + rewrite plain_keeps by done. f_equal. apply filter_all. intros record Hin.
      unfold plainOperators in Hplain. rewrite Forall_forall in Hplain.
      destruct (plain_brand record (Hplain _ Hin)) as [brand Hb].
      unfold passes, keepRecord. by rewrite Hb.
    + rewrite plain_keeps by done. f_equal. apply filter_same. intros record Hin.
      unfold plainOperators in Hplain. rewrite Forall_forall in Hplain.
      destruct (plain_brand record (Hplain _ Hin)) as [brand Hb].
      unfold passes, keepRecord. by rewrite Hb.
  - intros meta Hm. pose proof (metadata_plain records meta Hm) as Hplain.
    split; [done|]. intros record name Hin Hname Hne.
    rewrite plain_keeps by done. eexists. split; [done|].
    apply (proj2 (list_elem_of_In _ _)), filter_In. split; [by apply list_elem_of_In|].
    assert (records <> []) as Hrecords by (intros ->; by apply elem_of_nil in Hin).
    destruct (metadata_parts records meta Hm Hrecords) as (avail & nb & Havail & _ & ->).
    destruct (filterM_spec (brandInUse records) OPERATOR_BRANDS) as [_ Hr].
    destruct (Hr avail Havail) as [-> _].
    pose proof Hplain as Hall. unfold plainOperators in Hall. rewrite Forall_forall in Hall.
    destruct (plain_brand record (Hall _ Hin)) as [brand Hb].
    unfold filterOf in Hname. rewrite Hb in Hname. cbn [andThen] in Hname.
    unfold passes, keepRecord. rewrite Hb. cbn [andThen].
    destruct (String.eqb_spec name "Todos") as [|_]; [done|].
    destruct (String.eqb_spec name RECHARGE_FILTER_VALUE) as [|_]; [done|].
    assert (forall b, records ≠ [] -> passes (brandInUse records) b = true
                      <-> exists r found, r ∈ records
                            /\ getOperatorBrand (Some (operador r)) = Returns found
                            /\ label <$> found = Some (label b)) as Huse.
    { intros b _. unfold passes, brandInUse. rewrite someM_spec.
      - rewrite existsb_exists. split.
        + intros (r & Hr' & Hp). apply list_elem_of_In in Hr'.
          destruct (plain_brand r (Hall _ Hr')) as [found Hf].
          exists r, found. split_and!; [done..|].
          unfold passes in Hp. rewrite Hf in Hp. cbn [andThen] in Hp.
          by apply bool_decide_eq_true in Hp.
        + intros (r & found & Hr' & Hf & Hl). exists r. split; [by apply list_elem_of_In|].
          unfold passes. rewrite Hf. cbn [andThen]. by apply bool_decide_eq_true.
      - apply Forall_forall. intros r Hr'.
        destruct (plain_brand r (Hall _ Hr')) as [found Hf]. by rewrite Hf. }
    destruct brand as [b|].
    + injection Hname as <-.
      rewrite bool_decide_eq_true_2.
      * by apply bool_decide_eq_true.
      * apply elem_of_list_to_set, list_elem_of_fmap. exists b. split; [done|].
        apply list_elem_of_In, filter_In. split.
        -- apply list_elem_of_In. by eapply getOperatorBrand_in.
        -- apply Huse; [done|]. by exists record, (Some b).
    + injection Hname as Hname. rewrite Hname.
      case_bool_decide as Hlabel; [|by apply bool_decide_eq_true].
      exfalso. apply elem_of_list_to_set, list_elem_of_fmap in Hlabel as (b & -> & Hb').
      apply list_elem_of_In, filter_In in Hb' as [Hb' _]. apply list_elem_of_In in Hb'.
      pose proof label_is_keyword as Hkw. rewrite Forall_forall in Hkw.
      specialize (Hkw b Hb'). apply Exists_exists in Hkw as ([b' kw] & Hpair & Heq).
      apply pair_brand in Hpair as [Hb'' Hkw'].
      rewrite (getOperatorBrand_exact (operador record) (label b) b' kw Hname Hb'' Hkw') in Hb;
        [done|by symmetry].
Qed.

End Filters.

(** X25, an instance: the three wallet rides of the sample under the filter
    of their brand. *)
Lemma filters_reach_records_witness :
  exists meta kept,
    buildFilterMetadata Sample.walletRides = Returns meta
    /\ filterRecordsByOperator Sample.walletRides "Metro Bilbao" (brandLabels meta) = Returns kept
    /\ Sample.ride 2 "2024-02-28T08:30:00" "Validacion unica" "Bizkaibus" (-1.55) "Creditrans" ∈ kept.
Proof.
  destruct (buildFilterMetadata Sample.walletRides) as [meta|] eqn:Hm; [|by vm_compute in Hm].
  destruct (filters_reach_records Sample.walletRides (brandLabels meta)) as (_ & _ & Hreach).
  destruct (Hreach meta Hm) as [_ Hfound].
  destruct (Hfound (Sample.ride 2 "2024-02-28T08:30:00" "Validacion unica" "Bizkaibus" (-1.55) "Creditrans")
              "Metro Bilbao"%string) as (kept & Hkept & Hin).
  - apply (proj2 (list_elem_of_In _ _)). simpl. right. left. reflexivity.
  - reflexivity.
  - by vm_compute.
  - exists meta, kept. split_and!; [reflexivity|exact Hkept|exact Hin].
Defined.

End OperatorsFacts.

(** ** The yearly summary *)

Module AnnualFacts.
Import Annual.

Lemma highlightStep_inv (seen : list DailyTotal) (best : option TravelDayHighlight) (day : DailyTotal) :
  highlightInv seen best -> highlightInv (seen ++ [day]) (highlightStep best day).
Proof.
  intros Hinv. unfold highlightStep.
  destruct (Z.leb_spec (travelMinutes day) 0) as [Hle|Hpos].
  - destruct best as [h|]; simpl in *.
    + destruct Hinv as (i & d & Hi & -> & Hd & Hall & Hbefore).
      exists i, d. split_and!; try done.
      * by apply lookup_app_l_Some.
      * apply Forall_app. split; [done|]. constructor; [lia|done].
      * rewrite take_app_le; [done|]. apply lookup_lt_Some in Hi. lia.
    + apply Forall_app. split; [done|]. by constructor.
  - destruct best as [h|]; simpl in *.
    + destruct Hinv as (i & d & Hi & -> & Hd & Hall & Hbefore). simpl.
      destruct (Z.ltb_spec (travelMinutes d) (travelMinutes day)) as [Hlt|Hge]; simpl.
      * exists (List.length seen), day. split_and!; try done.
        -- by rewrite lookup_app_r, Nat.sub_diag.
        -- apply Forall_app. split; [|by constructor].
           eapply Forall_impl; [exact Hall|]. simpl. intros; lia.
        -- rewrite take_app_le, firstn_all by done.
           eapply Forall_impl; [exact Hall|]. simpl. intros; lia.
      * exists i, d. split_and!; try done.
        -- by apply lookup_app_l_Some.
        -- apply Forall_app. split; [done|]. constructor; [lia|done].
        -- rewrite take_app_le; [done|]. apply lookup_lt_Some in Hi. lia.
    + exists (List.length seen), day. split_and!; try done.
      * by rewrite lookup_app_r, Nat.sub_diag.
      * apply Forall_app. split; [|by constructor].
        eapply Forall_impl; [exact Hinv|]. simpl. intros; lia.
      * rewrite take_app_le, firstn_all by done.
        eapply Forall_impl; [exact Hinv|]. simpl. intros; lia.
Qed.

Lemma highlightLoop_inv (days seen : list DailyTotal) (best : option TravelDayHighlight) :
  highlightInv seen best -> highlightInv (seen ++ days) (fold_left highlightStep days best).
Proof.
  revert seen best. induction days as [|day days IH]; intros seen best Hinv; simpl.
  - by rewrite app_nil_r.
  - rewrite (cons_middle day), (assoc_L (++)). by apply IH, highlightStep_inv.
Qed.

(** X26.  The day of the most travel: [travelHighlight] is none exactly
    when no day has travel time; otherwise it is made of a day of the list
    with travel time, no day has more, and every day before it has less: it
    is the first of the days with the most. *)
Theorem travel_highlight_is_first_maximum (dailyTotals : list DailyTotal) :
  (travelHighlight dailyTotals = None
   <-> Forall (fun day => travelMinutes day <= 0) dailyTotals)
  /\ (forall h, travelHighlight dailyTotals = Some h ->
        exists (i : nat) day, dailyTotals !! i = Some day /\ h = highlightOf day
          /\ 0 < th_travelMinutes h
          /\ (forall other, other ∈ dailyTotals -> travelMinutes other <= th_travelMinutes h)
          /\ (forall (j : nat) other, (j < i)%nat -> dailyTotals !! j = Some other ->
                travelMinutes other < th_travelMinutes h)).
Proof.
  pose proof (highlightLoop_inv dailyTotals [] None ltac:(constructor)) as Hinv.
  simpl in Hinv. fold (travelHighlight dailyTotals) in Hinv.
  destruct (travelHighlight dailyTotals) as [h|]; simpl in Hinv.
  - destruct Hinv as (i & day & Hi & -> & Hpos & Hall & Hbefore). split.
    + split; [done|]. intros Hnone. rewrite Forall_forall in Hnone.
      specialize (Hnone day (list_elem_of_lookup_2 _ _ _ Hi)). simpl in Hnone. lia.
    + intros h [= <-]. exists i, day. simpl. split_and!; try done.
      * intros other Ho. rewrite Forall_forall in Hall. by apply Hall.
      * intros j other Hj Ho. rewrite Forall_forall in Hbefore. apply Hbefore.
        apply (list_elem_of_lookup_2 _ j). rewrite lookup_take_lt by done. done.
  - split; [by split|done].
Qed.

(** X26, an instance: of the four sample days the second and the fourth
    have forty minutes, and the second is taken. *)
Lemma travel_highlight_is_first_maximum_witness :
  exists (i : nat) day, Sample.sampleDays !! i = Some day
    /\ highlightOf (Sample.day "2024-03-02" 1 40) = highlightOf day
    /\ (forall other, other ∈ Sample.sampleDays -> travelMinutes other <= 40).
Proof.
  destruct (travel_highlight_is_first_maximum Sample.sampleDays) as [_ Hsome].
  destruct (Hsome (highlightOf (Sample.day "2024-03-02" 1 40)) eq_refl)
    as (i & day & Hi & Hh & _ & Hall & _).
  exists i, day. split_and!; [exact Hi|exact Hh|exact Hall].
Defined.

Section Streaks.

Lemma roundDays_one (diff : Z) :
  roundDays diff = 1 <-> 43200000 <= diff < 129600000.
Proof.
  unfold roundDays, History.DAY_MS.
  change (24 * 60 * 60 * 1000 / 2) with 43200000. change (24 * 60 * 60 * 1000) with 86400000.
  pose proof (Z.div_mod (diff + 43200000) 86400000 ltac:(lia)).
  pose proof (Z.mod_pos_bound (diff + 43200000) 86400000 ltac:(lia)). lia.
Qed.

Lemma streakStep_inv (n : Z) (st : option StreakHighlight * option StreakHighlight) (day : DailyTotal) :
  0 <= n -> streakInv n st -> streakInv (n + 1) (streakStep st day).
Proof.
  intros Hn. destruct st as [[b|] [c|]]; simpl; try done.
  - intros (Hc & Hb).
    destruct (roundDays (date day - endDate c) =? 1); simpl.
    { destruct (Z.ltb_spec (length b) (length c + 1)); simpl; lia. }
    destruct (1 <? roundDays (date day - endDate c)); simpl.
    + destruct (Z.ltb_spec (length b) (length c)); simpl; [lia|].
      destruct (Z.ltb_spec (length b) 1); simpl; lia.
    + destruct (Z.ltb_spec (length b) (length c)); simpl; lia.
  - intros ->. simpl. lia.
Qed.

Lemma streakLoop_inv (days : list DailyTotal) (n : Z)
    (st : option StreakHighlight * option StreakHighlight) :
  0 <= n -> streakInv n st -> streakInv (n + Z.of_nat (List.length days)) (fold_left streakStep days st).
Proof.
  revert n st. induction days as [|day days IH]; intros n st Hn Hst.
  - simpl. by rewrite Z.add_0_r.
  - simpl fold_left. simpl List.length.
    replace (n + Z.of_nat (S (List.length days))) with ((n + 1) + Z.of_nat (List.length days)) by lia.
    apply IH; [lia|]. by apply streakStep_inv.
Qed.

Lemma streakStep_next (c : StreakHighlight) (day : DailyTotal) :
  roundDays (date day - endDate c) = 1 ->
  streakStep (Some c, Some c) day
  = (Some {| length := length c + 1; startDate := startDate c; endDate := date day |},
     Some {| length := length c + 1; startDate := startDate c; endDate := date day |}).
Proof.
  intros Hd. unfold streakStep. rewrite Hd. simpl.
  by rewrite (proj2 (Z.ltb_lt (length c) (length c + 1))) by lia.
Qed.

Lemma streakLoop_consecutive (rest : list DailyTotal) (c : StreakHighlight) :
  consecutive (endDate c) rest ->
  fold_left streakStep rest (Some c, Some c)
  = (Some {| length := length c + Z.of_nat (List.length rest); startDate := startDate c;
             endDate := default (endDate c) (date <$> last rest) |},
     Some {| length := length c + Z.of_nat (List.length rest); startDate := startDate c;
             endDate := default (endDate c) (date <$> last rest) |}).
Proof.
  revert c. induction rest as [|day rest IH]; intros c Hc.
  - simpl. rewrite Z.add_0_r. by destruct c.
  - destruct Hc as [Hday Hrest]. cbn [fold_left]. rewrite (streakStep_next c day Hday).
    rewrite IH by done. cbn [length startDate endDate List.length].
    replace (length c + 1 + Z.of_nat (List.length rest))
      with (length c + Z.of_nat (S (List.length rest))) by lia.
    destruct rest as [|day' rest]; [done|].
    change (last (day :: day' :: rest)) with (last (day' :: rest)).
    destruct (last (day' :: rest)) eqn:E; [done|]. by apply last_None in E.
Qed.

(** X27.  The longest streak of days with rides: [bestStreak] is none
    exactly when no day has a ride; its length is between one and the
    number of days with rides; and when each of these days comes a day
    after the one before, it spans them all, from the first to the last.
    Two days count as following one another when their instants are from
    twelve hours to less than thirty-six hours apart. *)
Theorem best_streak_bounds (dailyTotals : list DailyTotal) :
  (bestStreak dailyTotals = None <-> rideDays dailyTotals = [])
  /\ (forall best, bestStreak dailyTotals = Some best ->
        1 <= length best <= Z.of_nat (List.length (rideDays dailyTotals)))
  /\ (forall first rest, rideDays dailyTotals = first :: rest -> consecutive (date first) rest ->
        bestStreak dailyTotals
        = Some {| length := 1 + Z.of_nat (List.length rest); startDate := date first;
                  endDate := default (date first) (date <$> last rest) |})
  /\ (forall diff, roundDays diff = 1 <-> 43200000 <= diff < 129600000).
Proof.
  unfold bestStreak, streaks.
  pose proof (streakLoop_inv (rideDays dailyTotals) 0 (None, None) ltac:(lia) eq_refl) as Hinv.
  rewrite Z.add_0_l in Hinv.
  split_and!.
  - destruct (fold_left streakStep (rideDays dailyTotals) (None, None)) as [[b|] [c|]];
      simpl in *; try done.
    + split; [done|]. intros E. rewrite E in Hinv. simpl in Hinv. lia.
    + split; [|done]. intros _. by destruct (rideDays dailyTotals).
  - intros best Hbest.
    destruct (fold_left streakStep (rideDays dailyTotals) (None, None)) as [[b|] [c|]];
      simpl in *; try done. injection Hbest as ->. lia.
  - intros first rest -> Hrest. cbn [fold_left].
    change (streakStep (None, None) first) with (Some (oneDay first), Some (oneDay first)).
    by rewrite (streakLoop_consecutive rest (oneDay first) Hrest).
  - apply roundDays_one.
Qed.

End Streaks.

(** X27, an instance: the first two sample days follow one another and
    make a streak of two. *)
Lemma best_streak_bounds_witness :
  bestStreak (take 2 Sample.sampleDays)
  = Some {| length := 2; startDate := date (Sample.day "2024-03-01" 2 25);
            endDate := date (Sample.day "2024-03-02" 1 40) |}.
Proof.
  destruct (best_streak_bounds (take 2 Sample.sampleDays)) as (_ & _ & Hrun & _).
  apply (Hrun (Sample.day "2024-03-01" 2 25) [Sample.day "2024-03-02" 1 40]).
  - reflexivity.
  - split; [reflexivity|exact I].
Defined.

End AnnualFacts.

(** ** The sections of the history table *)

Module GroupingFacts.
Import History Grouping.

Section Groups.
Context `{Runtime} `{Calendar}.

Lemma filter_key_snoc (mode : GroupingMode) (seen : list TransactionRecord)
    (r : TransactionRecord) (k : string) :
  filter (fun x => keyOf mode x = k) (seen ++ [r])
  = filter (fun x => keyOf mode x = k) seen ++ (if decide (keyOf mode r = k) then [r] else []).
Proof.
  by rewrite filter_app.
Qed.

Lemma sectionOf_other (mode : GroupingMode) (seen : list TransactionRecord)
    (r : TransactionRecord) (s : TableGroupSection) :
  keyOf mode r <> key s -> sectionOf mode seen s -> sectionOf mode (seen ++ [r]) s.
Proof.
  intros Hne [Hrows Hlabel]. split; [|done].
  rewrite filter_key_snoc, decide_False by done. by rewrite app_nil_r.
Qed.

Lemma sectionOf_push (mode : GroupingMode) (seen : list TransactionRecord)
    (r : TransactionRecord) (s : TableGroupSection) :
  keyOf mode r = key s -> sectionOf mode seen s -> sectionOf mode (seen ++ [r]) (pushRow r s).
Proof.
  intros Hk [Hrows (r0 & Hhead & Hlabel)]. split; simpl.
  - rewrite filter_key_snoc, decide_True by done. by rewrite Hrows.
  - exists r0. split; [|done]. destruct (rows s); [done|]. by simpl in *.
Qed.

Lemma firstSeen_snoc (mode : GroupingMode) (seen : list TransactionRecord)
    (r : TransactionRecord) (order : list string) :
  firstSeen mode seen order -> firstSeen mode (seen ++ [r]) order.
Proof.
  intros Hf o1 k o2 Ho. destruct (Hf o1 k o2 Ho) as (pre & r0 & post & -> & Hk & Hpre).
  exists pre, r0, (post ++ [r]). split; [|done]. by rewrite <- app_assoc.
Qed.

Lemma groupStep_inv (mode : GroupingMode) (seen : list TransactionRecord)
    (st : gmap string TableGroupSection * list string) (r : TransactionRecord) :
  groupInv mode seen st -> groupInv mode (seen ++ [r]) (groupStep mode st r).
Proof.
  destruct st as [sections order]. intros (Hnd & Hdom & Hcover & Hsec & Hfirst).
  unfold groupInv, groupStep. simpl in *. remember (keyOf mode r) as k eqn:Hkdef.
  destruct (sections !! k) as [s|] eqn:Es; simpl.
  - split_and!.
    + done.
    + intros k'. rewrite lookup_alter_is_Some. apply Hdom.
    + intros r' [Hr'|Hr']%elem_of_app; [by apply Hcover|].
      apply list_elem_of_singleton in Hr' as ->. rewrite <- Hkdef. exact (proj2 (Hdom k) (mk_is_Some _ _ Es)).
    + intros k' s' Hs'. destruct (decide (k' = k)) as [->|Hne].
      * rewrite lookup_alter_eq, Es in Hs'. injection Hs' as <-.
        destruct (Hsec _ _ Es) as [Hk Hs]. split; [done|].
        apply sectionOf_push; [by rewrite <- Hkdef, Hk|done].
      * rewrite lookup_alter_ne in Hs' by done.
        destruct (Hsec _ _ Hs') as [Hk Hs]. split; [done|].
        apply sectionOf_other; [|done]. by rewrite <- Hkdef, Hk.
    + by apply firstSeen_snoc.
  - assert (k ∉ order) as Hk.
    { intros Hin. apply Hdom in Hin. rewrite Es in Hin. by destruct Hin. }
    rewrite alter_insert_eq. split_and!.
    + apply NoDup_app. split_and!; [done| |apply NoDup_singleton].
      intros x Hx ->%list_elem_of_singleton. done.
    + intros k'. rewrite lookup_insert_is_Some, elem_of_app, list_elem_of_singleton, Hdom.
      destruct (decide (k = k')) as [->|Hne]; [rewrite Es|]; naive_solver.
    + intros r' [Hr'|Hr']%elem_of_app; apply elem_of_app.
      * left. by apply Hcover.
      * right. apply list_elem_of_singleton in Hr' as ->. by apply list_elem_of_singleton.
    + intros k' s' Hs'. destruct (decide (k' = k)) as [->|Hne].
      * rewrite lookup_insert_eq in Hs'. injection Hs' as <-. split; [done|].
        split; simpl.
        -- rewrite filter_key_snoc, decide_True by done.
           assert (filter (fun x => keyOf mode x = k) seen = []) as ->; [|done].
           destruct (filter (fun x => keyOf mode x = k) seen) as [|x xs] eqn:Ef; [done|].
           assert (x ∈ filter (fun x => keyOf mode x = k) seen) as Hx by (rewrite Ef; by left).
           apply list_elem_of_filter in Hx as [Hkx Hx].
           destruct Hk. rewrite <- Hkx. by apply Hcover.
        -- by exists r.
      * rewrite lookup_insert_ne in Hs' by congruence.
        destruct (Hsec _ _ Hs') as [Hk' Hs]. split; [done|].
        apply sectionOf_other; [|done]. by rewrite <- Hkdef, Hk'.
    + intros o1 k' o2 Ho. destruct o2 as [|x o2 _] using rev_ind.
      * apply (app_inj_tail order o1 k k') in Ho as [-> ->].
        exists seen, r, []. split_and!; [done..|].
        apply Forall_forall. intros x Hx. by apply Hcover.
      * rewrite app_comm_cons, app_assoc in Ho.
        apply app_inj_tail in Ho as [-> ->].
        destruct (Hfirst o1 k' o2 eq_refl) as (pre & r0 & post & -> & Hk0 & Hpre).
        exists pre, r0, (post ++ [r]). split; [|done]. by rewrite <- app_assoc.
Qed.

Lemma groupLoop_inv (mode : GroupingMode) (l seen : list TransactionRecord)
    (st : gmap string TableGroupSection * list string) :
  groupInv mode seen st -> groupInv mode (seen ++ l) (fold_left (groupStep mode) l st).
Proof.
  revert seen st. induction l as [|r l IH]; intros seen st Hst; simpl.
  - by rewrite app_nil_r.
  - rewrite (cons_middle r), (assoc_L (++)). by apply IH, groupStep_inv.
Qed.

Lemma groupInv_start (mode : GroupingMode) : groupInv mode [] (∅, []).
Proof.
  split_and!; simpl.
  - constructor.
  - intros k. rewrite lookup_empty, elem_of_nil. split; [done|]. by intros [? ?].
  - intros r Hr. by apply elem_of_nil in Hr.
  - apply map_Forall_empty.
  - intros o1 k o2 Ho. by destruct o1.
Qed.

(** No key of [order] is without its section. *)
Lemma sections_of_order (sections : gmap string TableGroupSection) (order : list string) :
  (forall k, k ∈ order -> exists s, sections !! k = Some s /\ key s = k) ->
  key <$> omap (fun k => sections !! k) order = order.
Proof.
  induction order as [|k order IH]; intros Hall; simpl; [done|].
  destruct (Hall k) as (s & -> & Hk); [by left|]. simpl. rewrite Hk. f_equal.
  apply IH. intros k' Hk'. apply Hall. by right.
Qed.

Lemma month_in_year (a b : TransactionRecord) :
  keyOf mode_month a = keyOf mode_month b -> keyOf mode_year a = keyOf mode_year b.
Proof.
  unfold keyOf, getMonthKey, getYearKey. intros Heq.
  apply (ShapeFacts.pretty_Z_cut (Date_getFullYear (getRecordDate a))
           (Date_getFullYear (getRecordDate b))) in Heq as [-> _]. done.
Qed.


End Groups.


End GroupingFacts.

(** ** The months and the days of the yearly summary *)

Module TotalsFacts.
Import History Shape Operators Grouping Totals.

Section Maps.
Context {A : Type}.
Implicit Types (m : list (string * A)) (k : string) (v : A).

Lemma mapGet_Some k m v : mapGet k m = Some v -> (k, v) ∈ m.
Proof.
  induction m as [|[k' v'] m IH]; simpl; [done|].
  destruct (String.eqb k' k) eqn:E.
  - apply String.eqb_eq in E as ->. intros [= ->]. by left.
  - intros Hm. right. by apply IH.
Qed.

Lemma mapGet_None k m : mapGet k m = None -> k ∉ fst <$> m.
Proof.
  induction m as [|[k' v'] m IH]; simpl; [by intros _ ?%elem_of_nil|].
  destruct (String.eqb k' k) eqn:E; [done|].
  apply String.eqb_neq in E. intros Hm. apply not_elem_of_cons. split; [congruence|by apply IH].
Qed.

Lemma mapSet_keys k v m :
  fst <$> mapSet k v m
  = match mapGet k m with Some _ => fst <$> m | None => (fst <$> m) ++ [k] end.
Proof.
  induction m as [|[k' v'] m IH]; [done|]. cbn [mapSet mapGet].
  destruct (String.eqb k' k); [done|]. rewrite !fmap_cons, IH. by destruct (mapGet k m).
Qed.

Lemma mapSet_NoDup k v m : NoDup (fst <$> m) -> NoDup (fst <$> mapSet k v m).
Proof.
  intros Hnd. rewrite mapSet_keys. destruct (mapGet k m) eqn:E; [done|].
  apply NoDup_app. split_and!; [done| |apply NoDup_singleton].
  intros x Hx ->%list_elem_of_singleton. by apply mapGet_None in E.
Qed.

Lemma mapSet_key_in k v m : k ∈ fst <$> mapSet k v m.
Proof.
  rewrite mapSet_keys. destruct (mapGet k m) eqn:E.
  - apply list_elem_of_fmap. exists (k, a). split; [done|]. by apply mapGet_Some.
  - apply elem_of_app. right. by left.
Qed.

Lemma mapSet_keys_kept k v m k' : k' ∈ fst <$> m -> k' ∈ fst <$> mapSet k v m.
Proof.
  rewrite mapSet_keys. destruct (mapGet k m); [done|]. intros Hk. apply elem_of_app. by left.
Qed.

Lemma mapSet_elem k v m k' v' :
  NoDup (fst <$> m) -> (k', v') ∈ mapSet k v m ->
  (k' = k /\ v' = v) \/ (k' <> k /\ (k', v') ∈ m).
Proof.
  induction m as [|[k0 v0] m IH]; simpl.
  - intros _ [= -> ->]%list_elem_of_singleton. by left.
  - rewrite NoDup_cons. intros [Hk0 Hnd]. destruct (String.eqb k0 k) eqn:E.
    + apply String.eqb_eq in E as ->. intros [[= -> ->]|Hin]%elem_of_cons; [by left|].
      right. split; [|by right]. intros ->. apply Hk0, list_elem_of_fmap. by exists (k, v').
    + apply String.eqb_neq in E.
      intros [[= -> ->]|Hin]%elem_of_cons; [right; split; [done|by left]|].
      destruct (IH Hnd Hin) as [?|[? ?]]; [by left|]. right. split; [done|by right].
Qed.

Lemma mapSet_sum (f : A -> Z) k v m :
  sumZ (f <$> mapValues (mapSet k v m))
  = sumZ (f <$> mapValues m) + f v - match mapGet k m with Some old => f old | None => 0 end.
Proof.
  unfold mapValues, sumZ. induction m as [|[k' v'] m IH]; [simpl; lia|].
  cbn [mapSet mapGet]. destruct (String.eqb k' k); [simpl; lia|].
  rewrite !fmap_cons. cbn [foldr snd]. rewrite IH. lia.
Qed.

End Maps.

Lemma sumZ_perm (l l' : list Z) : l ≡ₚ l' -> sumZ l = sumZ l'.
Proof. unfold sumZ. induction 1; simpl; lia. Qed.

Lemma foldM_inv {A S : Type} (step : S -> A -> Outcome S) (Inv : list A -> S -> Prop) :
  (forall seen st a st', Inv seen st -> step st a = Returns st' -> Inv (seen ++ [a]) st') ->
  forall l seen st st', Inv seen st -> foldM step l st = Returns st' -> Inv (seen ++ l) st'.
Proof.
  intros Hstep. induction l as [|a l IH]; intros seen st st' Hinv; simpl.
  - intros [= <-]. by rewrite app_nil_r.
  - destruct (step st a) as [st1|] eqn:E; simpl; [|done].
    intros Hl. rewrite (cons_middle a), (assoc_L (++)). eapply IH; [|done]. by eapply Hstep.
Qed.

Section Sums.
Context `{Runtime} `{Calendar} `{Collation}.

Lemma addDayCounts_zero (a : Z * Z * Z) : addDayCounts a (0, 0, 0) = a.
Proof. destruct a as [[? ?] ?]. unfold addDayCounts. simpl. by rewrite !Z.add_0_r. Qed.

Lemma addDayCounts_assoc (a b c : Z * Z * Z) :
  addDayCounts a (addDayCounts b c) = addDayCounts (addDayCounts a b) c.
Proof. unfold addDayCounts. simpl. by rewrite !Z.add_assoc. Qed.

Lemma addDayCounts_comm (a b : Z * Z * Z) : addDayCounts a b = addDayCounts b a.
Proof. unfold addDayCounts. f_equal; [f_equal|]; lia. Qed.

Lemma countsOfDay_snoc (k : string) (seen : list JourneyBlock) (j : JourneyBlock) :
  countsOfDay k (seen ++ [j])
  = addDayCounts (countsOfDay k seen)
      (if String.eqb (getDayKey (getRecordDate (start j))) k then dayCounts j else (0, 0, 0)).
Proof.
  unfold countsOfDay. induction seen as [|a seen IH]; simpl.
  - destruct (String.eqb _ k); [|done]. apply addDayCounts_comm.
  - rewrite IH. destruct (String.eqb (getDayKey (getRecordDate (start a))) k); [|done].
    apply addDayCounts_assoc.
Qed.

Lemma countsOfMonth_snoc (k : string) (seen : list JourneyBlock) (j : JourneyBlock) :
  countsOfMonth k (seen ++ [j])
  = addDayCounts (countsOfMonth k seen)
      (if String.eqb (getMonthKey (getRecordDate (start j))) k then dayCounts j else (0, 0, 0)).
Proof.
  unfold countsOfMonth. induction seen as [|a seen IH]; simpl.
  - destruct (String.eqb _ k); [|done]. apply addDayCounts_comm.
  - rewrite IH. destruct (String.eqb (getMonthKey (getRecordDate (start a))) k); [|done].
    apply addDayCounts_assoc.
Qed.

Lemma totalOf_snoc (seen : list JourneyBlock) (j : JourneyBlock) :
  totalOf (seen ++ [j]) = addDayCounts (totalOf seen) (dayCounts j).
Proof.
  unfold totalOf. induction seen as [|a seen IH]; simpl.
  - apply addDayCounts_comm.
  - rewrite IH. apply addDayCounts_assoc.
Qed.

Lemma countsOfDay_absent (k : string) (seen : list JourneyBlock) :
  (forall j, j ∈ seen -> getDayKey (getRecordDate (start j)) <> k) ->
  countsOfDay k seen = (0, 0, 0).
Proof.
  unfold countsOfDay. induction seen as [|a seen IH]; intros Hall; simpl; [done|].
  destruct (String.eqb _ k) eqn:E.
  - apply String.eqb_eq in E. destruct (Hall a); [by left|done].
  - apply IH. intros j Hj. apply Hall. by right.
Qed.

Lemma countsOfMonth_absent (k : string) (seen : list JourneyBlock) :
  (forall j, j ∈ seen -> getMonthKey (getRecordDate (start j)) <> k) ->
  countsOfMonth k seen = (0, 0, 0).
Proof.
  unfold countsOfMonth. induction seen as [|a seen IH]; intros Hall; simpl; [done|].
  destruct (String.eqb _ k) eqn:E.
  - apply String.eqb_eq in E. destruct (Hall a); [by left|done].
  - apply IH. intros j Hj. apply Hall. by right.
Qed.

(** What a turn of the loop that comes to its end does to the two maps. *)
Lemma totalsStep_sets (mm : list (string * MonthlyInsight))
    (dm : list (string * Annual.DailyTotal)) (j : JourneyBlock) st' :
  totalsStep (mm, dm) j = Returns st' ->
  exists b' d',
    st' = (mapSet (getMonthKey (getRecordDate (start j))) b' mm,
           mapSet (getDayKey (getRecordDate (start j))) d' dm)
    /\ month_key b'
       = default (getMonthKey (getRecordDate (start j)))
           (month_key <$> mapGet (getMonthKey (getRecordDate (start j))) mm)
    /\ (month_rides b', month_recharges b')
       = (default 0 (month_rides <$> mapGet (getMonthKey (getRecordDate (start j))) mm)
            + fst (fst (dayCounts j)),
          default 0 (month_recharges <$> mapGet (getMonthKey (getRecordDate (start j))) mm)
            + snd (fst (dayCounts j)))
    /\ Annual.dayKey d'
       = default (getDayKey (getRecordDate (start j)))
           (Annual.dayKey <$> mapGet (getDayKey (getRecordDate (start j))) dm)
    /\ Annual.date d'
       = default (getRecordDate (start j))
           (Annual.date <$> mapGet (getDayKey (getRecordDate (start j))) dm)
    /\ (Annual.rides d', Annual.recharges d', Annual.travelMinutes d')
       = (default 0 (Annual.rides <$> mapGet (getDayKey (getRecordDate (start j))) dm)
            + fst (fst (dayCounts j)),
          default 0 (Annual.recharges <$> mapGet (getDayKey (getRecordDate (start j))) dm)
            + snd (fst (dayCounts j)),
          default 0 (Annual.travelMinutes <$> mapGet (getDayKey (getRecordDate (start j))) dm)
            + snd (dayCounts j)).
Proof.
  unfold totalsStep, dayCounts, isRide.
  destruct (mapGet (getMonthKey _) mm) as [b|], (mapGet (getDayKey _) dm) as [d|];
    destruct (jkind j) eqn:Ek; simpl;
    repeat match goal with
           | |- context [pairedBrands j] => destruct (pairedBrands j); simpl; [|done]
           | |- context [rideOperator j] => destruct (rideOperator j); simpl; [|done]
           end;
    intros [= <-]; eexists _, _; (split; [reflexivity|]); simpl;
    destruct (durationMinutes j); simpl; split_and!; try done; f_equal; try f_equal; lia.
Qed.

Lemma totalsStep_inv (seen : list JourneyBlock) st (j : JourneyBlock) st' :
  totalsInv seen st -> totalsStep st j = Returns st' -> totalsInv (seen ++ [j]) st'.
Proof.
  destruct st as [mm dm]. intros (Hndm & Hndd & Hm & Hd & Hcov & Hms & Hds) Hstep.
  apply totalsStep_sets in Hstep as (b' & d' & -> & Hbk & Hbc & Hdk & Hdd & Hdc).
  simpl in *.
  remember (getMonthKey (getRecordDate (start j))) as mk eqn:Emk.
  remember (getDayKey (getRecordDate (start j))) as dk eqn:Edk.
  assert (j ∈ seen ++ [j]) as Hj by (apply elem_of_app; right; by left).
  unfold totalsInv. simpl. split_and!.
  - by apply mapSet_NoDup.
  - by apply mapSet_NoDup.
  - intros k m [[-> ->]|[Hne Hin]]%mapSet_elem; [| |done].
    + destruct (mapGet mk mm) as [old|] eqn:Eg; simpl in *.
      * apply mapGet_Some in Eg. destruct (Hm _ _ Eg) as (Hk & _ & Hc).
        split; [by rewrite Hbk|]. split.
        -- exists j. split; [done|]. by rewrite Hbk, Hk, <- Emk.
        -- rewrite Hbk, Hk, countsOfMonth_snoc, <- Emk, String.eqb_refl.
           rewrite Hk in Hc. rewrite Hbc.
           destruct (countsOfMonth mk seen) as [[c1 c2] c3]. simpl in Hc.
           injection Hc as -> ->. done.
      * split; [done|]. split.
        -- exists j. split; [done|]. by rewrite Hbk, <- Emk.
        -- rewrite Hbk, countsOfMonth_snoc, <- Emk, String.eqb_refl.
           rewrite countsOfMonth_absent.
           2: { intros j' Hj' E. apply mapGet_None in Eg. apply Eg.
                rewrite <- E. by apply Hcov. }
           rewrite Hbc. unfold addDayCounts. done.
    + destruct (Hm _ _ Hin) as (Hk & (j' & Hj' & Ej') & Hc). split; [done|]. split.
      * exists j'. split; [|done]. apply elem_of_app. by left.
      * rewrite countsOfMonth_snoc, <- Emk, Hk.
        destruct (String.eqb mk k) eqn:E; [by apply String.eqb_eq in E|].
        rewrite addDayCounts_zero. by rewrite Hk in Hc.
  - intros k d [[-> ->]|[Hne Hin]]%mapSet_elem; [| |done].
    + destruct (mapGet dk dm) as [old|] eqn:Eg; simpl in *.
      * apply mapGet_Some in Eg.
        destruct (Hd _ _ Eg) as (Hk & (pre & j0 & post & -> & Hk0 & Hd0 & Hpre) & Hc).
        split; [by rewrite Hdk|]. split.
        -- exists pre, j0, (post ++ [j]). rewrite Hdk, Hdd.
           split_and!; [by rewrite <- app_assoc|done..].
        -- rewrite Hdk, Hk, countsOfDay_snoc, <- Edk, String.eqb_refl.
           rewrite Hk in Hc. rewrite Hdc, <- Hc. unfold addDayCounts. done.
      * split; [done|]. split.
        -- exists seen, j, []. rewrite Hdk, Hdd. split_and!; [done|by rewrite <- Edk|done|].
           apply Forall_forall. intros x Hx E. apply mapGet_None in Eg. apply Eg.
           rewrite <- E. by apply Hcov.
        -- rewrite Hdk, countsOfDay_snoc, <- Edk, String.eqb_refl.
           rewrite countsOfDay_absent.
           2: { intros j' Hj' E. apply mapGet_None in Eg. apply Eg.
                rewrite <- E. by apply Hcov. }
           rewrite Hdc. unfold addDayCounts. done.
    + destruct (Hd _ _ Hin) as (Hk & (pre & j0 & post & -> & Hk0 & Hd0 & Hpre) & Hc).
      split; [done|]. split.
      * exists pre, j0, (post ++ [j]). split_and!; [by rewrite <- app_assoc|done..].
      * rewrite countsOfDay_snoc, <- Edk, Hk.
        destruct (String.eqb dk k) eqn:E; [by apply String.eqb_eq in E|].
        rewrite addDayCounts_zero. by rewrite Hk in Hc.
  - intros j' [Hj'|Hj']%elem_of_app.
    + destruct (Hcov j' Hj'). split; by apply mapSet_keys_kept.
    + apply list_elem_of_singleton in Hj' as ->.
      rewrite <- Emk, <- Edk. split; apply mapSet_key_in.
  - unfold monthSums in *. rewrite !mapSet_sum, totalOf_snoc.
    destruct (totalOf seen) as [[t1 t2] t3]. simpl in Hms.
    injection Hms as -> ->. injection Hbc as -> ->.
    destruct (mapGet mk mm); unfold addDayCounts; simpl; apply (f_equal2 pair); lia.
  - unfold daySums in *. rewrite !mapSet_sum, totalOf_snoc.
    destruct (totalOf seen) as [[t1 t2] t3].
    injection Hds as -> -> ->. injection Hdc as -> -> ->.
    destruct (mapGet dk dm); unfold addDayCounts; simpl;
      (apply (f_equal2 pair); [apply (f_equal2 pair)|]); lia.
Qed.

Lemma totalsInv_start : totalsInv [] ([], []).
Proof.
  unfold totalsInv. simpl. split_and!; [constructor..| | | |done|done].
  - by intros ? ? ?%elem_of_nil.
  - by intros ? ? ?%elem_of_nil.
  - by intros ? ?%elem_of_nil.
Qed.

(** The counts of the days against those of [computeJourneyStats]. *)
Lemma totalOf_counts ins (js : list JourneyBlock) :
  Forall journeyShape js ->
  exists r w t m, totalCounts ins js = (r, w, t, m) /\ totalOf js = (r, w + t, m).
Proof.
  induction 1 as [|j js Hj _ (r & w & t & m & IH & IH')].
  { by exists 0, 0, 0, 0. }
  unfold totalOf in *. simpl. rewrite IH, IH'.
  unfold countsOf, dayCounts, isRide, journeyShape, addDayCounts in *.
  destruct (jkind j) eqn:Ek; simpl.
  - destruct Hj as (exit & d & _ & _ & -> & Hd & _). simpl.
    eexists _, _, _, _. split; [reflexivity|]. (apply (f_equal2 pair); [apply (f_equal2 pair)|]); lia.
  - destruct Hj as (_ & -> & _). simpl.
    eexists _, _, _, _. split; [reflexivity|]. (apply (f_equal2 pair); [apply (f_equal2 pair)|]); lia.
  - destruct (ins !! _) as [[[] ? ? ? ? ?]|]; simpl;
      eexists _, _, _, _; (split; [reflexivity|]); (apply (f_equal2 pair); [apply (f_equal2 pair)|]); lia.
  - eexists _, _, _, _. split; [reflexivity|]. (apply (f_equal2 pair); [apply (f_equal2 pair)|]); lia.
Qed.

Lemma newest_first_split (rs : list TransactionRecord) (pre post : list JourneyBlock)
    (j j' : JourneyBlock) :
  buildJourneyBlocks rs = pre ++ j :: post -> j' ∈ post ->
  getRecordDate (start j') <= getRecordDate (start j).
Proof.
  intros Hsplit [i Hi]%list_elem_of_lookup. unfold buildJourneyBlocks in Hsplit.
  assert (forall a b, startNotBefore a b = false -> startNotBefore b a = true) as Htotal.
  { unfold startNotBefore. intros. HistoryFacts.zbool; lia. }
  assert (forall a b c, startNotBefore a b = true -> startNotBefore b c = true ->
                        startNotBefore a c = true) as Htrans.
  { unfold startNotBefore. intros. HistoryFacts.zbool; lia. }
  assert (startNotBefore j j' = true) as Hab.
  { apply (stableSort_lookup startNotBefore Htotal Htrans (pairJourneys (sortByDate rs))
             (length pre) (length pre + S i)%nat); [lia|..]; rewrite Hsplit.
    - by apply list_lookup_middle.
    - rewrite lookup_app_r by lia.
      by replace (length pre + S i - length pre)%nat with (S i) by lia. }
  unfold startNotBefore in Hab. lia.
Qed.


End Sums.


End TotalsFacts.
